(** * bestdiff: unified diff model and visual-alignment engine

    A shallow embedding of the pure core of the repository:
    - [shared/diff/normalize.ts]  ([normalizeLineEndings]),
    - [shared/diff/model.ts]      (the [DiffLine]/[DiffHunk]/[DiffFile] records),
    - [shared/diff/parse.ts]      ([ensureStatus], [parseUnifiedDiff]),
    - [mainview/components/SideBySideDiff.tsx], in its two variants:
      the analytical one ([buildVisualRows], the running offsets and
      [computeOffsets]) and the layout-measured one ([buildColumns]),
      together with [buildInlineDiff], which both variants share verbatim.

    Modelling conventions.
    - A JavaScript string is a [string]: a sequence of 8-bit code units.
      The line terminators U+2028/U+2029 and the non-Latin-1 white space
      that [trim] also strips are outside this alphabet.
    - A JavaScript number that holds a line number, a count or an index is
      a [Z] (or a [nat] where the source keeps it a non-negative index);
      the loss of precision of doubles above 2^53 is not modelled.  The
      scroll position, a pixel quantity that may be fractional, is a [Q].
    - An optional field ([oldLineNumber?], [string | null]) is an [option].
    - Arrays that the source grows with [push] are lists grown at the end. *)

From Stdlib Require Import String Ascii List ZArith Lia Bool Arith QArith Qround Qminmax.
From Stdlib Require Import DecimalString DecimalZ DecimalPos Lqa.
Import ListNotations.

Close Scope Q_scope.

(* ================================================================== *)
(** * Strings *)
(* ================================================================== *)

Module Str.

Local Open Scope string_scope.

(** [s.startsWith(p)] *)
Definition startsWith (s p : string) : bool := String.prefix p s.

(** [s.slice(n)] for a constant [n >= 0]. *)
Fixpoint sliceFrom (n : nat) (s : string) : string :=
  match n, s with
  | O, _ => s
  | S n', String _ s' => sliceFrom n' s'
  | S _, EmptyString => EmptyString
  end.

(** [s.slice(a, b)] for [0 <= a] and [0 <= b]: the code units at the
    positions [a <= i < b]. *)
Definition slice (a b : nat) (s : string) : string := substring a (b - a) s.

(** [s[i] === t[j]] on code units ([undefined] when out of range). *)
Definition sameUnit (x y : option ascii) : bool :=
  match x, y with
  | Some a, Some b => Ascii.eqb a b
  | None, None => true
  | _, _ => false
  end.

Definition LF : ascii := "010"%char.
Definition CR : ascii := "013"%char.

(** White space stripped by [String.prototype.trim], within Latin-1:
    TAB, LF, VT, FF, CR, SPACE and NBSP. *)
Definition isTrimSpace (c : ascii) : bool :=
  let n := nat_of_ascii c in
  (((9 <=? n) && (n <=? 13)) || (n =? 32) || (n =? 160))%nat.

Fixpoint trimStart (s : string) : string :=
  match s with
  | String c s' => if isTrimSpace c then trimStart s' else s
  | EmptyString => EmptyString
  end.

Fixpoint trimEnd (s : string) : string :=
  match s with
  | EmptyString => EmptyString
  | String c s' =>
      match trimEnd s' with
      | EmptyString => if isTrimSpace c then EmptyString else String c EmptyString
      | t => String c t
      end
  end.

(** [s.trim()] *)
Definition trim (s : string) : string := trimEnd (trimStart s).

(** [s.split("\n")]; the current line is accumulated in [cur]. *)
Fixpoint splitLF (cur : string) (s : string) : list string :=
  match s with
  | EmptyString => [cur]
  | String c s' =>
      if Ascii.eqb c LF then cur :: splitLF EmptyString s'
      else splitLF (cur ++ String c EmptyString) s'
  end.

Definition split_lines (s : string) : list string := splitLF EmptyString s.

(** Decimal rendering of a number inside a template string. *)
Definition dec (z : Z) : string := NilZero.string_of_int (Z.to_int z).

Definition isDigit (c : ascii) : bool :=
  let n := nat_of_ascii c in ((48 <=? n) && (n <=? 57))%nat.

Definition digitVal (c : ascii) : Z := Z.of_nat (nat_of_ascii c) - 48.

(** The characters matched by [.] in a regular expression without the
    [s] flag: everything but the line terminators. *)
Definition isDot (c : ascii) : bool :=
  negb (Ascii.eqb c LF || Ascii.eqb c CR).

Fixpoint allDot (s : string) : bool :=
  match s with
  | EmptyString => true
  | String c s' => isDot c && allDot s'
  end.

(** No carriage return occurs in the string. *)
Fixpoint noCR (s : string) : bool :=
  match s with
  | EmptyString => true
  | String c s' => negb (Ascii.eqb c CR) && noCR s'
  end.

End Str.

(* ================================================================== *)
(** * Arrays *)
(* ================================================================== *)

Module Arr.

(** [f] applied to the last element of a list: the update of an object
    that is also reachable as the last element of an array. *)
Fixpoint updLast {A} (f : A -> A) (l : list A) : list A :=
  match l with
  | [] => []
  | [x] => [f x]
  | x :: l' => x :: updLast f l'
  end.

(** [arr[arr.length - 1]], [undefined] on the empty array. *)
Fixpoint lastOf {A} (l : list A) : option A :=
  match l with
  | [] => None
  | [x] => Some x
  | _ :: l' => lastOf l'
  end.

End Arr.

(* ================================================================== *)
(** * Inline change differ ([buildInlineDiff], identical in both variants) *)
(* ================================================================== *)

Module Inline.

Import Str.
Local Open Scope string_scope.

Record InlineDiff := mkInline
  { before : string; changed : string; after : string }.

Record InlinePair := mkPair { old : InlineDiff; next : InlineDiff }.

(** The first [while] loop.  Each turn increases [prefix], which stays
    below [oldText.length], so [oldText.length] turns of fuel are never
    used up before the loop condition fails. *)
Fixpoint prefixLoop (fuel : nat) (oldText newText : string) (prefix : nat) : nat :=
  match fuel with
  | O => prefix
  | S fuel' =>
      if (prefix <? String.length oldText)%nat && (prefix <? String.length newText)%nat
         && sameUnit (get prefix oldText) (get prefix newText)
      then prefixLoop fuel' oldText newText (prefix + 1)
      else prefix
  end.

(** The second [while] loop, bounded by what the prefix left over. *)
Fixpoint suffixLoop (fuel : nat) (oldText newText : string) (prefix suffix : nat) : nat :=
  match fuel with
  | O => suffix
  | S fuel' =>
      if (suffix <? String.length oldText - prefix)%nat
         && (suffix <? String.length newText - prefix)%nat
         && sameUnit (get (String.length oldText - 1 - suffix) oldText)
                     (get (String.length newText - 1 - suffix) newText)
      then suffixLoop fuel' oldText newText prefix (suffix + 1)
      else suffix
  end.

Definition isEmpty (s : string) : bool :=
  match s with EmptyString => true | _ => false end.

Definition buildInlineDiff (oldText newText : string) : InlinePair :=
  if isEmpty oldText && isEmpty newText then
    {| old := mkInline "" "" ""; next := mkInline "" "" "" |}
  else
    let oldLength := String.length oldText in
    let newLength := String.length newText in
    let prefix := prefixLoop oldLength oldText newText 0 in
    let suffix := suffixLoop oldLength oldText newText prefix 0 in
    {| old := {| before := slice 0 prefix oldText;
                 changed := slice prefix (oldLength - suffix) oldText;
                 after := sliceFrom (oldLength - suffix) oldText |};
       next := {| before := slice 0 prefix newText;
                  changed := slice prefix (newLength - suffix) newText;
                  after := sliceFrom (newLength - suffix) newText |} |}.

End Inline.

(* ================================================================== *)
(** * The diff model ([shared/diff/model.ts]) *)
(* ================================================================== *)

Module Model.

Inductive DiffFileStatus := StAdded | StModified | StDeleted.

Inductive DiffLineType := LContext | LAdded | LRemoved.

Record DiffLine := mkLine
  { type : DiffLineType;
    content : string;
    oldLineNumber : option Z;
    newLineNumber : option Z }.

Record DiffHunk := mkHunk
  { header : string;
    oldStart : Z;
    oldLines : Z;
    newStart : Z;
    newLines : Z;
    lines : list DiffLine }.

Record DiffFile := mkFile
  { oldPath : option string;
    newPath : option string;
    status : DiffFileStatus;
    hunks : list DiffHunk }.

Record DiffParseResult := mkResult { files : list DiffFile }.

End Model.

(* ================================================================== *)
(** * Line endings ([shared/diff/normalize.ts]) *)
(* ================================================================== *)

Module Normalize.

Import Str.

(** [input.replace(/\r\n?/g, "\n")]: scanning from the left, a CR
    together with the LF that follows it, if any, becomes one LF. *)
Fixpoint normalizeLineEndings (input : string) : string :=
  match input with
  | EmptyString => EmptyString
  | String c rest =>
      if Ascii.eqb c CR then
        String LF
          match rest with
          | String d rest' =>
              if Ascii.eqb d LF then normalizeLineEndings rest'
              else normalizeLineEndings rest
          | EmptyString => EmptyString
          end
      else String c (normalizeLineEndings rest)
  end.

End Normalize.

(* ================================================================== *)
(** * The unified diff parser ([shared/diff/parse.ts]) *)
(* ================================================================== *)

Module Parse.

Import Str Arr Model Normalize.
Local Open Scope string_scope.

(** [s] without the leading [p], when [s] starts with [p]. *)
Fixpoint stripPrefix (p s : string) : option string :=
  match p, s with
  | EmptyString, _ => Some s
  | String a p', String b s' =>
      if Ascii.eqb a b then stripPrefix p' s' else None
  | String _ _, EmptyString => None
  end.

(** The tail [ b\/(.+)$] of [DIFF_HEADER], tried at the current
    position after the lazy group [(.+?)] has taken [taken]; the lazy
    group grows by one character each time the tail fails. *)
Fixpoint lazyPaths (taken : string) (s : string) : option (string * string) :=
  match s with
  | EmptyString => None
  | String c s' =>
      match
        (if Inline.isEmpty taken then None else
         match stripPrefix " b/" s with
         | Some q => if negb (Inline.isEmpty q) && allDot q then Some (taken, q) else None
         | None => None
         end)
      with
      | Some r => Some r
      | None => if isDot c then lazyPaths (taken ++ String c EmptyString) s' else None
      end
  end.

(** [DIFF_HEADER.exec(line)], with [DIFF_HEADER =
    /^diff --git a\/(.+?) b\/(.+)$/]: the two captured groups. *)
Definition matchDiffHeader (line : string) : option (string * string) :=
  match stripPrefix "diff --git a/" line with
  | Some rest => lazyPaths "" rest
  | None => None
  end.

(** The longest run of decimal digits at the head of [s], and the rest. *)
Fixpoint takeDigits (s : string) : string * string :=
  match s with
  | String c s' =>
      if isDigit c then let (ds, r) := takeDigits s' in (String c ds, r)
      else (EmptyString, s)
  | EmptyString => (EmptyString, EmptyString)
  end.

Fixpoint numberFrom (acc : Z) (ds : string) : Z :=
  match ds with
  | String c ds' => numberFrom (10 * acc + digitVal c) ds'
  | EmptyString => acc
  end.

(** [Number(ds)] for a non-empty string of decimal digits. *)
Definition Number (ds : string) : Z := numberFrom 0 ds.

(** The optional group [(?:,(\d+))?]. *)
Definition optCount (s : string) : option Z * string :=
  match s with
  | String c s' =>
      if Ascii.eqb c ","%char then
        let (ds, r) := takeDigits s' in
        if Inline.isEmpty ds then (None, s) else (Some (Number ds), r)
      else (None, s)
  | EmptyString => (None, s)
  end.

Definition orOne (c : option Z) : Z :=
  match c with Some z => z | None => 1 end.

(** [HUNK_HEADER.exec(line)], with [HUNK_HEADER =
    /^@@ -(\d+)(?:,(\d+))? \+(\d+)(?:,(\d+))? @@/], already converted:
    [(oldStart, oldLines, newStart, newLines)].  Each greedy run of
    digits is followed by a character that is not a digit, so no shorter
    run can make the rest of the pattern match. *)
Definition matchHunkHeader (line : string) : option (Z * Z * Z * Z) :=
  match stripPrefix "@@ -" line with
  | None => None
  | Some r1 =>
      let (d1, r2) := takeDigits r1 in
      if Inline.isEmpty d1 then None else
      let (c1, r3) := optCount r2 in
      match stripPrefix " +" r3 with
      | None => None
      | Some r4 =>
          let (d3, r5) := takeDigits r4 in
          if Inline.isEmpty d3 then None else
          let (c2, r6) := optCount r5 in
          if startsWith r6 " @@"
          then Some (Number d1, orOne c1, Number d3, orOne c2)
          else None
      end
  end.

(** [!file.status]: none of the three status strings is empty. *)
Definition statusUnset (s : DiffFileStatus) : bool := false.

Definition isNull {A} (o : option A) : bool :=
  match o with None => true | Some _ => false end.

Definition setStatus (s : DiffFileStatus) (f : DiffFile) : DiffFile :=
  mkFile (oldPath f) (newPath f) s (hunks f).

Definition setOldPath (p : option string) (f : DiffFile) : DiffFile :=
  mkFile p (newPath f) (status f) (hunks f).

Definition setNewPath (p : option string) (f : DiffFile) : DiffFile :=
  mkFile (oldPath f) p (status f) (hunks f).

Definition ensureStatus (file : DiffFile) : DiffFile :=
  if isNull (oldPath file) && negb (isNull (newPath file)) then
    setStatus StAdded file
  else if isNull (newPath file) && negb (isNull (oldPath file)) then
    setStatus StDeleted file
  else if statusUnset (status file) then setStatus StModified file
  else file.

Definition pushHunk (h : DiffHunk) (f : DiffFile) : DiffFile :=
  mkFile (oldPath f) (newPath f) (status f) (hunks f ++ [h]).

Definition pushLine (l : DiffLine) (h : DiffHunk) : DiffHunk :=
  mkHunk (header h) (oldStart h) (oldLines h) (newStart h) (newLines h)
         (lines h ++ [l]).

Definition updHunks (g : list DiffHunk -> list DiffHunk) (f : DiffFile) : DiffFile :=
  mkFile (oldPath f) (newPath f) (status f) (g (hunks f)).

(** The variables of the loop of [parseUnifiedDiff].  [currentFile] is
    the last element of [files] ([null] while [files] is empty);
    [currentHunk], when [hasHunk] holds, is the last hunk of that file
    ([null] otherwise). *)
Record PState := mkP
  { pfiles : list DiffFile;
    hasHunk : bool;
    oldLine : Z;
    newLine : Z }.

Definition onCurrentFile (g : DiffFile -> DiffFile) (st : PState) : PState :=
  mkP (updLast g (pfiles st)) (hasHunk st) (oldLine st) (newLine st).

Definition onCurrentHunk (g : DiffHunk -> DiffHunk) (st : PState) : PState :=
  onCurrentFile (updHunks (updLast g)) st.

(** [path === "/dev/null" ? null : path.replace(/^a\//, "")] *)
Definition pathOf (strip : string) (path : string) : option string :=
  if String.eqb path "/dev/null" then None
  else match stripPrefix strip path with
       | Some p => Some p
       | None => Some path
       end.

(** One turn of the [for (const line of lines)] loop. *)
Definition parseLine (st : PState) (line : string) : PState :=
  match matchDiffHeader line with
  | Some (a, b) =>
      mkP (updLast ensureStatus (pfiles st)
             ++ [mkFile (Some a) (Some b) StModified []])
          false (oldLine st) (newLine st)
  | None =>
      match pfiles st with
      | [] => st
      | _ :: _ =>
          if startsWith line "new file mode" then
            onCurrentFile (setStatus StAdded) st
          else if startsWith line "deleted file mode" then
            onCurrentFile (setStatus StDeleted) st
          else if startsWith line "--- " then
            onCurrentFile (setOldPath (pathOf "a/" (trim (sliceFrom 4 line)))) st
          else if startsWith line "+++ " then
            onCurrentFile (setNewPath (pathOf "b/" (trim (sliceFrom 4 line)))) st
          else
            match matchHunkHeader line with
            | Some (oStart, oLines, nStart, nLines) =>
                mkP (updLast (pushHunk (mkHunk line oStart oLines nStart nLines []))
                             (pfiles st))
                    true oStart nStart
            | None =>
                if negb (hasHunk st) then st
                else if startsWith line "\ No newline at end of file" then st
                else if startsWith line "+" then
                  if startsWith line "+++" then st
                  else
                    let diffLine := mkLine LAdded (sliceFrom 1 line) None (Some (newLine st)) in
                    mkP (pfiles (onCurrentHunk (pushLine diffLine) st))
                        true (oldLine st) (newLine st + 1)
                else if startsWith line "-" then
                  if startsWith line "---" then st
                  else
                    let diffLine := mkLine LRemoved (sliceFrom 1 line) (Some (oldLine st)) None in
                    mkP (pfiles (onCurrentHunk (pushLine diffLine) st))
                        true (oldLine st + 1) (newLine st)
                else if startsWith line " " then
                  let diffLine :=
                    mkLine LContext (sliceFrom 1 line)
                           (Some (oldLine st)) (Some (newLine st)) in
                  mkP (pfiles (onCurrentHunk (pushLine diffLine) st))
                      true (oldLine st + 1) (newLine st + 1)
                else st
            end
      end
  end.

Definition initial : PState := mkP [] false 0 0.

Definition parseLines (ls : list string) : PState := fold_left parseLine ls initial.

Definition parseUnifiedDiff (rawDiff : string) : DiffParseResult :=
  let lines := split_lines (normalizeLineEndings rawDiff) in
  mkResult (map ensureStatus (pfiles (parseLines lines))).

End Parse.

(* ================================================================== *)
(** * What the two variants of [SideBySideDiff.tsx] share *)
(* ================================================================== *)

Module Rows.

Import Str Arr Model.
Local Open Scope string_scope.

Inductive LeftKind := LKContext | LKRemoved | LKChange.
Inductive RightKind := RKContext | RKAdded | RKChange.

(** [ConnectorMeta], a union tagged by [type]. *)
Inductive ConnectorMeta :=
| ConnChange (startRowId endRowId : string)
| ConnAdded (startRowId endRowId : string) (anchorOldLine : option Z)
| ConnRemoved (startRowId endRowId : string) (anchorNewLine : option Z).

Definition startRowId (c : ConnectorMeta) : string :=
  match c with
  | ConnChange s _ | ConnAdded s _ _ | ConnRemoved s _ _ => s
  end.

Definition endRowId (c : ConnectorMeta) : string :=
  match c with
  | ConnChange _ e | ConnAdded _ e _ | ConnRemoved _ e _ => e
  end.

(** [last.endRowId = e] *)
Definition setEndRowId (e : string) (c : ConnectorMeta) : ConnectorMeta :=
  match c with
  | ConnChange s _ => ConnChange s e
  | ConnAdded s _ a => ConnAdded s e a
  | ConnRemoved s _ a => ConnRemoved s e a
  end.

(** The row identifiers, as the template strings build them. *)
Definition natDec (n : nat) : string := dec (Z.of_nat n).
Definition contextFullId (o n : Z) : string := "context-full-" ++ dec o ++ "-" ++ dec n.
Definition removedFullId (o : Z) : string := "removed-full-" ++ dec o.
Definition addedFullId (n : Z) : string := "added-full-" ++ dec n.
Definition contextId (hunkIndex i : nat) : string :=
  "context-" ++ natDec hunkIndex ++ "-" ++ natDec i.
Definition changeId (hunkIndex i : nat) : string :=
  "change-" ++ natDec hunkIndex ++ "-" ++ natDec i.
Definition removedId (hunkIndex i : nat) : string :=
  "removed-" ++ natDec hunkIndex ++ "-" ++ natDec i.
Definition addedId (hunkIndex i : nat) : string :=
  "added-" ++ natDec hunkIndex ++ "-" ++ natDec i.

(** [n || null] *)
Definition orNull (n : Z) : option Z := if (n =? 0)%Z then None else Some n.

(** [x ?? d] *)
Definition orElse (x : option Z) (d : Z) : Z :=
  match x with Some z => z | None => d end.

(** [lines[z] ?? ""] *)
Definition lineAt (lines : list string) (z : Z) : string :=
  if (z <? 0)%Z then "" else nth (Z.to_nat z) lines "".

(** [lines ?? []] *)
Definition orEmpty (lines : option (list string)) : list string :=
  match lines with Some l => l | None => [] end.

(** [Boolean(oldFileLines?.length || newFileLines?.length)] *)
Definition truthyLength (lines : option (list string)) : bool :=
  match lines with
  | Some (_ :: _) => true
  | Some [] => false
  | None => false
  end.

Definition hasFullFiles (oldFileLines newFileLines : option (list string)) : bool :=
  truthyLength oldFileLines || truthyLength newFileLines.

(** A [Map<string, number>]. *)
Definition IndexMap := string -> option nat.

Definition emptyMap : IndexMap := fun _ => None.

(** [m.set(k, v)] *)
Definition mapSet (m : IndexMap) (k : string) (v : nat) : IndexMap :=
  fun k' => if String.eqb k' k then Some v else m k'.

(** [ids.forEach((id, index) => m.set(id, index))], from [index]. *)
Fixpoint indexFrom (index : nat) (ids : list string) (m : IndexMap) : IndexMap :=
  match ids with
  | [] => m
  | id :: rest => indexFrom (S index) rest (mapSet m id index)
  end.

Definition indexOf (ids : list string) : IndexMap := indexFrom 0 ids emptyMap.

(** [m.get(k) ?? -1] *)
Definition getOr (m : IndexMap) (k : string) : Z :=
  match m k with Some i => Z.of_nat i | None => (-1)%Z end.

Definition sameAnchor (a b : option Z) : bool :=
  match a, b with
  | Some x, Some y => (x =? y)%Z
  | None, None => true
  | _, _ => false
  end.

(** The three tests of the grouping loop that end in
    [last.endRowId = connector.endRowId; continue]. *)
Definition merges (isConsecutive : bool) (connector last : ConnectorMeta) : bool :=
  match connector, last with
  | ConnChange _ _, ConnChange _ _ => isConsecutive
  | ConnAdded _ _ a, ConnAdded _ _ a' => isConsecutive && sameAnchor a a'
  | ConnRemoved _ _ a, ConnRemoved _ _ a' => isConsecutive && sameAnchor a a'
  | _, _ => false
  end.

(** One turn of [for (const connector of connectors)].  [indexMap]
    says which index table the turn consults for [connector] and
    [last]. *)
Definition groupTurn (indexMap : ConnectorMeta -> ConnectorMeta -> IndexMap)
           (grouped : list ConnectorMeta) (connector : ConnectorMeta)
  : list ConnectorMeta :=
  match lastOf grouped with
  | None => grouped ++ [connector]
  | Some last =>
      let m := indexMap connector last in
      let lastIndex := getOr m (endRowId last) in
      let currentIndex := getOr m (startRowId connector) in
      let isConsecutive := (currentIndex =? lastIndex + 1)%Z in
      if merges isConsecutive connector last
      then updLast (setEndRowId (endRowId connector)) grouped
      else grouped ++ [connector]
  end%list.

Definition groupConnectors (indexMap : ConnectorMeta -> ConnectorMeta -> IndexMap)
           (connectors : list ConnectorMeta) : list ConnectorMeta :=
  fold_left (groupTurn indexMap) connectors [].

End Rows.

(* ================================================================== *)
(** * The analytical variant: [buildVisualRows] and the scroll tables *)
(* ================================================================== *)

Module Analytical.

Import Str Arr Model Rows.
Local Open Scope string_scope.
Local Open Scope list_scope.
Local Open Scope Z_scope.

Inductive LeftCell :=
| LCell (kind : LeftKind) (line : DiffLine)
| LSpacer.

Inductive RightCell :=
| RCell (kind : RightKind) (line : DiffLine) (anchorOldLine : option Z)
| RSpacer.

Record VisualRow := mkRow
  { rowId : string; left : LeftCell; right : RightCell }.

(** The arrays and counters that the closures of [buildVisualRows]
    share. *)
Record BState := mkB
  { rows : list VisualRow;
    connectors : list ConnectorMeta;
    lastOldLine : Z;
    lastNewLine : Z }.

Definition pushContextRow (st : BState) (rowId content : string)
           (oldLineNumber newLineNumber : Z) : BState :=
  let line := mkLine LContext content (Some oldLineNumber) (Some newLineNumber) in
  mkB (rows st ++ [mkRow rowId (LCell LKContext line) (RCell RKContext line None)])
      (connectors st) oldLineNumber newLineNumber.

Definition pushRemovedRow (st : BState) (rowId content : string)
           (oldLineNumber : Z) : BState :=
  let line := mkLine LRemoved content (Some oldLineNumber) None in
  mkB (rows st ++ [mkRow rowId (LCell LKRemoved line) RSpacer])
      (connectors st ++ [ConnRemoved rowId rowId (orNull (lastNewLine st))])
      oldLineNumber (lastNewLine st).

Definition pushAddedRow (st : BState) (rowId content : string)
           (newLineNumber : Z) : BState :=
  let line := mkLine LAdded content None (Some newLineNumber) in
  mkB (rows st ++ [mkRow rowId LSpacer (RCell RKAdded line (orNull (lastOldLine st)))])
      (connectors st ++ [ConnAdded rowId rowId (orNull (lastOldLine st))])
      (lastOldLine st) newLineNumber.

(** One turn of the [for] loop of [pushGapLines]. *)
Definition gapTurn (safeOldLines safeNewLines : list string)
           (oldStart newStart oldCount newCount : Z)
           (st : BState) (offset : nat) : BState :=
  let oldLineNumber := oldStart + Z.of_nat offset in
  let newLineNumber := newStart + Z.of_nat offset in
  let hasOld := Z.of_nat offset <? oldCount in
  let hasNew := Z.of_nat offset <? newCount in
  if hasOld && hasNew then
    pushContextRow st (contextFullId oldLineNumber newLineNumber)
                   (lineAt safeOldLines (oldLineNumber - 1))
                   oldLineNumber newLineNumber
  else if hasOld then
    pushRemovedRow st (removedFullId oldLineNumber)
                   (lineAt safeOldLines (oldLineNumber - 1)) oldLineNumber
  else if hasNew then
    pushAddedRow st (addedFullId newLineNumber)
                 (lineAt safeNewLines (newLineNumber - 1)) newLineNumber
  else st.

Definition pushGapLines (safeOldLines safeNewLines : list string) (st : BState)
           (oldStart oldEnd newStart newEnd : Z) : BState :=
  if (oldEnd <? oldStart) && (newEnd <? newStart) then st
  else
    let oldCount := Z.max 0 (oldEnd - oldStart + 1) in
    let newCount := Z.max 0 (newEnd - newStart + 1) in
    let maxCount := Z.max oldCount newCount in
    fold_left (gapTurn safeOldLines safeNewLines oldStart newStart oldCount newCount)
              (seq 0 (Z.to_nat maxCount)) st.

Definition isType (t : DiffLineType) (l : DiffLine) : bool :=
  match t, type l with
  | LContext, LContext | LAdded, LAdded | LRemoved, LRemoved => true
  | _, _ => false
  end.

(** The loop [for (let i = 0; i < hunk.lines.length; i += 1)], from
    index [i] on, where [ls] is [hunk.lines] from that index on: [line]
    is its head and [next] the element after it, if any. *)
Fixpoint walkLines (hunkIndex i : nat) (ls : list DiffLine) (st : BState) : BState :=
  match ls with
  | [] => st
  | line :: rest =>
      match type line with
      | LContext =>
          walkLines hunkIndex (i + 1) rest
            (mkB (rows st ++ [mkRow (contextId hunkIndex i)
                                    (LCell LKContext line) (RCell RKContext line None)])
                 (connectors st)
                 (orElse (oldLineNumber line) (lastOldLine st))
                 (orElse (newLineNumber line) (lastNewLine st)))
      | LRemoved =>
          let alone :=
            mkB (rows st ++ [mkRow (removedId hunkIndex i) (LCell LKRemoved line) RSpacer])
                (connectors st ++ [ConnRemoved (removedId hunkIndex i) (removedId hunkIndex i)
                                               (orNull (lastNewLine st))])
                (orElse (oldLineNumber line) (lastOldLine st))
                (lastNewLine st) in
          match rest with
          | next :: rest' =>
              if isType LAdded next then
                walkLines hunkIndex (i + 1 + 1) rest'
                  (mkB (rows st ++ [mkRow (changeId hunkIndex i)
                                          (LCell LKChange line) (RCell RKChange next None)])
                       (connectors st ++ [ConnChange (changeId hunkIndex i) (changeId hunkIndex i)])
                       (orElse (oldLineNumber line) (lastOldLine st))
                       (orElse (newLineNumber next) (lastNewLine st)))
              else walkLines hunkIndex (i + 1) rest alone
          | [] => walkLines hunkIndex (i + 1) rest alone
          end
      | LAdded =>
          let alone :=
            mkB (rows st ++ [mkRow (addedId hunkIndex i) LSpacer
                                    (RCell RKAdded line (orNull (lastOldLine st)))])
                (connectors st ++ [ConnAdded (addedId hunkIndex i) (addedId hunkIndex i)
                                             (orNull (lastOldLine st))])
                (lastOldLine st)
                (orElse (newLineNumber line) (lastNewLine st)) in
          match rest with
          | next :: rest' =>
              if isType LRemoved next then
                walkLines hunkIndex (i + 1 + 1) rest'
                  (mkB (rows st ++ [mkRow (changeId hunkIndex i)
                                          (LCell LKChange next) (RCell RKChange line None)])
                       (connectors st ++ [ConnChange (changeId hunkIndex i) (changeId hunkIndex i)])
                       (orElse (oldLineNumber next) (lastOldLine st))
                       (orElse (newLineNumber line) (lastNewLine st)))
              else walkLines hunkIndex (i + 1) rest alone
          | [] => walkLines hunkIndex (i + 1) rest alone
          end
      end
  end.

(** The state of [file.hunks.forEach]: the shared arrays and counters,
    with [nextOldLine] and [nextNewLine]. *)
Record Loop := mkLoop
  { state : BState; nextOldLine : Z; nextNewLine : Z }.

(** The part of the callback of [forEach] that comes before the walk. *)
Definition gapBefore (full : bool) (safeOldLines safeNewLines : list string)
           (lp : Loop) (hunk : DiffHunk) : BState :=
  if full then
    pushGapLines safeOldLines safeNewLines (state lp)
                 (nextOldLine lp) (oldStart hunk - 1)
                 (nextNewLine lp) (newStart hunk - 1)
  else state lp.

Definition hunkTurn (full : bool) (safeOldLines safeNewLines : list string)
           (lp : Loop) (hunkIndex : nat) (hunk : DiffHunk) : Loop :=
  mkLoop (walkLines hunkIndex 0 (lines hunk)
            (gapBefore full safeOldLines safeNewLines lp hunk))
         (oldStart hunk + oldLines hunk)
         (newStart hunk + newLines hunk).

Fixpoint forEachHunk (full : bool) (safeOldLines safeNewLines : list string)
         (hunkIndex : nat) (hs : list DiffHunk) (lp : Loop) : Loop :=
  match hs with
  | [] => lp
  | hunk :: hs' =>
      forEachHunk full safeOldLines safeNewLines (S hunkIndex) hs'
                  (hunkTurn full safeOldLines safeNewLines lp hunkIndex hunk)
  end.

Definition initialLoop : Loop := mkLoop (mkB [] [] 0 0) 1 1.

(** The trailing [if (hasFullFiles) pushGapLines(...)]. *)
Definition gapAfter (full : bool) (safeOldLines safeNewLines : list string)
           (lp : Loop) : BState :=
  if full then
    pushGapLines safeOldLines safeNewLines (state lp)
                 (nextOldLine lp) (Z.of_nat (List.length safeOldLines))
                 (nextNewLine lp) (Z.of_nat (List.length safeNewLines))
  else state lp.

(** Rows and raw connectors, before the grouping pass. *)
Definition buildRaw (file : DiffFile) (oldFileLines newFileLines : option (list string))
  : BState :=
  let full := hasFullFiles oldFileLines newFileLines in
  let safeOldLines := orEmpty oldFileLines in
  let safeNewLines := orEmpty newFileLines in
  gapAfter full safeOldLines safeNewLines
    (forEachHunk full safeOldLines safeNewLines 0 (hunks file) initialLoop).

Definition rowIndexMap (rows : list VisualRow) : IndexMap := indexOf (map rowId rows).

Definition buildVisualRows (file : DiffFile)
           (oldFileLines newFileLines : option (list string))
  : list VisualRow * list ConnectorMeta :=
  let st := buildRaw file oldFileLines newFileLines in
  (rows st, groupConnectors (fun _ _ => rowIndexMap (rows st)) (connectors st)).

(** ** The scroll-mapping tables and [computeOffsets] *)

Definition leftReal (row : VisualRow) : bool :=
  match left row with LSpacer => false | LCell _ _ => true end.
Definition rightReal (row : VisualRow) : bool :=
  match right row with RSpacer => false | RCell _ _ _ => true end.

(** [lRun] and [rRun]: the values of [lc] and [rc] on entry of each
    turn of [for (const row of rows)]. *)
Fixpoint running (real : VisualRow -> bool) (count : nat) (rows : list VisualRow) : list nat :=
  match rows with
  | [] => []
  | row :: rest => count :: running real (if real row then S count else count) rest
  end.

Definition leftRunning (rows : list VisualRow) : list nat := running leftReal 0 rows.
Definition rightRunning (rows : list VisualRow) : list nat := running rightReal 0 rows.

Local Open Scope Q_scope.

Definition ROW_HEIGHT : Q := 24.

Definition ofNat (n : nat) : Q := inject_Z (Z.of_nat n).

(** [computeOffsets(st)]: [(leftScrollY, rightScrollY)]. *)
Definition computeOffsets (rows : list VisualRow) (st : Q) : Q * Q :=
  match rows with
  | [] => (0, 0)
  | _ :: _ =>
      let unifiedRow := st / ROW_HEIGHT in
      let idx := Z.to_nat (Z.max 0 (Z.min (Qfloor unifiedRow)
                                          (Z.of_nat (List.length rows) - 1))) in
      let frac := Qmax 0 (unifiedRow - ofNat idx) in
      let lBase := ofNat (nth idx (leftRunning rows) 0%nat) * ROW_HEIGHT in
      let rBase := ofNat (nth idx (rightRunning rows) 0%nat) * ROW_HEIGHT in
      let atIdx := nth_error rows idx in
      (lBase + (if match atIdx with Some row => leftReal row | None => false end
                then frac * ROW_HEIGHT else 0),
       rBase + (if match atIdx with Some row => rightReal row | None => false end
                then frac * ROW_HEIGHT else 0))
  end.

(** Where the row of index [i] is drawn in the left pane (resp. the
    right pane) at unified scroll position [st]: the pane stacks its
    real rows, [ROW_HEIGHT] each, and is translated by [-leftScrollY]
    (resp. [-rightScrollY]). *)
Definition leftVisualY (rows : list VisualRow) (i : nat) (st : Q) : Q :=
  ofNat (nth i (leftRunning rows) 0%nat) * ROW_HEIGHT - fst (computeOffsets rows st).

Definition rightVisualY (rows : list VisualRow) (i : nat) (st : Q) : Q :=
  ofNat (nth i (rightRunning rows) 0%nat) * ROW_HEIGHT - snd (computeOffsets rows st).

End Analytical.

(* ================================================================== *)
(** * The layout-measured variant: [buildColumns] *)
(* ================================================================== *)

Module Measured.

Import Str Arr Model Rows.
Local Open Scope string_scope.
Local Open Scope list_scope.
Local Open Scope Z_scope.

Record LeftItem := mkLeft
  { lRowId : string; lLine : DiffLine; lKind : LeftKind }.

Record RightItem := mkRight
  { rRowId : string; rLine : DiffLine; rKind : RightKind;
    rAnchorOldLine : option Z }.

Record CState := mkC
  { leftItems : list LeftItem;
    rightItems : list RightItem;
    connectors : list ConnectorMeta;
    lastOldLine : Z;
    lastNewLine : Z }.

Definition pushContextRow (st : CState) (rowId content : string)
           (oldLineNumber newLineNumber : Z) : CState :=
  let line := mkLine LContext content (Some oldLineNumber) (Some newLineNumber) in
  mkC (leftItems st ++ [mkLeft rowId line LKContext])
      (rightItems st ++ [mkRight rowId line RKContext None])
      (connectors st) oldLineNumber newLineNumber.

Definition pushRemovedRow (st : CState) (rowId content : string)
           (oldLineNumber : Z) : CState :=
  let line := mkLine LRemoved content (Some oldLineNumber) None in
  mkC (leftItems st ++ [mkLeft rowId line LKRemoved])
      (rightItems st)
      (connectors st ++ [ConnRemoved rowId rowId (orNull (lastNewLine st))])
      oldLineNumber (lastNewLine st).

Definition pushAddedRow (st : CState) (rowId content : string)
           (newLineNumber : Z) : CState :=
  let line := mkLine LAdded content None (Some newLineNumber) in
  mkC (leftItems st)
      (rightItems st ++ [mkRight rowId line RKAdded (orNull (lastOldLine st))])
      (connectors st ++ [ConnAdded rowId rowId (orNull (lastOldLine st))])
      (lastOldLine st) newLineNumber.

Definition gapTurn (safeOldLines safeNewLines : list string)
           (oldStart newStart oldCount newCount : Z)
           (st : CState) (offset : nat) : CState :=
  let oldLineNumber := oldStart + Z.of_nat offset in
  let newLineNumber := newStart + Z.of_nat offset in
  let hasOld := Z.of_nat offset <? oldCount in
  let hasNew := Z.of_nat offset <? newCount in
  if hasOld && hasNew then
    pushContextRow st (contextFullId oldLineNumber newLineNumber)
                   (lineAt safeOldLines (oldLineNumber - 1))
                   oldLineNumber newLineNumber
  else if hasOld then
    pushRemovedRow st (removedFullId oldLineNumber)
                   (lineAt safeOldLines (oldLineNumber - 1)) oldLineNumber
  else if hasNew then
    pushAddedRow st (addedFullId newLineNumber)
                 (lineAt safeNewLines (newLineNumber - 1)) newLineNumber
  else st.

Definition pushGapLines (safeOldLines safeNewLines : list string) (st : CState)
           (oldStart oldEnd newStart newEnd : Z) : CState :=
  if (oldEnd <? oldStart) && (newEnd <? newStart) then st
  else
    let oldCount := Z.max 0 (oldEnd - oldStart + 1) in
    let newCount := Z.max 0 (newEnd - newStart + 1) in
    let maxCount := Z.max oldCount newCount in
    fold_left (gapTurn safeOldLines safeNewLines oldStart newStart oldCount newCount)
              (seq 0 (Z.to_nat maxCount)) st.

Definition isType := Analytical.isType.

Fixpoint walkLines (hunkIndex i : nat) (ls : list DiffLine) (st : CState) : CState :=
  match ls with
  | [] => st
  | line :: rest =>
      match type line with
      | LContext =>
          walkLines hunkIndex (i + 1) rest
            (mkC (leftItems st ++ [mkLeft (contextId hunkIndex i) line LKContext])
                 (rightItems st ++ [mkRight (contextId hunkIndex i) line RKContext None])
                 (connectors st)
                 (orElse (oldLineNumber line) (lastOldLine st))
                 (orElse (newLineNumber line) (lastNewLine st)))
      | LRemoved =>
          let alone :=
            mkC (leftItems st ++ [mkLeft (removedId hunkIndex i) line LKRemoved])
                (rightItems st)
                (connectors st ++ [ConnRemoved (removedId hunkIndex i) (removedId hunkIndex i)
                                               (orNull (lastNewLine st))])
                (orElse (oldLineNumber line) (lastOldLine st))
                (lastNewLine st) in
          match rest with
          | next :: rest' =>
              if isType LAdded next then
                walkLines hunkIndex (i + 1 + 1) rest'
                  (mkC (leftItems st ++ [mkLeft (changeId hunkIndex i) line LKChange])
                       (rightItems st ++ [mkRight (changeId hunkIndex i) next RKChange None])
                       (connectors st ++ [ConnChange (changeId hunkIndex i) (changeId hunkIndex i)])
                       (orElse (oldLineNumber line) (lastOldLine st))
                       (orElse (newLineNumber next) (lastNewLine st)))
              else walkLines hunkIndex (i + 1) rest alone
          | [] => walkLines hunkIndex (i + 1) rest alone
          end
      | LAdded =>
          let alone :=
            mkC (leftItems st)
                (rightItems st ++ [mkRight (addedId hunkIndex i) line RKAdded
                                           (orNull (lastOldLine st))])
                (connectors st ++ [ConnAdded (addedId hunkIndex i) (addedId hunkIndex i)
                                             (orNull (lastOldLine st))])
                (lastOldLine st)
                (orElse (newLineNumber line) (lastNewLine st)) in
          match rest with
          | next :: rest' =>
              if isType LRemoved next then
                walkLines hunkIndex (i + 1 + 1) rest'
                  (mkC (leftItems st ++ [mkLeft (changeId hunkIndex i) next LKChange])
                       (rightItems st ++ [mkRight (changeId hunkIndex i) line RKChange None])
                       (connectors st ++ [ConnChange (changeId hunkIndex i) (changeId hunkIndex i)])
                       (orElse (oldLineNumber next) (lastOldLine st))
                       (orElse (newLineNumber line) (lastNewLine st)))
              else walkLines hunkIndex (i + 1) rest alone
          | [] => walkLines hunkIndex (i + 1) rest alone
          end
      end
  end.

Record Loop := mkLoop
  { state : CState; nextOldLine : Z; nextNewLine : Z }.

Definition gapBefore (full : bool) (safeOldLines safeNewLines : list string)
           (lp : Loop) (hunk : DiffHunk) : CState :=
  if full then
    pushGapLines safeOldLines safeNewLines (state lp)
                 (nextOldLine lp) (oldStart hunk - 1)
                 (nextNewLine lp) (newStart hunk - 1)
  else state lp.

Definition hunkTurn (full : bool) (safeOldLines safeNewLines : list string)
           (lp : Loop) (hunkIndex : nat) (hunk : DiffHunk) : Loop :=
  mkLoop (walkLines hunkIndex 0 (lines hunk)
            (gapBefore full safeOldLines safeNewLines lp hunk))
         (oldStart hunk + oldLines hunk)
         (newStart hunk + newLines hunk).

Fixpoint forEachHunk (full : bool) (safeOldLines safeNewLines : list string)
         (hunkIndex : nat) (hs : list DiffHunk) (lp : Loop) : Loop :=
  match hs with
  | [] => lp
  | hunk :: hs' =>
      forEachHunk full safeOldLines safeNewLines (S hunkIndex) hs'
                  (hunkTurn full safeOldLines safeNewLines lp hunkIndex hunk)
  end.

Definition initialLoop : Loop := mkLoop (mkC [] [] [] 0 0) 1 1.

Definition gapAfter (full : bool) (safeOldLines safeNewLines : list string)
           (lp : Loop) : CState :=
  if full then
    pushGapLines safeOldLines safeNewLines (state lp)
                 (nextOldLine lp) (Z.of_nat (List.length safeOldLines))
                 (nextNewLine lp) (Z.of_nat (List.length safeNewLines))
  else state lp.

Definition buildRaw (file : DiffFile) (oldFileLines newFileLines : option (list string))
  : CState :=
  let full := hasFullFiles oldFileLines newFileLines in
  let safeOldLines := orEmpty oldFileLines in
  let safeNewLines := orEmpty newFileLines in
  gapAfter full safeOldLines safeNewLines
    (forEachHunk full safeOldLines safeNewLines 0 (hunks file) initialLoop).

Definition leftIndexMap (items : list LeftItem) : IndexMap := indexOf (map lRowId items).
Definition rightIndexMap (items : list RightItem) : IndexMap := indexOf (map rRowId items).

Definition isRemoved (c : ConnectorMeta) : bool :=
  match c with ConnRemoved _ _ _ => true | _ => false end.

(** [connector.type === "removed" || last.type === "removed"
     ? leftIndexMap : rightIndexMap] *)
Definition pickIndexMap (st : CState) (connector last : ConnectorMeta) : IndexMap :=
  if isRemoved connector || isRemoved last
  then leftIndexMap (leftItems st)
  else rightIndexMap (rightItems st).

Record Columns := mkColumns
  { colLeftItems : list LeftItem;
    colRightItems : list RightItem;
    colConnectors : list ConnectorMeta }.

Definition buildColumns (file : DiffFile)
           (oldFileLines newFileLines : option (list string)) : Columns :=
  let st := buildRaw file oldFileLines newFileLines in
  mkColumns (leftItems st) (rightItems st)
            (groupConnectors (pickIndexMap st) (connectors st)).

End Measured.

(* ================================================================== *)
(** * The line map ([shared/diff/lineMap.ts]) *)
(* ================================================================== *)

Module LineMap.

Import Model.
Local Open Scope list_scope.

Record LineMapEntry := mkEntry
  { oldLineNumber : option Z;
    newLineNumber : option Z;
    lineType : DiffLineType }.

Record LineMap := mkLineMap { entries : list LineMapEntry }.

(** [entries.push({...})] *)
Definition addEntry (entries : list LineMapEntry) (line : DiffLine)
  : list LineMapEntry :=
  entries ++ [mkEntry (Model.oldLineNumber line) (Model.newLineNumber line)
                      (type line)].

Definition mapHunk (hunk : DiffHunk) (entries : list LineMapEntry)
  : list LineMapEntry :=
  fold_left addEntry (lines hunk) entries.

Definition buildLineMap (file : DiffFile) : LineMap :=
  mkLineMap (fold_left (fun entries hunk => mapHunk hunk entries) (hunks file) []).

End LineMap.

(* ================================================================== *)
(** * The diff sources ([shared/diff/sources.ts]) *)
(* ================================================================== *)

Module Sources.

Import Str Normalize.
Local Open Scope string_scope.

(** [s.replace(/\n/g, "\\n")]: every LF becomes a backslash and an
    [n]. *)
Fixpoint escapeLineFeeds (s : string) : string :=
  match s with
  | EmptyString => EmptyString
  | String c rest =>
      if Ascii.eqb c LF then String "\"%char (String "n"%char (escapeLineFeeds rest))
      else String c (escapeLineFeeds rest)
  end.

(** [parts.join("\n")] *)
Definition joinLF (parts : list string) : string :=
  String.concat (String LF EmptyString) parts.

(** The promise that [getRawDiff] returns is resolved at once: the
    methods are modelled by the value they resolve to. *)
Module GitDiffSource.
Definition getRawDiff (rawDiff : string) : string :=
  normalizeLineEndings rawDiff.
End GitDiffSource.

Module PatchFileDiffSource.
Definition getRawDiff (patchContents : string) : string :=
  normalizeLineEndings patchContents.
End PatchFileDiffSource.

Record TwoFileDiffOptions := mkOptions
  { filePath : string; oldContent : string; newContent : string }.

Module TwoFileDiffSource.
Definition getRawDiff (options : TwoFileDiffOptions) : string :=
  let normalizedOld := escapeLineFeeds (normalizeLineEndings (oldContent options)) in
  let normalizedNew := escapeLineFeeds (normalizeLineEndings (newContent options)) in
  joinLF
    [ "diff --git a/" ++ filePath options ++ " b/" ++ filePath options;
      "--- a/" ++ filePath options;
      "+++ b/" ++ filePath options;
      "@@ -1 +1 @@";
      "- " ++ normalizedOld;
      "+ " ++ normalizedNew ].
End TwoFileDiffSource.

End Sources.

(* ================================================================== *)
(** * Loading a workspace ([bun/gitWorkspace.ts]), its pure part *)
(* ================================================================== *)

Module Workspace.

Import Str Model Normalize Parse.
Local Open Scope string_scope.

Definition splitLines (contents : string) : list string :=
  if Inline.isEmpty contents then []
  else split_lines (normalizeLineEndings contents).

(** [file.newPath ?? file.oldPath ?? null] *)
Definition getDisplayPath (file : DiffFile) : option string :=
  match newPath file with
  | Some p => Some p
  | None => oldPath file
  end.

(** [loadDiffFiles], from the text [diffText] that [git diff] wrote
    to its standard output. *)
Definition loadDiffFiles (diffText : string) : list DiffFile :=
  if Inline.isEmpty (trim diffText) then []
  else files (parseUnifiedDiff diffText).

End Workspace.

(* ================================================================== *)
(** * The file list store ([shared/files/fileListStore.ts]) *)
(* ================================================================== *)

Module FileListStore.

Import Model.
Local Open Scope list_scope.

Inductive FileGroup := Staged | Unstaged.

Record FileListState := mkState
  { staged : list DiffFile; unstaged : list DiffFile }.

(** The store: its state, its listeners in the order in which they
    were added (a [Set] keeps that order and holds a listener once), and
    the calls made to the listeners so far, each with the snapshot it
    was given.  A listener is named by a number. *)
Record Store := mkStore
  { state : FileListState;
    listeners : list nat;
    calls : list (nat * FileListState) }.

(** Copies of the two arrays: the same value. *)
Definition cloneState (st : FileListState) : FileListState :=
  mkState (staged st) (unstaged st).

Definition create (initial : FileListState) : Store :=
  mkStore (cloneState initial) [] [].

Definition getState (store : Store) : FileListState := cloneState (state store).

Definition emit (store : Store) : Store :=
  let snapshot := getState store in
  mkStore (state store) (listeners store)
          (calls store ++ map (fun listener => (listener, snapshot)) (listeners store)).

Definition setFiles (files : list DiffFile) (store : Store) : Store :=
  emit (mkStore (mkState [] files) (listeners store) (calls store)).

Definition group (g : FileGroup) (st : FileListState) : list DiffFile :=
  match g with Staged => staged st | Unstaged => unstaged st end.

Definition setGroup (g : FileGroup) (l : list DiffFile) (st : FileListState)
  : FileListState :=
  match g with
  | Staged => mkState l (unstaged st)
  | Unstaged => mkState (staged st) l
  end.

(** [a === b] on [string | null]. *)
Definition samePath (a b : option string) : bool :=
  match a, b with
  | Some x, Some y => String.eqb x y
  | None, None => true
  | _, _ => false
  end.

(** [file.newPath === filePath || file.oldPath === filePath] *)
Definition hasPath (filePath : string) (file : DiffFile) : bool :=
  samePath (newPath file) (Some filePath) || samePath (oldPath file) (Some filePath).

(** [item.newPath === file.newPath && item.oldPath === file.oldPath] *)
Definition samePaths (file item : DiffFile) : bool :=
  samePath (newPath item) (newPath file) && samePath (oldPath item) (oldPath file).

(** [source.findIndex(p)]: the first index at which [p] holds. *)
Fixpoint findIndex (p : DiffFile -> bool) (l : list DiffFile) : option nat :=
  match l with
  | [] => None
  | x :: l' =>
      if p x then Some 0
      else match findIndex p l' with Some i => Some (S i) | None => None end
  end.

(** [source.splice(index, 1)]: what is left. *)
Fixpoint removeAt (index : nat) (l : list DiffFile) : list DiffFile :=
  match index, l with
  | _, [] => []
  | O, _ :: l' => l'
  | S i, x :: l' => x :: removeAt i l'
  end.

Definition moveFile (filePath : string) (target : FileGroup) (store : Store) : Store :=
  let sourceGroup := match target with Staged => Unstaged | Unstaged => Staged end in
  let source := group sourceGroup (state store) in
  let targetList := group target (state store) in
  match findIndex (hasPath filePath) source with
  | None => store
  | Some index =>
      match nth_error source index with
      | None => store
      | Some file =>
          let source' := removeAt index source in
          let targetList' :=
            if existsb (samePaths file) targetList then targetList
            else targetList ++ [file] in
          emit (mkStore (setGroup target targetList'
                           (setGroup sourceGroup source' (state store)))
                        (listeners store) (calls store))
      end
  end.

(** [onChange(listener)]; the function it returns is [unsubscribe]. *)
Definition onChange (listener : nat) (store : Store) : Store :=
  mkStore (state store)
          (if existsb (Nat.eqb listener) (listeners store) then listeners store
           else listeners store ++ [listener])
          (calls store).

Definition unsubscribe (listener : nat) (store : Store) : Store :=
  mkStore (state store)
          (filter (fun l => negb (Nat.eqb l listener)) (listeners store))
          (calls store).

End FileListStore.

(* ================================================================== *)
(** * The analytical variant: content tables and connector geometry *)
(* ================================================================== *)

Module Tables.

Import Str Arr Model Rows Analytical.
Local Open Scope string_scope.
Local Open Scope list_scope.

(** A [Map<number, number>]. *)
Definition LineIndexMap := Z -> option nat.

Definition emptyLineMap : LineIndexMap := fun _ => None.

Definition lineSet (m : LineIndexMap) (k : Z) (v : nat) : LineIndexMap :=
  fun k' => if (k' =? k)%Z then Some v else m k'.

Record LeftContentItem := mkLeftContent
  { leftRowId : string; leftCell : LeftCell; itsRightCell : RightCell }.

Record RightContentItem := mkRightContent
  { rightRowId : string; rightCell : RightCell; itsLeftCell : LeftCell }.

(** The variables of the loop [for (const row of rows)] of the second
    [useMemo]. *)
Record TState := mkT
  { leftItems : list LeftContentItem;
    rightItems : list RightContentItem;
    lRun : list nat;
    rRun : list nat;
    r2l : IndexMap;
    r2r : IndexMap;
    o2l : LineIndexMap;
    n2r : LineIndexMap;
    lc : nat;
    rc : nat }.

Definition setIfSome (m : LineIndexMap) (k : option Z) (v : nat) : LineIndexMap :=
  match k with Some z => lineSet m z v | None => m end.

Definition leftPart (row : VisualRow) (st : TState) : TState :=
  match left row with
  | LSpacer => st
  | LCell _ line =>
      mkT (leftItems st ++ [mkLeftContent (rowId row) (left row) (right row)])
          (rightItems st) (lRun st) (rRun st)
          (mapSet (r2l st) (rowId row) (lc st)) (r2r st)
          (setIfSome (o2l st) (Model.oldLineNumber line) (lc st)) (n2r st)
          (S (lc st)) (rc st)
  end.

Definition rightPart (row : VisualRow) (st : TState) : TState :=
  match right row with
  | RSpacer => st
  | RCell _ line _ =>
      mkT (leftItems st)
          (rightItems st ++ [mkRightContent (rowId row) (right row) (left row)])
          (lRun st) (rRun st)
          (r2l st) (mapSet (r2r st) (rowId row) (rc st))
          (o2l st) (setIfSome (n2r st) (Model.newLineNumber line) (rc st))
          (lc st) (S (rc st))
  end.

Definition tableTurn (st : TState) (row : VisualRow) : TState :=
  rightPart row
    (leftPart row
       (mkT (leftItems st) (rightItems st)
            (lRun st ++ [lc st]) (rRun st ++ [rc st])
            (r2l st) (r2r st) (o2l st) (n2r st) (lc st) (rc st))).

Definition initialTables : TState :=
  mkT [] [] [] [] emptyMap emptyMap emptyLineMap emptyLineMap 0 0.

Definition buildTables (rows : list VisualRow) : TState :=
  fold_left tableTurn rows initialTables.

Local Open Scope Q_scope.

Record ConnectorPoint := mkPoint { x : Q; y : Q }.

Record Connector := mkConnector
  { id : string;
    fromTop : ConnectorPoint;
    fromBottom : ConnectorPoint;
    toTop : ConnectorPoint;
    toBottom : ConnectorPoint;
    curveStartX : Q;
    curveEndX : Q;
    color : string }.

Module Layout.
Record LayoutX := mkLayout
  { fullFromX : Q; fullToX : Q; curveStartX : Q; curveEndX : Q }.
End Layout.

(** [(ai + 1) * ROW_HEIGHT - scrollY] when the anchor line is known
    and has an index, [0] otherwise. *)
Definition anchorY (m : LineIndexMap) (anchorLine : option Z) (scrollY : Q) : Q :=
  match anchorLine with
  | Some a =>
      match m a with
      | Some ai => (ofNat ai + 1) * ROW_HEIGHT - scrollY
      | None => 0
      end
  | None => 0
  end.

Definition band : Q := 2.

(** The callback of [connectorMeta.map]: [None] stands for [null]. *)
Definition connectorOf (t : TState) (layout : Layout.LayoutX)
           (leftScrollY rightScrollY : Q)
           (meta : ConnectorMeta) (index : nat) : option Connector :=
  let fullFromX := Layout.fullFromX layout in
  let fullToX := Layout.fullToX layout in
  let name := ("connector-" ++ natDec index)%string in
  match meta with
  | ConnChange s e =>
      match r2l t s, r2l t e, r2r t s, r2r t e with
      | Some ls, Some le, Some rs, Some re =>
          Some (mkConnector name
                  (mkPoint fullFromX (ofNat ls * ROW_HEIGHT - leftScrollY + 1))
                  (mkPoint fullFromX ((ofNat le + 1) * ROW_HEIGHT - leftScrollY - 1))
                  (mkPoint fullToX (ofNat rs * ROW_HEIGHT - rightScrollY + 1))
                  (mkPoint fullToX ((ofNat re + 1) * ROW_HEIGHT - rightScrollY - 1))
                  (Layout.curveStartX layout) (Layout.curveEndX layout) "#2563eb")
      | _, _, _, _ => None
      end
  | ConnRemoved s e anchorNewLine =>
      match r2l t s, r2l t e with
      | Some ls, Some le =>
          let toY := anchorY (n2r t) anchorNewLine rightScrollY in
          Some (mkConnector name
                  (mkPoint fullFromX (ofNat ls * ROW_HEIGHT - leftScrollY + 1))
                  (mkPoint fullFromX ((ofNat le + 1) * ROW_HEIGHT - leftScrollY - 1))
                  (mkPoint fullToX (toY - band))
                  (mkPoint fullToX (toY + band))
                  (Layout.curveStartX layout) (Layout.curveEndX layout) "#dc2626")
      | _, _ => None
      end
  | ConnAdded s e anchorOldLine =>
      match r2r t s, r2r t e with
      | Some rs, Some re =>
          let fromY := anchorY (o2l t) anchorOldLine leftScrollY in
          Some (mkConnector name
                  (mkPoint fullFromX (fromY - band))
                  (mkPoint fullFromX (fromY + band))
                  (mkPoint fullToX (ofNat rs * ROW_HEIGHT - rightScrollY + 1))
                  (mkPoint fullToX ((ofNat re + 1) * ROW_HEIGHT - rightScrollY - 1))
                  (Layout.curveStartX layout) (Layout.curveEndX layout) "#16a34a")
      | _, _ => None
      end
  end.

(** [metas.map(f).filter(c => c !== null)], from the index [index]. *)
Fixpoint mapFilter {A B} (f : A -> nat -> option B) (l : list A) (index : nat) : list B :=
  match l with
  | [] => []
  | a :: l' =>
      match f a index with
      | Some b => b :: mapFilter f l' (S index)
      | None => mapFilter f l' (S index)
      end
  end.

(** The third [useMemo]: the connectors drawn at the unified scroll
    position [scrollTop]. *)
Definition connectorsAt (rows : list VisualRow) (connectorMeta : list ConnectorMeta)
           (layout : Layout.LayoutX) (scrollTop : Q) : list Connector :=
  let t := buildTables rows in
  let (leftScrollY, rightScrollY) := computeOffsets rows scrollTop in
  if Qeq_bool (Layout.fullToX layout) 0 then []
  else mapFilter (connectorOf t layout leftScrollY rightScrollY) connectorMeta 0.

End Tables.

(* ================================================================== *)
(** * Facts about strings as lists of code units *)
(* ================================================================== *)

Section StringsAsLists.

Local Abbreviation units := list_ascii_of_string.

Lemma units_length s : List.length (units s) = String.length s.
Proof. induction s; simpl; congruence. Qed.

Lemma units_get s : forall n, String.get n s = nth_error (units s) n.
Proof.
  induction s as [|c s IH]; intros [|n]; simpl; auto.
Qed.

Lemma units_append s t : units (s ++ t)%string = units s ++ units t.
Proof. induction s; simpl; congruence. Qed.

Lemma units_substring s : forall a m,
  units (substring a m s) = firstn m (skipn a (units s)).
Proof.
  induction s as [|c s IH]; intros [|a] [|m]; simpl; auto;
    rewrite IH; auto.
Qed.

Lemma units_sliceFrom s : forall n, units (Str.sliceFrom n s) = skipn n (units s).
Proof.
  induction s as [|c s IH]; intros [|n]; simpl; auto.
Qed.

Lemma units_inj s t : units s = units t -> s = t.
Proof.
  intro H. rewrite <- (string_of_list_ascii_of_string s),
    <- (string_of_list_ascii_of_string t). now rewrite H.
Qed.

End StringsAsLists.

(* ================================================================== *)
(** * The inline differ *)
(* ================================================================== *)

Module InlineFacts.

Import Str Inline.
Local Abbreviation units := list_ascii_of_string.

(** [p] is an initial segment of [s]; [q] is a final segment of [s]. *)
Definition IsPrefix (p s : string) : Prop := exists r, s = (p ++ r)%string.
Definition IsSuffix (q s : string) : Prop := exists r, s = (r ++ q)%string.

Definition LongestCommonPrefix (p a b : string) : Prop :=
  IsPrefix p a /\ IsPrefix p b /\
  forall q, IsPrefix q a -> IsPrefix q b -> String.length q <= String.length p.

Definition LongestCommonSuffix (q a b : string) : Prop :=
  IsSuffix q a /\ IsSuffix q b /\
  forall r, IsSuffix r a -> IsSuffix r b -> String.length r <= String.length q.

(** Length of the longest common initial segment of two lists. *)
Fixpoint lcpLen (a b : list ascii) : nat :=
  match a, b with
  | x :: a', y :: b' => if Ascii.eqb x y then S (lcpLen a' b') else 0
  | _, _ => 0
  end.

Lemma lcpLen_cons x a y b :
  lcpLen (x :: a) (y :: b) = if Ascii.eqb x y then S (lcpLen a b) else 0.
Proof. reflexivity. Qed.

Lemma lcpLen_le_l a : forall b, lcpLen a b <= List.length a.
Proof.
  induction a as [|x a IH]; intros [|y b]; simpl; try lia.
  destruct (Ascii.eqb x y); [specialize (IH b)|]; lia.
Qed.

Lemma lcpLen_le_r a : forall b, lcpLen a b <= List.length b.
Proof.
  induction a as [|x a IH]; intros [|y b]; simpl; try lia.
  destruct (Ascii.eqb x y); [specialize (IH b)|]; lia.
Qed.

Lemma lcpLen_firstn a : forall b,
  firstn (lcpLen a b) a = firstn (lcpLen a b) b.
Proof.
  induction a as [|x a IH]; intros [|y b]; simpl; auto.
  destruct (Ascii.eqb x y) eqn:E; simpl; auto.
  apply Ascii.eqb_eq in E. subst. now rewrite IH.
Qed.

(** No common initial segment is longer than [lcpLen]. *)
Lemma lcpLen_max a : forall b q ra rb,
  a = q ++ ra -> b = q ++ rb -> List.length q <= lcpLen a b.
Proof.
  induction a as [|x a IH]; intros b q ra rb Ha Hb.
  - destruct q; simpl in *; [lia|discriminate].
  - destruct q as [|z q]; simpl in *; [lia|].
    injection Ha as -> ->. subst b. simpl.
    rewrite Ascii.eqb_refl. apply le_n_S. eapply IH; eauto.
Qed.

Lemma skipn_cons_nth (l : list ascii) : forall p c,
  nth_error l p = Some c -> skipn p l = c :: skipn (S p) l.
Proof.
  induction l as [|x l IH]; intros [|p] c H; simpl in *; try discriminate.
  - now injection H as ->.
  - now apply IH.
Qed.

Lemma nth_error_lt (l : list ascii) p :
  p < List.length l -> exists c, nth_error l p = Some c.
Proof.
  intro H. destruct (nth_error l p) eqn:E; eauto.
  apply nth_error_None in E. lia.
Qed.

(** The first loop counts the longest common initial segment. *)
Lemma prefixLoop_spec o n : forall fuel p,
  String.length o - p <= fuel ->
  prefixLoop fuel o n p = p + lcpLen (skipn p (units o)) (skipn p (units n)).
Proof.
  induction fuel as [|fuel IH]; intros p Hf; simpl.
  - rewrite (skipn_all2 (units o)) by (rewrite units_length; lia).
    simpl. lia.
  - destruct (p <? String.length o) eqn:Ho; simpl.
    + apply Nat.ltb_lt in Ho.
      destruct (p <? String.length n) eqn:Hn; simpl.
      * apply Nat.ltb_lt in Hn.
        destruct (nth_error_lt (units o) p) as [c Hc]; [rewrite units_length; lia|].
        destruct (nth_error_lt (units n) p) as [d Hd]; [rewrite units_length; lia|].
        rewrite !units_get, Hc, Hd. cbn [sameUnit].
        rewrite (skipn_cons_nth _ _ _ Hc), (skipn_cons_nth _ _ _ Hd), lcpLen_cons.
        destruct (Ascii.eqb c d); [|lia].
        replace (p + 1) with (S p) by lia. rewrite IH by lia. lia.
      * apply Nat.ltb_ge in Hn.
        rewrite (skipn_all2 (units n)) by (rewrite units_length; lia).
        destruct (skipn p (units o)); simpl; lia.
    + apply Nat.ltb_ge in Ho.
      rewrite (skipn_all2 (units o)) by (rewrite units_length; lia).
      simpl. lia.
Qed.

(** Reading [l] from its end is reading the reversed remainder. *)
Lemma nth_error_from_end (l : list ascii) prefix k :
  k < List.length l - prefix ->
  nth_error l (List.length l - 1 - k) = nth_error (rev (skipn prefix l)) k.
Proof.
  intro H. rewrite nth_error_rev, length_skipn.
  destruct (k <? List.length l - prefix) eqn:E;
    [|apply Nat.ltb_ge in E; lia].
  rewrite nth_error_skipn. f_equal. lia.
Qed.

Lemma suffixLoop_spec o n prefix : forall fuel k,
  String.length o - prefix - k <= fuel ->
  suffixLoop fuel o n prefix k =
    k + lcpLen (skipn k (rev (skipn prefix (units o))))
               (skipn k (rev (skipn prefix (units n)))).
Proof.
  induction fuel as [|fuel IH]; intros k Hf; simpl.
  - rewrite (skipn_all2 (rev (skipn prefix (units o))))
      by (rewrite length_rev, length_skipn, units_length; lia).
    simpl. lia.
  - destruct (k <? String.length o - prefix) eqn:Ho; simpl.
    + apply Nat.ltb_lt in Ho.
      destruct (k <? String.length n - prefix) eqn:Hn; simpl.
      * apply Nat.ltb_lt in Hn.
        rewrite !units_get.
        rewrite <- (units_length o), <- (units_length n) in *.
        rewrite (nth_error_from_end (units o) prefix k) by lia.
        rewrite (nth_error_from_end (units n) prefix k) by lia.
        destruct (nth_error_lt (rev (skipn prefix (units o))) k) as [c Hc];
          [rewrite length_rev, length_skipn; lia|].
        destruct (nth_error_lt (rev (skipn prefix (units n))) k) as [d Hd];
          [rewrite length_rev, length_skipn; lia|].
        rewrite Hc, Hd. cbn [sameUnit].
        rewrite (skipn_cons_nth _ _ _ Hc), (skipn_cons_nth _ _ _ Hd), lcpLen_cons.
        destruct (Ascii.eqb c d); [|lia].
        replace (k + 1) with (S k) by lia. rewrite IH by lia. lia.
      * apply Nat.ltb_ge in Hn.
        rewrite (skipn_all2 (rev (skipn prefix (units n))))
          by (rewrite length_rev, length_skipn, units_length; lia).
        destruct (skipn k (rev (skipn prefix (units o)))); simpl; lia.
    + apply Nat.ltb_ge in Ho.
      rewrite (skipn_all2 (rev (skipn prefix (units o))))
        by (rewrite length_rev, length_skipn, units_length; lia).
      simpl. lia.
Qed.

Lemma prefix_is o n :
  prefixLoop (String.length o) o n 0 = lcpLen (units o) (units n).
Proof. rewrite prefixLoop_spec by lia. reflexivity. Qed.

Lemma suffix_is o n prefix :
  suffixLoop (String.length o) o n prefix 0 =
    lcpLen (rev (skipn prefix (units o))) (rev (skipn prefix (units n))).
Proof. rewrite suffixLoop_spec by lia. reflexivity. Qed.

(** The last [s] elements of [l], when the first [p] are left out and
    [s] fits in what remains. *)
Lemma skipn_end_rev (l : list ascii) p s :
  p <= List.length l -> s <= List.length l - p ->
  skipn (List.length l - s) l = rev (firstn s (rev (skipn p l))).
Proof.
  intros Hp H.
  rewrite firstn_rev, rev_involutive, skipn_skipn, length_skipn.
  f_equal. lia.
Qed.

Lemma split3 (l : list ascii) p s :
  p + s <= List.length l ->
  firstn (p - 0) (skipn 0 l)
    ++ firstn (List.length l - s - p) (skipn p l)
    ++ skipn (List.length l - s) l = l.
Proof.
  intro H. rewrite Nat.sub_0_r. cbn [skipn].
  transitivity (firstn p l ++ skipn p l); [f_equal|apply firstn_skipn].
  replace (skipn (List.length l - s) l)
    with (skipn (List.length l - s - p) (skipn p l))
    by (rewrite skipn_skipn; f_equal; lia).
  apply firstn_skipn.
Qed.

Lemma IsPrefix_units p s :
  IsPrefix p s <-> exists r, units s = units p ++ r.
Proof.
  split; intros [r H].
  - exists (units r). now rewrite H, units_append.
  - exists (string_of_list_ascii r). apply units_inj.
    now rewrite units_append, list_ascii_of_string_of_list_ascii.
Qed.

Lemma IsSuffix_units q s :
  IsSuffix q s <-> exists r, units s = r ++ units q.
Proof.
  split; intros [r H].
  - exists (units r). now rewrite H, units_append.
  - exists (string_of_list_ascii r). apply units_inj.
    now rewrite units_append, list_ascii_of_string_of_list_ascii.
Qed.

(** What the general path of [buildInlineDiff] returns, on code units. *)
Section GeneralPath.
Variables o n : string.
Let lo := units o.
Let ln := units n.
Let P := lcpLen lo ln.
Let S := lcpLen (rev (skipn P lo)) (rev (skipn P ln)).

Lemma P_le_o : P <= List.length lo. Proof. apply lcpLen_le_l. Qed.
Lemma P_le_n : P <= List.length ln. Proof. apply lcpLen_le_r. Qed.

Lemma S_le_o : S <= List.length lo - P.
Proof.
  unfold S. etransitivity; [apply lcpLen_le_l|].
  now rewrite length_rev, length_skipn.
Qed.

Lemma S_le_n : S <= List.length ln - P.
Proof.
  unfold S. etransitivity; [apply lcpLen_le_r|].
  now rewrite length_rev, length_skipn.
Qed.

Lemma before_agree : firstn P lo = firstn P ln.
Proof. apply lcpLen_firstn. Qed.

Lemma after_agree :
  skipn (List.length lo - S) lo = skipn (List.length ln - S) ln.
Proof.
  rewrite (skipn_end_rev lo P S P_le_o S_le_o), (skipn_end_rev ln P S P_le_n S_le_n).
  f_equal. apply lcpLen_firstn.
Qed.

Lemma after_is_suffix_of_rest (l : list ascii) :
  P <= List.length l -> S <= List.length l - P ->
  skipn P l = firstn (List.length l - P - S) (skipn P l)
                ++ skipn (List.length l - S) l.
Proof.
  intros HP H.
  replace (skipn (List.length l - S) l)
    with (skipn (List.length l - P - S) (skipn P l))
    by (rewrite skipn_skipn; f_equal; lia).
  symmetry. apply firstn_skipn.
Qed.

Lemma after_longest r x y :
  skipn P lo = x ++ r -> skipn P ln = y ++ r -> List.length r <= S.
Proof.
  intros Hx Hy. unfold S. rewrite Hx, Hy, !rev_app_distr.
  rewrite <- (length_rev r). eapply lcpLen_max; reflexivity.
Qed.
End GeneralPath.

End InlineFacts.

Section InlineDifferTheorem.

Import Str Inline InlineFacts.
Local Abbreviation units := list_ascii_of_string.
Local Open Scope string_scope.

Lemma buildInlineDiff_general o n :
  let P := lcpLen (units o) (units n) in
  let S := lcpLen (rev (skipn P (units o))) (rev (skipn P (units n))) in
  isEmpty o && isEmpty n = false ->
  buildInlineDiff o n =
    {| old := {| before := slice 0 P o;
                 changed := slice P (String.length o - S) o;
                 after := sliceFrom (String.length o - S) o |};
       next := {| before := slice 0 P n;
                  changed := slice P (String.length n - S) n;
                  after := sliceFrom (String.length n - S) n |} |}.
Proof.
  intros P S E. unfold buildInlineDiff. rewrite E.
  rewrite prefix_is, suffix_is. reflexivity.
Qed.

Lemma units_nil s : units s = [] -> s = "".
Proof. destruct s; simpl; [reflexivity|discriminate]. Qed.

Lemma IsPrefix_empty q : IsPrefix q "" -> String.length q = 0.
Proof. intros [r H]. destruct q; simpl in *; [reflexivity|discriminate]. Qed.

Lemma IsSuffix_empty q : IsSuffix q "" -> String.length q = 0.
Proof.
  intros [r H]. destruct r; simpl in *; [now subst|discriminate].
Qed.

(** C6: [buildInlineDiff] returns, as [before], the longest common
    prefix of the two texts (the same string on both sides); as
    [after], the longest common suffix of what remains of the two texts
    once that prefix is removed (again the same string on both sides);
    [before ++ changed ++ after] gives back each text; on two empty
    texts every field is empty; and on "const beta = 2;" against
    "const beta = 3;" the changed spans are "2" and "3" between the
    prefix "const beta = " and the suffix ";". *)
Theorem C6_buildInlineDiff_prefix_suffix (oldText newText : string) :
  let r := buildInlineDiff oldText newText in
  before (old r) = before (next r) /\
  LongestCommonPrefix (before (old r)) oldText newText /\
  after (old r) = after (next r) /\
  LongestCommonSuffix (after (old r))
    (sliceFrom (String.length (before (old r))) oldText)
    (sliceFrom (String.length (before (old r))) newText) /\
  before (old r) ++ changed (old r) ++ after (old r) = oldText /\
  before (next r) ++ changed (next r) ++ after (next r) = newText /\
  buildInlineDiff "" "" =
    {| old := mkInline "" "" ""; next := mkInline "" "" "" |} /\
  buildInlineDiff "const beta = 2;" "const beta = 3;" =
    {| old := mkInline "const beta = " "2" ";";
       next := mkInline "const beta = " "3" ";" |}.
Proof.
  destruct (isEmpty oldText && isEmpty newText) eqn:E.
  - (* the early return *)
    apply andb_true_iff in E. destruct E as [Eo En].
    destruct oldText; [|discriminate]. destruct newText; [|discriminate].
    cbv zeta. cbn.
    repeat split; try (now exists "").
    + intros q Hq _. now rewrite (IsPrefix_empty q Hq).
    + intros q Hq _. now rewrite (IsSuffix_empty q Hq).
  - pose proof (buildInlineDiff_general oldText newText E) as G.
    cbv zeta in G |- *. rewrite G. clear G. cbn [old next before changed after].
    set (lo := units oldText). set (ln := units newText).
    set (P := lcpLen lo ln).
    set (S := lcpLen (rev (skipn P lo)) (rev (skipn P ln))).
    pose proof (P_le_o oldText newText) as HPo.
    pose proof (P_le_n oldText newText) as HPn.
    pose proof (S_le_o oldText newText) as HSo.
    pose proof (S_le_n oldText newText) as HSn.
    cbv zeta in HPo, HPn, HSo, HSn.
    fold lo ln in HPo, HPn, HSo, HSn. fold P in HPo, HPn, HSo, HSn.
    fold S in HSo, HSn.
    assert (Hlen : String.length (slice 0 P oldText) = P).
    { rewrite <- units_length. unfold slice. rewrite units_substring.
      cbn [skipn]. rewrite length_firstn. fold lo. lia. }
    assert (Hb : slice 0 P oldText = slice 0 P newText).
    { apply units_inj. unfold slice. rewrite !units_substring.
      cbn [skipn]. rewrite Nat.sub_0_r. apply (before_agree oldText newText). }
    assert (Ha : sliceFrom (String.length oldText - S) oldText =
                 sliceFrom (String.length newText - S) newText).
    { apply units_inj. rewrite !units_sliceFrom, <- !units_length.
      apply (after_agree oldText newText). }
    repeat split.
    + exact Hb.
    + apply IsPrefix_units. exists (skipn P lo).
      unfold slice. rewrite units_substring. cbn [skipn].
      rewrite Nat.sub_0_r. symmetry. apply firstn_skipn.
    + rewrite Hb. apply IsPrefix_units. exists (skipn P ln).
      unfold slice. rewrite units_substring. cbn [skipn].
      rewrite Nat.sub_0_r. symmetry. apply firstn_skipn.
    + intros q Hqo Hqn. rewrite Hlen.
      apply IsPrefix_units in Hqo, Hqn.
      destruct Hqo as [ro Hro], Hqn as [rn Hrn].
      rewrite <- units_length. eapply lcpLen_max; eassumption.
    + exact Ha.
    + rewrite Hlen. apply IsSuffix_units.
      exists (firstn (List.length lo - P - S) (skipn P lo)).
      rewrite !units_sliceFrom, <- units_length.
      apply (after_is_suffix_of_rest oldText newText lo HPo HSo).
    + rewrite Hlen, Ha. apply IsSuffix_units.
      exists (firstn (List.length ln - P - S) (skipn P ln)).
      rewrite !units_sliceFrom, <- units_length.
      apply (after_is_suffix_of_rest oldText newText ln HPn HSn).
    + intros r Hro Hrn. rewrite Hlen in Hro, Hrn.
      apply IsSuffix_units in Hro, Hrn.
      destruct Hro as [x Hx], Hrn as [y Hy].
      rewrite units_sliceFrom in Hx, Hy.
      rewrite <- !units_length, units_sliceFrom, length_skipn.
      pose proof (after_longest oldText newText (units r) x y Hx Hy) as L.
      cbv zeta in L. fold lo ln in L. fold P in L. fold S in L.
      fold lo. lia.
    + apply units_inj. unfold slice.
      rewrite !units_append, !units_substring, units_sliceFrom, <- units_length.
      apply split3. fold lo. lia.
    + apply units_inj. unfold slice.
      rewrite !units_append, !units_substring, units_sliceFrom, <- units_length.
      apply split3. fold ln. lia.
Qed.

End InlineDifferTheorem.

(* ================================================================== *)
(** * Line-ending normalization *)
(* ================================================================== *)

Module NormalizeFacts.

Import Str Normalize.
Local Open Scope string_scope.

(** The replacement as the specification words it, in two passes: every
    CR LF pair becomes LF, then every CR that is left becomes LF. *)
Fixpoint crlfToLf (s : string) : string :=
  match s with
  | EmptyString => EmptyString
  | String c rest =>
      match rest with
      | String d rest' =>
          if Ascii.eqb c CR && Ascii.eqb d LF then String LF (crlfToLf rest')
          else String c (crlfToLf rest)
      | EmptyString => String c EmptyString
      end
  end.

Fixpoint crToLf (s : string) : string :=
  match s with
  | EmptyString => EmptyString
  | String c rest => String (if Ascii.eqb c CR then LF else c) (crToLf rest)
  end.

Definition replaceLineEndings (s : string) : string := crToLf (crlfToLf s).

Lemma by_length (P : string -> Prop) :
  (forall s, (forall t, String.length t < String.length s -> P t) -> P s) ->
  forall s, P s.
Proof.
  intros H s.
  assert (G : forall n t, String.length t < n -> P t).
  { induction n as [|n IH]; intros t Ht; [lia|].
    apply H. intros u Hu. apply IH. lia. }
  apply (G (S (String.length s))). lia.
Qed.

Lemma normalize_noCR : forall s, noCR (normalizeLineEndings s) = true.
Proof.
  apply by_length. intros [|c rest] IH; [reflexivity|].
  cbn [normalizeLineEndings].
  destruct (Ascii.eqb c CR) eqn:Ec.
  - cbn [noCR]. change (Ascii.eqb LF CR) with false. cbn [negb andb].
    destruct rest as [|d rest']; [reflexivity|].
    destruct (Ascii.eqb d LF); apply IH; cbn [String.length]; lia.
  - cbn [noCR]. rewrite Ec. cbn [negb andb]. apply IH. cbn [String.length]. lia.
Qed.

Lemma normalize_fixed : forall s, noCR s = true -> normalizeLineEndings s = s.
Proof.
  induction s as [|c rest IH]; intro H; [reflexivity|].
  cbn [noCR] in H. apply andb_true_iff in H. destruct H as [Hc Hr].
  cbn [normalizeLineEndings].
  destruct (Ascii.eqb c CR); [discriminate|].
  now rewrite IH.
Qed.

Lemma normalize_idempotent s :
  normalizeLineEndings (normalizeLineEndings s) = normalizeLineEndings s.
Proof. apply normalize_fixed, normalize_noCR. Qed.

(** The one-pass scan of the regular expression and the two-pass
    wording of the specification are the same function. *)
Lemma normalize_is_replace : forall s,
  normalizeLineEndings s = replaceLineEndings s.
Proof.
  unfold replaceLineEndings.
  apply by_length. intros [|c rest] IH; [reflexivity|].
  cbn [normalizeLineEndings crlfToLf].
  destruct rest as [|d rest'].
  - cbn [crToLf normalizeLineEndings]. destruct (Ascii.eqb c CR); reflexivity.
  - destruct (Ascii.eqb c CR) eqn:Ec; cbn [andb].
    + destruct (Ascii.eqb d LF) eqn:Ed.
      * cbn [crToLf]. change (Ascii.eqb LF CR) with false. cbv iota.
        f_equal. apply IH. cbn [String.length]. lia.
      * cbn [crToLf]. rewrite Ec. f_equal.
        apply IH. cbn [String.length]. lia.
    + cbn [crToLf]. rewrite Ec. f_equal.
      rewrite (IH (String d rest')) by (cbn [String.length]; lia).
      reflexivity.
Qed.

End NormalizeFacts.

(* ================================================================== *)
(** * The parser: one turn of the loop, case by case *)
(* ================================================================== *)

Module ParseFacts.

Import Str Arr Model Normalize Parse.
Local Open Scope string_scope.
Local Open Scope list_scope.

Lemma fold_left_invariant {A B} (step : A -> B -> A)
      (P : A -> Prop) (Q : B -> Prop) :
  (forall a b, P a -> Q b -> P (step a b)) ->
  forall ls a, Forall Q ls -> P a -> P (fold_left step ls a).
Proof.
  intros H ls. induction ls as [|b ls IH]; intros a HQ Ha; simpl; auto.
  inversion HQ; subst. apply IH; auto.
Qed.

Lemma updLast_snoc {A} (g : A -> A) l x : updLast g (l ++ [x]) = l ++ [g x].
Proof.
  induction l as [|y l IH]; [reflexivity|].
  cbn [app updLast]. rewrite IH. destruct l; reflexivity.
Qed.

Lemma updLast_nil {A} (g : A -> A) : updLast g [] = [].
Proof. reflexivity. Qed.

Lemma snoc_cases {A} (l : list A) : l = [] \/ exists l' x, l = l' ++ [x].
Proof.
  destruct l as [|y l]; [now left|right].
  destruct (exists_last (l := y :: l)) as [l' [x H]]; [discriminate|eauto].
Qed.

Lemma updLast_Forall {A} (P : A -> Prop) (g : A -> A) l :
  (forall x, P x -> P (g x)) -> Forall P l -> Forall P (updLast g l).
Proof.
  intros Hg H. destruct (snoc_cases l) as [->|[l' [x ->]]]; [constructor|].
  rewrite updLast_snoc. apply Forall_app in H. destruct H as [H1 H2].
  apply Forall_app. split; auto. inversion H2; subst. constructor; auto.
Qed.

(** What one turn of the loop can do to the state. *)
Inductive Step (st : PState) (line : string) : PState -> Prop :=
| Step_skip : Step st line st
| Step_file a b :
    matchDiffHeader line = Some (a, b) ->
    Step st line
      (mkP (updLast ensureStatus (pfiles st)
              ++ [mkFile (Some a) (Some b) StModified []])
           false (oldLine st) (newLine st))
| Step_newmode :
    startsWith line "new file mode" = true ->
    Step st line (onCurrentFile (setStatus StAdded) st)
| Step_delmode :
    startsWith line "deleted file mode" = true ->
    Step st line (onCurrentFile (setStatus StDeleted) st)
| Step_oldpath :
    Step st line
      (onCurrentFile (setOldPath (pathOf "a/" (trim (sliceFrom 4 line)))) st)
| Step_newpath :
    Step st line
      (onCurrentFile (setNewPath (pathOf "b/" (trim (sliceFrom 4 line)))) st)
| Step_hunk oStart oLines nStart nLines :
    pfiles st <> [] ->
    Step st line
      (mkP (updLast (pushHunk (mkHunk line oStart oLines nStart nLines []))
                    (pfiles st))
           true oStart nStart)
| Step_added :
    hasHunk st = true ->
    Step st line
      (mkP (pfiles (onCurrentHunk
              (pushLine (mkLine LAdded (sliceFrom 1 line) None (Some (newLine st)))) st))
           true (oldLine st) (newLine st + 1))
| Step_removed :
    hasHunk st = true ->
    Step st line
      (mkP (pfiles (onCurrentHunk
              (pushLine (mkLine LRemoved (sliceFrom 1 line) (Some (oldLine st)) None)) st))
           true (oldLine st + 1) (newLine st))
| Step_context :
    hasHunk st = true ->
    Step st line
      (mkP (pfiles (onCurrentHunk
              (pushLine (mkLine LContext (sliceFrom 1 line)
                                (Some (oldLine st)) (Some (newLine st)))) st))
           true (oldLine st + 1) (newLine st + 1)).

Lemma parseLine_Step st line : Step st line (parseLine st line).
Proof.
  unfold parseLine.
  destruct (matchDiffHeader line) as [[a b]|] eqn:Eh; [now apply Step_file|].
  destruct (pfiles st) eqn:Ef; [apply Step_skip|].
  assert (Hne : pfiles st <> []) by (rewrite Ef; discriminate).
  rewrite <- Ef.
  destruct (startsWith line "new file mode") eqn:E1; [now apply Step_newmode|].
  destruct (startsWith line "deleted file mode") eqn:E2; [now apply Step_delmode|].
  destruct (startsWith line "--- "); [apply Step_oldpath|].
  destruct (startsWith line "+++ "); [apply Step_newpath|].
  destruct (matchHunkHeader line) as [[[[o1 o2] n1] n2]|]; [now apply Step_hunk|].
  destruct (hasHunk st) eqn:Eh'; cbn [negb]; [|apply Step_skip].
  destruct (startsWith line "\ No newline at end of file"); [apply Step_skip|].
  destruct (startsWith line "+").
  { destruct (startsWith line "+++"); [apply Step_skip|now apply Step_added]. }
  destruct (startsWith line "-").
  { destruct (startsWith line "---"); [apply Step_skip|now apply Step_removed]. }
  destruct (startsWith line " "); [now apply Step_context|apply Step_skip].
Qed.

(** An invariant of every turn is an invariant of the whole loop. *)
Lemma parseLines_invariant (P : PState -> Prop) (Q : string -> Prop) :
  P initial ->
  (forall st line st', P st -> Q line -> Step st line st' -> P st') ->
  forall ls, Forall Q ls -> P (parseLines ls).
Proof.
  intros H0 HS ls HQ. unfold parseLines.
  apply fold_left_invariant with (Q := Q); auto.
  intros a b Ha Hb. eapply HS; eauto. apply parseLine_Step.
Qed.

End ParseFacts.

(* ================================================================== *)
(** * Status inference *)
(* ================================================================== *)

Module StatusFacts.

Import Str Arr Model Normalize Parse ParseFacts.
Local Open Scope string_scope.
Local Open Scope list_scope.

Definition newModeLine (l : string) : Prop := startsWith l "new file mode" = true.
Definition delModeLine (l : string) : Prop := startsWith l "deleted file mode" = true.

(** The status is the initial "modified", or what a mode line set. *)
Definition FromMode (ls : list string) (s : DiffFileStatus) : Prop :=
  s = StModified \/
  (s = StAdded /\ exists l, In l ls /\ newModeLine l) \/
  (s = StDeleted /\ exists l, In l ls /\ delModeLine l).

Definition OnlyNew (f : DiffFile) : Prop := oldPath f = None /\ newPath f <> None.
Definition OnlyOld (f : DiffFile) : Prop := newPath f = None /\ oldPath f <> None.

Definition StatusInferred (ls : list string) (f : DiffFile) : Prop :=
  (OnlyNew f -> status f = StAdded) /\
  (OnlyOld f -> status f = StDeleted) /\
  (~ OnlyNew f -> ~ OnlyOld f -> FromMode ls (status f)).

Lemma ensureStatus_infers ls f :
  FromMode ls (status f) -> StatusInferred ls (ensureStatus f).
Proof.
  intro H. unfold ensureStatus, statusUnset, StatusInferred, OnlyNew, OnlyOld.
  destruct f as [[o|] [n|] s hs]; cbn in *;
    repeat split; try tauto; try congruence;
    intros; try (intuition congruence).
Qed.

Lemma ensureStatus_keeps ls f :
  StatusInferred ls f -> StatusInferred ls (ensureStatus f).
Proof.
  unfold ensureStatus, statusUnset, StatusInferred, OnlyNew, OnlyOld.
  destruct f as [[o|] [n|] s hs]; cbn; intros (H1 & H2 & H3);
    repeat split; try tauto; try congruence;
    intros; try (intuition congruence).
Qed.

(** Files before the current one are final; the current one still is
    in the state the mode lines put it in. *)
Definition StatusInv (ls : list string) (st : PState) : Prop :=
  pfiles st = [] \/
  exists done cur, pfiles st = done ++ [cur] /\
    Forall (StatusInferred ls) done /\ FromMode ls (status cur).

Lemma StatusInv_onCurrent ls st g :
  StatusInv ls st ->
  (forall f, FromMode ls (status f) -> FromMode ls (status (g f))) ->
  StatusInv ls (mkP (updLast g (pfiles st)) (hasHunk st) (oldLine st) (newLine st)).
Proof.
  intros [E|(done & cur & E & Hd & Hc)] Hg; unfold StatusInv; cbn [pfiles]; rewrite E.
  - now left.
  - right. exists done, (g cur). rewrite updLast_snoc. auto.
Qed.

Lemma StatusInv_step ls st line st' :
  StatusInv ls st -> In line ls -> Step st line st' -> StatusInv ls st'.
Proof.
  intros Hinv Hin HS. destruct HS.
  - assumption.
  - right. cbn [pfiles].
    exists (updLast ensureStatus (pfiles st)), (mkFile (Some a) (Some b) StModified []).
    repeat split; [|now left].
    destruct Hinv as [E|(done & cur & E & Hd & Hc)]; rewrite E.
    + constructor.
    + rewrite updLast_snoc. apply Forall_app. split; [assumption|].
      constructor; [|constructor]. now apply ensureStatus_infers.
  - apply StatusInv_onCurrent; [assumption|].
    intros f _. right. left. split; [reflexivity|]. now exists line.
  - apply StatusInv_onCurrent; [assumption|].
    intros f _. right. right. split; [reflexivity|]. now exists line.
  - apply StatusInv_onCurrent; auto.
  - apply StatusInv_onCurrent; auto.
  - destruct Hinv as [E|(done & cur & E & Hd & Hc)]; [now left|right].
    cbn [pfiles]. rewrite E, updLast_snoc. eauto.
  - destruct Hinv as [E|(done & cur & E & Hd & Hc)]; [left|right];
      cbn [pfiles onCurrentHunk onCurrentFile]; rewrite E; [reflexivity|].
    rewrite updLast_snoc. eauto.
  - destruct Hinv as [E|(done & cur & E & Hd & Hc)]; [left|right];
      cbn [pfiles onCurrentHunk onCurrentFile]; rewrite E; [reflexivity|].
    rewrite updLast_snoc. eauto.
  - destruct Hinv as [E|(done & cur & E & Hd & Hc)]; [left|right];
      cbn [pfiles onCurrentHunk onCurrentFile]; rewrite E; [reflexivity|].
    rewrite updLast_snoc. eauto.
Qed.

Lemma StatusInv_parseLines ls : StatusInv ls (parseLines ls).
Proof.
  apply parseLines_invariant with (Q := fun l => In l ls).
  - now left.
  - intros. eapply StatusInv_step; eauto.
  - apply Forall_forall. auto.
Qed.

Lemma parse_StatusInferred raw f :
  In f (files (parseUnifiedDiff raw)) ->
  StatusInferred (split_lines (normalizeLineEndings raw)) f.
Proof.
  unfold parseUnifiedDiff. cbn [files]. intro H.
  apply in_map_iff in H. destruct H as (g & <- & Hg).
  destruct (StatusInv_parseLines (split_lines (normalizeLineEndings raw)))
    as [E|(done & cur & E & Hd & Hc)]; rewrite E in Hg; [contradiction|].
  apply in_app_iff in Hg. destruct Hg as [Hg|[<-|[]]].
  - apply ensureStatus_keeps. rewrite Forall_forall in Hd. auto.
  - now apply ensureStatus_infers.
Qed.

End StatusFacts.

Section StatusInference.

Import Str Arr Model Normalize Parse StatusFacts.
Local Open Scope string_scope.
Local Open Scope list_scope.


Definition nl : string := String LF "".

Definition addedDiff : string :=
  "diff --git a/src/new.txt b/src/new.txt" ++ nl ++
  "new file mode 100644" ++ nl ++
  "--- /dev/null" ++ nl ++
  "+++ b/src/new.txt" ++ nl ++
  "@@ -0,0 +1,2 @@" ++ nl ++
  "+first" ++ nl ++
  "+second".

Definition addedFile : DiffFile :=
  mkFile None (Some "src/new.txt") StAdded
    [mkHunk "@@ -0,0 +1,2 @@" 0 0 1 2
       [mkLine LAdded "first" None (Some 1%Z);
        mkLine LAdded "second" None (Some 2%Z)]].


End StatusInference.

(* ================================================================== *)
(** * Line numbers inside a hunk *)
(* ================================================================== *)

Module LineNumberFacts.

Import Str Arr Model Normalize Parse ParseFacts.
Local Open Scope string_scope.
Local Open Scope list_scope.
Local Open Scope Z_scope.

(** The line is present in the old file; in the new file. *)
Definition onOldSide (l : DiffLine) : bool :=
  match type l with LAdded => false | _ => true end.
Definition onNewSide (l : DiffLine) : bool :=
  match type l with LRemoved => false | _ => true end.

(** How many of the lines are present on each side. *)
Definition countOld (ls : list DiffLine) : Z := Z.of_nat (List.length (filter onOldSide ls)).
Definition countNew (ls : list DiffLine) : Z := Z.of_nat (List.length (filter onNewSide ls)).

(** The numbers that the line at position [i] of hunk [h] must carry. *)
Definition NumberedAt (h : DiffHunk) (i : nat) (l : DiffLine) : Prop :=
  let o := oldStart h + countOld (firstn i (lines h)) in
  let n := newStart h + countNew (firstn i (lines h)) in
  match type l with
  | LAdded => oldLineNumber l = None /\ newLineNumber l = Some n
  | LRemoved => oldLineNumber l = Some o /\ newLineNumber l = None
  | LContext => oldLineNumber l = Some o /\ newLineNumber l = Some n
  end.

Definition Numbered (h : DiffHunk) : Prop :=
  forall i l, nth_error (lines h) i = Some l -> NumberedAt h i l.

Lemma countOld_snoc ls l :
  countOld (ls ++ [l]) = countOld ls + (if onOldSide l then 1 else 0).
Proof.
  unfold countOld. rewrite filter_app, length_app. cbn [filter].
  destruct (onOldSide l); cbn [List.length]; lia.
Qed.

Lemma countNew_snoc ls l :
  countNew (ls ++ [l]) = countNew ls + (if onNewSide l then 1 else 0).
Proof.
  unfold countNew. rewrite filter_app, length_app. cbn [filter].
  destruct (onNewSide l); cbn [List.length]; lia.
Qed.

(** Pushing a line that carries the running counters keeps a hunk
    numbered. *)
Lemma Numbered_pushLine h l :
  Numbered h ->
  NumberedAt (pushLine l h) (List.length (lines h)) l ->
  Numbered (pushLine l h).
Proof.
  intros Hh Hl i l' Hi. cbn [pushLine lines] in Hi.
  destruct (Nat.lt_ge_cases i (List.length (lines h))) as [Hlt|Hge].
  - rewrite nth_error_app1 in Hi by assumption.
    specialize (Hh i l' Hi). unfold NumberedAt in *.
    cbn [pushLine lines oldStart newStart].
    rewrite firstn_app.
    replace (i - List.length (lines h))%nat with 0%nat by lia.
    cbn [firstn]. rewrite app_nil_r. exact Hh.
  - rewrite nth_error_app2 in Hi by assumption.
    destruct (i - List.length (lines h))%nat as [|k] eqn:Ek.
    + cbn in Hi. injection Hi as <-.
      replace i with (List.length (lines h)) by lia. exact Hl.
    + cbn in Hi. destruct k; discriminate.
Qed.

Lemma NumberedAt_end h l :
  let o := oldStart h + countOld (lines h) in
  let n := newStart h + countNew (lines h) in
  match type l with
  | LAdded => oldLineNumber l = None /\ newLineNumber l = Some n
  | LRemoved => oldLineNumber l = Some o /\ newLineNumber l = None
  | LContext => oldLineNumber l = Some o /\ newLineNumber l = Some n
  end ->
  NumberedAt (pushLine l h) (List.length (lines h)) l.
Proof.
  cbv zeta. unfold NumberedAt. cbn [pushLine lines oldStart newStart].
  rewrite firstn_app, Nat.sub_diag, firstn_all. cbn [firstn].
  rewrite app_nil_r. auto.
Qed.

Definition HunksNumbered (f : DiffFile) : Prop := Forall Numbered (hunks f).

(** All hunks built so far are numbered, and the two counters stand
    where the current hunk ends. *)
Definition NumberInv (st : PState) : Prop :=
  Forall HunksNumbered (pfiles st) /\
  (hasHunk st = true ->
   exists done cur hs h,
     pfiles st = done ++ [cur] /\ hunks cur = hs ++ [h] /\
     oldLine st = oldStart h + countOld (lines h) /\
     newLine st = newStart h + countNew (lines h)).

Lemma NumberInv_onCurrentFile st g :
  NumberInv st -> (forall f, hunks (g f) = hunks f) ->
  NumberInv (onCurrentFile g st).
Proof.
  intros [H1 H2] Hg. split; cbn [onCurrentFile pfiles hasHunk oldLine newLine].
  - apply updLast_Forall; [|assumption].
    intros f. unfold HunksNumbered. now rewrite Hg.
  - intro E. destruct (H2 E) as (done & cur & hs & h & E1 & E2 & E3 & E4).
    exists done, (g cur), hs, h. rewrite E1, updLast_snoc, Hg. auto.
Qed.

Lemma NumberInv_pushLine st l o' n' :
  NumberInv st -> hasHunk st = true ->
  (forall h, oldLine st = oldStart h + countOld (lines h) ->
             newLine st = newStart h + countNew (lines h) ->
             NumberedAt (pushLine l h) (List.length (lines h)) l /\
             o' = oldStart h + countOld (lines h ++ [l]) /\
             n' = newStart h + countNew (lines h ++ [l])) ->
  NumberInv (mkP (pfiles (onCurrentHunk (pushLine l) st)) true o' n').
Proof.
  intros [H1 H2] E Hl.
  destruct (H2 E) as (done & cur & hs & h & E1 & E2 & E3 & E4).
  destruct (Hl h E3 E4) as (Ha & Ho & Hn).
  unfold onCurrentHunk, onCurrentFile. cbn [pfiles].
  rewrite E1, updLast_snoc. unfold updHunks at 1. rewrite E2, updLast_snoc.
  rewrite E1 in H1. apply Forall_app in H1. destruct H1 as [Hd Hc].
  inversion Hc as [|? ? Hcur _]; subst. unfold HunksNumbered in Hcur.
  rewrite E2 in Hcur. apply Forall_app in Hcur. destruct Hcur as [Hhs Hh].
  inversion Hh as [|? ? Hh' _]; subst.
  split; cbn [pfiles hasHunk oldLine newLine].
  - apply Forall_app. split; [assumption|]. constructor; [|constructor].
    unfold HunksNumbered. cbn [hunks]. apply Forall_app. split; [assumption|].
    constructor; [|constructor]. now apply Numbered_pushLine.
  - intros _. eexists done, _, hs, (pushLine l h).
    split; [reflexivity|]. cbn [hunks pushLine lines oldStart newStart]. auto.
Qed.

Lemma NumberInv_step st line st' :
  NumberInv st -> Step st line st' -> NumberInv st'.
Proof.
  intros Hinv HS. destruct HS.
  - assumption.
  - destruct Hinv as [H1 _]. split; cbn [pfiles hasHunk]; [|discriminate].
    apply Forall_app. split.
    + apply updLast_Forall; [|assumption]. intros f Hf.
      unfold HunksNumbered, ensureStatus, statusUnset in *.
      destruct (_ && _); [exact Hf|]. destruct (_ && _); exact Hf.
    + constructor; [|constructor]. constructor.
  - now apply NumberInv_onCurrentFile.
  - now apply NumberInv_onCurrentFile.
  - now apply NumberInv_onCurrentFile.
  - now apply NumberInv_onCurrentFile.
  - destruct Hinv as [H1 _].
    destruct (snoc_cases (pfiles st)) as [E|(done & cur & E)]; [contradiction|].
    split; cbn [pfiles hasHunk oldLine newLine]; rewrite E, updLast_snoc.
    + rewrite E in H1. apply Forall_app in H1. destruct H1 as [Hd Hc].
      inversion Hc as [|? ? Hcur _]; subst.
      apply Forall_app. split; [assumption|]. constructor; [|constructor].
      unfold HunksNumbered in *. cbn [pushHunk hunks].
      apply Forall_app. split; [assumption|]. constructor; [|constructor].
      intros i l Hi. cbn [lines] in Hi. destruct i; discriminate.
    + intros _. eexists done, _, (hunks cur), _.
      split; [reflexivity|]. cbn [pushHunk hunks]. split; [reflexivity|].
      cbn [oldStart newStart lines]. unfold countOld, countNew. cbn. lia.
  - apply NumberInv_pushLine; auto. intros h Eo En. split.
    + apply NumberedAt_end. cbn [type oldLineNumber newLineNumber].
      split; [reflexivity|]. now rewrite En.
    + rewrite countOld_snoc, countNew_snoc. cbn. lia.
  - apply NumberInv_pushLine; auto. intros h Eo En. split.
    + apply NumberedAt_end. cbn [type oldLineNumber newLineNumber].
      split; [|reflexivity]. now rewrite Eo.
    + rewrite countOld_snoc, countNew_snoc. cbn. lia.
  - apply NumberInv_pushLine; auto. intros h Eo En. split.
    + apply NumberedAt_end. cbn [type oldLineNumber newLineNumber].
      split; [now rewrite Eo|now rewrite En].
    + rewrite countOld_snoc, countNew_snoc. cbn. lia.
Qed.

Lemma parse_Numbered raw f h :
  In f (files (parseUnifiedDiff raw)) -> In h (hunks f) -> Numbered h.
Proof.
  unfold parseUnifiedDiff. cbn [files]. intros Hf Hh.
  apply in_map_iff in Hf. destruct Hf as (g & <- & Hg).
  assert (Hinv : NumberInv (parseLines (split_lines (normalizeLineEndings raw)))).
  { apply parseLines_invariant with (Q := fun _ => True).
    - split; [constructor|discriminate].
    - intros. eapply NumberInv_step; eauto.
    - apply Forall_forall. auto. }
  destruct Hinv as [H1 _]. rewrite Forall_forall in H1.
  specialize (H1 g Hg). unfold HunksNumbered in H1. rewrite Forall_forall in H1.
  apply H1. revert Hh. unfold ensureStatus, statusUnset.
  destruct (_ && _); [auto|]. destruct (_ && _); auto.
Qed.

End LineNumberFacts.

Section LineNumberInvariant.

Import Str Arr Model Normalize Parse LineNumberFacts.
Local Open Scope string_scope.
Local Open Scope list_scope.
Local Open Scope Z_scope.


Definition modifiedDiff : string :=
  "diff --git a/a.txt b/a.txt" ++ nl ++
  "@@ -1,2 +1,2 @@" ++ nl ++
  "-hello" ++ nl ++
  "+hello world" ++ nl ++
  " keep".

Definition modifiedHunk : DiffHunk :=
  mkHunk "@@ -1,2 +1,2 @@" 1 2 1 2
    [mkLine LRemoved "hello" (Some 1) None;
     mkLine LAdded "hello world" None (Some 1);
     mkLine LContext "keep" (Some 2) (Some 2)].

Definition modifiedFile : DiffFile :=
  mkFile (Some "a.txt") (Some "a.txt") StModified [modifiedHunk].


End LineNumberInvariant.

(* ================================================================== *)
(** * No carriage return survives parsing *)
(* ================================================================== *)

Module CarriageReturnFacts.

Import Str Arr Model Normalize Parse ParseFacts NormalizeFacts.
Local Open Scope string_scope.
Local Open Scope list_scope.

Definition clean (s : string) : Prop := noCR s = true.

Lemma clean_cons c s : clean (String c s) <-> Ascii.eqb c CR = false /\ clean s.
Proof.
  unfold clean. cbn [noCR]. rewrite andb_true_iff, negb_true_iff. tauto.
Qed.

Lemma clean_append a b : clean a -> clean b -> clean (a ++ b)%string.
Proof.
  induction a as [|c a IH]; intros Ha Hb; [exact Hb|].
  apply clean_cons in Ha. destruct Ha as [Hc Ha].
  cbn [append]. apply clean_cons. auto.
Qed.

Lemma clean_splitLF s : forall cur,
  clean cur -> clean s -> Forall clean (splitLF cur s).
Proof.
  induction s as [|c s IH]; intros cur Hcur Hs; cbn [splitLF].
  - constructor; [assumption|constructor].
  - apply clean_cons in Hs. destruct Hs as [Hc Hs].
    destruct (Ascii.eqb c LF).
    + constructor; [assumption|]. apply IH; [reflexivity|assumption].
    + apply IH; [|assumption]. apply clean_append; [assumption|].
      apply clean_cons. split; [assumption|reflexivity].
Qed.

Lemma clean_lines raw : Forall clean (split_lines (normalizeLineEndings raw)).
Proof.
  apply clean_splitLF; [reflexivity|apply normalize_noCR].
Qed.

Lemma clean_stripPrefix p : forall s r,
  stripPrefix p s = Some r -> clean s -> clean r.
Proof.
  induction p as [|a p IH]; intros s r H Hs; cbn [stripPrefix] in H.
  - now injection H as <-.
  - destruct s as [|b s]; [discriminate|].
    destruct (Ascii.eqb a b); [|discriminate].
    apply clean_cons in Hs. destruct Hs as [_ Hs]. eauto.
Qed.

Lemma clean_sliceFrom n : forall s, clean s -> clean (sliceFrom n s).
Proof.
  induction n as [|n IH]; intros [|c s] Hs; cbn [sliceFrom]; auto.
  apply clean_cons in Hs. destruct Hs as [_ Hs]. auto.
Qed.

Lemma clean_trimStart s : clean s -> clean (trimStart s).
Proof.
  induction s as [|c s IH]; intro Hs; cbn [trimStart]; [assumption|].
  destruct (isTrimSpace c); [|assumption].
  apply clean_cons in Hs. destruct Hs as [_ Hs]. auto.
Qed.

Lemma clean_trimEnd s : clean s -> clean (trimEnd s).
Proof.
  induction s as [|c s IH]; intro Hs; cbn [trimEnd]; [assumption|].
  apply clean_cons in Hs. destruct Hs as [Hc Hs]. specialize (IH Hs).
  destruct (trimEnd s).
  - destruct (isTrimSpace c); [reflexivity|].
    apply clean_cons. split; [assumption|reflexivity].
  - apply clean_cons. split; assumption.
Qed.

Lemma clean_trim s : clean s -> clean (trim s).
Proof. intro H. apply clean_trimEnd, clean_trimStart, H. Qed.

Lemma clean_allDot s : allDot s = true -> clean s.
Proof.
  induction s as [|c s IH]; intro H; [reflexivity|].
  cbn [allDot] in H. apply andb_true_iff in H. destruct H as [Hc Hs].
  apply clean_cons. split; [|auto].
  unfold isDot in Hc. apply negb_true_iff, orb_false_iff in Hc. tauto.
Qed.

Lemma clean_lazyPaths s : forall taken a b,
  lazyPaths taken s = Some (a, b) -> clean taken -> clean a /\ clean b.
Proof.
  induction s as [|c s IH]; intros taken a b H Ht; cbn [lazyPaths] in H;
    [discriminate|].
  destruct (if Inline.isEmpty taken then None else _) as [[a' b']|] eqn:E.
  - injection H as -> ->.
    destruct (Inline.isEmpty taken); [discriminate|].
    destruct (stripPrefix " b/" (String c s)) as [q|]; [|discriminate].
    destruct (negb (Inline.isEmpty q) && allDot q) eqn:Eq; [|discriminate].
    injection E as <- <-. apply andb_true_iff in Eq.
    split; [assumption|apply clean_allDot; tauto].
  - destruct (isDot c) eqn:Ec; [|discriminate].
    apply IH in H; [assumption|].
    apply clean_append; [assumption|].
    apply clean_cons. split; [|reflexivity].
    unfold isDot in Ec. apply negb_true_iff, orb_false_iff in Ec. tauto.
Qed.

Lemma clean_matchDiffHeader line a b :
  matchDiffHeader line = Some (a, b) -> clean a /\ clean b.
Proof.
  unfold matchDiffHeader. destruct (stripPrefix _ line); [|discriminate].
  intro H. eapply clean_lazyPaths; [exact H|reflexivity].
Qed.

Definition cleanOpt (o : option string) : Prop :=
  match o with Some s => clean s | None => True end.

Lemma clean_pathOf strip path : clean path -> cleanOpt (pathOf strip path).
Proof.
  intro H. unfold pathOf. destruct (String.eqb path "/dev/null"); [exact I|].
  destruct (stripPrefix strip path) eqn:E; cbn; [|assumption].
  eapply clean_stripPrefix; eauto.
Qed.

Definition cleanLine (l : DiffLine) : Prop := clean (content l).
Definition cleanHunk (h : DiffHunk) : Prop :=
  clean (header h) /\ Forall cleanLine (lines h).
Definition cleanFile (f : DiffFile) : Prop :=
  cleanOpt (oldPath f) /\ cleanOpt (newPath f) /\ Forall cleanHunk (hunks f).

(** No path, hunk header or line content of the result holds a CR. *)
Definition cleanResult (r : DiffParseResult) : Prop := Forall cleanFile (files r).

Lemma cleanFile_ensureStatus f : cleanFile f -> cleanFile (ensureStatus f).
Proof.
  unfold ensureStatus, statusUnset.
  destruct (_ && _); [auto|]. destruct (_ && _); auto.
Qed.

Lemma cleanFile_pushLine l f :
  cleanLine l -> cleanFile f -> cleanFile (updHunks (updLast (pushLine l)) f).
Proof.
  intros Hl (H1 & H2 & H3). repeat split; auto. cbn [updHunks hunks].
  apply updLast_Forall; [|assumption].
  intros h [Hh Hls]. split; [assumption|]. cbn [pushLine lines].
  apply Forall_app. split; [assumption|]. constructor; [assumption|constructor].
Qed.

Definition CleanInv (st : PState) : Prop := Forall cleanFile (pfiles st).

Lemma CleanInv_step st line st' :
  CleanInv st -> clean line -> Step st line st' -> CleanInv st'.
Proof.
  unfold CleanInv. intros Hinv Hline HS.
  assert (Hs1 : clean (sliceFrom 1 line)) by now apply clean_sliceFrom.
  assert (Hs4 : clean (trim (sliceFrom 4 line)))
    by now apply clean_trim, clean_sliceFrom.
  destruct HS; cbn [pfiles onCurrentFile onCurrentHunk].
  - assumption.
  - apply Forall_app. split.
    + apply updLast_Forall; [|assumption]. apply cleanFile_ensureStatus.
    + destruct (clean_matchDiffHeader line a b H) as [Ha Hb].
      constructor; [|constructor]. repeat split; auto.
  - apply updLast_Forall; [|assumption]. intros f Hf. exact Hf.
  - apply updLast_Forall; [|assumption]. intros f Hf. exact Hf.
  - apply updLast_Forall; [|assumption]. intros f (H1 & H2 & H3).
    repeat split; auto. cbn [setOldPath oldPath]. now apply clean_pathOf.
  - apply updLast_Forall; [|assumption]. intros f (H1 & H2 & H3).
    repeat split; auto. cbn [setNewPath newPath]. now apply clean_pathOf.
  - apply updLast_Forall; [|assumption]. intros f (H1 & H2 & H3).
    repeat split; auto. cbn [pushHunk hunks].
    apply Forall_app. split; [assumption|].
    constructor; [|constructor]. split; [assumption|constructor].
  - apply updLast_Forall; [|assumption].
    intros f Hf. apply cleanFile_pushLine; [exact Hs1|exact Hf].
  - apply updLast_Forall; [|assumption].
    intros f Hf. apply cleanFile_pushLine; [exact Hs1|exact Hf].
  - apply updLast_Forall; [|assumption].
    intros f Hf. apply cleanFile_pushLine; [exact Hs1|exact Hf].
Qed.

Lemma parse_clean raw : cleanResult (parseUnifiedDiff raw).
Proof.
  unfold cleanResult, parseUnifiedDiff. cbn [files].
  apply Forall_map.
  assert (H : CleanInv (parseLines (split_lines (normalizeLineEndings raw)))).
  { apply parseLines_invariant with (Q := clean).
    - constructor.
    - intros. eapply CleanInv_step; eauto.
    - apply clean_lines. }
  eapply Forall_impl; [|exact H]. apply cleanFile_ensureStatus.
Qed.

End CarriageReturnFacts.

Section LineEndingInvariance.

Import Str Arr Model Normalize Parse NormalizeFacts CarriageReturnFacts.

(** C9: parsing the input after every CR LF pair and every bare CR has
    been replaced by LF gives the same result as parsing the input as it
    is, and no path, hunk header or line content of the result contains
    a CR. *)
Theorem C9_line_ending_invariance (rawDiff : string) :
  parseUnifiedDiff (replaceLineEndings rawDiff) = parseUnifiedDiff rawDiff /\
  cleanResult (parseUnifiedDiff rawDiff).
Proof.
  split; [|apply parse_clean].
  unfold parseUnifiedDiff.
  rewrite <- normalize_is_replace, normalize_idempotent. reflexivity.
Qed.

End LineEndingInvariance.

(* ================================================================== *)
(** * What the row builder emits *)
(* ================================================================== *)

Module TraceFacts.

Import Str Arr Model Rows Analytical.
Local Open Scope list_scope.

(** Where a row comes from: a gap, or the turn [i] of the walk of the
    hunk of index [hunkIndex]. *)
Inductive Tag := TGap | THunk (hunkIndex i : nat).

(** A row with the connector pushed along with it, if any. *)
Record Ev := mkEv { evTag : Tag; evRow : VisualRow; evConn : option ConnectorMeta }.

Definition connList (c : option ConnectorMeta) : list ConnectorMeta :=
  match c with Some x => [x] | None => [] end.

Definition evRows (evs : list Ev) : list VisualRow := map evRow evs.
Definition evConns (evs : list Ev) : list ConnectorMeta :=
  flat_map (fun e => connList (evConn e)) evs.

(** The seven ways a row is pushed. *)
Inductive EvOK : Ev -> Prop :=
| ok_gap_context o n line :
    EvOK (mkEv TGap (mkRow (contextFullId o n) (LCell LKContext line)
                           (RCell RKContext line None)) None)
| ok_gap_removed o line a :
    EvOK (mkEv TGap (mkRow (removedFullId o) (LCell LKRemoved line) RSpacer)
               (Some (ConnRemoved (removedFullId o) (removedFullId o) a)))
| ok_gap_added n line a :
    EvOK (mkEv TGap (mkRow (addedFullId n) LSpacer (RCell RKAdded line a))
               (Some (ConnAdded (addedFullId n) (addedFullId n) a)))
| ok_context h i line :
    EvOK (mkEv (THunk h i) (mkRow (contextId h i) (LCell LKContext line)
                                  (RCell RKContext line None)) None)
| ok_change h i l1 l2 :
    EvOK (mkEv (THunk h i) (mkRow (changeId h i) (LCell LKChange l1)
                                  (RCell RKChange l2 None))
               (Some (ConnChange (changeId h i) (changeId h i))))
| ok_removed h i line a :
    EvOK (mkEv (THunk h i) (mkRow (removedId h i) (LCell LKRemoved line) RSpacer)
               (Some (ConnRemoved (removedId h i) (removedId h i) a)))
| ok_added h i line a :
    EvOK (mkEv (THunk h i) (mkRow (addedId h i) LSpacer (RCell RKAdded line a))
               (Some (ConnAdded (addedId h i) (addedId h i) a))).

(** Lexicographic order on (hunk index, turn). *)
Definition lexle (a b : nat * nat) : Prop :=
  fst a < fst b \/ (fst a = fst b /\ snd a <= snd b).

Lemma lexle_refl a : lexle a a.
Proof. right. split; [reflexivity|apply Nat.le_refl]. Qed.

Lemma lexle_trans a b c : lexle a b -> lexle b c -> lexle a c.
Proof. unfold lexle. lia. Qed.

(** The hunk tags of [evs] increase strictly, from [lo] at least and
    to below [hi]. *)
Fixpoint Between (lo hi : nat * nat) (evs : list Ev) : Prop :=
  match evs with
  | [] => lexle lo hi
  | e :: rest =>
      match evTag e with
      | TGap => Between lo hi rest
      | THunk h i => lexle lo (h, i) /\ Between (h, S i) hi rest
      end
  end.

Lemma Between_lexle evs : forall lo hi, Between lo hi evs -> lexle lo hi.
Proof.
  induction evs as [|e evs IH]; intros lo hi H; cbn [Between] in H; [exact H|].
  destruct (evTag e) as [|h i]; [auto|].
  destruct H as [H1 H2]. apply IH in H2.
  eapply lexle_trans; [exact H1|]. eapply lexle_trans; [|exact H2].
  unfold lexle. cbn. lia.
Qed.

Lemma Between_lower evs : forall lo lo' hi,
  lexle lo' lo -> Between lo hi evs -> Between lo' hi evs.
Proof.
  induction evs as [|e evs IH]; intros lo lo' hi Hl H; cbn [Between] in *.
  - eapply lexle_trans; eauto.
  - destruct (evTag e) as [|h i]; [eauto|].
    destruct H as [H1 H2]. split; [eapply lexle_trans; eauto|exact H2].
Qed.

Lemma Between_upper evs : forall lo hi hi',
  lexle hi hi' -> Between lo hi evs -> Between lo hi' evs.
Proof.
  induction evs as [|e evs IH]; intros lo hi hi' Hl H; cbn [Between] in *.
  - eapply lexle_trans; eauto.
  - destruct (evTag e) as [|h i]; [eauto|].
    destruct H as [H1 H2]. split; [exact H1|eauto].
Qed.

Lemma Between_app e1 : forall e2 lo mid hi,
  Between lo mid e1 -> Between mid hi e2 -> Between lo hi (e1 ++ e2).
Proof.
  induction e1 as [|e e1 IH]; intros e2 lo mid hi H1 H2; cbn [app Between] in *.
  - eapply Between_lower; eauto.
  - destruct (evTag e) as [|h i]; [eauto|].
    destruct H1 as [H1 H1']. split; [exact H1|eauto].
Qed.

Lemma Between_split e1 : forall e2 lo hi,
  Between lo hi (e1 ++ e2) -> exists mid, Between lo mid e1 /\ Between mid hi e2.
Proof.
  induction e1 as [|e e1 IH]; intros e2 lo hi H; cbn [app Between] in *.
  - exists lo. split; [apply lexle_refl|exact H].
  - destruct (evTag e) as [|h i].
    + apply IH in H. exact H.
    + destruct H as [H1 H2]. apply IH in H2. destruct H2 as (mid & H2 & H3).
      exists mid. auto.
Qed.

(** Every hunk tag in the list lies in the interval. *)
Lemma Between_In evs : forall lo hi e h i,
  Between lo hi evs -> In e evs -> evTag e = THunk h i ->
  lexle lo (h, i) /\ lexle (h, S i) hi.
Proof.
  induction evs as [|x evs IH]; intros lo hi e h i H Hin Ht; [contradiction|].
  cbn [Between] in H. destruct Hin as [->|Hin].
  - rewrite Ht in H. destruct H as [H1 H2]. split; [exact H1|].
    eapply Between_lexle; eauto.
  - destruct (evTag x) as [|h' i'].
    + eauto.
    + destruct H as [H1 H2]. destruct (IH _ _ _ _ _ H2 Hin Ht) as [H3 H4].
      split; [|exact H4]. eapply lexle_trans; [exact H1|].
      eapply lexle_trans; [|exact H3]. unfold lexle. cbn. lia.
Qed.

(** A hunk tag occurs once. *)
Lemma Between_once A e B lo hi h i :
  Between lo hi (A ++ e :: B) -> evTag e = THunk h i ->
  forall x, In x (A ++ B) -> evTag x <> THunk h i.
Proof.
  intros H Ht x Hx Hxt.
  apply Between_split in H. destruct H as (mid & HA & HB).
  cbn [Between] in HB. rewrite Ht in HB. destruct HB as [Hm HB].
  apply in_app_iff in Hx. destruct Hx as [Hx|Hx].
  - destruct (Between_In _ _ _ _ _ _ HA Hx Hxt) as [_ Hup].
    pose proof (lexle_trans _ _ _ Hup Hm) as Hc. unfold lexle in Hc. cbn in Hc. lia.
  - destruct (Between_In _ _ _ _ _ _ HB Hx Hxt) as [Hlow _].
    unfold lexle in Hlow. cbn in Hlow. lia.
Qed.

(** [st'] is [st] with the rows and the connectors of [evs] pushed. *)
Definition Extends (st st' : BState) (evs : list Ev) : Prop :=
  rows st' = rows st ++ evRows evs /\
  connectors st' = connectors st ++ evConns evs.

Lemma Extends_refl st : Extends st st [].
Proof. split; cbn; now rewrite app_nil_r. Qed.

Lemma Extends_trans a b c e1 e2 :
  Extends a b e1 -> Extends b c e2 -> Extends a c (e1 ++ e2).
Proof.
  intros [H1 H2] [H3 H4]. unfold Extends, evRows, evConns in *.
  rewrite map_app, flat_map_app, H3, H4, H1, H2, <- !app_assoc. auto.
Qed.

Lemma Extends_one st st' e :
  rows st' = rows st ++ [evRow e] ->
  connectors st' = connectors st ++ connList (evConn e) ->
  Extends st st' [e].
Proof.
  intros H1 H2. split; cbn; [exact H1|now rewrite app_nil_r].
Qed.

(** A run of events that are all well formed and in order. *)
Definition Trace (lo hi : nat * nat) (st st' : BState) (evs : list Ev) : Prop :=
  Extends st st' evs /\ Forall EvOK evs /\ Between lo hi evs.

Lemma Trace_refl lo st : Trace lo lo st st [].
Proof.
  split; [apply Extends_refl|]. split; [constructor|apply lexle_refl].
Qed.

Lemma Trace_trans lo mid hi a b c e1 e2 :
  Trace lo mid a b e1 -> Trace mid hi b c e2 -> Trace lo hi a c (e1 ++ e2).
Proof.
  intros (H1 & H2 & H3) (H4 & H5 & H6). split; [eapply Extends_trans; eauto|].
  split; [apply Forall_app; auto|eapply Between_app; eauto].
Qed.

Lemma Trace_gap_one lo st st' e :
  EvOK e -> evTag e = TGap ->
  rows st' = rows st ++ [evRow e] ->
  connectors st' = connectors st ++ connList (evConn e) ->
  Trace lo lo st st' [e].
Proof.
  intros Hok Ht H1 H2. split; [now apply Extends_one|].
  split; [constructor; [exact Hok|constructor]|].
  cbn [Between]. rewrite Ht. apply lexle_refl.
Qed.

Lemma gapTurn_Trace lo so sn os ns oc nc st off :
  exists evs, Trace lo lo st (gapTurn so sn os ns oc nc st off) evs.
Proof.
  unfold gapTurn.
  destruct (_ && _).
  - eexists. eapply Trace_gap_one;
      [eapply ok_gap_context|reflexivity|reflexivity|cbn; now rewrite app_nil_r].
  - destruct (_ <? oc)%Z.
    + eexists. eapply Trace_gap_one;
        [eapply ok_gap_removed|reflexivity|reflexivity|reflexivity].
    + destruct (_ <? nc)%Z.
      * eexists. eapply Trace_gap_one;
          [eapply ok_gap_added|reflexivity|reflexivity|reflexivity].
      * exists []. apply Trace_refl.
Qed.

Lemma fold_gapTurn_Trace lo so sn os ns oc nc offs : forall st,
  exists evs,
    Trace lo lo st (fold_left (gapTurn so sn os ns oc nc) offs st) evs.
Proof.
  induction offs as [|off offs IH]; intro st; cbn [fold_left].
  - exists []. apply Trace_refl.
  - destruct (gapTurn_Trace lo so sn os ns oc nc st off) as [e1 H1].
    destruct (IH (gapTurn so sn os ns oc nc st off)) as [e2 H2].
    exists (e1 ++ e2). eapply Trace_trans; eauto.
Qed.

Lemma pushGapLines_Trace lo so sn st a b c d :
  exists evs, Trace lo lo st (pushGapLines so sn st a b c d) evs.
Proof.
  unfold pushGapLines. destruct (_ && _).
  - exists []. apply Trace_refl.
  - apply fold_gapTurn_Trace.
Qed.

Lemma Trace_upper lo hi hi' st st' evs :
  lexle hi hi' -> Trace lo hi st st' evs -> Trace lo hi' st st' evs.
Proof.
  intros Hl (H1 & H2 & H3). split; [exact H1|]. split; [exact H2|].
  eapply Between_upper; eauto.
Qed.

Lemma Trace_hunk_one h i st st' e :
  EvOK e -> evTag e = THunk h i ->
  rows st' = rows st ++ [evRow e] ->
  connectors st' = connectors st ++ connList (evConn e) ->
  Trace (h, i) (h, S i) st st' [e].
Proof.
  intros Hok Ht H1 H2. split; [now apply Extends_one|].
  split; [constructor; [exact Hok|constructor]|].
  cbn [Between]. rewrite Ht. split; apply lexle_refl.
Qed.

Lemma walkLines_Trace_bounded h n : forall ls i st,
  List.length ls <= n ->
  exists evs, Trace (h, i) (h, i + List.length ls) st (walkLines h i ls st) evs.
Proof.
  induction n as [|n IH]; intros ls i st Hn.
  - destruct ls; [|cbn in Hn; lia]. cbn [walkLines List.length].
    rewrite Nat.add_0_r. exists []. apply Trace_refl.
  - destruct ls as [|line rest].
    { cbn [walkLines List.length]. rewrite Nat.add_0_r. exists []. apply Trace_refl. }
    cbn [List.length] in Hn.
    assert (Hone : forall e st1,
               EvOK e -> evTag e = THunk h i ->
               rows st1 = rows st ++ [evRow e] ->
               connectors st1 = connectors st ++ connList (evConn e) ->
               exists evs, Trace (h, i) (h, i + S (List.length rest)) st
                                 (walkLines h (i + 1) rest st1) evs).
    { intros e st1 Hok Ht Hr Hc.
      destruct (IH rest (i + 1) st1) as [evs Hevs]; [lia|].
      exists ([e] ++ evs). eapply Trace_trans.
      - eapply Trace_hunk_one; eauto.
      - replace (i + S (List.length rest)) with (i + 1 + List.length rest) by lia.
        replace (S i) with (i + 1) by lia. exact Hevs. }
    assert (Htwo : forall e st1 next rest',
               rest = next :: rest' ->
               EvOK e -> evTag e = THunk h i ->
               rows st1 = rows st ++ [evRow e] ->
               connectors st1 = connectors st ++ connList (evConn e) ->
               exists evs, Trace (h, i) (h, i + S (List.length rest)) st
                                 (walkLines h (i + 1 + 1) rest' st1) evs).
    { intros e st1 next rest' -> Hok Ht Hr Hc. cbn [List.length] in *.
      destruct (IH rest' (i + 1 + 1) st1) as [evs Hevs]; [lia|].
      exists ([e] ++ evs). eapply Trace_trans.
      - eapply Trace_hunk_one; eauto.
      - replace (i + S (S (List.length rest')))
          with (i + 1 + 1 + List.length rest') by lia.
        eapply Trace_upper in Hevs; [|apply lexle_refl].
        destruct Hevs as (H1 & H2 & H3). split; [exact H1|]. split; [exact H2|].
        eapply Between_lower; [|exact H3]. unfold lexle. cbn. lia. }
    cbn [walkLines].
    destruct (type line).
    + eapply Hone; [eapply ok_context|reflexivity|reflexivity|cbn; now rewrite app_nil_r].
    + destruct rest as [|next rest'].
      * eapply Hone; [eapply ok_added|reflexivity|reflexivity|reflexivity].
      * destruct (isType LRemoved next).
        -- eapply Htwo; [reflexivity|eapply ok_change|reflexivity|reflexivity|reflexivity].
        -- eapply Hone; [eapply ok_added|reflexivity|reflexivity|reflexivity].
    + destruct rest as [|next rest'].
      * eapply Hone; [eapply ok_removed|reflexivity|reflexivity|reflexivity].
      * destruct (isType LAdded next).
        -- eapply Htwo; [reflexivity|eapply ok_change|reflexivity|reflexivity|reflexivity].
        -- eapply Hone; [eapply ok_removed|reflexivity|reflexivity|reflexivity].
Qed.

Lemma walkLines_Trace h i ls st :
  exists evs, Trace (h, i) (h, i + List.length ls) st (walkLines h i ls st) evs.
Proof. eapply walkLines_Trace_bounded. apply Nat.le_refl. Qed.

Lemma hunkTurn_Trace full so sn lp k hunk :
  exists evs,
    Trace (k, 0) (S k, 0) (state lp) (state (hunkTurn full so sn lp k hunk)) evs.
Proof.
  unfold hunkTurn. cbn [state].
  assert (G : exists e1, Trace (k, 0) (k, 0) (state lp) (gapBefore full so sn lp hunk) e1).
  { unfold gapBefore. destruct full; [apply pushGapLines_Trace|].
    exists []. apply Trace_refl. }
  destruct G as [e1 H1].
  destruct (walkLines_Trace k 0 (lines hunk) (gapBefore full so sn lp hunk)) as [e2 H2].
  exists (e1 ++ e2). eapply Trace_trans; [exact H1|].
  eapply Trace_upper; [|exact H2]. unfold lexle. cbn. lia.
Qed.

Lemma forEachHunk_Trace full so sn hs : forall k lp,
  exists evs,
    Trace (k, 0) (k + List.length hs, 0) (state lp)
          (state (forEachHunk full so sn k hs lp)) evs.
Proof.
  induction hs as [|hunk hs IH]; intros k lp; cbn [forEachHunk List.length].
  - rewrite Nat.add_0_r. exists []. apply Trace_refl.
  - destruct (hunkTurn_Trace full so sn lp k hunk) as [e1 H1].
    destruct (IH (S k) (hunkTurn full so sn lp k hunk)) as [e2 H2].
    exists (e1 ++ e2). eapply Trace_trans; [exact H1|].
    replace (k + S (List.length hs)) with (S k + List.length hs) by lia. exact H2.
Qed.

(** The rows and the raw connectors of a build are the rows and the
    connectors of one well-formed, ordered run of events. *)
Lemma buildRaw_Trace file oldFileLines newFileLines :
  exists evs,
    rows (buildRaw file oldFileLines newFileLines) = evRows evs /\
    connectors (buildRaw file oldFileLines newFileLines) = evConns evs /\
    Forall EvOK evs /\
    Between (0, 0) (List.length (hunks file), 0) evs.
Proof.
  unfold buildRaw.
  set (full := hasFullFiles oldFileLines newFileLines).
  set (so := orEmpty oldFileLines). set (sn := orEmpty newFileLines).
  destruct (forEachHunk_Trace full so sn (hunks file) 0 initialLoop) as [e1 H1].
  set (lp := forEachHunk full so sn 0 (hunks file) initialLoop) in *.
  assert (G : exists e2, Trace (List.length (hunks file), 0) (List.length (hunks file), 0)
                               (state lp) (gapAfter full so sn lp) e2).
  { unfold gapAfter. destruct full; [apply pushGapLines_Trace|].
    exists []. apply Trace_refl. }
  destruct G as [e2 H2].
  destruct (Trace_trans _ _ _ _ _ _ _ _ H1 H2) as ((Hr & Hc) & Hok & Hb).
  exists (e1 ++ e2). cbn in Hr, Hc. auto.
Qed.

End TraceFacts.

(* ================================================================== *)
(** * The two builders, side by side *)
(* ================================================================== *)

Module SimFacts.

Import Str Arr Model Rows.
Local Open Scope list_scope.

Module A := Analytical.
Module M := Measured.

(** The non-spacer left cells of the rows, as column items. *)
Definition leftItemOf (r : A.VisualRow) : list M.LeftItem :=
  match A.left r with
  | A.LCell k l => [M.mkLeft (A.rowId r) l k]
  | A.LSpacer => []
  end.

Definition rightItemOf (r : A.VisualRow) : list M.RightItem :=
  match A.right r with
  | A.RCell k l a => [M.mkRight (A.rowId r) l k a]
  | A.RSpacer => []
  end.

Definition leftItemsOf (rows : list A.VisualRow) : list M.LeftItem :=
  flat_map leftItemOf rows.
Definition rightItemsOf (rows : list A.VisualRow) : list M.RightItem :=
  flat_map rightItemOf rows.

(** The state of [buildColumns] holds the columns of the rows that the
    state of [buildVisualRows] holds, and the rest is the same. *)
Definition Sim (a : A.BState) (m : M.CState) : Prop :=
  M.leftItems m = leftItemsOf (A.rows a) /\
  M.rightItems m = rightItemsOf (A.rows a) /\
  M.connectors m = A.connectors a /\
  M.lastOldLine m = A.lastOldLine a /\
  M.lastNewLine m = A.lastNewLine a.

Lemma Sim_push a m r li ri cs lo ln :
  Sim a m -> leftItemOf r = li -> rightItemOf r = ri ->
  Sim (A.mkB (A.rows a ++ [r]) (A.connectors a ++ cs) lo ln)
      (M.mkC (M.leftItems m ++ li) (M.rightItems m ++ ri)
             (M.connectors m ++ cs) lo ln).
Proof.
  intros (H1 & H2 & H3 & H4 & H5) Hl Hr. unfold Sim, leftItemsOf, rightItemsOf.
  cbn [A.rows A.connectors A.lastOldLine A.lastNewLine
       M.leftItems M.rightItems M.connectors M.lastOldLine M.lastNewLine].
  rewrite !flat_map_app. cbn [flat_map]. rewrite !app_nil_r.
  rewrite H1, H2, H3, Hl, Hr. auto.
Qed.

Lemma Sim_context a m id line lo ln :
  Sim a m ->
  Sim (A.mkB (A.rows a ++ [A.mkRow id (A.LCell LKContext line) (A.RCell RKContext line None)])
             (A.connectors a) lo ln)
      (M.mkC (M.leftItems m ++ [M.mkLeft id line LKContext])
             (M.rightItems m ++ [M.mkRight id line RKContext None])
             (M.connectors m) lo ln).
Proof.
  intro H.
  rewrite <- (app_nil_r (M.connectors m)), <- (app_nil_r (A.connectors a)).
  apply Sim_push; [exact H|reflexivity|reflexivity].
Qed.

Lemma Sim_change a m id l1 l2 lo ln :
  Sim a m ->
  Sim (A.mkB (A.rows a ++ [A.mkRow id (A.LCell LKChange l1) (A.RCell RKChange l2 None)])
             (A.connectors a ++ [ConnChange id id]) lo ln)
      (M.mkC (M.leftItems m ++ [M.mkLeft id l1 LKChange])
             (M.rightItems m ++ [M.mkRight id l2 RKChange None])
             (M.connectors m ++ [ConnChange id id]) lo ln).
Proof. intro H. apply Sim_push; [exact H|reflexivity|reflexivity]. Qed.

Lemma Sim_removed a m id line an lo ln :
  Sim a m ->
  Sim (A.mkB (A.rows a ++ [A.mkRow id (A.LCell LKRemoved line) A.RSpacer])
             (A.connectors a ++ [ConnRemoved id id an]) lo ln)
      (M.mkC (M.leftItems m ++ [M.mkLeft id line LKRemoved])
             (M.rightItems m)
             (M.connectors m ++ [ConnRemoved id id an]) lo ln).
Proof.
  intro H. rewrite <- (app_nil_r (M.rightItems m)).
  apply Sim_push; [exact H|reflexivity|reflexivity].
Qed.

Lemma Sim_added a m id line an lo ln :
  Sim a m ->
  Sim (A.mkB (A.rows a ++ [A.mkRow id A.LSpacer (A.RCell RKAdded line an)])
             (A.connectors a ++ [ConnAdded id id an]) lo ln)
      (M.mkC (M.leftItems m)
             (M.rightItems m ++ [M.mkRight id line RKAdded an])
             (M.connectors m ++ [ConnAdded id id an]) lo ln).
Proof.
  intro H. rewrite <- (app_nil_r (M.leftItems m)).
  apply Sim_push; [exact H|reflexivity|reflexivity].
Qed.

Lemma Sim_lastOld a m : Sim a m -> M.lastOldLine m = A.lastOldLine a.
Proof. intros (_ & _ & _ & H & _). exact H. Qed.

Lemma Sim_lastNew a m : Sim a m -> M.lastNewLine m = A.lastNewLine a.
Proof. intros (_ & _ & _ & _ & H). exact H. Qed.

Lemma Sim_gapTurn so sn os ns oc nc a m off :
  Sim a m ->
  Sim (A.gapTurn so sn os ns oc nc a off) (M.gapTurn so sn os ns oc nc m off).
Proof.
  intro H. unfold A.gapTurn, M.gapTurn.
  destruct (_ && _).
  - unfold A.pushContextRow, M.pushContextRow. now apply Sim_context.
  - destruct (_ <? oc)%Z.
    + unfold A.pushRemovedRow, M.pushRemovedRow.
      rewrite (Sim_lastNew a m H). now apply Sim_removed.
    + destruct (_ <? nc)%Z; [|exact H].
      unfold A.pushAddedRow, M.pushAddedRow.
      rewrite (Sim_lastOld a m H). now apply Sim_added.
Qed.

Lemma Sim_pushGapLines so sn a m x y z w :
  Sim a m ->
  Sim (A.pushGapLines so sn a x y z w) (M.pushGapLines so sn m x y z w).
Proof.
  intro H. unfold A.pushGapLines, M.pushGapLines.
  destruct (_ && _); [exact H|].
  generalize (seq 0 (Z.to_nat (Z.max (Z.max 0 (y - x + 1)) (Z.max 0 (w - z + 1))))).
  intro offs. revert a m H.
  induction offs as [|off offs IH]; intros a m H; cbn [fold_left]; [exact H|].
  apply IH. now apply Sim_gapTurn.
Qed.

Lemma Sim_walkLines_bounded h n : forall ls i a m,
  List.length ls <= n -> Sim a m ->
  Sim (A.walkLines h i ls a) (M.walkLines h i ls m).
Proof.
  induction n as [|n IH]; intros ls i a m Hn H.
  - destruct ls; [exact H|cbn in Hn; lia].
  - destruct ls as [|line rest]; [exact H|].
    cbn [List.length] in Hn. cbn [A.walkLines M.walkLines].
    pose proof (Sim_lastOld a m H) as Eo. pose proof (Sim_lastNew a m H) as En.
    rewrite Eo, En. unfold M.isType.
    destruct (type line).
    + apply IH; [lia|]. now apply Sim_context.
    + destruct rest as [|next rest'].
      * apply IH; [cbn; lia|]. now apply Sim_added.
      * destruct (A.isType LRemoved next).
        -- apply IH; [cbn in Hn |- *; lia|]. now apply Sim_change.
        -- apply IH; [lia|]. now apply Sim_added.
    + destruct rest as [|next rest'].
      * apply IH; [cbn; lia|]. now apply Sim_removed.
      * destruct (A.isType LAdded next).
        -- apply IH; [cbn in Hn |- *; lia|]. now apply Sim_change.
        -- apply IH; [lia|]. now apply Sim_removed.
Qed.

Definition SimLoop (a : A.Loop) (m : M.Loop) : Prop :=
  Sim (A.state a) (M.state m) /\
  M.nextOldLine m = A.nextOldLine a /\ M.nextNewLine m = A.nextNewLine a.

Lemma Sim_forEachHunk full so sn hs : forall k a m,
  SimLoop a m ->
  SimLoop (A.forEachHunk full so sn k hs a) (M.forEachHunk full so sn k hs m).
Proof.
  induction hs as [|hunk hs IH]; intros k a m H; cbn [A.forEachHunk M.forEachHunk];
    [exact H|].
  apply IH. destruct H as (H1 & H2 & H3).
  unfold A.hunkTurn, M.hunkTurn. split; [|split; reflexivity].
  cbn [A.state M.state].
  eapply Sim_walkLines_bounded; [apply Nat.le_refl|].
  unfold A.gapBefore, M.gapBefore. destruct full; [|exact H1].
  rewrite H2, H3. now apply Sim_pushGapLines.
Qed.

Lemma Sim_buildRaw file o n :
  Sim (A.buildRaw file o n) (M.buildRaw file o n).
Proof.
  unfold A.buildRaw, M.buildRaw.
  set (full := hasFullFiles o n).
  assert (H : SimLoop (A.forEachHunk full (orEmpty o) (orEmpty n) 0 (hunks file) A.initialLoop)
                      (M.forEachHunk full (orEmpty o) (orEmpty n) 0 (hunks file) M.initialLoop)).
  { apply Sim_forEachHunk. repeat split. }
  destruct H as (H1 & H2 & H3).
  unfold A.gapAfter, M.gapAfter. destruct full; [|exact H1].
  rewrite H2, H3. now apply Sim_pushGapLines.
Qed.

End SimFacts.

(* ================================================================== *)
(** * Empty full-file arrays *)
(* ================================================================== *)

Section EmptyArrays.

Import Model Rows.

(** C10: with [[]] for both [oldFileLines] and [newFileLines], each
    builder returns exactly what it returns when both are absent. *)
Theorem C10_empty_arrays_are_absence (file : DiffFile) :
  Analytical.buildVisualRows file (Some []) (Some [])
    = Analytical.buildVisualRows file None None /\
  Measured.buildColumns file (Some []) (Some [])
    = Measured.buildColumns file None None.
Proof. split; reflexivity. Qed.

End EmptyArrays.

(* ================================================================== *)
(** * Alignment in the analytical projection *)
(* ================================================================== *)

Section Alignment.

Import Str Model Parse Rows Analytical.
Local Open Scope string_scope.

(** One line inserted above a line that stays. *)
Definition insertDiff : string :=
  "diff --git a/f.txt b/f.txt" ++ nl ++
  "@@ -1 +1,2 @@" ++ nl ++
  "+new" ++ nl ++
  " kept".

Definition insertFile : DiffFile :=
  mkFile (Some "f.txt") (Some "f.txt") StModified
    [mkHunk "@@ -1 +1,2 @@" 1 1 1 2
       [mkLine LAdded "new" None (Some 1%Z);
        mkLine LContext "kept" (Some 1%Z) (Some 2%Z)]].

Definition insertRows : list VisualRow :=
  fst (buildVisualRows insertFile None None).

Definition keptRow : VisualRow :=
  let line := mkLine LContext "kept" (Some 1%Z) (Some 2%Z) in
  mkRow "context-0-1" (LCell LKContext line) (RCell RKContext line None).

(** C1, on the code: after one inserted line, at scroll position 0,
    the row of the line that stays has real content on both sides, is
    drawn at 0 in the left pane and at 24 in the right pane. *)
Theorem C1_alignment_lost_below_insert :
  files (parseUnifiedDiff insertDiff) = [insertFile] /\
  nth_error insertRows 1 = Some keptRow /\
  leftReal keptRow = true /\ rightReal keptRow = true /\
  (leftVisualY insertRows 1 0 == 0)%Q /\
  (rightVisualY insertRows 1 0 == 24)%Q /\
  ~ (leftVisualY insertRows 1 0 == rightVisualY insertRows 1 0)%Q.
Proof.
  repeat split; try reflexivity.
  vm_compute. discriminate.
Qed.

End Alignment.

(* ================================================================== *)
(** * Gap rows *)
(* ================================================================== *)

Module GapFacts.

Import Str Model Rows Analytical.
Local Open Scope list_scope.

Definition isContextRow (r : VisualRow) : bool :=
  match left r, right r with
  | LCell LKContext _, RCell RKContext _ _ => true
  | _, _ => false
  end.

Definition isRemovedRow (r : VisualRow) : bool :=
  match left r, right r with
  | LCell LKRemoved _, RSpacer => true
  | _, _ => false
  end.

Definition isAddedRow (r : VisualRow) : bool :=
  match left r, right r with
  | LSpacer, RCell RKAdded _ _ => true
  | _, _ => false
  end.

Definition isRemovedConn (c : ConnectorMeta) : bool :=
  match c with ConnRemoved _ _ _ => true | _ => false end.

Definition isAddedConn (c : ConnectorMeta) : bool :=
  match c with ConnAdded _ _ _ => true | _ => false end.

(** The rows that [st'] has and [st] had not. *)
Definition emitted (st st' : BState) : list VisualRow :=
  skipn (List.length (rows st)) (rows st').

(** The rows pushed by the calls of [pushGapLines] during a build:
    before each hunk, and after the last. *)
Fixpoint gapRowsFrom (full : bool) (so sn : list string) (k : nat)
         (hs : list DiffHunk) (lp : Loop) : list VisualRow :=
  match hs with
  | [] => emitted (state lp) (gapAfter full so sn lp)
  | hunk :: hs' =>
      emitted (state lp) (gapBefore full so sn lp hunk)
      ++ gapRowsFrom full so sn (S k) hs' (hunkTurn full so sn lp k hunk)
  end.

Definition gapRows (file : DiffFile) (o n : option (list string)) : list VisualRow :=
  gapRowsFrom (hasFullFiles o n) (orEmpty o) (orEmpty n) 0 (hunks file) initialLoop.

(** What one turn of the loop of [pushGapLines] pushes. *)
Section Turn.
Variables (so sn : list string) (os ns oc nc : Z).

Lemma gapTurn_context st off :
  (Z.of_nat off < oc)%Z -> (Z.of_nat off < nc)%Z ->
  exists r,
    rows (gapTurn so sn os ns oc nc st off) = rows st ++ [r] /\
    connectors (gapTurn so sn os ns oc nc st off) = connectors st /\
    isContextRow r = true.
Proof.
  intros Ho Hn. unfold gapTurn.
  apply Z.ltb_lt in Ho, Hn. rewrite Ho, Hn. cbn [andb].
  eexists. repeat split.
Qed.

Lemma gapTurn_removed st off :
  (Z.of_nat off < oc)%Z -> ~ (Z.of_nat off < nc)%Z ->
  exists r c,
    rows (gapTurn so sn os ns oc nc st off) = rows st ++ [r] /\
    connectors (gapTurn so sn os ns oc nc st off) = connectors st ++ [c] /\
    isRemovedRow r = true /\ isRemovedConn c = true.
Proof.
  intros Ho Hn. unfold gapTurn.
  apply Z.ltb_lt in Ho. apply Z.ltb_nlt in Hn. rewrite Ho, Hn. cbn [andb].
  eexists _, _. repeat split.
Qed.

Lemma gapTurn_added st off :
  ~ (Z.of_nat off < oc)%Z -> (Z.of_nat off < nc)%Z ->
  exists r c,
    rows (gapTurn so sn os ns oc nc st off) = rows st ++ [r] /\
    connectors (gapTurn so sn os ns oc nc st off) = connectors st ++ [c] /\
    isAddedRow r = true /\ isAddedConn c = true.
Proof.
  intros Ho Hn. unfold gapTurn.
  apply Z.ltb_nlt in Ho. apply Z.ltb_lt in Hn. rewrite Ho, Hn. cbn [andb].
  eexists _, _. repeat split.
Qed.

(** A stretch of turns whose offsets are all of the same sort. *)
Lemma stretch_context offs : forall st,
  (forall off, In off offs -> (Z.of_nat off < oc)%Z /\ (Z.of_nat off < nc)%Z) ->
  exists rs,
    rows (fold_left (gapTurn so sn os ns oc nc) offs st) = rows st ++ rs /\
    connectors (fold_left (gapTurn so sn os ns oc nc) offs st) = connectors st /\
    List.length rs = List.length offs /\
    Forall (fun r => isContextRow r = true) rs.
Proof.
  induction offs as [|off offs IH]; intros st H; cbn [fold_left].
  - exists []. rewrite app_nil_r. auto.
  - destruct (H off (or_introl eq_refl)) as [Ho Hn].
    destruct (gapTurn_context st off Ho Hn) as (r & R1 & R2 & R3).
    destruct (IH (gapTurn so sn os ns oc nc st off)) as (rs & H1 & H2 & H3 & H4).
    { intros x Hx. apply H. now right. }
    exists (r :: rs). rewrite H1, H2, R1, R2, <- app_assoc.
    cbn [app List.length]. repeat split; auto.
Qed.

Lemma stretch_removed offs : forall st,
  (forall off, In off offs -> (Z.of_nat off < oc)%Z /\ ~ (Z.of_nat off < nc)%Z) ->
  exists rs cs,
    rows (fold_left (gapTurn so sn os ns oc nc) offs st) = rows st ++ rs /\
    connectors (fold_left (gapTurn so sn os ns oc nc) offs st) = connectors st ++ cs /\
    List.length rs = List.length offs /\
    List.length cs = List.length offs /\
    Forall (fun r => isRemovedRow r = true) rs /\
    Forall (fun c => isRemovedConn c = true) cs.
Proof.
  induction offs as [|off offs IH]; intros st H; cbn [fold_left].
  - exists [], []. rewrite !app_nil_r. repeat split; auto.
  - destruct (H off (or_introl eq_refl)) as [Ho Hn].
    destruct (gapTurn_removed st off Ho Hn) as (r & c & R1 & R2 & R3 & R4).
    destruct (IH (gapTurn so sn os ns oc nc st off))
      as (rs & cs & H1 & H2 & H3 & H4 & H5 & H6).
    { intros x Hx. apply H. now right. }
    exists (r :: rs), (c :: cs). rewrite H1, H2, R1, R2, <- !app_assoc.
    cbn [app List.length]. repeat split; auto.
Qed.

Lemma stretch_added offs : forall st,
  (forall off, In off offs -> ~ (Z.of_nat off < oc)%Z /\ (Z.of_nat off < nc)%Z) ->
  exists rs cs,
    rows (fold_left (gapTurn so sn os ns oc nc) offs st) = rows st ++ rs /\
    connectors (fold_left (gapTurn so sn os ns oc nc) offs st) = connectors st ++ cs /\
    List.length rs = List.length offs /\
    List.length cs = List.length offs /\
    Forall (fun r => isAddedRow r = true) rs /\
    Forall (fun c => isAddedConn c = true) cs.
Proof.
  induction offs as [|off offs IH]; intros st H; cbn [fold_left].
  - exists [], []. rewrite !app_nil_r. repeat split; auto.
  - destruct (H off (or_introl eq_refl)) as [Ho Hn].
    destruct (gapTurn_added st off Ho Hn) as (r & c & R1 & R2 & R3 & R4).
    destruct (IH (gapTurn so sn os ns oc nc st off))
      as (rs & cs & H1 & H2 & H3 & H4 & H5 & H6).
    { intros x Hx. apply H. now right. }
    exists (r :: rs), (c :: cs). rewrite H1, H2, R1, R2, <- !app_assoc.
    cbn [app List.length]. repeat split; auto.
Qed.
End Turn.

(** The offsets of the loop, split where the shorter side runs out. *)
Lemma seq_split_min a b :
  seq 0 (Nat.max a b) = seq 0 (Nat.min a b) ++ seq (Nat.min a b) (Nat.max a b - Nat.min a b).
Proof.
  rewrite <- seq_app. f_equal. lia.
Qed.

(** The shape of what one call of [pushGapLines] pushes. *)
Lemma pushGapLines_shape so sn st oS oE nS nE :
  let oldCount := Z.to_nat (Z.max 0 (oE - oS + 1)) in
  let newCount := Z.to_nat (Z.max 0 (nE - nS + 1)) in
  exists ctx surplus cs,
    rows (pushGapLines so sn st oS oE nS nE) = rows st ++ ctx ++ surplus /\
    connectors (pushGapLines so sn st oS oE nS nE) = connectors st ++ cs /\
    List.length ctx = Nat.min oldCount newCount /\
    Forall (fun r => isContextRow r = true) ctx /\
    List.length surplus = Nat.max oldCount newCount - Nat.min oldCount newCount /\
    List.length cs = List.length surplus /\
    (if newCount <? oldCount
     then Forall (fun r => isRemovedRow r = true) surplus /\
          Forall (fun c => isRemovedConn c = true) cs
     else Forall (fun r => isAddedRow r = true) surplus /\
          Forall (fun c => isAddedConn c = true) cs).
Proof.
  cbv zeta. unfold pushGapLines.
  destruct ((oE <? oS)%Z && (nE <? nS)%Z) eqn:E.
  - apply andb_true_iff in E. destruct E as [E1 E2].
    apply Z.ltb_lt in E1, E2.
    replace (Z.max 0 (oE - oS + 1)) with 0%Z by lia.
    replace (Z.max 0 (nE - nS + 1)) with 0%Z by lia.
    exists [], [], []. cbn. rewrite !app_nil_r. repeat split; auto.
  - set (oc := Z.max 0 (oE - oS + 1)). set (nc := Z.max 0 (nE - nS + 1)).
    assert (Hoc : (0 <= oc)%Z) by (unfold oc; lia).
    assert (Hnc : (0 <= nc)%Z) by (unfold nc; lia).
    replace (Z.to_nat (Z.max oc nc)) with (Nat.max (Z.to_nat oc) (Z.to_nat nc)) by lia.
    rewrite seq_split_min, fold_left_app.
    destruct (stretch_context so sn oS nS oc nc
                (seq 0 (Nat.min (Z.to_nat oc) (Z.to_nat nc))) st)
      as (ctx & C1 & C2 & C3 & C4).
    { intros off Hoff. apply in_seq in Hoff. lia. }
    set (st1 := fold_left (gapTurn so sn oS nS oc nc)
                          (seq 0 (Nat.min (Z.to_nat oc) (Z.to_nat nc))) st) in *.
    rewrite length_seq in C3.
    destruct (Z.to_nat nc <? Z.to_nat oc) eqn:Ecmp.
    + apply Nat.ltb_lt in Ecmp.
      destruct (stretch_removed so sn oS nS oc nc
                  (seq (Nat.min (Z.to_nat oc) (Z.to_nat nc))
                       (Nat.max (Z.to_nat oc) (Z.to_nat nc)
                        - Nat.min (Z.to_nat oc) (Z.to_nat nc))) st1)
        as (rs & cs & R1 & R2 & R3 & R4 & R5 & R6).
      { intros off Hoff. apply in_seq in Hoff. lia. }
      rewrite length_seq in R3, R4.
      exists ctx, rs, cs. rewrite R1, R2, C1, C2, <- app_assoc.
      repeat split; auto. lia.
    + apply Nat.ltb_ge in Ecmp.
      destruct (stretch_added so sn oS nS oc nc
                  (seq (Nat.min (Z.to_nat oc) (Z.to_nat nc))
                       (Nat.max (Z.to_nat oc) (Z.to_nat nc)
                        - Nat.min (Z.to_nat oc) (Z.to_nat nc))) st1)
        as (rs & cs & R1 & R2 & R3 & R4 & R5 & R6).
      { intros off Hoff. apply in_seq in Hoff. lia. }
      rewrite length_seq in R3, R4.
      exists ctx, rs, cs. rewrite R1, R2, C1, C2, <- app_assoc.
      repeat split; auto. lia.
Qed.

End GapFacts.

Section GapRows.

Import Str Model Rows Analytical GapFacts.
Local Open Scope string_scope.
Local Open Scope list_scope.

(** A diff that does not tell of the line inserted at the top of the
    new file. *)
Definition staleFile : DiffFile :=
  mkFile (Some "f.txt") (Some "f.txt") StModified
    [mkHunk "@@ -2 +3 @@" 2 1 3 1
       [mkLine LContext "b" (Some 2%Z) (Some 3%Z)]].

(** C8 as stated fails: a gap that is longer on one side ends in rows
    that are not context rows. *)
Lemma C8_gap_rows_not_all_context :
  ~ Forall (fun r => isContextRow r = true)
           (gapRows staleFile (Some ["a"; "b"]) (Some ["x"; "a"; "b"])).
Proof.
  intro H. vm_compute in H.
  inversion H as [|r1 l1 _ H1]; subst.
  inversion H1 as [|r2 l2 H2 _]; subst.
  discriminate H2.
Qed.

(** C8, amended: of the rows that a call of [pushGapLines] pushes, the
    first ones, as many as the shorter side of the gap has lines, are
    context rows pushed without a connector; the lines that only the
    longer side has come after them, as removed rows (right spacer) or
    as added rows (left spacer), one connector each.  When both sides
    of the gap have the same number of lines, every gap row is a
    context row and no connector is pushed. *)
Theorem C8_gap_rows_context_then_surplus
        (safeOldLines safeNewLines : list string) (st : BState)
        (oldStart oldEnd newStart newEnd : Z) :
  let st' := pushGapLines safeOldLines safeNewLines st oldStart oldEnd newStart newEnd in
  let oldCount := Z.to_nat (Z.max 0 (oldEnd - oldStart + 1)) in
  let newCount := Z.to_nat (Z.max 0 (newEnd - newStart + 1)) in
  exists ctx surplus cs,
    rows st' = rows st ++ ctx ++ surplus /\
    emitted st st' = ctx ++ surplus /\
    connectors st' = connectors st ++ cs /\
    List.length ctx = Nat.min oldCount newCount /\
    Forall (fun r => isContextRow r = true) ctx /\
    List.length surplus = Nat.max oldCount newCount - Nat.min oldCount newCount /\
    List.length cs = List.length surplus /\
    (if (newCount <? oldCount)%nat
     then Forall (fun r => isRemovedRow r = true) surplus /\
          Forall (fun c => isRemovedConn c = true) cs
     else Forall (fun r => isAddedRow r = true) surplus /\
          Forall (fun c => isAddedConn c = true) cs) /\
    (oldCount = newCount -> surplus = [] /\ cs = []).
Proof.
  cbv zeta.
  destruct (pushGapLines_shape safeOldLines safeNewLines st
              oldStart oldEnd newStart newEnd)
    as (ctx & surplus & cs & H1 & H2 & H3 & H4 & H5 & H6 & H7).
  exists ctx, surplus, cs.
  split; [exact H1|]. split.
  { unfold emitted. rewrite H1, skipn_app, Nat.sub_diag, skipn_all. reflexivity. }
  split; [exact H2|]. split; [exact H3|]. split; [exact H4|].
  split; [exact H5|]. split; [exact H6|]. split; [exact H7|].
  intro E. rewrite E, Nat.max_id, Nat.min_id, Nat.sub_diag in H5.
  rewrite H5 in H6.
  destruct surplus; [|discriminate H5]. destruct cs; [|discriminate H6].
  split; reflexivity.
Qed.

End GapRows.

(* ================================================================== *)
(** * Completeness of the visual rows *)
(* ================================================================== *)

Module CountFacts.

Import Str Model Rows Analytical GapFacts LineNumberFacts.
Local Open Scope list_scope.

(** The number of rows with real content on the left; on the right. *)
Definition leftCount (rs : list VisualRow) : nat := List.length (filter leftReal rs).
Definition rightCount (rs : list VisualRow) : nat := List.length (filter rightReal rs).

Lemma leftCount_app a b : leftCount (a ++ b) = leftCount a + leftCount b.
Proof. unfold leftCount. now rewrite filter_app, length_app. Qed.

Lemma rightCount_app a b : rightCount (a ++ b) = rightCount a + rightCount b.
Proof. unfold rightCount. now rewrite filter_app, length_app. Qed.

Lemma count_all (real shape : VisualRow -> bool) rs :
  (forall r, shape r = true -> real r = true) ->
  Forall (fun r => shape r = true) rs ->
  List.length (filter real rs) = List.length rs.
Proof.
  intros Hs H. induction H as [|r rs Hr _ IH]; [reflexivity|].
  cbn [filter]. rewrite (Hs r Hr). cbn [List.length]. now rewrite IH.
Qed.

Lemma count_none (real shape : VisualRow -> bool) rs :
  (forall r, shape r = true -> real r = false) ->
  Forall (fun r => shape r = true) rs ->
  List.length (filter real rs) = 0.
Proof.
  intros Hs H. induction H as [|r rs Hr _ IH]; [reflexivity|].
  cbn [filter]. now rewrite (Hs r Hr).
Qed.

Lemma context_left r : isContextRow r = true -> leftReal r = true.
Proof. unfold isContextRow, leftReal. destruct (left r) as [[]|]; auto. Qed.
Lemma context_right r : isContextRow r = true -> rightReal r = true.
Proof.
  unfold isContextRow, rightReal.
  destruct (left r) as [[]|], (right r) as [[]|]; auto.
Qed.
Lemma removed_left r : isRemovedRow r = true -> leftReal r = true.
Proof. unfold isRemovedRow, leftReal. destruct (left r) as [[]|]; auto. Qed.
Lemma removed_right r : isRemovedRow r = true -> rightReal r = false.
Proof.
  unfold isRemovedRow, rightReal.
  destruct (left r) as [[]|], (right r) as [[]|]; auto; discriminate.
Qed.
Lemma added_left r : isAddedRow r = true -> leftReal r = false.
Proof. unfold isAddedRow, leftReal. destruct (left r) as [[]|]; auto; discriminate. Qed.
Lemma added_right r : isAddedRow r = true -> rightReal r = true.
Proof.
  unfold isAddedRow, rightReal.
  destruct (left r) as [[]|], (right r) as [[]|]; auto.
Qed.

(** A gap gives each side as many real rows as the side has lines in
    the gap. *)
Lemma pushGapLines_counts so sn st oS oE nS nE :
  let st' := pushGapLines so sn st oS oE nS nE in
  leftCount (rows st') = leftCount (rows st) + Z.to_nat (Z.max 0 (oE - oS + 1)) /\
  rightCount (rows st') = rightCount (rows st) + Z.to_nat (Z.max 0 (nE - nS + 1)).
Proof.
  cbv zeta.
  destruct (pushGapLines_shape so sn st oS oE nS nE)
    as (ctx & surplus & cs & H1 & _ & H3 & H4 & H5 & _ & H7).
  rewrite H1, !leftCount_app, !rightCount_app.
  unfold leftCount at 2 3, rightCount at 2 3.
  rewrite (count_all leftReal isContextRow ctx context_left H4).
  rewrite (count_all rightReal isContextRow ctx context_right H4).
  destruct (_ <? _) eqn:E.
  - apply Nat.ltb_lt in E. destruct H7 as [H7 _].
    rewrite (count_all leftReal isRemovedRow surplus removed_left H7).
    rewrite (count_none rightReal isRemovedRow surplus removed_right H7).
    lia.
  - apply Nat.ltb_ge in E. destruct H7 as [H7 _].
    rewrite (count_none leftReal isAddedRow surplus added_left H7).
    rewrite (count_all rightReal isAddedRow surplus added_right H7).
    lia.
Qed.

(** The lines of a hunk that are present on each side. *)
Definition oldSide (ls : list DiffLine) : nat := List.length (filter onOldSide ls).
Definition newSide (ls : list DiffLine) : nat := List.length (filter onNewSide ls).

Lemma isType_added l : isType LAdded l = true -> type l = LAdded.
Proof. unfold isType. destruct (type l); auto; discriminate. Qed.
Lemma isType_removed l : isType LRemoved l = true -> type l = LRemoved.
Proof. unfold isType. destruct (type l); auto; discriminate. Qed.

Lemma leftCount_push rs r :
  leftCount (rs ++ [r]) = leftCount rs + (if leftReal r then 1 else 0).
Proof. rewrite leftCount_app. unfold leftCount. cbn. destruct (leftReal r); reflexivity. Qed.

Lemma rightCount_push rs r :
  rightCount (rs ++ [r]) = rightCount rs + (if rightReal r then 1 else 0).
Proof. rewrite rightCount_app. unfold rightCount. cbn. destruct (rightReal r); reflexivity. Qed.

Lemma oldSide_cons l ls :
  oldSide (l :: ls) = (if onOldSide l then 1 else 0) + oldSide ls.
Proof. unfold oldSide. cbn. destruct (onOldSide l); reflexivity. Qed.

Lemma newSide_cons l ls :
  newSide (l :: ls) = (if onNewSide l then 1 else 0) + newSide ls.
Proof. unfold newSide. cbn. destruct (onNewSide l); reflexivity. Qed.

Ltac count_step IH :=
  match goal with
  | |- context [walkLines ?h ?j ?ls ?s] =>
      let I1 := fresh in let I2 := fresh in
      destruct (IH ls j s) as [I1 I2];
      [cbn [List.length] in *; lia|];
      rewrite I1, I2; cbn [rows];
      rewrite leftCount_push, rightCount_push;
      cbn [leftReal rightReal left right]; lia
  end.

(** The walk of a hunk gives each side one real row for each of the
    lines of the hunk present on that side. *)
Lemma walkLines_counts_bounded h n : forall ls i st,
  List.length ls <= n ->
  leftCount (rows (walkLines h i ls st)) = leftCount (rows st) + oldSide ls /\
  rightCount (rows (walkLines h i ls st)) = rightCount (rows st) + newSide ls.
Proof.
  induction n as [|n IH]; intros ls i st Hn.
  - destruct ls; [cbn; lia|cbn in Hn; lia].
  - destruct ls as [|line rest]; [cbn; lia|].
    cbn [List.length] in Hn. cbn [walkLines].
    rewrite oldSide_cons, newSide_cons. unfold onOldSide at 1, onNewSide at 1.
    destruct (type line) eqn:Et.
    + count_step IH.
    + destruct rest as [|next rest'].
      * count_step IH.
      * destruct (isType LRemoved next) eqn:En.
        -- apply isType_removed in En.
           rewrite oldSide_cons, newSide_cons.
           unfold onOldSide at 1, onNewSide at 1. rewrite En.
           count_step IH.
        -- count_step IH.
    + destruct rest as [|next rest'].
      * count_step IH.
      * destruct (isType LAdded next) eqn:En.
        -- apply isType_added in En.
           rewrite oldSide_cons, newSide_cons.
           unfold onOldSide at 1, onNewSide at 1. rewrite En.
           count_step IH.
        -- count_step IH.
Qed.

Lemma walkLines_counts h i ls st :
  leftCount (rows (walkLines h i ls st)) = leftCount (rows st) + oldSide ls /\
  rightCount (rows (walkLines h i ls st)) = rightCount (rows st) + newSide ls.
Proof. eapply walkLines_counts_bounded. apply Nat.le_refl. Qed.

Local Open Scope Z_scope.

(** The hunks follow one another without overlap from line
    [nextOld]/[nextNew] on, each counts the lines it holds on each side,
    and the last one ends within files of [M] and [N] lines. *)
Fixpoint WellFormed (M N : Z) (nextOld nextNew : Z) (hs : list DiffHunk) : Prop :=
  match hs with
  | [] => nextOld <= M + 1 /\ nextNew <= N + 1
  | h :: hs' =>
      nextOld <= oldStart h /\ nextNew <= newStart h /\
      oldLines h = Z.of_nat (oldSide (lines h)) /\
      newLines h = Z.of_nat (newSide (lines h)) /\
      WellFormed M N (oldStart h + oldLines h) (newStart h + newLines h) hs'
  end.

(** With full contents: what is built before a hunk has, on each side,
    one real row for each line before the hunk. *)
Definition Upto (lp : Loop) : Prop :=
  Z.of_nat (leftCount (rows (state lp))) = nextOldLine lp - 1 /\
  Z.of_nat (rightCount (rows (state lp))) = nextNewLine lp - 1.

Lemma hunkTurn_Upto so sn lp k hunk :
  Upto lp ->
  nextOldLine lp <= oldStart hunk -> nextNewLine lp <= newStart hunk ->
  oldLines hunk = Z.of_nat (oldSide (lines hunk)) ->
  newLines hunk = Z.of_nat (newSide (lines hunk)) ->
  Upto (hunkTurn true so sn lp k hunk).
Proof.
  intros [U1 U2] Ho Hn Eo En. unfold Upto, hunkTurn.
  cbn [state nextOldLine nextNewLine gapBefore].
  destruct (walkLines_counts k 0 (lines hunk)
              (pushGapLines so sn (state lp) (nextOldLine lp) (oldStart hunk - 1)
                            (nextNewLine lp) (newStart hunk - 1))) as [W1 W2].
  destruct (pushGapLines_counts so sn (state lp) (nextOldLine lp) (oldStart hunk - 1)
                                (nextNewLine lp) (newStart hunk - 1)) as [G1 G2].
  cbv zeta in G1, G2. rewrite W1, W2, G1, G2. lia.
Qed.

Lemma forEachHunk_full so sn M N hs : forall k lp,
  Upto lp -> WellFormed M N (nextOldLine lp) (nextNewLine lp) hs ->
  let lp' := forEachHunk true so sn k hs lp in
  Upto lp' /\ nextOldLine lp' <= M + 1 /\ nextNewLine lp' <= N + 1.
Proof.
  induction hs as [|hunk hs IH]; intros k lp U W; cbn [forEachHunk WellFormed] in *.
  - tauto.
  - destruct W as (Ho & Hn & Eo & En & W).
    apply IH; [now apply hunkTurn_Upto|exact W].
Qed.

(** Without full contents: the rows are those of the walks. *)
Fixpoint oldSideAll (hs : list DiffHunk) : nat :=
  match hs with [] => 0 | h :: hs' => oldSide (lines h) + oldSideAll hs' end%nat.
Fixpoint newSideAll (hs : list DiffHunk) : nat :=
  match hs with [] => 0 | h :: hs' => newSide (lines h) + newSideAll hs' end%nat.

Lemma forEachHunk_hunks_only so sn hs : forall k lp,
  let lp' := forEachHunk false so sn k hs lp in
  leftCount (rows (state lp')) = (leftCount (rows (state lp)) + oldSideAll hs)%nat /\
  rightCount (rows (state lp')) = (rightCount (rows (state lp)) + newSideAll hs)%nat.
Proof.
  induction hs as [|hunk hs IH]; intros k lp; cbn [forEachHunk oldSideAll newSideAll].
  - cbv zeta. lia.
  - cbv zeta. destruct (IH (S k) (hunkTurn false so sn lp k hunk)) as [I1 I2].
    cbv zeta in I1, I2. rewrite I1, I2.
    unfold hunkTurn. cbn [state gapBefore].
    destruct (walkLines_counts k 0 (lines hunk) (state lp)) as [W1 W2].
    rewrite W1, W2. lia.
Qed.

Lemma WellFormed_total M N hs : forall o n,
  WellFormed M N o n hs ->
  o + Z.of_nat (oldSideAll hs) <= M + 1 /\ n + Z.of_nat (newSideAll hs) <= N + 1.
Proof.
  induction hs as [|h hs IH]; intros o n W; cbn [WellFormed oldSideAll newSideAll] in *.
  - lia.
  - destruct W as (Ho & Hn & Eo & En & W). apply IH in W. lia.
Qed.

End CountFacts.

Section VisualRowCompleteness.

Import Str Model Rows Analytical CountFacts.
Local Open Scope string_scope.
Local Open Scope list_scope.
Local Open Scope Z_scope.


(** Two lines, the first replaced and one added after it: the diff of
    the parser's first example, with its full contents. *)
Definition replacedFile : DiffFile :=
  mkFile (Some "a.txt") (Some "a.txt") StModified
    [mkHunk "@@ -1,2 +1,3 @@" 1 2 1 3
       [mkLine LRemoved "hello" (Some 1) None;
        mkLine LAdded "hello world" None (Some 1);
        mkLine LAdded "again" None (Some 2);
        mkLine LContext "keep" (Some 2) (Some 3)]].


End VisualRowCompleteness.

(* ================================================================== *)
(** * Row identifiers *)
(* ================================================================== *)

Module IdFacts.

Import Str Model Rows Analytical TraceFacts GapFacts.
Local Open Scope string_scope.

Fixpoint allDigits (s : string) : bool :=
  match s with
  | EmptyString => true
  | String c s' => isDigit c && allDigits s'
  end.

Lemma allDigits_uint d : allDigits (NilEmpty.string_of_uint d) = true.
Proof. induction d; cbn [NilEmpty.string_of_uint allDigits]; auto. Qed.

Lemma to_int_proper z : Z.to_int z <> Decimal.Pos Decimal.Nil /\
                        Z.to_int z <> Decimal.Neg Decimal.Nil.
Proof.
  destruct z as [|p|p]; cbn; split; try discriminate;
    intro H; injection H as H; exact (Unsigned.to_uint_nonnil p H).
Qed.

(** Two numbers with the same decimal rendering are the same. *)
Lemma dec_inj a b : dec a = dec b -> a = b.
Proof.
  unfold dec. intro H. apply (f_equal NilZero.int_of_string) in H.
  destruct (to_int_proper a) as [A1 A2], (to_int_proper b) as [B1 B2].
  rewrite !NilZero.isi in H by assumption.
  injection H as H. now apply DecimalZ.to_int_inj.
Qed.

(** An index is rendered with digits only, and at least one. *)
Lemma natDec_digits n :
  exists c s, natDec n = String c s /\ isDigit c = true /\ allDigits s = true.
Proof.
  unfold natDec, dec. destruct (Z.of_nat n) as [|p|p] eqn:E; [| |lia].
  - exists "0"%char, "". repeat split.
  - cbn [Z.to_int NilZero.string_of_int].
    pose proof (Unsigned.to_uint_nonnil p) as Hn.
    pose proof (allDigits_uint (Pos.to_uint p)) as Hd.
    destruct (Pos.to_uint p) eqn:Eu; [congruence| | | | | | | | | |];
      cbn [NilZero.string_of_uint NilEmpty.string_of_uint allDigits] in *;
      apply andb_true_iff in Hd; destruct Hd as [Hc Hs];
      eexists _, _; repeat split; assumption.
Qed.

Lemma natDec_allDigits n : allDigits (natDec n) = true.
Proof.
  destruct (natDec_digits n) as (c & s & -> & Hc & Hs).
  cbn [allDigits]. now rewrite Hc, Hs.
Qed.

Lemma natDec_inj a b : natDec a = natDec b -> a = b.
Proof. unfold natDec. intro H. apply dec_inj in H. lia. Qed.

Lemma append_cancel p : forall a b, p ++ a = p ++ b -> a = b.
Proof.
  induction p as [|c p IH]; intros a b H; cbn [append] in H; [exact H|].
  injection H as H. auto.
Qed.

(** Two renderings [digits-rest] are equal part by part. *)
Lemma dash_split d1 : forall d2 r1 r2,
  allDigits d1 = true -> allDigits d2 = true ->
  d1 ++ "-" ++ r1 = d2 ++ "-" ++ r2 -> d1 = d2 /\ r1 = r2.
Proof.
  induction d1 as [|c d1 IH]; intros [|c2 d2] r1 r2 H1 H2 H; cbn [append] in H.
  - injection H as H. auto.
  - injection H as Hc _. subst c2. discriminate H2.
  - injection H as Hc _. subst c. discriminate H1.
  - injection H as Hc H. subst c2.
    cbn [allDigits] in H1, H2. apply andb_true_iff in H1, H2.
    destruct (IH d2 r1 r2) as [-> ->]; tauto.
Qed.

Lemma addedId_inj h i h' i' : addedId h i = addedId h' i' -> h = h' /\ i = i'.
Proof.
  unfold addedId. intro H. apply append_cancel in H.
  apply dash_split in H; try apply natDec_allDigits.
  destruct H as [H1 H2]. split; now apply natDec_inj.
Qed.

Lemma addedId_not_full h i n : addedId h i <> addedFullId n.
Proof.
  unfold addedId, addedFullId. intro H.
  change ("added-full-" ++ dec n) with ("added-" ++ ("full-" ++ dec n)) in H.
  apply append_cancel in H.
  destruct (natDec_digits h) as (c & s & E & Hc & _). rewrite E in H.
  cbn [append] in H. injection H as Hf _. subst c. discriminate Hc.
Qed.

(** The identifiers of the rows that have a spacer on the left begin
    with the letter a, and no other identifier does. *)
Definition idIsAdded (id : string) : bool :=
  match id with
  | String c _ => Ascii.eqb c "a"
  | EmptyString => false
  end.

Lemma EvOK_idIsAdded e :
  EvOK e -> idIsAdded (rowId (evRow e)) = isAddedRow (evRow e).
Proof. intro H. destruct H; reflexivity. Qed.

Lemma EvOK_conn e c :
  EvOK e -> evConn e = Some c ->
  startRowId c = rowId (evRow e) /\ endRowId c = rowId (evRow e) /\
  isAddedConn c = isAddedRow (evRow e) /\
  leftReal (evRow e) = negb (isAddedConn c) /\
  rightReal (evRow e) = negb (isRemovedConn c).
Proof.
  intros H E. destruct H; cbn [evConn] in E; try discriminate;
    injection E as <-; repeat split.
Qed.

Lemma EvOK_noconn e :
  EvOK e -> evConn e = None ->
  leftReal (evRow e) = true /\ rightReal (evRow e) = true /\
  isAddedRow (evRow e) = false.
Proof.
  intros H E. destruct H; cbn [evConn] in E; try discriminate; repeat split.
Qed.

(** The identifier of an added row of a hunk tells the turn of the
    walk that pushed it. *)
Lemma EvOK_addedId e h i :
  EvOK e -> rowId (evRow e) = addedId h i -> evTag e = THunk h i.
Proof.
  intros H E. destruct H; cbn [evRow rowId evTag] in *;
    try (apply (f_equal idIsAdded) in E; discriminate E).
  - symmetry in E. now apply addedId_not_full in E.
  - apply addedId_inj in E. destruct E as [-> ->]. reflexivity.
Qed.

(** The identifier of an added row of a hunk names one row only. *)
Lemma addedId_once A e B lo hi h i :
  Forall EvOK (A ++ e :: B) -> Between lo hi (A ++ e :: B) ->
  rowId (evRow e) = addedId h i ->
  ~ In (addedId h i) (map rowId (evRows (A ++ B))).
Proof.
  intros Hok Hb E Hin.
  apply in_map_iff in Hin. destruct Hin as (r & Er & Hr).
  apply in_map_iff in Hr. destruct Hr as (x & <- & Hx).
  assert (Hokx : EvOK x).
  { rewrite Forall_forall in Hok. apply Hok.
    apply in_app_iff in Hx. apply in_app_iff. destruct Hx; [now left|right; now right]. }
  assert (Hoke : EvOK e).
  { rewrite Forall_forall in Hok. apply Hok. apply in_app_iff. right. now left. }
  pose proof (EvOK_addedId e h i Hoke E) as Te.
  pose proof (EvOK_addedId x h i Hokx Er) as Tx.
  exact (Between_once A e B lo hi h i Hb Te x Hx Tx).
Qed.

End IdFacts.

(* ================================================================== *)
(** * Index tables *)
(* ================================================================== *)

Module IndexFacts.

Import Str Arr Model Rows Analytical SimFacts.
Local Open Scope list_scope.

Lemma indexFrom_notin ids : forall i m x,
  ~ In x ids -> indexFrom i ids m x = m x.
Proof.
  induction ids as [|a ids IH]; intros i m x H; cbn [indexFrom]; [reflexivity|].
  rewrite IH by (intro; apply H; now right).
  unfold mapSet. destruct (String.eqb x a) eqn:E; [|reflexivity].
  apply String.eqb_eq in E. subst. exfalso. apply H. now left.
Qed.

(** The table holds, for an identifier, the index of its last
    occurrence. *)
Lemma indexFrom_at A : forall i m x B,
  ~ In x B -> indexFrom i (A ++ x :: B) m x = Some (i + List.length A).
Proof.
  induction A as [|a A IH]; intros i m x B H; cbn [app indexFrom List.length].
  - rewrite indexFrom_notin by assumption. unfold mapSet.
    rewrite String.eqb_refl. f_equal. lia.
  - rewrite IH by assumption. f_equal. lia.
Qed.

Lemma indexFrom_found ids : forall i m x k,
  indexFrom i ids m x = Some k ->
  m x = Some k \/ exists j, k = i + j /\ nth_error ids j = Some x.
Proof.
  induction ids as [|a ids IH]; intros i m x k H; cbn [indexFrom] in H; [now left|].
  apply IH in H. destruct H as [H|(j & -> & Hj)].
  - unfold mapSet in H. destruct (String.eqb x a) eqn:E; [|now left].
    injection H as <-. apply String.eqb_eq in E. subst. right. exists 0.
    split; [lia|reflexivity].
  - right. exists (S j). split; [lia|exact Hj].
Qed.

Lemma indexOf_found ids x k : indexOf ids x = Some k -> nth_error ids k = Some x.
Proof.
  intro H. apply indexFrom_found in H. destruct H as [H|(j & -> & Hj)];
    [discriminate|exact Hj].
Qed.

Lemma getOr_found ids x k :
  getOr (indexOf ids) x = Z.of_nat k -> nth_error ids k = Some x.
Proof.
  unfold getOr. destruct (indexOf ids x) as [j|] eqn:E; [|lia].
  intro H. apply Nat2Z.inj in H. subst. now apply indexOf_found.
Qed.

(** The identifiers of the rows that are real on one side, in order:
    the keys of that side's index table. *)
Definition idsOf (real : VisualRow -> bool) (rs : list VisualRow) : list string :=
  map rowId (filter real rs).

Definition count (real : VisualRow -> bool) (rs : list VisualRow) : nat :=
  List.length (filter real rs).

Definition always (r : VisualRow) : bool := true.

Lemma idsOf_always rs : idsOf always rs = map rowId rs.
Proof.
  unfold idsOf. f_equal. induction rs as [|r rs IH]; [reflexivity|].
  cbn. now rewrite IH.
Qed.

Lemma idsOf_left rs : map M.lRowId (leftItemsOf rs) = idsOf leftReal rs.
Proof.
  unfold idsOf, leftItemsOf. induction rs as [|r rs IH]; [reflexivity|].
  cbn [flat_map filter]. rewrite map_app, IH.
  unfold leftItemOf, leftReal. destruct (left r); reflexivity.
Qed.

Lemma idsOf_right rs : map M.rRowId (rightItemsOf rs) = idsOf rightReal rs.
Proof.
  unfold idsOf, rightItemsOf. induction rs as [|r rs IH]; [reflexivity|].
  cbn [flat_map filter]. rewrite map_app, IH.
  unfold rightItemOf, rightReal. destruct (right r); reflexivity.
Qed.

Lemma idsOf_app real a b : idsOf real (a ++ b) = idsOf real a ++ idsOf real b.
Proof. unfold idsOf. now rewrite filter_app, map_app. Qed.

Lemma count_app real a b : count real (a ++ b) = count real a + count real b.
Proof. unfold count. now rewrite filter_app, length_app. Qed.

Lemma idsOf_length real rs : List.length (idsOf real rs) = count real rs.
Proof. unfold idsOf, count. apply length_map. Qed.

Lemma idsOf_incl real rs x : In x (idsOf real rs) -> In x (map rowId rs).
Proof.
  unfold idsOf. intro H. apply in_map_iff in H. destruct H as (r & <- & Hr).
  apply filter_In in Hr. apply in_map. tauto.
Qed.

Lemma count_all_real real rs :
  Forall (fun r => real r = true) rs -> count real rs = List.length rs.
Proof.
  intro H. unfold count. induction H as [|r rs Hr _ IH]; [reflexivity|].
  cbn [filter]. rewrite Hr. cbn [List.length]. now rewrite IH.
Qed.

(** A real row whose identifier does not come again is found in the
    table at the number of real rows before it. *)
Lemma getOr_at real A r B :
  real r = true -> ~ In (rowId r) (map rowId B) ->
  getOr (indexOf (idsOf real (A ++ r :: B))) (rowId r) = Z.of_nat (count real A).
Proof.
  intros Hr Hn. unfold getOr, indexOf.
  rewrite idsOf_app. unfold idsOf at 2. cbn [filter]. rewrite Hr. cbn [map].
  fold (idsOf real B). rewrite indexFrom_at.
  - rewrite idsOf_length. reflexivity.
  - intro H. apply Hn. eapply idsOf_incl; eauto.
Qed.

(** The real row after [count real A] real rows. *)
Lemma idsOf_nth real A q B :
  real q = true ->
  nth_error (idsOf real (A ++ q :: B)) (count real A) = Some (rowId q).
Proof.
  intro Hq. rewrite idsOf_app, nth_error_app2 by (rewrite idsOf_length; lia).
  rewrite idsOf_length, Nat.sub_diag. unfold idsOf. cbn [filter].
  rewrite Hq. reflexivity.
Qed.

(** Two real rows with only real rows between them, both found in the
    table where they stand: the second is at the index after the
    first exactly when no row lies between them. *)
Lemma consecutive_iff real A rp E rc B :
  real rp = true -> real rc = true ->
  Forall (fun r => real r = true) E ->
  ~ In (rowId rp) (map rowId (E ++ rc :: B)) ->
  ~ In (rowId rc) (map rowId B) ->
  let m := indexOf (idsOf real (A ++ rp :: E ++ rc :: B)) in
  (getOr m (rowId rc) =? getOr m (rowId rp) + 1)%Z = (List.length E =? 0).
Proof.
  intros Hp Hc HE Np Nc. cbv zeta.
  rewrite (getOr_at real A rp (E ++ rc :: B) Hp Np).
  replace (A ++ rp :: E ++ rc :: B) with ((A ++ rp :: E) ++ rc :: B)
    by (rewrite <- app_assoc; reflexivity).
  rewrite (getOr_at real (A ++ rp :: E) rc B Hc Nc).
  rewrite count_app. unfold count at 2. cbn [filter]. rewrite Hp.
  cbn [List.length]. fold (count real E). rewrite (count_all_real real E HE).
  destruct (List.length E) as [|n].
  - cbn [Nat.eqb]. apply Z.eqb_eq. lia.
  - cbn [Nat.eqb]. apply Z.eqb_neq. lia.
Qed.

(** A key that is not the identifier of the real row [q] just before
    the real row [r] is not found at the index before that of [r]. *)
Lemma not_consecutive_after real A q r B x :
  real q = true -> real r = true ->
  ~ In (rowId r) (map rowId B) -> x <> rowId q ->
  let m := indexOf (idsOf real (A ++ q :: r :: B)) in
  (getOr m (rowId r) =? getOr m x + 1)%Z = false.
Proof.
  intros Hq Hr Nr Hx. cbv zeta. apply Z.eqb_neq. intro H.
  replace (A ++ q :: r :: B) with ((A ++ [q]) ++ r :: B) in H
    by (rewrite <- app_assoc; reflexivity).
  rewrite (getOr_at real (A ++ [q]) r B Hr Nr) in H.
  rewrite count_app in H. unfold count at 2 in H. cbn [filter] in H.
  rewrite Hq in H. cbn [List.length] in H.
  assert (H' : getOr (indexOf (idsOf real ((A ++ [q]) ++ r :: B))) x
               = Z.of_nat (count real A)) by lia.
  apply getOr_found in H'.
  rewrite <- app_assoc in H'. cbn [app] in H'.
  rewrite (idsOf_nth real A q (r :: B) Hq) in H'. congruence.
Qed.

(** A key that is not the identifier of the real row [q] just after
    the real row [r] is not found at the index after that of [r]. *)
Lemma not_consecutive_before real A r q B x :
  real r = true -> real q = true ->
  ~ In (rowId r) (map rowId (q :: B)) -> x <> rowId q ->
  let m := indexOf (idsOf real (A ++ r :: q :: B)) in
  (getOr m x =? getOr m (rowId r) + 1)%Z = false.
Proof.
  intros Hr Hq Nr Hx. cbv zeta. apply Z.eqb_neq. intro H.
  rewrite (getOr_at real A r (q :: B) Hr Nr) in H.
  assert (H' : getOr (indexOf (idsOf real (A ++ r :: q :: B))) x
               = Z.of_nat (count real (A ++ [r]))).
  { rewrite count_app. unfold count at 2. cbn [filter]. rewrite Hr.
    cbn [List.length]. lia. }
  apply getOr_found in H'.
  replace (A ++ r :: q :: B) with ((A ++ [r]) ++ q :: B) in H'
    by (rewrite <- app_assoc; reflexivity).
  rewrite (idsOf_nth real (A ++ [r]) q B Hq) in H'. congruence.
Qed.

End IndexFacts.

(* ================================================================== *)
(** * The grouping pass *)
(* ================================================================== *)

Module GroupFacts.

Import Str Arr Model Rows ParseFacts.
Local Open Scope list_scope.

Definition sameKind (a b : ConnectorMeta) : bool :=
  match a, b with
  | ConnChange _ _, ConnChange _ _ => true
  | ConnAdded _ _ _, ConnAdded _ _ _ => true
  | ConnRemoved _ _ _, ConnRemoved _ _ _ => true
  | _, _ => false
  end.

(** The anchor line of an "added" or "removed" connector. *)
Definition anchorOf (c : ConnectorMeta) : option Z :=
  match c with
  | ConnChange _ _ => None
  | ConnAdded _ _ a => a
  | ConnRemoved _ _ a => a
  end.

(** [currentIndex === lastIndex + 1] in the table [m]. *)
Definition consecutive (m : IndexMap) (connector last : ConnectorMeta) : bool :=
  (getOr m (startRowId connector) =? getOr m (endRowId last) + 1)%Z.

Lemma sameAnchor_eq a b : sameAnchor a b = true <-> a = b.
Proof.
  destruct a as [x|], b as [y|]; cbn; split; intro H;
    try discriminate; try reflexivity.
  - apply Z.eqb_eq in H. now subst.
  - injection H as ->. apply Z.eqb_refl.
Qed.

Lemma merges_iff b c l :
  merges b c l = true <->
  sameKind c l = true /\ b = true /\ anchorOf c = anchorOf l.
Proof.
  destruct c, l; cbn; rewrite ?andb_true_iff, ?sameAnchor_eq;
    intuition (try discriminate; auto).
Qed.

Lemma merges_other_kind b c l : sameKind c l = false -> merges b c l = false.
Proof. destruct c, l; cbn; intro H; try reflexivity; discriminate. Qed.

Lemma lastOf_snoc {A} (l : list A) x : lastOf (l ++ [x]) = Some x.
Proof.
  induction l as [|y l IH]; [reflexivity|].
  cbn [app lastOf]. rewrite IH. destruct (l ++ [x]) eqn:E; [|reflexivity].
  destruct l; discriminate.
Qed.

Lemma lastOf_nil_iff {A} (l : list A) : lastOf l = None <-> l = [].
Proof.
  split; [|now intros ->].
  destruct (snoc_cases l) as [->|(l' & x & ->)]; [reflexivity|].
  rewrite lastOf_snoc. discriminate.
Qed.

Lemma lastOf_some {A} (l : list A) x :
  lastOf l = Some x -> exists l', l = l' ++ [x].
Proof.
  destruct (snoc_cases l) as [->|(l' & y & ->)]; [discriminate|].
  rewrite lastOf_snoc. intros [= ->]. now exists l'.
Qed.

(** One turn of the loop, on an empty and on a non-empty [grouped]. *)
Lemma groupTurn_nil idx c : groupTurn idx [] c = [c].
Proof. reflexivity. Qed.

Lemma groupTurn_snoc idx G l c :
  groupTurn idx (G ++ [l]) c =
    if merges (consecutive (idx c l) c l) c l
    then G ++ [setEndRowId (endRowId c) l]
    else G ++ [l; c].
Proof.
  unfold groupTurn. rewrite lastOf_snoc. cbv zeta. fold (consecutive (idx c l) c l).
  destruct (merges _ c l).
  - now rewrite updLast_snoc.
  - now rewrite <- app_assoc.
Qed.

Lemma groupConnectors_snoc idx cs c :
  groupConnectors idx (cs ++ [c]) = groupTurn idx (groupConnectors idx cs) c.
Proof. unfold groupConnectors. now rewrite fold_left_app. Qed.

Lemma sameKind_setEnd e l c : sameKind (setEndRowId e l) c = sameKind l c.
Proof. destruct l, c; reflexivity. Qed.

Lemma sameKind_sym a b : sameKind a b = sameKind b a.
Proof. destruct a, b; reflexivity. Qed.

Lemma sameKind_refl a : sameKind a a = true.
Proof. destruct a; reflexivity. Qed.

Lemma sameKind_trans a b c :
  sameKind a b = true -> sameKind b c = true -> sameKind a c = true.
Proof. destruct a, b, c; cbn; auto. Qed.

Lemma endRowId_setEnd e l : endRowId (setEndRowId e l) = e.
Proof. destruct l; reflexivity. Qed.

Lemma startRowId_setEnd e l : startRowId (setEndRowId e l) = startRowId l.
Proof. destruct l; reflexivity. Qed.

Lemma anchorOf_setEnd e l : anchorOf (setEndRowId e l) = anchorOf l.
Proof. destruct l; reflexivity. Qed.

(** After a turn, the last grouped connector has the kind, the end
    row and the anchor of the connector of that turn. *)
Lemma groupTurn_last idx G c :
  exists G' l, groupTurn idx G c = G' ++ [l] /\
    sameKind l c = true /\ endRowId l = endRowId c /\ anchorOf l = anchorOf c.
Proof.
  destruct (snoc_cases G) as [->|(G0 & l0 & ->)].
  - exists [], c. rewrite groupTurn_nil. repeat split. apply sameKind_refl.
  - rewrite groupTurn_snoc. destruct (merges _ c l0) eqn:E.
    + apply merges_iff in E. destruct E as (Hk & _ & Ha).
      exists G0, (setEndRowId (endRowId c) l0).
      rewrite sameKind_setEnd, endRowId_setEnd, anchorOf_setEnd.
      repeat split; auto. now rewrite sameKind_sym.
    + exists (G0 ++ [l0]), c. rewrite <- app_assoc. repeat split.
      apply sameKind_refl.
Qed.

Lemma groupConnectors_last idx cs p :
  exists G l, groupConnectors idx (cs ++ [p]) = G ++ [l] /\
    sameKind l p = true /\ endRowId l = endRowId p /\ anchorOf l = anchorOf p.
Proof. rewrite groupConnectors_snoc. apply groupTurn_last. Qed.

(** Two turns that consult different tables do the same when the
    tables agree on whether the connector follows the last one. *)
Lemma groupTurn_agree idx1 idx2 G c :
  (forall l, lastOf G = Some l -> sameKind c l = true ->
             consecutive (idx1 c l) c l = consecutive (idx2 c l) c l) ->
  groupTurn idx1 G c = groupTurn idx2 G c.
Proof.
  intro H. destruct (snoc_cases G) as [->|(G0 & l & ->)]; [reflexivity|].
  rewrite !groupTurn_snoc. destruct (sameKind c l) eqn:Ek.
  - rewrite (H l (lastOf_snoc G0 l) Ek). reflexivity.
  - now rewrite !merges_other_kind.
Qed.

(** The turns after a connector was pushed leave what is before it. *)
Lemma fold_groupTurn_frame idx cs : forall P Q,
  Q <> [] ->
  fold_left (groupTurn idx) cs (P ++ Q) = P ++ fold_left (groupTurn idx) cs Q.
Proof.
  induction cs as [|c cs IH]; intros P Q HQ; cbn [fold_left]; [reflexivity|].
  destruct (snoc_cases Q) as [->|(Q0 & l & ->)]; [contradiction|].
  rewrite app_assoc, !groupTurn_snoc.
  destruct (merges _ c l).
  - rewrite <- app_assoc. apply IH. destruct Q0; discriminate.
  - rewrite <- app_assoc. apply IH. destruct Q0; discriminate.
Qed.

End GroupFacts.

(* ================================================================== *)
(** * The two grouping passes agree when row identifiers are distinct *)
(* ================================================================== *)

Module AgreeFacts.

Import Str Arr Model Rows Analytical ParseFacts TraceFacts GapFacts IdFacts.
Import SimFacts IndexFacts GroupFacts.
Local Open Scope list_scope.

Lemma evConns_app a b : evConns (a ++ b) = evConns a ++ evConns b.
Proof. unfold evConns. apply flat_map_app. Qed.

Lemma evRows_app a b : evRows (a ++ b) = evRows a ++ evRows b.
Proof. unfold evRows. apply map_app. Qed.

Lemma evConns_cons e es : evConns (e :: es) = connList (evConn e) ++ evConns es.
Proof. reflexivity. Qed.

(** A raw connector is the connector of one of the events. *)
Lemma evConns_split evs : forall X c Y,
  evConns evs = X ++ c :: Y ->
  exists E1 ec E3, evs = E1 ++ ec :: E3 /\ evConn ec = Some c /\
                   evConns E1 = X /\ evConns E3 = Y.
Proof.
  induction evs as [|e evs IH]; intros X c Y H.
  - destruct X; discriminate.
  - rewrite evConns_cons in H. destruct (evConn e) as [x|] eqn:Ee; cbn [connList app] in H.
    + destruct X as [|x' X].
      * cbn [app] in H. injection H as -> HY.
        exists [], e, evs. repeat split; auto.
      * cbn [app] in H. injection H as -> H.
        destruct (IH X c Y H) as (E1 & ec & E3 & -> & Hc & H1 & H3).
        exists (e :: E1), ec, E3. repeat split; auto.
        rewrite evConns_cons, Ee, H1. reflexivity.
    + destruct (IH X c Y H) as (E1 & ec & E3 & -> & Hc & H1 & H3).
      exists (e :: E1), ec, E3. repeat split; auto.
      rewrite evConns_cons, Ee, H1. reflexivity.
Qed.

Lemma evConns_nil evs :
  evConns evs = [] -> Forall (fun e => evConn e = None) evs.
Proof.
  induction evs as [|e evs IH]; intro H; [constructor|].
  rewrite evConns_cons in H. apply app_eq_nil in H. destruct H as [H1 H2].
  constructor; [|auto]. destruct (evConn e); [discriminate|reflexivity].
Qed.

(** Two raw connectors that follow one another are the connectors of
    two events with only rows without connector between them. *)
Lemma evConns_adjacent evs X p c Y :
  evConns evs = X ++ p :: c :: Y ->
  exists E1 ep E2 ec E3,
    evs = E1 ++ ep :: E2 ++ ec :: E3 /\
    evConn ep = Some p /\ evConn ec = Some c /\
    Forall (fun e => evConn e = None) E2 /\
    evConns E1 = X /\ evConns E3 = Y.
Proof.
  intro H. destruct (evConns_split evs X p (c :: Y) H) as (E1 & ep & E' & -> & Hp & H1 & H').
  destruct (evConns_split E' [] c Y H') as (E2 & ec & E3 & -> & Hc & H2 & H3).
  exists E1, ep, E2, ec, E3. repeat split; auto. now apply evConns_nil.
Qed.

(** Rows pushed without a connector are real on both sides. *)
Lemma noconn_real (real : VisualRow -> bool) E :
  (real = leftReal \/ real = rightReal \/ real = always) ->
  Forall EvOK E -> Forall (fun e => evConn e = None) E ->
  Forall (fun r => real r = true) (evRows E).
Proof.
  intros Hreal Hok Hnone. unfold evRows. apply Forall_map.
  rewrite Forall_forall in *. intros e He.
  destruct (EvOK_noconn e (Hok e He) (Hnone e He)) as (Hl & Hr & _).
  destruct Hreal as [->|[->| ->]]; auto.
Qed.

Section Agreement.
Variable evs : list Ev.
Variable m : M.CState.
Hypothesis Hok : Forall EvOK evs.
Hypothesis Hdistinct : NoDup (map rowId (evRows evs)).
Hypothesis Hleft : M.leftItems m = leftItemsOf (evRows evs).
Hypothesis Hright : M.rightItems m = rightItemsOf (evRows evs).

Let U : ConnectorMeta -> ConnectorMeta -> IndexMap :=
  fun _ _ => rowIndexMap (evRows evs).

Lemma tables_agree X p c Y l :
  evConns evs = X ++ p :: c :: Y ->
  sameKind l p = true -> endRowId l = endRowId p -> sameKind c l = true ->
  consecutive (U c l) c l = consecutive (M.pickIndexMap m c l) c l.
Proof.
  intros Hraw Hlp Hend Hcl.
  destruct (evConns_adjacent evs X p c Y Hraw)
    as (E1 & ep & E2 & ec & E3 & Eevs & Hp & Hc & Hnone & _ & _).
  assert (Hokp : EvOK ep).
  { rewrite Forall_forall in Hok. apply Hok. rewrite Eevs.
    apply in_app_iff. right. now left. }
  assert (Hokc : EvOK ec).
  { rewrite Forall_forall in Hok. apply Hok. rewrite Eevs.
    apply in_app_iff. right. right. apply in_app_iff. right. now left. }
  assert (Hok2 : Forall EvOK E2).
  { rewrite Eevs in Hok. apply Forall_app in Hok. destruct Hok as [_ H].
    inversion H as [|? ? _ H']; subst. apply Forall_app in H'. tauto. }
  destruct (EvOK_conn ep p Hokp Hp) as (_ & Pe & _ & Pl & Pr).
  destruct (EvOK_conn ec c Hokc Hc) as (Cs & _ & _ & Cl & Cr).
  assert (Erows : evRows evs =
                  evRows E1 ++ evRow ep :: evRows E2 ++ evRow ec :: evRows E3).
  { rewrite Eevs. unfold evRows. rewrite map_app. cbn [map].
    rewrite map_app. reflexivity. }
  assert (Np : ~ In (rowId (evRow ep))
                  (map rowId (evRows E2 ++ evRow ec :: evRows E3))).
  { rewrite Erows, map_app in Hdistinct. cbn [map] in Hdistinct.
    apply NoDup_remove_2 in Hdistinct. intro H. apply Hdistinct.
    apply in_app_iff. now right. }
  assert (Nc : ~ In (rowId (evRow ec)) (map rowId (evRows E3))).
  { rewrite Erows in Hdistinct.
    replace (evRows E1 ++ evRow ep :: evRows E2 ++ evRow ec :: evRows E3)
      with ((evRows E1 ++ evRow ep :: evRows E2) ++ evRow ec :: evRows E3)
      in Hdistinct by (rewrite <- app_assoc; reflexivity).
    rewrite map_app in Hdistinct. cbn [map] in Hdistinct.
    apply NoDup_remove_2 in Hdistinct. intro H. apply Hdistinct.
    apply in_app_iff. now right. }
  unfold consecutive. rewrite Cs, Hend, Pe.
  assert (HU : (getOr (U c l) (rowId (evRow ec))
                =? getOr (U c l) (rowId (evRow ep)) + 1)%Z
               = (List.length (evRows E2) =? 0)).
  { unfold U, rowIndexMap. rewrite <- idsOf_always, Erows.
    apply (consecutive_iff always); auto.
    apply noconn_real; auto. }
  rewrite HU. symmetry.
  unfold M.pickIndexMap.
  destruct (M.isRemoved c || M.isRemoved l) eqn:Ek.
  - assert (Kc : isAddedConn c = false /\ isAddedConn p = false).
    { destruct c, l, p; cbn in *; auto; discriminate. }
    destruct Kc as [Kc Kp]. rewrite Kc in Cl. rewrite Kp in Pl.
    unfold M.leftIndexMap. rewrite Hleft, idsOf_left, Erows.
    apply (consecutive_iff leftReal); auto.
    apply noconn_real; auto.
  - assert (Kc : isRemovedConn c = false /\ isRemovedConn p = false).
    { destruct c, l, p; cbn in *; auto; discriminate. }
    destruct Kc as [Kc Kp]. rewrite Kc in Cr. rewrite Kp in Pr.
    unfold M.rightIndexMap. rewrite Hright, idsOf_right, Erows.
    apply (consecutive_iff rightReal); auto.
    apply noconn_real; auto.
Qed.

Lemma prefixes_agree cs : forall rest,
  evConns evs = cs ++ rest ->
  groupConnectors U cs = groupConnectors (M.pickIndexMap m) cs.
Proof.
  induction cs as [|c cs IH] using rev_ind; intros rest H; [reflexivity|].
  rewrite <- app_assoc in H. cbn [app] in H.
  rewrite !groupConnectors_snoc, <- (IH _ H).
  apply groupTurn_agree. intros l Hl Hk.
  destruct (snoc_cases cs) as [->|(cs' & p & ->)]; [discriminate|].
  destruct (groupConnectors_last U cs' p) as (G & l' & EG & Hlp & Hend & _).
  rewrite EG, lastOf_snoc in Hl. injection Hl as ->.
  rewrite <- app_assoc in H. cbn [app] in H.
  eapply tables_agree; eauto.
Qed.

Lemma groupings_agree :
  groupConnectors U (evConns evs)
  = groupConnectors (M.pickIndexMap m) (evConns evs).
Proof. apply (prefixes_agree (evConns evs) []). now rewrite app_nil_r. Qed.
End Agreement.

End AgreeFacts.

Section BuildersAgree.

Import Str Arr Model Parse Rows Analytical TraceFacts SimFacts AgreeFacts.
Local Open Scope string_scope.
Local Open Scope list_scope.

(** Three hunks out of order: the gaps before the first and before the
    third both cover old line 1, so that the rows "removed-full-1" and
    "removed-full-2" are pushed twice. *)
Definition scrambledDiff : string :=
  "diff --git a/f.txt b/f.txt" ++ nl ++
  "@@ -3,0 +1,0 @@" ++ nl ++
  "@@ -1,0 +1,0 @@" ++ nl ++
  "@@ -2,0 +1,0 @@" ++ nl ++
  "+x".

Definition scrambledFile : DiffFile :=
  mkFile (Some "f.txt") (Some "f.txt") StModified
    [mkHunk "@@ -3,0 +1,0 @@" 3 0 1 0 [];
     mkHunk "@@ -1,0 +1,0 @@" 1 0 1 0 [];
     mkHunk "@@ -2,0 +1,0 @@" 2 0 1 0 [mkLine LAdded "x" None (Some 1%Z)]].

(** C3 as stated fails: on this file, with an old file of two lines and
    an empty new file, [buildVisualRows] keeps the first two "removed"
    connectors apart and [buildColumns] merges them. *)
Lemma C3_grouped_connectors_differ :
  files (parseUnifiedDiff scrambledDiff) = [scrambledFile] /\
  snd (buildVisualRows scrambledFile (Some ["a"; "b"]) (Some []))
    = [ConnRemoved "removed-full-1" "removed-full-1" None;
       ConnRemoved "removed-full-2" "removed-full-2" None;
       ConnRemoved "removed-full-1" "removed-full-1" None;
       ConnAdded "added-2-0" "added-2-0" (Some 1%Z);
       ConnRemoved "removed-full-2" "removed-full-2" (Some 1%Z)] /\
  Measured.colConnectors
    (Measured.buildColumns scrambledFile (Some ["a"; "b"]) (Some []))
    = [ConnRemoved "removed-full-1" "removed-full-2" None;
       ConnRemoved "removed-full-1" "removed-full-1" None;
       ConnAdded "added-2-0" "added-2-0" (Some 1%Z);
       ConnRemoved "removed-full-2" "removed-full-2" (Some 1%Z)] /\
  snd (buildVisualRows scrambledFile (Some ["a"; "b"]) (Some []))
    <> Measured.colConnectors
         (Measured.buildColumns scrambledFile (Some ["a"; "b"]) (Some [])).
Proof.
  repeat split; try reflexivity.
  vm_compute. discriminate.
Qed.

(** C3, amended: for every file and optional full contents, the
    non-spacer left cells of the rows of [buildVisualRows], in order,
    are the [leftItems] of [buildColumns], the non-spacer right cells
    are its [rightItems], and, when the row identifiers are pairwise
    distinct, the two grouped connector lists are the same. *)
Theorem C3_builders_agree (file : DiffFile)
        (oldFileLines newFileLines : option (list string)) :
  leftItemsOf (fst (buildVisualRows file oldFileLines newFileLines))
    = Measured.colLeftItems (Measured.buildColumns file oldFileLines newFileLines) /\
  rightItemsOf (fst (buildVisualRows file oldFileLines newFileLines))
    = Measured.colRightItems (Measured.buildColumns file oldFileLines newFileLines) /\
  (NoDup (map rowId (fst (buildVisualRows file oldFileLines newFileLines))) ->
   snd (buildVisualRows file oldFileLines newFileLines)
     = Measured.colConnectors (Measured.buildColumns file oldFileLines newFileLines)).
Proof.
  unfold buildVisualRows, Measured.buildColumns.
  cbn [fst snd Measured.colLeftItems Measured.colRightItems Measured.colConnectors].
  destruct (Sim_buildRaw file oldFileLines newFileLines) as (Sl & Sr & Sc & _ & _).
  split; [now rewrite Sl|]. split; [now rewrite Sr|].
  intro Hd. rewrite Sc.
  destruct (buildRaw_Trace file oldFileLines newFileLines)
    as (evs & Er & Ec & Hok & _).
  rewrite Er in *. rewrite Ec.
  apply groupings_agree; assumption.
Qed.

Lemma C3_builders_agree_witness :
  snd (buildVisualRows replacedFile
         (Some ["hello"; "keep"; "tail"]) (Some ["hello world"; "again"; "keep"; "tail"]))
  = Measured.colConnectors
      (Measured.buildColumns replacedFile
         (Some ["hello"; "keep"; "tail"]) (Some ["hello world"; "again"; "keep"; "tail"])).
Proof.
  apply (proj2 (proj2 (C3_builders_agree replacedFile
           (Some ["hello"; "keep"; "tail"])
           (Some ["hello world"; "again"; "keep"; "tail"])))).
  vm_compute.
  repeat (constructor; [cbn; intuition discriminate|]). constructor.
Defined.

End BuildersAgree.

(* ================================================================== *)
(** * A run of added rows becomes one connector *)
(* ================================================================== *)

Module RunFacts.

Import Str Arr Model Rows Analytical ParseFacts TraceFacts GapFacts IdFacts.
Import SimFacts IndexFacts GroupFacts AgreeFacts.
Local Open Scope list_scope.

(** An added row anchored at [a]. *)
Definition RunRow (a : option Z) (r : VisualRow) : Prop :=
  left r = LSpacer /\ exists l, right r = RCell RKAdded l a.

(** The raw connector pushed with such a row. *)
Definition connOf (a : option Z) (r : VisualRow) : ConnectorMeta :=
  ConnAdded (rowId r) (rowId r) a.

Lemma EvOK_run e a :
  EvOK e -> RunRow a (evRow e) -> evConn e = Some (connOf a (evRow e)).
Proof.
  intros H [Hl [l Hr]]. destruct H; cbn [evRow left right] in *; try discriminate.
  - injection Hr as _ <-. reflexivity.
  - injection Hr as _ <-. reflexivity.
Qed.

Lemma evConns_run a TR :
  Forall EvOK TR -> Forall (RunRow a) (evRows TR) ->
  evConns TR = map (connOf a) (evRows TR).
Proof.
  induction TR as [|e TR IH]; intros Hok Hrun; [reflexivity|].
  inversion Hok; subst. cbn [evRows map] in Hrun. inversion Hrun; subst.
  rewrite evConns_cons, (EvOK_run e a) by assumption.
  cbn [connList app evRows map]. f_equal. now apply IH.
Qed.

Lemma RunRow_added a r : RunRow a r -> isAddedRow r = true.
Proof. intros [Hl [l Hr]]. unfold isAddedRow. now rewrite Hl, Hr. Qed.

Lemma RunRow_real a r real :
  real = rightReal \/ real = always -> RunRow a r -> real r = true.
Proof.
  intros [->| ->] [Hl [l Hr]]; [|reflexivity]. unfold rightReal. now rewrite Hr.
Qed.

(** The identifiers a connector holds. *)
Definition Mentions (c : ConnectorMeta) (id : string) : Prop :=
  startRowId c = id \/ endRowId c = id.

Lemma groupTurn_starts idx G c :
  incl (map startRowId (groupTurn idx G c)) (map startRowId (G ++ [c])).
Proof.
  destruct (snoc_cases G) as [->|(G0 & l & ->)]; [apply incl_refl|].
  rewrite groupTurn_snoc. destruct (merges _ c l).
  - rewrite !map_app. cbn [map]. rewrite startRowId_setEnd.
    apply incl_appl, incl_refl.
  - rewrite <- app_assoc. apply incl_refl.
Qed.

Lemma groupTurn_ends idx G c :
  incl (map endRowId (groupTurn idx G c)) (map endRowId (G ++ [c])).
Proof.
  destruct (snoc_cases G) as [->|(G0 & l & ->)]; [apply incl_refl|].
  rewrite groupTurn_snoc. destruct (merges _ c l).
  - rewrite !map_app. cbn [map]. rewrite endRowId_setEnd.
    apply incl_app; [apply incl_appl, incl_appl, incl_refl|apply incl_appr, incl_refl].
  - rewrite <- app_assoc. apply incl_refl.
Qed.

(** Grouping invents no identifier. *)
Lemma fold_groupTurn_ids idx cs : forall G,
  incl (map startRowId (fold_left (groupTurn idx) cs G)) (map startRowId (G ++ cs)) /\
  incl (map endRowId (fold_left (groupTurn idx) cs G)) (map endRowId (G ++ cs)).
Proof.
  induction cs as [|c cs IH]; intro G; cbn [fold_left].
  - rewrite app_nil_r. split; apply incl_refl.
  - destruct (IH (groupTurn idx G c)) as [I1 I2]. split.
    + eapply incl_tran; [exact I1|]. rewrite map_app.
      replace (G ++ c :: cs) with ((G ++ [c]) ++ cs)
        by (rewrite <- app_assoc; reflexivity).
      rewrite (map_app _ (G ++ [c])). apply incl_app.
      * apply incl_appl, groupTurn_starts.
      * apply incl_appr, incl_refl.
    + eapply incl_tran; [exact I2|]. rewrite map_app.
      replace (G ++ c :: cs) with ((G ++ [c]) ++ cs)
        by (rewrite <- app_assoc; reflexivity).
      rewrite (map_app _ (G ++ [c])). apply incl_app.
      * apply incl_appl, groupTurn_ends.
      * apply incl_appr, incl_refl.
Qed.

(** The identifiers of the raw connectors are identifiers of rows. *)
Lemma evConns_ids T :
  Forall EvOK T ->
  incl (map startRowId (evConns T)) (map rowId (evRows T)) /\
  incl (map endRowId (evConns T)) (map rowId (evRows T)).
Proof.
  induction T as [|e T IH]; intro Hok; [split; apply incl_refl|].
  inversion Hok as [|? ? He HT]; subst. destruct (IH HT) as [I1 I2].
  rewrite evConns_cons, !map_app. cbn [evRows map].
  destruct (evConn e) as [c|] eqn:Ec; cbn [connList map].
  - destruct (EvOK_conn e c He Ec) as (Hs & Hend & _).
    rewrite Hs, Hend. split; (apply incl_cons; [now left|now apply incl_tl]).
  - split; now apply incl_tl.
Qed.

Lemma last_cons_default {A} (l : list A) : forall x d, last (x :: l) d = last l x.
Proof.
  induction l as [|y l IH]; intros x d; [reflexivity|].
  change (last (x :: y :: l) d) with (last (y :: l) d). now rewrite !IH.
Qed.

Lemma last_snoc_eq {A} (l : list A) x : x :: l = removelast (x :: l) ++ [last l x].
Proof.
  rewrite <- (last_cons_default l x x).
  apply app_removelast_last. discriminate.
Qed.

Section Run.
Variables (evs T1 TR T2 : list Ev) (a : option Z).
Variable real : VisualRow -> bool.
Variable idx : ConnectorMeta -> ConnectorMeta -> IndexMap.

Hypothesis Hevs : evs = T1 ++ TR ++ T2.
Hypothesis Hok : Forall EvOK evs.
Hypothesis Hrun : Forall (RunRow a) (evRows TR).
Hypothesis Hreal : real = rightReal \/ real = always.
Hypothesis Hidx : forall c l,
    isAddedConn c = true -> isAddedConn l = true ->
    idx c l = indexOf (idsOf real (evRows evs)).
Hypothesis Hunique : forall A r B,
    evRows evs = A ++ r :: B ->
    In (rowId r) (map rowId (evRows TR)) ->
    ~ In (rowId r) (map rowId (A ++ B)).
Hypothesis Hfront :
  match lastOf (evRows T1) with Some r => isAddedRow r = false | None => True end.
Hypothesis Hback :
  match evRows T2 with r :: _ => isAddedRow r = false | [] => True end.

Lemma Hok1 : Forall EvOK T1.
Proof. rewrite Hevs in Hok. apply Forall_app in Hok. tauto. Qed.

Lemma HokR : Forall EvOK TR.
Proof.
  rewrite Hevs in Hok. apply Forall_app in Hok. destruct Hok as [_ H].
  apply Forall_app in H. tauto.
Qed.

Lemma Hok2 : Forall EvOK T2.
Proof.
  rewrite Hevs in Hok. apply Forall_app in Hok. destruct Hok as [_ H].
  apply Forall_app in H. tauto.
Qed.

Lemma noconn_facts e :
  EvOK e -> evConn e = None ->
  real (evRow e) = true /\ idIsAdded (rowId (evRow e)) = false.
Proof.
  intros He Hn. destruct (EvOK_noconn e He Hn) as (Hl & Hr & Ha).
  rewrite (EvOK_idIsAdded e He). split; [|exact Ha].
  destruct Hreal as [->| ->]; auto.
Qed.

Lemma raw_split :
  evConns evs = evConns T1 ++ map (connOf a) (evRows TR) ++ evConns T2.
Proof.
  rewrite Hevs, !evConns_app, (evConns_run a TR HokR Hrun). reflexivity.
Qed.

Lemma rows_split : evRows evs = evRows T1 ++ evRows TR ++ evRows T2.
Proof. rewrite Hevs, !evRows_app. reflexivity. Qed.

(** The first connector of the run is not merged into the one
    before it. *)
Lemma front e1 TR' :
  TR = e1 :: TR' ->
  groupTurn idx (groupConnectors idx (evConns T1)) (connOf a (evRow e1))
  = groupConnectors idx (evConns T1) ++ [connOf a (evRow e1)].
Proof.
  intro ETR.
  destruct (snoc_cases (evConns T1)) as [E|(C1' & p & E)]; rewrite E; [reflexivity|].
  destruct (groupConnectors_last idx C1' p) as (G & l & EG & Hlp & Hend & _).
  rewrite EG, groupTurn_snoc.
  assert (Hm : merges (consecutive (idx (connOf a (evRow e1)) l) (connOf a (evRow e1)) l)
                      (connOf a (evRow e1)) l = false).
  { destruct (isAddedConn l) eqn:El;
      [|apply merges_other_kind; destruct l; try reflexivity; discriminate].
    rewrite Hidx by (auto; reflexivity).
    assert (Ep : isAddedConn p = true) by (destruct l, p; cbn in *; auto; discriminate).
    destruct (evConns_split T1 C1' p [] E) as (Ea & ep & Eb & ET1 & Hp & _ & HEb).
    apply evConns_nil in HEb.
    pose proof Hok1 as H1. rewrite ET1 in H1.
    apply Forall_app in H1. destruct H1 as [_ H1].
    apply Forall_cons_iff in H1. destruct H1 as [Hokp HokEb].
    destruct (EvOK_conn ep p Hokp Hp) as (_ & Pend & Padd & _ & _).
    rewrite Ep in Padd.
    destruct (snoc_cases Eb) as [->|(Eb' & eq & ->)].
    - exfalso. rewrite ET1, evRows_app in Hfront. cbn [evRows map] in Hfront.
      rewrite lastOf_snoc in Hfront. congruence.
    - apply Forall_app in HokEb. destruct HokEb as [_ Hq].
      apply Forall_cons_iff in Hq. destruct Hq as [Hokq _].
      apply Forall_app in HEb. destruct HEb as [_ Hn].
      apply Forall_cons_iff in Hn. destruct Hn as [Hnq _].
      destruct (noconn_facts eq Hokq Hnq) as [Rq Iq].
      assert (Erows : evRows evs
                      = evRows (Ea ++ ep :: Eb') ++ evRow eq :: evRow e1
                          :: (evRows TR' ++ evRows T2)).
      { rewrite rows_split, ET1, ETR.
        replace (Ea ++ ep :: Eb' ++ [eq]) with ((Ea ++ ep :: Eb') ++ [eq])
          by (rewrite <- app_assoc; reflexivity).
        rewrite (evRows_app (Ea ++ ep :: Eb') [eq]), <- app_assoc. reflexivity. }
      assert (R1 : real (evRow e1) = true).
      { apply (RunRow_real a); [exact Hreal|].
        pose proof Hrun as Hr'. rewrite ETR in Hr'. cbn [evRows map] in Hr'.
        apply Forall_cons_iff in Hr'. tauto. }
      assert (N1 : ~ In (rowId (evRow e1)) (map rowId (evRows TR' ++ evRows T2))).
      { intro Hin.
        apply (Hunique (evRows (Ea ++ ep :: Eb') ++ [evRow eq]) (evRow e1)
                       (evRows TR' ++ evRows T2)).
        - rewrite Erows, <- app_assoc. reflexivity.
        - rewrite ETR. now left.
        - rewrite map_app. apply in_app_iff. now right. }
      unfold connOf, merges, consecutive.
      cbn [startRowId endRowId]. destruct l; try discriminate.
      cbn [endRowId] in *. rewrite Erows, Hend, Pend.
      rewrite (not_consecutive_after real _ (evRow eq) (evRow e1) _
                 (rowId (evRow ep)) Rq R1 N1); [reflexivity|].
      intro Heq. pose proof (EvOK_idIsAdded ep Hokp) as Ip.
      rewrite Heq, Iq in Ip. congruence. }
  rewrite Hm, <- app_assoc. reflexivity.
Qed.

(** Inside the run, every connector is merged into the one before
    it. *)
Lemma inner tail : forall Epre ek Epost s G0,
  evs = Epre ++ ek :: tail ++ Epost ->
  Forall (fun e => RunRow a (evRow e) /\
                   In (rowId (evRow e)) (map rowId (evRows TR))) (ek :: tail) ->
  fold_left (groupTurn idx) (map (connOf a) (evRows tail))
            (G0 ++ [ConnAdded s (rowId (evRow ek)) a])
  = G0 ++ [ConnAdded s (rowId (evRow (last tail ek))) a].
Proof.
  induction tail as [|e' tail IH]; intros Epre ek Epost s G0 E Hall; [reflexivity|].
  apply Forall_cons_iff in Hall. destruct Hall as [[Rk Ik] Hall].
  pose proof Hall as Hall'.
  apply Forall_cons_iff in Hall'. destruct Hall' as [[R' I'] _].
  change (evRows (e' :: tail)) with (evRow e' :: evRows tail).
  cbn [map fold_left]. rewrite groupTurn_snoc.
  assert (Erows : evRows evs
                  = evRows Epre ++ evRow ek :: [] ++ evRow e'
                      :: (evRows tail ++ evRows Epost)).
  { rewrite E, evRows_app. cbn [evRows map app]. rewrite map_app. reflexivity. }
  assert (Hc : consecutive (idx (connOf a (evRow e')) (ConnAdded s (rowId (evRow ek)) a))
                           (connOf a (evRow e')) (ConnAdded s (rowId (evRow ek)) a)
               = true).
  { rewrite Hidx by reflexivity. unfold consecutive, connOf.
    cbn [startRowId endRowId]. rewrite Erows.
    rewrite (consecutive_iff real); [reflexivity| | |constructor| |].
    - now apply (RunRow_real a).
    - now apply (RunRow_real a).
    - intro Hin. apply (Hunique _ _ _ Erows Ik).
      rewrite map_app. apply in_app_iff. now right.
    - intro Hin.
      apply (Hunique (evRows Epre ++ [evRow ek]) (evRow e')
                     (evRows tail ++ evRows Epost)).
      + rewrite Erows, <- app_assoc. reflexivity.
      + exact I'.
      + rewrite map_app. apply in_app_iff. now right. }
  assert (Hm : merges (consecutive (idx (connOf a (evRow e'))
                                        (ConnAdded s (rowId (evRow ek)) a))
                                   (connOf a (evRow e'))
                                   (ConnAdded s (rowId (evRow ek)) a))
                      (connOf a (evRow e')) (ConnAdded s (rowId (evRow ek)) a)
               = true).
  { apply merges_iff. repeat split. exact Hc. }
  rewrite Hm.
  change (setEndRowId (endRowId (connOf a (evRow e'))) (ConnAdded s (rowId (evRow ek)) a))
    with (ConnAdded s (rowId (evRow e')) a).
  rewrite (IH (Epre ++ [ek]) e' Epost s G0).
  - now rewrite last_cons_default.
  - rewrite <- app_assoc. exact E.
  - exact Hall.
Qed.

(** The connector after the run is not merged into that of the
    run. *)
Lemma back c C2' Tpre eN s G0 :
  TR = Tpre ++ [eN] -> evConns T2 = c :: C2' ->
  groupTurn idx (G0 ++ [ConnAdded s (rowId (evRow eN)) a]) c
  = G0 ++ [ConnAdded s (rowId (evRow eN)) a; c].
Proof.
  intros ETR EC2. rewrite groupTurn_snoc.
  assert (Hm : merges (consecutive (idx c (ConnAdded s (rowId (evRow eN)) a)) c
                                   (ConnAdded s (rowId (evRow eN)) a))
                      c (ConnAdded s (rowId (evRow eN)) a) = false).
  { destruct (isAddedConn c) eqn:Ec;
      [|apply merges_other_kind; destruct c; try reflexivity; discriminate].
    rewrite Hidx by (auto; reflexivity).
    destruct (evConns_split T2 [] c C2' EC2) as (Ea & ec & Eb & ET2 & Hc & HEa & _).
    apply evConns_nil in HEa.
    pose proof Hok2 as H2. rewrite ET2 in H2.
    apply Forall_app in H2. destruct H2 as [HokEa H2].
    apply Forall_cons_iff in H2. destruct H2 as [Hokc _].
    destruct (EvOK_conn ec c Hokc Hc) as (Cstart & _ & Cadd & _ & _).
    rewrite Ec in Cadd.
    destruct Ea as [|eq Ea'].
    - exfalso. rewrite ET2 in Hback. cbn [app evRows map] in Hback. congruence.
    - apply Forall_cons_iff in HokEa. destruct HokEa as [Hokq _].
      apply Forall_cons_iff in HEa. destruct HEa as [Hnq _].
      destruct (noconn_facts eq Hokq Hnq) as [Rq Iq].
      assert (Erows : evRows evs
                      = (evRows T1 ++ evRows Tpre) ++ evRow eN :: evRow eq
                          :: evRows (Ea' ++ ec :: Eb)).
      { rewrite rows_split, ET2, ETR, evRows_app, <- !app_assoc. reflexivity. }
      assert (RN : real (evRow eN) = true).
      { apply (RunRow_real a); [exact Hreal|].
        pose proof Hrun as Hr'. rewrite ETR, evRows_app in Hr'.
        apply Forall_app in Hr'. destruct Hr' as [_ Hr'].
        cbn [evRows map] in Hr'. apply Forall_cons_iff in Hr'. tauto. }
      assert (NN : ~ In (rowId (evRow eN))
                      (map rowId (evRow eq :: evRows (Ea' ++ ec :: Eb)))).
      { intro Hin. apply (Hunique _ _ _ Erows).
        - rewrite ETR, evRows_app, map_app. apply in_app_iff. right. now left.
        - rewrite map_app. apply in_app_iff. now right. }
      unfold merges, consecutive. destruct c; try discriminate.
      cbn [startRowId endRowId] in *. rewrite Erows, Cstart.
      rewrite (not_consecutive_before real _ (evRow eN) (evRow eq) _
                 (rowId (evRow ec)) RN Rq NN); [reflexivity|].
      intro Heq. pose proof (EvOK_idIsAdded ec Hokc) as Ic.
      rewrite Heq, Iq in Ic. congruence. }
  rewrite Hm. reflexivity.
Qed.

(** The identifiers of the run are those of no other row. *)
Lemma run_ids_outside id :
  In id (map rowId (evRows TR)) ->
  ~ In id (map rowId (evRows T1)) /\ ~ In id (map rowId (evRows T2)).
Proof.
  intro Hin. pose proof Hin as Hin'.
  apply in_map_iff in Hin'. destruct Hin' as (r & <- & Hr).
  apply in_split in Hr. destruct Hr as (Ra & Rb & ER).
  assert (Erows : evRows evs = (evRows T1 ++ Ra) ++ r :: (Rb ++ evRows T2)).
  { rewrite rows_split, ER, <- !app_assoc. reflexivity. }
  pose proof (Hunique _ _ _ Erows Hin) as Hn.
  rewrite !map_app in Hn. split; intro H; apply Hn.
  - apply in_app_iff. left. apply in_app_iff. now left.
  - apply in_app_iff. right. apply in_app_iff. now right.
Qed.

Lemma outside_group G T id :
  Forall EvOK T ->
  incl (map startRowId G) (map startRowId (evConns T)) ->
  incl (map endRowId G) (map endRowId (evConns T)) ->
  ~ In id (map rowId (evRows T)) ->
  forall c, In c G -> ~ Mentions c id.
Proof.
  intros HT Hs He Hn c Hc [H|H]; apply Hn; destruct (evConns_ids T HT) as [I1 I2].
  - apply I1, Hs. rewrite <- H. now apply in_map.
  - apply I2, He. rewrite <- H. now apply in_map.
Qed.

(** The whole run is one grouped connector, and no other grouped
    connector holds an identifier of the run. *)
Lemma run_grouped e1 TR' :
  TR = e1 :: TR' ->
  exists G1 G2,
    groupConnectors idx (evConns evs)
    = G1 ++ ConnAdded (rowId (evRow e1)) (rowId (evRow (last TR' e1))) a :: G2 /\
    forall c, In c (G1 ++ G2) ->
              forall id, In id (map rowId (evRows TR)) -> ~ Mentions c id.
Proof.
  intro ETR.
  set (G0 := groupConnectors idx (evConns T1)).
  set (g := ConnAdded (rowId (evRow e1)) (rowId (evRow (last TR' e1))) a).
  assert (Hrunfold :
            fold_left (groupTurn idx) (map (connOf a) (evRows TR)) G0 = G0 ++ [g]).
  { rewrite ETR. cbn [evRows map fold_left]. fold G0.
    unfold G0 at 1. rewrite (front e1 TR' ETR). fold G0. unfold connOf at 2.
    apply (inner TR' T1 e1 T2 (rowId (evRow e1)) G0).
    - rewrite Hevs, ETR. reflexivity.
    - pose proof Hrun as Hr'. rewrite <- ETR. unfold evRows in Hr'.
      rewrite Forall_map in Hr'. rewrite Forall_forall in *.
      intros e He. split; [now apply Hr'|]. unfold evRows. rewrite map_map.
      now apply (in_map (fun x => rowId (evRow x))). }
  assert (HG0 : forall c, In c G0 ->
                forall id, In id (map rowId (evRows TR)) -> ~ Mentions c id).
  { intros c Hc id Hid. destruct (run_ids_outside id Hid) as [N1 _].
    destruct (fold_groupTurn_ids idx (evConns T1) []) as [I1 I2].
    apply (outside_group G0 T1 id Hok1 I1 I2 N1 c Hc). }
  unfold groupConnectors. rewrite raw_split, !fold_left_app.
  fold (groupConnectors idx (evConns T1)). fold G0. rewrite Hrunfold.
  destruct (evConns T2) as [|c C2'] eqn:EC2.
  - exists G0, []. split; [reflexivity|]. rewrite app_nil_r. exact HG0.
  - cbn [fold_left].
    pose proof (last_snoc_eq TR' e1) as Elast. rewrite <- ETR in Elast.
    unfold g. rewrite (back c C2' _ _ _ G0 Elast EC2). fold g.
    replace (G0 ++ [g; c]) with ((G0 ++ [g]) ++ [c])
      by (rewrite <- app_assoc; reflexivity).
    rewrite fold_groupTurn_frame by discriminate.
    exists G0, (fold_left (groupTurn idx) C2' [c]).
    split; [rewrite <- app_assoc; reflexivity|].
    intros x Hx id Hid. apply in_app_iff in Hx. destruct Hx as [Hx|Hx];
      [now apply HG0|].
    destruct (run_ids_outside id Hid) as [_ N2].
    destruct (fold_groupTurn_ids idx C2' [c]) as [I1 I2].
    cbn [app] in I1, I2. rewrite <- EC2 in I1, I2.
    apply (outside_group _ T2 id Hok2 I1 I2 N2 x Hx).
Qed.

End Run.

End RunFacts.

(* ================================================================== *)
(** * Connector grouping *)
(* ================================================================== *)

Module GroupingClaim.

Import Str Arr Model Rows Analytical ParseFacts TraceFacts GapFacts IdFacts.
Import SimFacts IndexFacts GroupFacts AgreeFacts RunFacts.
Local Open Scope list_scope.

(** The rows of the added lines [ls], pushed by the turns [i], [i+1],
    ... of the walk of the hunk of index [hunkIndex], all anchored at
    [a]. *)
Fixpoint addedRun (hunkIndex i : nat) (a : option Z) (ls : list DiffLine)
  : list VisualRow :=
  match ls with
  | [] => []
  | l :: ls' =>
      mkRow (addedId hunkIndex i) LSpacer (RCell RKAdded l a)
      :: addedRun hunkIndex (S i) a ls'
  end.

(** The row before the run, if any, is no added row; nor is the row
    after it. *)
Definition endsWithoutAdded (rs : list VisualRow) : Prop :=
  match lastOf rs with Some r => isAddedRow r = false | None => True end.

Definition startsWithoutAdded (rs : list VisualRow) : Prop :=
  match rs with r :: _ => isAddedRow r = false | [] => True end.

(** Among the grouped connectors [G], one "added" connector spans the
    run from its first to its last row, and no other connector starts
    or ends at a row of the run. *)
Definition OneConnector (hunkIndex i : nat) (a : option Z) (ls : list DiffLine)
           (G : list ConnectorMeta) : Prop :=
  exists G1 G2,
    G = G1 ++ ConnAdded (addedId hunkIndex i)
                        (addedId hunkIndex (i + List.length ls - 1)) a :: G2 /\
    forall c, In c (G1 ++ G2) ->
    forall k, k < List.length ls ->
              startRowId c <> addedId hunkIndex (i + k) /\
              endRowId c <> addedId hunkIndex (i + k).

(** What a turn of the grouping loop does with the connector [c] that
    comes after the connectors [cs]: it is collapsed into the last
    grouped connector exactly when both are of the same kind, the start
    row of [c] is found at the index after that of the end row of the
    last grouped connector, and the anchors are the same (a "change"
    connector has none); otherwise it is pushed. *)
Definition CollapsesExactlyWhen
           (idx : ConnectorMeta -> ConnectorMeta -> IndexMap) : Prop :=
  forall cs c,
    match lastOf (groupConnectors idx cs) with
    | None => groupConnectors idx (cs ++ [c]) = [c]
    | Some last =>
        let m := idx c last in
        let follows :=
          sameKind c last = true /\
          getOr m (startRowId c) = (getOr m (endRowId last) + 1)%Z /\
          anchorOf c = anchorOf last in
        (follows ->
         groupConnectors idx (cs ++ [c])
         = updLast (setEndRowId (endRowId c)) (groupConnectors idx cs)) /\
        (~ follows ->
         groupConnectors idx (cs ++ [c]) = groupConnectors idx cs ++ [c])
    end.

Lemma collapses idx : CollapsesExactlyWhen idx.
Proof.
  intros cs c. rewrite groupConnectors_snoc.
  destruct (lastOf (groupConnectors idx cs)) as [l|] eqn:El.
  - destruct (lastOf_some _ _ El) as [G EG]. cbv zeta.
    rewrite EG, groupTurn_snoc, updLast_snoc.
    destruct (merges (consecutive (idx c l) c l) c l) eqn:Em.
    + split; [reflexivity|]. intro Hn. exfalso. apply Hn.
      apply merges_iff in Em. destruct Em as (Hk & Hc & Ha).
      unfold consecutive in Hc. apply Z.eqb_eq in Hc. auto.
    + split; [|now rewrite <- app_assoc].
      intros (Hk & Hc & Ha). exfalso.
      assert (merges (consecutive (idx c l) c l) c l = true); [|congruence].
      apply merges_iff. repeat split; auto.
      unfold consecutive. now apply Z.eqb_eq.
  - apply lastOf_nil_iff in El. rewrite El. reflexivity.
Qed.

Lemma addedRun_RunRow h a ls : forall i, Forall (RunRow a) (addedRun h i a ls).
Proof.
  induction ls as [|l ls IH]; intro i; cbn [addedRun]; constructor; [|apply IH].
  split; [reflexivity|]. now exists l.
Qed.

Lemma addedRun_ids h a ls : forall i id,
  In id (map rowId (addedRun h i a ls)) <->
  exists k, k < List.length ls /\ id = addedId h (i + k).
Proof.
  induction ls as [|l ls IH]; intros i id; cbn [addedRun map List.length In].
  - split; [contradiction|]. intros (k & Hk & _). lia.
  - rewrite IH. split.
    + intros [<-|(k & Hk & ->)].
      * exists 0. split; [lia|]. now rewrite Nat.add_0_r.
      * exists (S k). split; [lia|]. f_equal. lia.
    + intros ([|k] & Hk & ->).
      * left. now rewrite Nat.add_0_r.
      * right. exists k. split; [lia|]. f_equal. lia.
Qed.

Lemma addedRun_last h a ls : forall i r0,
  rowId r0 = addedId h i ->
  rowId (last (addedRun h (S i) a ls) r0) = addedId h (i + List.length ls).
Proof.
  induction ls as [|l ls IH]; intros i r0 H0.
  - cbn. now rewrite Nat.add_0_r.
  - change (addedRun h (S i) a (l :: ls))
      with (mkRow (addedId h (S i)) LSpacer (RCell RKAdded l a)
            :: addedRun h (S (S i)) a ls).
    rewrite last_cons_default, (IH (S i)) by reflexivity.
    cbn [List.length]. f_equal. lia.
Qed.

Lemma last_map {A B} (f : A -> B) l : forall d, last (map f l) (f d) = f (last l d).
Proof.
  induction l as [|x l IH]; intro d; [reflexivity|].
  cbn [map]. rewrite !last_cons_default. apply IH.
Qed.

(** The identifiers of the run name rows of the run only. *)
Lemma run_unique evs lo hi h i a ls TR :
  Forall EvOK evs -> Between lo hi evs ->
  evRows TR = addedRun h i a ls ->
  forall A r B,
    evRows evs = A ++ r :: B ->
    In (rowId r) (map rowId (evRows TR)) ->
    ~ In (rowId r) (map rowId (A ++ B)).
Proof.
  intros Hok Hb ETR A r B Erows Hin.
  rewrite ETR in Hin. apply addedRun_ids in Hin. destruct Hin as (k & _ & Eid).
  unfold evRows in Erows. apply map_eq_app in Erows.
  destruct Erows as (EA & E' & -> & HA & HB).
  apply map_eq_cons in HB. destruct HB as (e & EB & -> & He & HB).
  subst A r B. rewrite Eid.
  pose proof (addedId_once EA e EB lo hi h (i + k) Hok Hb Eid) as Hn.
  unfold evRows in Hn. now rewrite map_app in Hn.
Qed.

Section OneBuild.
Variables (file : DiffFile) (o n : option (list string)).
Variables (h i : nat) (a : option Z) (ls : list DiffLine).
Variables (R1 R2 : list VisualRow).
Hypothesis Hne : ls <> [].
Hypothesis Hrows : rows (buildRaw file o n) = R1 ++ addedRun h i a ls ++ R2.
Hypothesis Hfront : endsWithoutAdded R1.
Hypothesis Hback : startsWithoutAdded R2.

Lemma one_connector real idx :
  real = rightReal \/ real = always ->
  (forall c l, isAddedConn c = true -> isAddedConn l = true ->
               idx c l = indexOf (idsOf real (rows (buildRaw file o n)))) ->
  OneConnector h i a ls (groupConnectors idx (connectors (buildRaw file o n))).
Proof.
  intros Hreal Hidx.
  destruct (buildRaw_Trace file o n) as (evs & Er & Ec & Hok & Hb).
  rewrite Er in Hrows, Hidx. rewrite Ec.
  pose proof Hrows as Hs. unfold evRows in Hs.
  apply map_eq_app in Hs. destruct Hs as (T1 & T' & Eevs & HT1 & HT').
  apply map_eq_app in HT'. destruct HT' as (TR & T2 & -> & HTR & HT2).
  fold (evRows T1) in HT1. fold (evRows TR) in HTR. fold (evRows T2) in HT2.
  destruct ls as [|l0 ls'] eqn:Els; [contradiction|].
  destruct TR as [|e1 TR']; [discriminate|].
  rewrite <- Els in *.
  assert (Hrun : Forall (RunRow a) (evRows (e1 :: TR'))).
  { rewrite HTR. apply addedRun_RunRow. }
  assert (Hf : match lastOf (evRows T1) with
               | Some r => isAddedRow r = false | None => True end).
  { rewrite HT1. exact Hfront. }
  assert (Hbk : match evRows T2 with
                | r :: _ => isAddedRow r = false | [] => True end).
  { rewrite HT2. exact Hback. }
  destruct (run_grouped evs T1 (e1 :: TR') T2 a real idx Eevs Hok Hrun Hreal Hidx
              (run_unique evs _ _ h i a ls (e1 :: TR') Hok Hb HTR)
              Hf Hbk e1 TR' eq_refl) as (G1 & G2 & EG & Hout).
  exists G1, G2. split.
  - rewrite EG. do 3 f_equal.
    + rewrite Els in HTR. cbn [evRows map addedRun] in HTR.
      injection HTR as H1 _. now rewrite H1.
    + rewrite Els in HTR. cbn [evRows map addedRun] in HTR.
      injection HTR as H1 Ht.
      rewrite <- (last_map evRow TR' e1), Ht.
      rewrite addedRun_last by now rewrite H1.
      f_equal. rewrite Els. cbn [List.length]. lia.
  - intros c Hc k Hk.
    assert (Hid : In (addedId h (i + k)) (map rowId (evRows (e1 :: TR')))).
    { rewrite HTR. apply addedRun_ids. eauto. }
    pose proof (Hout c Hc _ Hid) as Hm. unfold Mentions in Hm. tauto.
Qed.
End OneBuild.

End GroupingClaim.

Section ConnectorGrouping.

Import Str Arr Model Rows GapFacts SimFacts IndexFacts GroupFacts GroupingClaim.
Local Open Scope string_scope.
Local Open Scope list_scope.

(** A hunk that keeps a line, adds two lines after it and keeps the
    next line. *)
Definition twoAdded : list DiffLine :=
  [ mkLine LAdded "b" None (Some 2%Z); mkLine LAdded "c" None (Some 3%Z) ].

Definition insertingHunk : DiffHunk :=
  mkHunk "@@ -1,2 +1,4 @@" 1 2 1 4
         ([ mkLine LContext "a" (Some 1%Z) (Some 1%Z) ] ++ twoAdded ++
          [ mkLine LContext "d" (Some 2%Z) (Some 4%Z) ]).

Definition insertingFile : DiffFile :=
  mkFile (Some "f") (Some "f") StModified [insertingHunk].



End ConnectorGrouping.

(* ================================================================== *)
(** * The parser: what each turn does, with the tests that lead to it *)
(* ================================================================== *)

Module TurnFacts.

Import Str Arr Model Normalize Parse NormalizeFacts ParseFacts.
Local Open Scope string_scope.
Local Open Scope list_scope.

(** The line that a turn of the loop pushes to the current hunk, with
    the steps of the two counters. *)
Inductive Pushed (st : PState) (line : string) : DiffLine -> Z -> Z -> Prop :=
| Pushed_added :
    startsWith line "+" = true -> startsWith line "+++" = false ->
    Pushed st line (mkLine LAdded (sliceFrom 1 line) None (Some (newLine st))) 0 1
| Pushed_removed :
    startsWith line "+" = false ->
    startsWith line "-" = true -> startsWith line "---" = false ->
    Pushed st line (mkLine LRemoved (sliceFrom 1 line) (Some (oldLine st)) None) 1 0
| Pushed_context :
    startsWith line "+" = false -> startsWith line "-" = false ->
    startsWith line " " = true ->
    Pushed st line (mkLine LContext (sliceFrom 1 line)
                           (Some (oldLine st)) (Some (newLine st))) 1 1.

(** The update of the current file that a line of the file header
    makes. *)
Inductive Edit (line : string) : (DiffFile -> DiffFile) -> Prop :=
| Edit_added :
    startsWith line "new file mode" = true -> Edit line (setStatus StAdded)
| Edit_deleted :
    startsWith line "deleted file mode" = true -> Edit line (setStatus StDeleted)
| Edit_old :
    startsWith line "--- " = true ->
    Edit line (setOldPath (pathOf "a/" (trim (sliceFrom 4 line))))
| Edit_new :
    startsWith line "--- " = false -> startsWith line "+++ " = true ->
    Edit line (setNewPath (pathOf "b/" (trim (sliceFrom 4 line)))).

Inductive Turn (st : PState) (line : string) : PState -> Prop :=
| Turn_header a b :
    matchDiffHeader line = Some (a, b) ->
    Turn st line
      (mkP (updLast ensureStatus (pfiles st)
              ++ [mkFile (Some a) (Some b) StModified []])
           false (oldLine st) (newLine st))
| Turn_skip :
    matchDiffHeader line = None -> Turn st line st
| Turn_edit g :
    matchDiffHeader line = None -> pfiles st <> [] -> Edit line g ->
    Turn st line (onCurrentFile g st)
| Turn_hunk oStart oLines nStart nLines :
    matchDiffHeader line = None -> pfiles st <> [] ->
    matchHunkHeader line = Some (oStart, oLines, nStart, nLines) ->
    Turn st line
      (mkP (updLast (pushHunk (mkHunk line oStart oLines nStart nLines []))
                    (pfiles st))
           true oStart nStart)
| Turn_line l dOld dNew :
    matchDiffHeader line = None -> pfiles st <> [] -> hasHunk st = true ->
    Pushed st line l dOld dNew ->
    Turn st line
      (mkP (pfiles (onCurrentHunk (pushLine l) st))
           true (oldLine st + dOld) (newLine st + dNew)).

Lemma parseLine_Turn st line : Turn st line (parseLine st line).
Proof.
  unfold parseLine.
  destruct (matchDiffHeader line) as [[a b]|] eqn:Eh; [now apply Turn_header|].
  destruct (pfiles st) eqn:Ef; [now apply Turn_skip|].
  assert (Hne : pfiles st <> []) by (rewrite Ef; discriminate).
  rewrite <- Ef.
  destruct (startsWith line "new file mode") eqn:E1.
  { apply Turn_edit; auto. now constructor. }
  destruct (startsWith line "deleted file mode") eqn:E2.
  { apply Turn_edit; auto. now constructor. }
  destruct (startsWith line "--- ") eqn:E3.
  { apply Turn_edit; auto. now constructor. }
  destruct (startsWith line "+++ ") eqn:E4.
  { apply Turn_edit; auto. now constructor. }
  destruct (matchHunkHeader line) as [[[[o1 o2] n1] n2]|] eqn:Em.
  { now apply Turn_hunk. }
  destruct (hasHunk st) eqn:Eh'; cbn [negb]; [|now apply Turn_skip].
  destruct (startsWith line "\ No newline at end of file"); [now apply Turn_skip|].
  destruct (startsWith line "+") eqn:Ep.
  { destruct (startsWith line "+++") eqn:Ep3; [now apply Turn_skip|].
    pose proof (Turn_line st line _ 0%Z 1%Z Eh Hne Eh' (Pushed_added st line Ep Ep3)) as T.
    rewrite Z.add_0_r in T. exact T. }
  destruct (startsWith line "-") eqn:Em1.
  { destruct (startsWith line "---") eqn:Em3; [now apply Turn_skip|].
    pose proof (Turn_line st line _ 1%Z 0%Z Eh Hne Eh'
                          (Pushed_removed st line Ep Em1 Em3)) as T.
    rewrite Z.add_0_r in T. exact T. }
  destruct (startsWith line " ") eqn:Es; [|now apply Turn_skip].
  apply Turn_line; auto. now constructor.
Qed.

Lemma parseLines_Turn_invariant (P : PState -> Prop) :
  P initial ->
  (forall st line st', P st -> Turn st line st' -> P st') ->
  forall ls, P (parseLines ls).
Proof.
  intros H0 HS ls. unfold parseLines.
  apply fold_left_invariant with (Q := fun _ => True); auto.
  - intros a b Ha _. eapply HS; eauto. apply parseLine_Turn.
  - apply Forall_forall. auto.
Qed.

Lemma updLast_length {A} (g : A -> A) l :
  List.length (updLast g l) = List.length l.
Proof.
  induction l as [|x l IH]; [reflexivity|].
  destruct l; [reflexivity|]. cbn [updLast List.length] in *. now rewrite IH.
Qed.

Lemma updLast_app {A} (g : A -> A) l1 l2 :
  l2 <> [] -> updLast g (l1 ++ l2) = l1 ++ updLast g l2.
Proof.
  intro H. destruct (snoc_cases l2) as [->|(l & x & ->)]; [contradiction|].
  now rewrite app_assoc, !updLast_snoc, app_assoc.
Qed.

Lemma updLast_nonnil {A} (g : A -> A) l : l <> [] -> updLast g l <> [].
Proof.
  intros H E. apply (f_equal (@List.length A)) in E.
  rewrite updLast_length in E. destruct l; [contradiction|discriminate].
Qed.

(** ** Counting the files *)

Definition isHeader (line : string) : bool :=
  match matchDiffHeader line with Some _ => true | None => false end.

Lemma Turn_count st line st' :
  Turn st line st' ->
  List.length (pfiles st')
  = List.length (pfiles st) + (if isHeader line then 1 else 0).
Proof.
  unfold isHeader. intro T. destruct T as [a b E|E|g E _ _|? ? ? ? E _ _|? ? ? E _ _ _];
    rewrite E; cbn [pfiles onCurrentFile onCurrentHunk];
    rewrite ?length_app, ?updLast_length; cbn [List.length]; lia.
Qed.

Lemma parseLines_count ls :
  List.length (pfiles (parseLines ls)) = List.length (filter isHeader ls).
Proof.
  unfold parseLines.
  assert (G : forall st,
             List.length (pfiles (fold_left parseLine ls st))
             = List.length (pfiles st) + List.length (filter isHeader ls)).
  { induction ls as [|l ls IH]; intro st; cbn [fold_left filter]; [cbn; lia|].
    rewrite IH, (Turn_count st l _ (parseLine_Turn st l)).
    destruct (isHeader l); cbn [List.length]; lia. }
  rewrite G. reflexivity.
Qed.

(** ** The lines of the result *)

Definition AllLines (P : DiffLine -> Prop) (fs : list DiffFile) : Prop :=
  Forall (fun f => Forall (fun h => Forall P (lines h)) (hunks f)) fs.

Lemma AllLines_edit P g fs line :
  Edit line g -> AllLines P fs -> AllLines P (updLast g fs).
Proof.
  intros He H. apply updLast_Forall; [|exact H].
  intros f Hf. destruct He; exact Hf.
Qed.

Lemma AllLines_ensure P fs : AllLines P fs -> AllLines P (updLast ensureStatus fs).
Proof.
  apply updLast_Forall. intros f Hf. unfold ensureStatus, statusUnset.
  destruct (_ && _); [exact Hf|]. destruct (_ && _); exact Hf.
Qed.

Lemma AllLines_step P st line st' :
  (forall l dOld dNew, Pushed st line l dOld dNew -> P l) ->
  AllLines P (pfiles st) -> Turn st line st' -> AllLines P (pfiles st').
Proof.
  intros HP H T. destruct T as [a b E|E|g E Hne He|? ? ? ? E Hne Em|l ? ? E Hne Hh Hl];
    cbn [pfiles onCurrentFile onCurrentHunk].
  - apply Forall_app. split; [now apply AllLines_ensure|].
    repeat constructor.
  - exact H.
  - eapply AllLines_edit; eauto.
  - apply updLast_Forall; [|exact H].
    intros f Hf. cbn [pushHunk hunks]. apply Forall_app. split; [exact Hf|].
    repeat constructor.
  - apply updLast_Forall; [|exact H].
    intros f Hf. cbn [updHunks hunks]. apply updLast_Forall; [|exact Hf].
    intros h Hh'. cbn [pushLine lines]. apply Forall_app. split; [exact Hh'|].
    constructor; [|constructor]. eapply HP; eauto.
Qed.

Lemma AllLines_map_ensure P fs : AllLines P fs -> AllLines P (map ensureStatus fs).
Proof.
  intro H. apply Forall_map. revert H. apply Forall_impl.
  intros f Hf. unfold ensureStatus, statusUnset.
  destruct (_ && _); [exact Hf|]. destruct (_ && _); exact Hf.
Qed.

(** Every line of the result was pushed by some turn of the loop. *)
Lemma parse_AllLines (P : DiffLine -> Prop) :
  (forall st line l dOld dNew, Pushed st line l dOld dNew -> P l) ->
  forall raw, AllLines P (files (parseUnifiedDiff raw)).
Proof.
  intros HP raw. unfold parseUnifiedDiff. cbn [files].
  apply AllLines_map_ensure.
  apply (parseLines_Turn_invariant (fun st => AllLines P (pfiles st))).
  - constructor.
  - intros st line st' H T. eapply AllLines_step; eauto.
Qed.

Lemma AllLines_In P fs f h l :
  AllLines P fs -> In f fs -> In h (hunks f) -> In l (lines h) -> P l.
Proof.
  intros H Hf Hh Hl. unfold AllLines in H. rewrite Forall_forall in H.
  specialize (H f Hf). rewrite Forall_forall in H. specialize (H h Hh).
  rewrite Forall_forall in H. auto.
Qed.

(** ** The hunks of the result *)

Definition AllHunks (P : DiffHunk -> Prop) (fs : list DiffFile) : Prop :=
  Forall (fun f => Forall P (hunks f)) fs.

Lemma AllHunks_step (P : DiffHunk -> Prop) st line st' :
  (forall h l, P h -> P (pushLine l h)) ->
  (forall o1 o2 n1 n2, matchHunkHeader line = Some (o1, o2, n1, n2) ->
                       P (mkHunk line o1 o2 n1 n2 [])) ->
  AllHunks P (pfiles st) -> Turn st line st' -> AllHunks P (pfiles st').
Proof.
  intros Hpush Hnew H T.
  destruct T as [a b E|E|g E Hne He|? ? ? ? E Hne Em|l ? ? E Hne Hh Hl];
    cbn [pfiles onCurrentFile onCurrentHunk].
  - apply Forall_app. split.
    + apply updLast_Forall; [|exact H]. intros f Hf. unfold ensureStatus, statusUnset.
      destruct (_ && _); [exact Hf|]. destruct (_ && _); exact Hf.
    + repeat constructor.
  - exact H.
  - apply updLast_Forall; [|exact H]. intros f Hf. destruct He; exact Hf.
  - apply updLast_Forall; [|exact H].
    intros f Hf. cbn [pushHunk hunks]. apply Forall_app. split; [exact Hf|].
    constructor; [|constructor]. now apply Hnew.
  - apply updLast_Forall; [|exact H].
    intros f Hf. cbn [updHunks hunks]. apply updLast_Forall; [|exact Hf].
    intros h Hh'. now apply Hpush.
Qed.

Lemma parse_AllHunks (P : DiffHunk -> Prop) :
  (forall h l, P h -> P (pushLine l h)) ->
  (forall line o1 o2 n1 n2, matchHunkHeader line = Some (o1, o2, n1, n2) ->
                            P (mkHunk line o1 o2 n1 n2 [])) ->
  forall raw, AllHunks P (files (parseUnifiedDiff raw)).
Proof.
  intros Hpush Hnew raw. unfold parseUnifiedDiff. cbn [files].
  apply Forall_map.
  assert (H : AllHunks P (pfiles (parseLines (split_lines (normalizeLineEndings raw))))).
  { apply (parseLines_Turn_invariant (fun st => AllHunks P (pfiles st))).
    - constructor.
    - intros st line st' H T. eapply AllHunks_step; eauto. }
  revert H. apply Forall_impl. intros f Hf. unfold ensureStatus, statusUnset.
  destruct (_ && _); [exact Hf|]. destruct (_ && _); exact Hf.
Qed.

End TurnFacts.

(* ================================================================== *)
(** * Hunk headers and decimal numbers *)
(* ================================================================== *)

Module HeaderFacts.

Import Str Arr Model Normalize Parse Rows IdFacts.
Local Open Scope string_scope.
Local Open Scope Z_scope.

Lemma takeDigits_digits s : allDigits (fst (takeDigits s)) = true.
Proof.
  induction s as [|c s IH]; [reflexivity|].
  cbn [takeDigits]. destruct (isDigit c) eqn:Ec; [|reflexivity].
  destruct (takeDigits s) as [ds r]. cbn [fst allDigits] in *.
  now rewrite Ec, IH.
Qed.

Lemma digitVal_nonneg c : isDigit c = true -> 0 <= digitVal c.
Proof.
  unfold isDigit, digitVal. intro H. apply andb_true_iff in H.
  destruct H as [H _]. apply Nat.leb_le in H. lia.
Qed.

Lemma numberFrom_nonneg ds : forall acc,
  0 <= acc -> allDigits ds = true -> 0 <= numberFrom acc ds.
Proof.
  induction ds as [|c ds IH]; intros acc Ha Hd; [exact Ha|].
  cbn [allDigits] in Hd. apply andb_true_iff in Hd. destruct Hd as [Hc Hd].
  cbn [numberFrom]. apply IH; [|exact Hd].
  pose proof (digitVal_nonneg c Hc). lia.
Qed.

Lemma Number_takeDigits s : 0 <= Number (fst (takeDigits s)).
Proof. apply numberFrom_nonneg; [lia|apply takeDigits_digits]. Qed.

Lemma optCount_nonneg s : 0 <= orOne (fst (optCount s)).
Proof.
  unfold optCount. destruct s as [|c s]; [cbn; lia|].
  destruct (Ascii.eqb c ","); [|cbn; lia].
  pose proof (Number_takeDigits s) as H.
  destruct (takeDigits s) as [ds r]. cbn [fst] in H.
  destruct (Inline.isEmpty ds); cbn [fst orOne]; lia.
Qed.

(** The four numbers of a hunk header are never negative. *)
Lemma matchHunkHeader_nonneg line o1 o2 n1 n2 :
  matchHunkHeader line = Some (o1, o2, n1, n2) ->
  0 <= o1 /\ 0 <= o2 /\ 0 <= n1 /\ 0 <= n2.
Proof.
  unfold matchHunkHeader.
  destruct (stripPrefix "@@ -" line) as [r1|]; [|discriminate].
  pose proof (Number_takeDigits r1) as H1.
  destruct (takeDigits r1) as [d1 r2]. cbn [fst] in H1.
  destruct (Inline.isEmpty d1); [discriminate|].
  pose proof (optCount_nonneg r2) as H2.
  destruct (optCount r2) as [c1 r3]. cbn [fst] in H2.
  destruct (stripPrefix " +" r3) as [r4|]; [|discriminate].
  pose proof (Number_takeDigits r4) as H3.
  destruct (takeDigits r4) as [d3 r5]. cbn [fst] in H3.
  destruct (Inline.isEmpty d3); [discriminate|].
  pose proof (optCount_nonneg r5) as H4.
  destruct (optCount r5) as [c2 r6]. cbn [fst] in H4.
  destruct (startsWith r6 " @@"); [|discriminate].
  intro E. injection E as <- <- <- <-. auto.
Qed.

(** *** Reading back what [dec] wrote *)

Lemma numberFrom_uint d : forall acc,
  numberFrom (Zpos acc) (NilEmpty.string_of_uint d) = Zpos (Pos.of_uint_acc d acc).
Proof.
  induction d; intro acc;
    cbn [NilEmpty.string_of_uint numberFrom Pos.of_uint_acc]; [reflexivity| | | | | | | | | |];
    rewrite <- IHd; f_equal;
    match goal with
    | |- context [digitVal ?c] =>
        let v := eval vm_compute in (digitVal c) in change (digitVal c) with v
    end; lia.
Qed.

Lemma numberFrom_uint0 d :
  numberFrom 0 (NilEmpty.string_of_uint d) = Z.of_N (Pos.of_uint d).
Proof.
  induction d; cbn [NilEmpty.string_of_uint numberFrom Pos.of_uint]; [reflexivity| | | | | | | | | |];
    try exact IHd;
    match goal with
    | |- numberFrom ?a _ = Z.of_N (N.pos (Pos.of_uint_acc _ ?p)) =>
        change a with (Zpos p); apply numberFrom_uint
    end.
Qed.

Lemma dec_pos p : dec (Zpos p) = NilEmpty.string_of_uint (Pos.to_uint p).
Proof.
  unfold dec. cbn [Z.to_int NilZero.string_of_int].
  pose proof (Unsigned.to_uint_nonnil p) as Hn.
  destruct (Pos.to_uint p); [congruence| | | | | | | | | |]; reflexivity.
Qed.

(** [Number(String(z)) = z] for a non-negative integer. *)
Lemma Number_dec z : 0 <= z -> Number (dec z) = z.
Proof.
  intro Hz. destruct z as [|p|p]; [reflexivity| |lia].
  unfold Number. rewrite dec_pos, numberFrom_uint0, Unsigned.of_to. reflexivity.
Qed.

Lemma dec_digits z :
  0 <= z ->
  exists c s, dec z = String c s /\ isDigit c = true /\ allDigits s = true.
Proof.
  intro Hz. destruct (natDec_digits (Z.to_nat z)) as (c & s & E & H).
  unfold natDec in E. rewrite Z2Nat.id in E by exact Hz. eauto.
Qed.

Definition noDigitAhead (s : string) : Prop :=
  match s with String c _ => isDigit c = false | EmptyString => True end.

Lemma takeDigits_app ds : forall rest,
  allDigits ds = true -> noDigitAhead rest -> takeDigits (ds ++ rest) = (ds, rest).
Proof.
  induction ds as [|c ds IH]; intros rest Hd Hr.
  - cbn [append]. destruct rest as [|c r]; [reflexivity|].
    cbn [takeDigits]. cbn in Hr. now rewrite Hr.
  - cbn [allDigits] in Hd. apply andb_true_iff in Hd. destruct Hd as [Hc Hd].
    cbn [append takeDigits]. rewrite Hc, IH by assumption. reflexivity.
Qed.

Lemma takeDigits_dec z rest :
  0 <= z -> noDigitAhead rest ->
  takeDigits (dec z ++ rest) = (dec z, rest) /\ Inline.isEmpty (dec z) = false.
Proof.
  intros Hz Hr. destruct (dec_digits z Hz) as (c & s & E & Hc & Hs).
  split.
  - apply takeDigits_app; [|exact Hr]. rewrite E. cbn [allDigits]. now rewrite Hc, Hs.
  - now rewrite E.
Qed.

Lemma optCount_dec z rest :
  0 <= z -> noDigitAhead rest ->
  optCount ("," ++ dec z ++ rest) = (Some z, rest).
Proof.
  intros Hz Hr. cbn [append optCount]. change (Ascii.eqb "," ",") with true.
  cbv iota. destruct (takeDigits_dec z rest Hz Hr) as [-> ->].
  now rewrite Number_dec.
Qed.

Lemma append_assoc (a b c : string) : (a ++ b) ++ c = a ++ (b ++ c).
Proof. induction a as [|x a IH]; cbn [append]; [reflexivity|now rewrite IH]. Qed.

Lemma startsWith_append p s : startsWith (p ++ s) p = true.
Proof.
  unfold startsWith. induction p as [|a p IH]; [destruct s; reflexivity|].
  cbn [append prefix]. destruct (ascii_dec a a); [exact IH|congruence].
Qed.

(** The header in its long form, [@@ -a,b +c,d @@], and in its short
    form, [@@ -a +c @@], each followed by [tail]. *)
Definition longHeader (a b c d : Z) (tail : string) : string :=
  "@@ -" ++ dec a ++ "," ++ dec b ++ " +" ++ dec c ++ "," ++ dec d ++ " @@" ++ tail.

Definition shortHeader (a c : Z) (tail : string) : string :=
  "@@ -" ++ dec a ++ " +" ++ dec c ++ " @@" ++ tail.

Lemma matchHunkHeader_long a b c d tail :
  0 <= a -> 0 <= b -> 0 <= c -> 0 <= d ->
  matchHunkHeader (longHeader a b c d tail) = Some (a, b, c, d).
Proof.
  intros Ha Hb Hc Hd. unfold longHeader, matchHunkHeader.
  change (stripPrefix "@@ -" ("@@ -" ++ ?x)) with (Some x).
  cbv iota.
  destruct (takeDigits_dec a ("," ++ dec b ++ " +" ++ dec c ++ "," ++ dec d ++ " @@" ++ tail)
              Ha) as [-> ->]; [reflexivity|].
  rewrite (optCount_dec b (" +" ++ dec c ++ "," ++ dec d ++ " @@" ++ tail) Hb)
    by reflexivity.
  change (stripPrefix " +" (" +" ++ ?x)) with (Some x). cbv iota.
  destruct (takeDigits_dec c ("," ++ dec d ++ " @@" ++ tail) Hc) as [-> ->];
    [reflexivity|].
  rewrite (optCount_dec d (" @@" ++ tail) Hd) by reflexivity.
  rewrite startsWith_append.
  rewrite !Number_dec by assumption. reflexivity.
Qed.

Lemma matchHunkHeader_short a c tail :
  0 <= a -> 0 <= c ->
  matchHunkHeader (shortHeader a c tail) = Some (a, 1, c, 1).
Proof.
  intros Ha Hc. unfold shortHeader, matchHunkHeader.
  change (stripPrefix "@@ -" ("@@ -" ++ ?x)) with (Some x).
  cbv iota.
  destruct (takeDigits_dec a (" +" ++ dec c ++ " @@" ++ tail) Ha) as [-> ->];
    [reflexivity|].
  change (optCount (" +" ++ ?x)) with (@None Z, " +" ++ x). cbv beta iota.
  change (stripPrefix " +" (" +" ++ ?x)) with (Some x). cbv iota.
  destruct (takeDigits_dec c (" @@" ++ tail) Hc) as [-> ->]; [reflexivity|].
  change (optCount (" @@" ++ ?x)) with (@None Z, " @@" ++ x). cbv beta iota.
  rewrite startsWith_append.
  rewrite !Number_dec by assumption. reflexivity.
Qed.

End HeaderFacts.

(* ================================================================== *)
(** * Parsing one diff after another *)
(* ================================================================== *)

Module ComposeFacts.

Import Str Arr Model Normalize Parse NormalizeFacts ParseFacts TurnFacts.
Local Open Scope string_scope.
Local Open Scope list_scope.

Lemma ensureStatus_idem f : ensureStatus (ensureStatus f) = ensureStatus f.
Proof. destruct f as [[o|] [n|] s hs]; reflexivity. Qed.

Lemma map_ensure_updLast fs :
  map ensureStatus (updLast ensureStatus fs) = map ensureStatus fs.
Proof.
  destruct (snoc_cases fs) as [->|(l & x & ->)]; [reflexivity|].
  rewrite updLast_snoc, !map_app. cbn [map]. now rewrite ensureStatus_idem.
Qed.

(** An empty line changes nothing. *)
Lemma parseLine_empty st : parseLine st "" = st.
Proof.
  unfold parseLine. cbn. destruct (pfiles st); [reflexivity|].
  destruct (hasHunk st); reflexivity.
Qed.

Lemma parseLine_nonnil st line : pfiles st <> [] -> pfiles (parseLine st line) <> [].
Proof.
  intros H E. pose proof (Turn_count st line _ (parseLine_Turn st line)) as C.
  rewrite E in C. cbn [List.length] in C.
  destruct (pfiles st); [contradiction|]. cbn [List.length] in C. lia.
Qed.

(** The files before [st]'s own are left alone. *)
Definition frame (F : list DiffFile) (st : PState) : PState :=
  mkP (F ++ pfiles st) (hasHunk st) (oldLine st) (newLine st).

Lemma parseLine_frame F st line :
  pfiles st <> [] -> parseLine (frame F st) line = frame F (parseLine st line).
Proof.
  intro Hne. unfold parseLine, frame. cbn [pfiles hasHunk oldLine newLine].
  destruct (matchDiffHeader line) as [[a b]|].
  { cbn [pfiles hasHunk oldLine newLine].
    rewrite updLast_app by exact Hne. rewrite <- ?app_assoc. reflexivity. }
  destruct (F ++ pfiles st) eqn:E.
  { apply app_eq_nil in E. tauto. }
  rewrite <- E. clear E.
  destruct (pfiles st) eqn:Ef; [contradiction|]. rewrite <- Ef.
  assert (U : forall g, updLast g (F ++ pfiles st) = F ++ updLast g (pfiles st)).
  { intro g. apply updLast_app. rewrite Ef. discriminate. }
  unfold onCurrentHunk, onCurrentFile. cbn [pfiles hasHunk oldLine newLine].
  repeat match goal with
         | |- context [if ?b then _ else _] => destruct b
         | |- context [match ?m with Some _ => _ | None => _ end] => destruct m
         | |- context [let (_, _) := ?p in _] => destruct p
         end;
    cbn [pfiles hasHunk oldLine newLine]; rewrite ?U; reflexivity.
Qed.

(** While no hunk is open the two counters are not read. *)
Definition Same (a b : PState) : Prop :=
  pfiles a = pfiles b /\ hasHunk a = hasHunk b /\
  (hasHunk a = true -> oldLine a = oldLine b /\ newLine a = newLine b).

Lemma parseLine_Same a b line :
  Same a b -> Same (parseLine a line) (parseLine b line).
Proof.
  destruct a as [fa ha oa na], b as [fb hb ob nb].
  unfold Same. cbn [pfiles hasHunk oldLine newLine].
  intros (-> & -> & Hc). unfold parseLine, onCurrentHunk, onCurrentFile.
  cbn [pfiles hasHunk oldLine newLine].
  destruct (matchDiffHeader line) as [[x y]|].
  { cbn. repeat split; discriminate. }
  destruct fb as [|f0 fb']; [cbn; auto|].
  repeat match goal with
         | |- context [if startsWith ?l ?p then _ else _] => destruct (startsWith l p)
         | |- context [match matchHunkHeader ?l with Some _ => _ | None => _ end] =>
             destruct (matchHunkHeader l) as [[[[? ?] ?] ?]|]
         end;
    cbn [pfiles hasHunk oldLine newLine]; auto;
    destruct hb; cbn [negb pfiles hasHunk oldLine newLine]; auto;
    destruct (Hc eq_refl) as [-> ->]; auto.
Qed.

Lemma fold_frame F ls : forall a b,
  Same a b -> pfiles a <> [] ->
  pfiles (fold_left parseLine ls (frame F a))
  = F ++ pfiles (fold_left parseLine ls b).
Proof.
  induction ls as [|l ls IH]; intros a b HS Hne; cbn [fold_left].
  - cbn [frame pfiles]. now destruct HS as [-> _].
  - rewrite parseLine_frame by exact Hne.
    apply IH; [now apply parseLine_Same|now apply parseLine_nonnil].
Qed.

(** A diff that begins with a file header is parsed after any other
    as it is parsed alone. *)
Lemma parse_after hd tl st :
  isHeader hd = true ->
  pfiles (fold_left parseLine (hd :: tl) st)
  = updLast ensureStatus (pfiles st) ++ pfiles (parseLines (hd :: tl)).
Proof.
  unfold isHeader, parseLines. intro H. cbn [fold_left].
  unfold parseLine at 2 4. destruct (matchDiffHeader hd) as [[a b]|]; [|discriminate].
  set (nf := mkFile (Some a) (Some b) StModified []).
  change (mkP (updLast ensureStatus (pfiles st) ++ [nf]) false (oldLine st) (newLine st))
    with (frame (updLast ensureStatus (pfiles st))
                (mkP [nf] false (oldLine st) (newLine st))).
  apply fold_frame.
  - repeat split; discriminate.
  - discriminate.
Qed.

(** *** The lines of two texts joined by a line feed *)

Fixpoint endsCR (s : string) : bool :=
  match s with
  | EmptyString => false
  | String c EmptyString => Ascii.eqb c CR
  | String _ s' => endsCR s'
  end.

Definition startsLF (s : string) : bool :=
  match s with String c _ => Ascii.eqb c LF | EmptyString => false end.

Lemma normalize_app : forall a b,
  endsCR a = false \/ startsLF b = false ->
  normalizeLineEndings (a ++ b)%string
  = (normalizeLineEndings a ++ normalizeLineEndings b)%string.
Proof.
  apply (by_length (fun a => forall b, endsCR a = false \/ startsLF b = false ->
           normalizeLineEndings (a ++ b)%string
           = (normalizeLineEndings a ++ normalizeLineEndings b)%string)).
  intros [|c rest] IH b H; [reflexivity|].
  cbn [append normalizeLineEndings].
  destruct (Ascii.eqb c CR) eqn:Ec.
  - destruct rest as [|d rest'].
    + cbn [append]. cbn [endsCR] in H. rewrite Ec in H.
      destruct H as [H|H]; [discriminate|].
      destruct b as [|d b']; [reflexivity|]. cbn [startsLF] in H. rewrite H.
      reflexivity.
    + cbn [append]. destruct (Ascii.eqb d LF) eqn:Ed.
      * cbn [append]. f_equal. destruct rest' as [|e rest'']; [reflexivity|].
        apply IH; [cbn [String.length]; lia|]. exact H.
      * cbn [append]. f_equal.
        change (String d (rest' ++ b)%string) with (String d rest' ++ b)%string.
        apply IH; [cbn [String.length]; lia|]. exact H.
  - cbn [append]. f_equal. destruct rest as [|d rest']; [reflexivity|].
    apply IH; [cbn [String.length]; lia|]. exact H.
Qed.

Lemma endsCR_split s : endsCR s = true -> exists a, s = (a ++ String CR "")%string.
Proof.
  induction s as [|c s IH]; [discriminate|].
  destruct s as [|d s'].
  - cbn [endsCR]. intro H. apply Ascii.eqb_eq in H. subst c. now exists "".
  - intro H. destruct (IH H) as [a ->]. now exists (String c a).
Qed.

Lemma endsCR_snoc a c : endsCR (a ++ String c "")%string = Ascii.eqb c CR.
Proof.
  induction a as [|x a IH]; [reflexivity|].
  cbn [append endsCR]. rewrite IH. destruct (a ++ String c "")%string eqn:E; [|reflexivity].
  destruct a; discriminate.
Qed.

Lemma append_assoc' (a b c : string) : ((a ++ b) ++ c = a ++ (b ++ c))%string.
Proof. induction a as [|x a IH]; cbn [append]; [reflexivity|now rewrite IH]. Qed.

Lemma splitLF_app a : forall cur b,
  splitLF cur (a ++ String LF b)%string = splitLF cur a ++ splitLF "" b.
Proof.
  induction a as [|c a IH]; intros cur b.
  - cbn [append splitLF]. now rewrite Ascii.eqb_refl.
  - cbn [append splitLF]. destruct (Ascii.eqb c LF); [|apply IH].
    cbn [app]. f_equal. apply IH.
Qed.

(** The lines of [d1], a line feed and [d2], once normalized, are the
    lines of [d1] and then the lines of [d2]; when [d1] ends with a
    carriage return, which forms one line break with the line feed, the
    empty last line of [d1] is not there. *)
Lemma lines_joined d1 d2 :
  exists L1,
    split_lines (normalizeLineEndings (d1 ++ String LF d2)%string)
    = L1 ++ split_lines (normalizeLineEndings d2) /\
    (split_lines (normalizeLineEndings d1) = L1 \/
     split_lines (normalizeLineEndings d1) = L1 ++ [""]).
Proof.
  unfold split_lines. destruct (endsCR d1) eqn:E.
  - destruct (endsCR_split d1 E) as [a ->].
    exists (splitLF "" (normalizeLineEndings a)).
    rewrite append_assoc'. cbn [append].
    rewrite (normalize_app a (String CR (String LF d2))) by (right; reflexivity).
    rewrite (normalize_app a (String CR "")) by (right; reflexivity).
    cbn [normalizeLineEndings]. rewrite Ascii.eqb_refl.
    change (Ascii.eqb LF LF) with true. cbv iota.
    split; [apply splitLF_app|]. right.
    rewrite (splitLF_app (normalizeLineEndings a) "" ""). reflexivity.
  - exists (splitLF "" (normalizeLineEndings d1)). split; [|now left].
    rewrite normalize_app by now left.
    cbn [normalizeLineEndings]. change (Ascii.eqb LF CR) with false. cbv iota.
    apply splitLF_app.
Qed.

Lemma parseLines_snoc_empty L : parseLines (L ++ [""]) = parseLines L.
Proof.
  unfold parseLines. rewrite fold_left_app. cbn [fold_left].
  apply parseLine_empty.
Qed.

Lemma parse_joined d1 d2 :
  isHeader (hd "" (split_lines (normalizeLineEndings d2))) = true ->
  files (parseUnifiedDiff (d1 ++ String LF d2)%string)
  = files (parseUnifiedDiff d1) ++ files (parseUnifiedDiff d2).
Proof.
  intro H. unfold parseUnifiedDiff. cbn [files].
  destruct (lines_joined d1 d2) as (L1 & -> & HL1).
  assert (E1 : parseLines (split_lines (normalizeLineEndings d1)) = parseLines L1).
  { destruct HL1 as [->| ->]; [reflexivity|apply parseLines_snoc_empty]. }
  rewrite E1.
  destruct (split_lines (normalizeLineEndings d2)) as [|h tl] eqn:E2.
  { discriminate H. }
  cbn [hd] in H. unfold parseLines at 1. rewrite fold_left_app.
  fold (parseLines L1). rewrite (parse_after h tl (parseLines L1) H).
  now rewrite map_app, map_ensure_updLast.
Qed.

(** *** White space only *)

Fixpoint allSpace (s : string) : bool :=
  match s with
  | EmptyString => true
  | String c s' => isTrimSpace c && allSpace s'
  end.

Lemma trimStart_cases s :
  (trimStart s = "" /\ allSpace s = true) \/
  exists c r, trimStart s = String c r /\ isTrimSpace c = false.
Proof.
  induction s as [|c s IH]; [now left|].
  cbn [trimStart allSpace]. destruct (isTrimSpace c) eqn:Ec; [exact IH|].
  right. eauto.
Qed.

Lemma trimEnd_nonspace c r : isTrimSpace c = false -> trimEnd (String c r) <> "".
Proof.
  intro Hc. cbn [trimEnd]. destruct (trimEnd r); [|discriminate].
  rewrite Hc. discriminate.
Qed.

Lemma trim_empty s : trim s = "" -> allSpace s = true.
Proof.
  unfold trim. intro H. destruct (trimStart_cases s) as [[_ A]|(c & r & E & Hc)]; [exact A|].
  rewrite E in H. now apply trimEnd_nonspace in H.
Qed.

Lemma allSpace_append a b : allSpace a = true -> allSpace b = true -> allSpace (a ++ b)%string = true.
Proof.
  induction a as [|c a IH]; intros Ha Hb; [exact Hb|].
  cbn [allSpace append] in *. apply andb_true_iff in Ha. destruct Ha as [Hc Ha].
  now rewrite Hc, IH.
Qed.

Lemma allSpace_normalize : forall s,
  allSpace s = true -> allSpace (normalizeLineEndings s) = true.
Proof.
  apply (by_length (fun s => allSpace s = true ->
                             allSpace (normalizeLineEndings s) = true)).
  intros [|c rest] IH H; [reflexivity|].
  cbn [allSpace] in H. apply andb_true_iff in H. destruct H as [Hc Hr].
  cbn [normalizeLineEndings]. destruct (Ascii.eqb c CR).
  - cbn [allSpace]. change (isTrimSpace LF) with true. cbn [andb].
    destruct rest as [|d rest']; [reflexivity|].
    cbn [allSpace] in Hr. apply andb_true_iff in Hr. destruct Hr as [Hd Hr'].
    destruct (Ascii.eqb d LF).
    + apply IH; [cbn [String.length]; lia|exact Hr'].
    + apply IH; [cbn [String.length]; lia|]. cbn [allSpace]. now rewrite Hd, Hr'.
  - cbn [allSpace]. rewrite Hc. cbn [andb]. apply IH; [cbn [String.length]; lia|exact Hr].
Qed.

Lemma allSpace_splitLF s : forall cur,
  allSpace cur = true -> allSpace s = true ->
  Forall (fun l => allSpace l = true) (splitLF cur s).
Proof.
  induction s as [|c s IH]; intros cur Hcur Hs; cbn [splitLF].
  - constructor; [exact Hcur|constructor].
  - cbn [allSpace] in Hs. apply andb_true_iff in Hs. destruct Hs as [Hc Hs].
    destruct (Ascii.eqb c LF).
    + constructor; [exact Hcur|]. now apply IH.
    + apply IH; [|exact Hs]. apply allSpace_append; [exact Hcur|].
      cbn [allSpace]. now rewrite Hc.
Qed.

Lemma allSpace_noheader line : allSpace line = true -> isHeader line = false.
Proof.
  unfold isHeader, matchDiffHeader. destruct line as [|c r]; [reflexivity|].
  cbn [allSpace]. intro H. apply andb_true_iff in H. destruct H as [Hc _].
  cbn [stripPrefix]. destruct (Ascii.eqb "d" c) eqn:E; [|reflexivity].
  apply Ascii.eqb_eq in E. subst c. discriminate Hc.
Qed.

Lemma no_header_no_file raw :
  Forall (fun l => isHeader l = false) (split_lines (normalizeLineEndings raw)) ->
  files (parseUnifiedDiff raw) = [].
Proof.
  intro H. unfold parseUnifiedDiff. cbn [files].
  apply length_zero_iff_nil. rewrite length_map, parseLines_count.
  induction H as [|l ls Hl _ IH]; [reflexivity|].
  cbn [filter]. now rewrite Hl.
Qed.

Lemma blank_no_file raw : trim raw = "" -> files (parseUnifiedDiff raw) = [].
Proof.
  intro H. apply no_header_no_file.
  apply trim_empty, allSpace_normalize in H.
  apply (allSpace_splitLF _ "" eq_refl) in H. fold (split_lines (normalizeLineEndings raw)) in H.
  revert H. apply Forall_impl. intros l. apply allSpace_noheader.
Qed.

End ComposeFacts.

Section ParserProperties.

Import Str Arr Model Normalize Parse TurnFacts HeaderFacts ComposeFacts.
Local Open Scope string_scope.
Local Open Scope list_scope.

(** The parser opens one file for each line that matches the file
    header [diff --git a/... b/...], and no other: an input without
    such a line, the empty input among them, has no file. *)
Theorem parse_one_file_per_header (rawDiff : string) :
  List.length (files (parseUnifiedDiff rawDiff))
  = List.length (filter isHeader (split_lines (normalizeLineEndings rawDiff))).
Proof.
  unfold parseUnifiedDiff. cbn [files]. rewrite length_map. apply parseLines_count.
Qed.

(** No "added" line of the result has a content that begins with two
    plus signs, and no "removed" line one that begins with two minus
    signs: inside a hunk a line that begins with [+++] or [---] is
    never taken for a line of the diff. *)
Theorem parse_never_keeps_triple_sign
        (rawDiff : string) (f : DiffFile) (h : DiffHunk) (l : DiffLine) :
  In f (files (parseUnifiedDiff rawDiff)) -> In h (hunks f) -> In l (lines h) ->
  match type l with
  | LAdded => startsWith (content l) "++" = false
  | LRemoved => startsWith (content l) "--" = false
  | LContext => True
  end.
Proof.
  intros Hf Hh Hl.
  refine (AllLines_In
            (fun l => match type l with
                      | LAdded => startsWith (content l) "++" = false
                      | LRemoved => startsWith (content l) "--" = false
                      | LContext => True
                      end) _ f h l _ Hf Hh Hl).
  apply parse_AllLines.
  intros st line l' dOld dNew P. destruct P as [H1 H3|_ H1 H3|_ _ _];
    cbn [type content]; [| |exact I].
  - destruct line as [|c line']; [discriminate|].
    cbn [sliceFrom]. unfold startsWith in *. cbn [prefix] in H1, H3.
    destruct (ascii_dec "+" c); [exact H3|discriminate].
  - destruct line as [|c line']; [discriminate|].
    cbn [sliceFrom]. unfold startsWith in *. cbn [prefix] in H1, H3.
    destruct (ascii_dec "-" c); [exact H3|discriminate].
Qed.

(** A hunk in which a line [+++x] stands between two added lines. *)
Definition incrementDiff : string :=
  "diff --git a/a.c b/a.c" ++ nl ++
  "@@ -1,0 +1,3 @@" ++ nl ++
  "+i = 0;" ++ nl ++
  "+++i;" ++ nl ++
  "+return i;".

Definition incrementHunk : DiffHunk :=
  mkHunk "@@ -1,0 +1,3 @@" 1 0 1 3
    [mkLine LAdded "i = 0;" None (Some 1%Z);
     mkLine LAdded "return i;" None (Some 2%Z)].

Definition incrementFile : DiffFile :=
  mkFile (Some "a.c") (Some "a.c") StModified [incrementHunk].

Lemma parse_never_keeps_triple_sign_witness :
  startsWith "return i;" "++" = false.
Proof.
  refine (parse_never_keeps_triple_sign incrementDiff incrementFile incrementHunk
            (mkLine LAdded "return i;" None (Some 2%Z)) _ _ _).
  - vm_compute. left. reflexivity.
  - left. reflexivity.
  - right. left. reflexivity.
Defined.





(** Parsing two diffs joined by a line feed gives the files of the
    first followed by the files of the second, provided the second
    begins with a file header: what the parser is at in the first diff
    does not leak into the second. *)
Theorem parse_concatenation (first second : string) :
  isHeader (hd "" (split_lines (normalizeLineEndings second))) = true ->
  files (parseUnifiedDiff (first ++ nl ++ second)%string)
  = files (parseUnifiedDiff first) ++ files (parseUnifiedDiff second).
Proof. apply parse_joined. Qed.

Lemma parse_concatenation_witness :
  files (parseUnifiedDiff (addedDiff ++ nl ++ incrementDiff)%string)
  = files (parseUnifiedDiff addedDiff) ++ files (parseUnifiedDiff incrementDiff).
Proof.
  apply (parse_concatenation addedDiff incrementDiff). vm_compute. reflexivity.
Defined.

(** [loadDiffFiles] returns no file for an output of [git diff] that
    is blank; the parser finds no file in such a text either, so the
    files loaded are, in every case, the files of the parsed output. *)
Theorem loadDiffFiles_is_parse (diffText : string) :
  Workspace.loadDiffFiles diffText = files (parseUnifiedDiff diffText).
Proof.
  unfold Workspace.loadDiffFiles.
  destruct (trim diffText) eqn:E; [|reflexivity].
  cbn [Inline.isEmpty]. symmetry. now apply blank_no_file.
Qed.

End ParserProperties.

(* ================================================================== *)
(** * Lines and texts *)
(* ================================================================== *)

Module LinesFacts.

Import Str Arr Model Normalize Parse NormalizeFacts Sources Workspace.
Local Open Scope string_scope.
Local Open Scope list_scope.

Lemma append_nil_r (s : string) : (s ++ "")%string = s.
Proof. induction s as [|c s IH]; cbn [append]; [reflexivity|now rewrite IH]. Qed.

Lemma append_snoc (a : string) c (b : string) :
  ((a ++ String c "") ++ b)%string = (a ++ String c b)%string.
Proof. induction a as [|x a IH]; cbn [append]; [reflexivity|now rewrite IH]. Qed.

Lemma concat_cons2 sep (x y : string) l :
  String.concat sep (x :: y :: l) = (x ++ sep ++ String.concat sep (y :: l))%string.
Proof. reflexivity. Qed.

Lemma splitLF_nonnil s : forall cur, splitLF cur s <> [].
Proof.
  induction s as [|c s IH]; intro cur; cbn [splitLF]; [discriminate|].
  destruct (Ascii.eqb c LF); [discriminate|apply IH].
Qed.

(** [split("\n")] and [join("\n")], one way ... *)
Lemma joinLF_splitLF s : forall cur, joinLF (splitLF cur s) = (cur ++ s)%string.
Proof.
  unfold joinLF. induction s as [|c s IH]; intro cur; cbn [splitLF].
  - cbn [String.concat]. now rewrite append_nil_r.
  - destruct (Ascii.eqb c LF) eqn:Ec.
    + apply Ascii.eqb_eq in Ec. subst c.
      specialize (IH ""). cbn [append] in IH.
      destruct (splitLF "" s) as [|y l] eqn:E; [now apply splitLF_nonnil in E|].
      rewrite concat_cons2, IH. reflexivity.
    + rewrite IH. apply append_snoc.
Qed.

Lemma allDot_cons c s : allDot (String c s) = true <->
                        Ascii.eqb c LF = false /\ Ascii.eqb c CR = false /\ allDot s = true.
Proof.
  cbn [allDot]. unfold isDot. rewrite andb_true_iff, negb_true_iff, orb_false_iff.
  tauto.
Qed.

Lemma allDot_append a b : allDot a = true -> allDot b = true -> allDot (a ++ b)%string = true.
Proof.
  induction a as [|c a IH]; intros Ha Hb; [exact Hb|].
  cbn [append]. apply allDot_cons in Ha. apply allDot_cons. tauto.
Qed.

Lemma allDot_noCR s : allDot s = true -> noCR s = true.
Proof.
  induction s as [|c s IH]; [reflexivity|]. intro H. apply allDot_cons in H.
  cbn [noCR]. destruct H as (_ & -> & H). now rewrite IH.
Qed.

Lemma noCR_append a b : noCR a = true -> noCR b = true -> noCR (a ++ b)%string = true.
Proof.
  induction a as [|c a IH]; intros Ha Hb; [exact Hb|].
  cbn [append noCR] in *. apply andb_true_iff in Ha. destruct Ha as [-> Ha].
  now rewrite IH.
Qed.

Lemma noCR_joinLF ls : Forall (fun l => allDot l = true) ls -> noCR (joinLF ls) = true.
Proof.
  unfold joinLF. induction 1 as [|l ls Hl Hls IH]; [reflexivity|].
  destruct ls as [|l2 ls'].
  - now apply allDot_noCR.
  - rewrite concat_cons2. apply noCR_append; [now apply allDot_noCR|].
    cbn [append noCR]. change (Ascii.eqb LF CR) with false. exact IH.
Qed.

Lemma splitLF_line l : forall cur s,
  allDot l = true -> splitLF cur (l ++ s)%string = splitLF (cur ++ l)%string s.
Proof.
  induction l as [|c l IH]; intros cur s H.
  - cbn [append]. now rewrite append_nil_r.
  - apply allDot_cons in H. destruct H as (Hc & _ & H).
    cbn [append splitLF]. rewrite Hc, IH by exact H. now rewrite append_snoc.
Qed.

(** ... and the other way. *)
Lemma split_joinLF ls :
  Forall (fun l => allDot l = true) ls -> ls <> [] ->
  split_lines (joinLF ls) = ls.
Proof.
  unfold split_lines, joinLF. induction 1 as [|l ls Hl Hls IH]; intro Hne; [contradiction|].
  destruct ls as [|l2 ls'].
  - cbn [String.concat]. rewrite <- (append_nil_r l) at 1. rewrite splitLF_line by exact Hl.
    reflexivity.
  - rewrite concat_cons2, splitLF_line by exact Hl. cbn [append splitLF].
    change (Ascii.eqb LF LF) with true. cbv iota. f_equal.
    apply IH. discriminate.
Qed.

Lemma allDot_splitLF s : forall cur,
  allDot cur = true -> noCR s = true ->
  Forall (fun l => allDot l = true) (splitLF cur s).
Proof.
  induction s as [|c s IH]; intros cur Hcur Hs; cbn [splitLF].
  - constructor; [exact Hcur|constructor].
  - cbn [noCR] in Hs. apply andb_true_iff in Hs. destruct Hs as [Hc Hs].
    apply negb_true_iff in Hc.
    destruct (Ascii.eqb c LF) eqn:El.
    + constructor; [exact Hcur|]. now apply IH.
    + apply IH; [|exact Hs]. apply allDot_append; [exact Hcur|].
      apply allDot_cons. auto.
Qed.

Lemma escape_allDot s : noCR s = true -> allDot (escapeLineFeeds s) = true.
Proof.
  induction s as [|c s IH]; [reflexivity|]. cbn [noCR]. intro H.
  apply andb_true_iff in H. destruct H as [Hc H]. apply negb_true_iff in Hc.
  cbn [escapeLineFeeds]. destruct (Ascii.eqb c LF) eqn:El.
  - apply allDot_cons. split; [reflexivity|]. split; [reflexivity|].
    apply allDot_cons. split; [reflexivity|]. split; [reflexivity|]. now apply IH.
  - apply allDot_cons. auto.
Qed.

End LinesFacts.

Section SplitLines.

Import Str Arr Model Normalize Parse NormalizeFacts Sources Workspace LinesFacts.
Local Open Scope string_scope.
Local Open Scope list_scope.


(** A text made of lines joined by line feeds is cut into these very
    lines.  A text that ends with a line feed is the join of its lines
    and of one more, empty: so [splitLines] gives a file of [n]
    terminated lines [n + 1] entries. *)
Theorem splitLines_of_joined (ls : list string) :
  Forall (fun l => allDot l = true) ls -> joinLF ls <> "" ->
  splitLines (joinLF ls) = ls.
Proof.
  intros H Hne. unfold splitLines.
  destruct (joinLF ls) eqn:E; [contradiction|]. cbn [Inline.isEmpty].
  rewrite <- E. rewrite normalize_fixed by now apply noCR_joinLF.
  apply split_joinLF; [exact H|]. intros ->. discriminate E.
Qed.

Lemma splitLines_of_joined_witness :
  splitLines (joinLF ["first"; "second"; ""]) = ["first"; "second"; ""].
Proof.
  apply (splitLines_of_joined ["first"; "second"; ""]).
  - repeat constructor.
  - discriminate.
Defined.

End SplitLines.

(* ================================================================== *)
(** * The diff that [TwoFileDiffSource] writes, parsed *)
(* ================================================================== *)

Module SourcesFacts.

Import Str Arr Model Normalize Parse NormalizeFacts Sources Workspace LinesFacts.
Local Open Scope string_scope.
Local Open Scope list_scope.

Lemma lazyPaths_finds s1 : forall taken q,
  allDot s1 = true -> (taken <> "" \/ s1 <> "") ->
  q <> "" -> allDot q = true ->
  exists a b, lazyPaths taken (s1 ++ " b/" ++ q)%string = Some (a, b).
Proof.
  induction s1 as [|c s1 IH]; intros taken q H1 Hne Hq Hd.
  - destruct Hne as [Hne|Hne]; [|contradiction].
    cbn [append lazyPaths]. destruct taken as [|t taken']; [contradiction|].
    cbn [Inline.isEmpty stripPrefix]. rewrite !Ascii.eqb_refl.
    destruct q as [|x q']; [contradiction|]. cbn [Inline.isEmpty negb andb].
    rewrite Hd. eauto.
  - apply allDot_cons in H1. destruct H1 as (Hl & Hc & H1).
    cbn [append lazyPaths].
    match goal with
    | |- exists a b, match ?m with Some r => Some r | None => _ end = _ =>
        destruct m as [[a b]|]; [eauto|]
    end.
    unfold isDot. rewrite Hl, Hc. cbn [orb negb].
    apply IH; auto. left. destruct taken; discriminate.
Qed.

Lemma matchDiffHeader_twice p :
  p <> "" -> allDot p = true ->
  exists a b, matchDiffHeader ("diff --git a/" ++ p ++ " b/" ++ p)%string = Some (a, b).
Proof.
  intros Hne Hd. unfold matchDiffHeader.
  change (stripPrefix "diff --git a/" ("diff --git a/" ++ ?x)%string) with (Some x).
  cbv iota. apply lazyPaths_finds; auto.
Qed.

Lemma trimEnd_keeps c s :
  isTrimSpace c = false -> trimEnd (String c s) = String c (trimEnd s).
Proof. intro H. cbn [trimEnd]. destruct (trimEnd s); [now rewrite H|reflexivity]. Qed.

(** The path read in the line [--- a/p] or [+++ b/p]. *)
Lemma path_read x p :
  isTrimSpace x = false -> Ascii.eqb x "/" = false ->
  pathOf (String x "/") (trim (String x (String "/" p))) = Some (trimEnd p).
Proof.
  intros Hx Hs. unfold trim. cbn [trimStart]. rewrite Hx.
  rewrite (trimEnd_keeps x) by exact Hx. rewrite (trimEnd_keeps "/") by reflexivity.
  unfold pathOf. cbn [String.eqb]. rewrite Hs.
  cbn [stripPrefix]. now rewrite !Ascii.eqb_refl.
Qed.

Definition mockFile (p o n : string) : DiffFile :=
  mkFile (Some (trimEnd p)) (Some (trimEnd p)) StModified
    [mkHunk "@@ -1 +1 @@" 1 1 1 1
       [mkLine LRemoved (" " ++ o)%string (Some 1%Z) None;
        mkLine LAdded (" " ++ n)%string None (Some 1%Z)]].

Lemma parse_mock_lines p o n :
  p <> "" -> allDot p = true ->
  pfiles (parseLines [ ("diff --git a/" ++ p ++ " b/" ++ p)%string;
                       ("--- a/" ++ p)%string;
                       ("+++ b/" ++ p)%string;
                       "@@ -1 +1 @@";
                       ("- " ++ o)%string;
                       ("+ " ++ n)%string ])
  = [mockFile p o n].
Proof.
  intros Hne Hd. destruct (matchDiffHeader_twice p Hne Hd) as (a & b & E).
  unfold parseLines. cbn [fold_left].
  unfold parseLine at 6. rewrite E. cbn [pfiles initial updLast app].
  set (st1 := mkP _ false _ _).
  assert (E2 : parseLine st1 ("--- a/" ++ p)%string
               = mkP [mkFile (Some (trimEnd p)) (Some b) StModified []] false 0 0).
  { unfold parseLine.
    change (matchDiffHeader ("--- a/" ++ p)%string) with (@None (string * string)).
    cbv iota. subst st1. cbn [pfiles].
    change (startsWith ("--- a/" ++ p)%string "new file mode") with false.
    change (startsWith ("--- a/" ++ p)%string "deleted file mode") with false.
    change (startsWith ("--- a/" ++ p)%string "--- ") with true. cbv iota.
    change (sliceFrom 4 ("--- a/" ++ p)%string) with (String "a" (String "/" p)).
    rewrite path_read by reflexivity. reflexivity. }
  rewrite E2. clear E2 st1. set (st2 := mkP _ false _ _).
  assert (E3 : parseLine st2 ("+++ b/" ++ p)%string
               = mkP [mkFile (Some (trimEnd p)) (Some (trimEnd p)) StModified []]
                     false 0 0).
  { unfold parseLine.
    change (matchDiffHeader ("+++ b/" ++ p)%string) with (@None (string * string)).
    cbv iota. subst st2. cbn [pfiles].
    change (startsWith ("+++ b/" ++ p)%string "new file mode") with false.
    change (startsWith ("+++ b/" ++ p)%string "deleted file mode") with false.
    change (startsWith ("+++ b/" ++ p)%string "--- ") with false.
    change (startsWith ("+++ b/" ++ p)%string "+++ ") with true. cbv iota.
    change (sliceFrom 4 ("+++ b/" ++ p)%string) with (String "b" (String "/" p)).
    rewrite path_read by reflexivity. reflexivity. }
  rewrite E3. clear E3 st2. set (st3 := mkP _ false _ _).
  assert (E4 : parseLine st3 "@@ -1 +1 @@"
               = mkP [mkFile (Some (trimEnd p)) (Some (trimEnd p)) StModified
                        [mkHunk "@@ -1 +1 @@" 1 1 1 1 []]] true 1 1).
  { reflexivity. }
  rewrite E4. clear E4 st3. set (st4 := mkP _ true _ _).
  assert (E5 : parseLine st4 ("- " ++ o)%string
               = mkP [mkFile (Some (trimEnd p)) (Some (trimEnd p)) StModified
                        [mkHunk "@@ -1 +1 @@" 1 1 1 1
                           [mkLine LRemoved (" " ++ o)%string (Some 1%Z) None]]]
                     true 2 1).
  { reflexivity. }
  rewrite E5. clear E5 st4. reflexivity.
Qed.

End SourcesFacts.

Section TwoFiles.

Import Str Arr Model Normalize Parse NormalizeFacts Sources Workspace.
Import LinesFacts SourcesFacts.
Local Open Scope string_scope.
Local Open Scope list_scope.

(** The diff that [TwoFileDiffSource] writes for a file path that is
    not empty and holds no line break is parsed into one "modified"
    file with one hunk [@@ -1 +1 @@] of two lines: the old content,
    removed, and the new content, added, each on one line (its line
    feeds written as a backslash and an [n]) after a space.  Both paths
    are the file path without the white space at its end. *)
Theorem two_file_diff_parses (options : TwoFileDiffOptions) :
  filePath options <> "" -> allDot (filePath options) = true ->
  files (parseUnifiedDiff (TwoFileDiffSource.getRawDiff options))
  = [mockFile (filePath options)
              (escapeLineFeeds (normalizeLineEndings (oldContent options)))
              (escapeLineFeeds (normalizeLineEndings (newContent options)))].
Proof.
  intros Hne Hd. unfold parseUnifiedDiff, TwoFileDiffSource.getRawDiff. cbn [files].
  set (o := escapeLineFeeds (normalizeLineEndings (oldContent options))).
  set (n := escapeLineFeeds (normalizeLineEndings (newContent options))).
  set (p := filePath options) in *.
  assert (Ho : allDot o = true) by apply escape_allDot, normalize_noCR.
  assert (Hn : allDot n = true) by apply escape_allDot, normalize_noCR.
  set (ls := [_; _; _; _; _; _]).
  assert (Hls : Forall (fun l => allDot l = true) ls).
  { subst ls. repeat constructor.
    - apply (allDot_append "diff --git a/"); [reflexivity|].
      apply allDot_append; [exact Hd|]. now apply (allDot_append " b/").
    - now apply (allDot_append "--- a/").
    - now apply (allDot_append "+++ b/").
    - now apply (allDot_append "- ").
    - now apply (allDot_append "+ "). }
  rewrite normalize_fixed by now apply noCR_joinLF.
  rewrite split_joinLF by (exact Hls || discriminate).
  subst ls. rewrite parse_mock_lines by assumption. reflexivity.
Qed.

Definition exampleOptions : TwoFileDiffOptions :=
  mkOptions "src/file.txt"
            ("old line" ++ String CR (String LF "second"))
            ("new line" ++ String CR (String LF "second")).

Lemma two_file_diff_parses_witness :
  files (parseUnifiedDiff (TwoFileDiffSource.getRawDiff exampleOptions))
  = [mockFile "src/file.txt" "old line\nsecond" "new line\nsecond"].
Proof.
  apply (two_file_diff_parses exampleOptions).
  - discriminate.
  - reflexivity.
Defined.

End TwoFiles.

(* ================================================================== *)
(** * The line map *)
(* ================================================================== *)

Module LineMapFacts.

Import Model LineMap.
Local Open Scope list_scope.

(** The entry that [addEntry] pushes for a line. *)
Definition entryOf (line : DiffLine) : LineMapEntry :=
  mkEntry (Model.oldLineNumber line) (Model.newLineNumber line) (type line).

Lemma mapHunk_entries h : forall es,
  mapHunk h es = es ++ map entryOf (lines h).
Proof.
  unfold mapHunk. induction (lines h) as [|l ls IH]; intro es; cbn [fold_left map].
  - now rewrite app_nil_r.
  - rewrite IH. unfold addEntry. now rewrite <- app_assoc.
Qed.

Lemma buildLineMap_entries f :
  entries (buildLineMap f) = flat_map (fun h => map entryOf (lines h)) (hunks f).
Proof.
  unfold buildLineMap. cbn [entries].
  assert (G : forall hs es,
             fold_left (fun entries hunk => mapHunk hunk entries) hs es
             = es ++ flat_map (fun h => map entryOf (lines h)) hs).
  { induction hs as [|h hs IH]; intro es; cbn [fold_left flat_map].
    - now rewrite app_nil_r.
    - rewrite IH, mapHunk_entries. now rewrite <- app_assoc. }
  apply (G (hunks f) []).
Qed.

End LineMapFacts.

Section LineMapProperties.

Import Str Model Parse LineMap LineMapFacts TurnFacts.
Local Open Scope list_scope.

(** [buildLineMap] has one entry for each line of each hunk, in the
    order of the hunks and of their lines; the entry carries the type
    and the two numbers of its line. *)
Theorem buildLineMap_one_entry_per_line (file : DiffFile) :
  entries (buildLineMap file)
  = flat_map (fun h => map entryOf (lines h)) (hunks file) /\
  List.length (entries (buildLineMap file))
  = list_sum (map (fun h => List.length (lines h)) (hunks file)).
Proof.
  split; [apply buildLineMap_entries|].
  rewrite buildLineMap_entries.
  induction (hunks file) as [|h hs IH]; [reflexivity|].
  cbn [flat_map map list_sum]. now rewrite length_app, length_map, IH.
Qed.

(** In the line map of a file that the parser made, an "added" entry
    has a new line number and no old one, a "removed" entry an old line
    number and no new one, and a "context" entry has both. *)
Theorem lineMap_of_parsed_file
        (rawDiff : string) (f : DiffFile) (e : LineMapEntry) :
  In f (files (parseUnifiedDiff rawDiff)) ->
  In e (entries (buildLineMap f)) ->
  match lineType e with
  | LAdded => oldLineNumber e = None /\ newLineNumber e <> None
  | LRemoved => oldLineNumber e <> None /\ newLineNumber e = None
  | LContext => oldLineNumber e <> None /\ newLineNumber e <> None
  end.
Proof.
  intros Hf He. rewrite buildLineMap_entries in He.
  apply in_flat_map in He. destruct He as (h & Hh & He).
  apply in_map_iff in He. destruct He as (l & <- & Hl).
  cbn [entryOf lineType oldLineNumber newLineNumber].
  refine (AllLines_In
            (fun l => match type l with
                      | LAdded => Model.oldLineNumber l = None /\
                                  Model.newLineNumber l <> None
                      | LRemoved => Model.oldLineNumber l <> None /\
                                    Model.newLineNumber l = None
                      | LContext => Model.oldLineNumber l <> None /\
                                    Model.newLineNumber l <> None
                      end) _ f h l _ Hf Hh Hl).
  apply parse_AllLines.
  intros st line l' dOld dNew P. destruct P; cbn; split; congruence.
Qed.

Lemma lineMap_of_parsed_file_witness :
  oldLineNumber (mkEntry None (Some 2%Z) LAdded) = None /\
  newLineNumber (mkEntry None (Some 2%Z) LAdded) <> None.
Proof.
  refine (lineMap_of_parsed_file incrementDiff incrementFile
            (mkEntry None (Some 2%Z) LAdded) _ _).
  - vm_compute. left. reflexivity.
  - vm_compute. right. left. reflexivity.
Defined.

End LineMapProperties.

(* ================================================================== *)
(** * The file list store *)
(* ================================================================== *)

Module StoreFacts.

Import Model FileListStore.
Local Open Scope list_scope.

(** The two paths by which [moveFile] tells the files of a group
    apart. *)
Definition pathsOf (f : DiffFile) : option string * option string :=
  (newPath f, oldPath f).

Definition other (g : FileGroup) : FileGroup :=
  match g with Staged => Unstaged | Unstaged => Staged end.

Lemma samePath_eq a b : samePath a b = true <-> a = b.
Proof.
  destruct a as [x|], b as [y|]; cbn; try (split; [discriminate|congruence]);
    [|tauto].
  rewrite String.eqb_eq. split; congruence.
Qed.

Lemma samePaths_eq file item : samePaths file item = true <-> pathsOf item = pathsOf file.
Proof.
  unfold samePaths, pathsOf. rewrite andb_true_iff, !samePath_eq.
  split; [intros [-> ->]; reflexivity|intro H; injection H; auto].
Qed.

Lemma findIndex_none p l :
  findIndex p l = None <-> Forall (fun f => p f = false) l.
Proof.
  induction l as [|x l IH]; cbn [findIndex]; [split; [constructor|reflexivity]|].
  destruct (p x) eqn:E.
  - split; [discriminate|]. intro H. inversion H; congruence.
  - destruct (findIndex p l).
    + split; [discriminate|]. intro H. inversion H; subst.
      apply IH in H3. discriminate.
    + split; [|reflexivity]. intros _. constructor; [exact E|]. now apply IH.
Qed.

(** [findIndex] finds the first file for which the test holds. *)
Lemma findIndex_some p l i :
  findIndex p l = Some i ->
  exists before file after,
    l = before ++ file :: after /\ List.length before = i /\
    p file = true /\ Forall (fun f => p f = false) before /\
    nth_error l i = Some file /\ removeAt i l = before ++ after.
Proof.
  revert i. induction l as [|x l IH]; intros i; cbn [findIndex]; [discriminate|].
  destruct (p x) eqn:E.
  - intro H. injection H as <-. exists [], x, l. repeat split; auto.
  - destruct (findIndex p l) as [j|]; [|discriminate].
    intro H. injection H as <-.
    destruct (IH j eq_refl) as (b & f & a & -> & Hl & Hp & Hb & Hn & Hr).
    exists (x :: b), f, a. cbn [app List.length nth_error removeAt].
    repeat split; auto. now rewrite Hr.
Qed.

Lemma group_setGroup_same g l st : group g (setGroup g l st) = l.
Proof. destruct g; reflexivity. Qed.

Lemma group_setGroup_other g l st : group (other g) (setGroup g l st) = group (other g) st.
Proof. destruct g; reflexivity. Qed.

(** What [moveFile] does when a file of the source group has the
    path. *)
Lemma moveFile_found filePath target store before file after :
  group (other target) (state store) = before ++ file :: after ->
  hasPath filePath file = true ->
  Forall (fun f => hasPath filePath f = false) before ->
  let targetList := group target (state store) in
  let targetList' := if existsb (samePaths file) targetList then targetList
                     else targetList ++ [file] in
  moveFile filePath target store
  = emit (mkStore (setGroup target targetList'
                     (setGroup (other target) (before ++ after) (state store)))
                  (listeners store) (calls store)).
Proof.
  intros Hg Hp Hb. cbv zeta. unfold moveFile. fold (other target).
  assert (Hi : findIndex (hasPath filePath) (group (other target) (state store))
               = Some (List.length before)).
  { rewrite Hg. clear Hg. induction Hb as [|x b Hx _ IH]; cbn [app findIndex List.length].
    - now rewrite Hp.
    - now rewrite Hx, IH. }
  rewrite Hi.
  destruct (findIndex_some _ _ _ Hi) as (b' & f' & a' & E & Hl & _ & _ & Hn & Hr).
  rewrite Hn, Hr. rewrite Hg in E.
  assert (Eb : before = b' /\ file = f' /\ after = a').
  { clear -E Hl. revert b' E Hl.
    induction before as [|x b IH]; intros [|y b'] E Hl; cbn in *; try discriminate.
    - injection E as -> ->. auto.
    - injection E as -> E. injection Hl as Hl.
      destruct (IH b' E Hl) as (-> & -> & ->). auto. }
  destruct Eb as (<- & <- & <-). reflexivity.
Qed.

Lemma moveFile_no_match filePath target store :
  Forall (fun f => hasPath filePath f = false) (group (other target) (state store)) ->
  moveFile filePath target store = store.
Proof.
  intro H. unfold moveFile. fold (other target).
  apply findIndex_none in H. now rewrite H.
Qed.

Lemma other_other g : other (other g) = g.
Proof. destruct g; reflexivity. Qed.

(** A file that has the path is not told apart from one with the same
    two paths. *)
Lemma samePaths_hasPath filePath file item :
  samePaths file item = true -> hasPath filePath item = hasPath filePath file.
Proof.
  intro H. apply samePaths_eq in H. unfold pathsOf in H. injection H as H1 H2.
  unfold hasPath. now rewrite H1, H2.
Qed.

Lemma no_path_no_samePaths filePath file l :
  hasPath filePath file = true ->
  Forall (fun f => hasPath filePath f = false) l ->
  existsb (samePaths file) l = false.
Proof.
  intros Hp Hl. destruct (existsb (samePaths file) l) eqn:E; [|reflexivity].
  apply existsb_exists in E. destruct E as (item & Hin & Hs).
  rewrite Forall_forall in Hl. specialize (Hl item Hin).
  rewrite (samePaths_hasPath filePath file item Hs) in Hl. congruence.
Qed.

End StoreFacts.

Section StoreProperties.

Import Model FileListStore StoreFacts.
Local Open Scope list_scope.

(** [moveFile] with a path that no file of the source group has, as
    its new or as its old path, leaves the store as it is: no file
    moves and no listener is called. *)
Theorem moveFile_unknown_path (filePath : string) (target : FileGroup) (store : Store) :
  Forall (fun f => hasPath filePath f = false) (group (other target) (state store)) ->
  moveFile filePath target store = store.
Proof. apply moveFile_no_match. Qed.

Definition oneFile (path : string) : DiffFile :=
  mkFile (Some path) (Some path) StModified [].

Definition exampleStore : Store :=
  mkStore (mkState [] [oneFile "src/a.txt"]) [0] [].

Lemma moveFile_unknown_path_witness :
  moveFile "src/b.txt" Staged exampleStore = exampleStore.
Proof.
  apply (moveFile_unknown_path "src/b.txt" Staged exampleStore).
  repeat constructor.
Defined.

(** When a file of the source group has the path, [moveFile] takes
    the first such file out of the source group, adds it at the end of
    the target group unless a file with the same two paths is there
    already, and then calls every listener once, with the new state. *)
Theorem moveFile_moves_first_match
        (filePath : string) (target : FileGroup) (store : Store)
        (before after : list DiffFile) (file : DiffFile) :
  group (other target) (state store) = before ++ file :: after ->
  hasPath filePath file = true ->
  Forall (fun f => hasPath filePath f = false) before ->
  let store' := moveFile filePath target store in
  group (other target) (state store') = before ++ after /\
  group target (state store')
  = (if existsb (samePaths file) (group target (state store))
     then group target (state store)
     else group target (state store) ++ [file]) /\
  listeners store' = listeners store /\
  calls store'
  = calls store ++ map (fun listener => (listener, state store')) (listeners store).
Proof.
  intros Hg Hp Hb. cbv zeta.
  rewrite (moveFile_found filePath target store before file after Hg Hp Hb).
  cbv zeta. unfold emit, getState, cloneState. cbn [state listeners calls].
  repeat split.
  - destruct target; reflexivity.
  - destruct target; reflexivity.
  - destruct target; reflexivity.
Qed.

Lemma moveFile_moves_first_match_witness :
  group Unstaged (state (moveFile "src/a.txt" Staged exampleStore)) = [] /\
  group Staged (state (moveFile "src/a.txt" Staged exampleStore)) = [oneFile "src/a.txt"] /\
  listeners (moveFile "src/a.txt" Staged exampleStore) = [0] /\
  calls (moveFile "src/a.txt" Staged exampleStore)
  = [(0, state (moveFile "src/a.txt" Staged exampleStore))].
Proof.
  apply (moveFile_moves_first_match "src/a.txt" Staged exampleStore [] []
                                    (oneFile "src/a.txt")).
  - reflexivity.
  - reflexivity.
  - constructor.
Defined.

(** [moveFile] never makes a group hold two files with the same pair
    of paths: if neither group does before, neither does after. *)
Theorem moveFile_keeps_paths_distinct
        (filePath : string) (target : FileGroup) (store : Store) :
  NoDup (map pathsOf (staged (state store))) ->
  NoDup (map pathsOf (unstaged (state store))) ->
  NoDup (map pathsOf (staged (state (moveFile filePath target store)))) /\
  NoDup (map pathsOf (unstaged (state (moveFile filePath target store)))).
Proof.
  intros Hs Hu.
  destruct (findIndex (hasPath filePath) (group (other target) (state store)))
    as [i|] eqn:Ei.
  - destruct (findIndex_some _ _ _ Ei) as (b & f & a & Hg & _ & Hp & Hb & _ & _).
    rewrite (moveFile_found filePath target store b f a Hg Hp Hb).
    cbv zeta. unfold emit. cbn [state].
    assert (Hsrc : NoDup (map pathsOf (b ++ a))).
    { assert (H : NoDup (map pathsOf (group (other target) (state store))))
        by (destruct target; assumption).
      rewrite Hg, map_app in H. cbn [map] in H. apply NoDup_remove_1 in H.
      now rewrite map_app. }
    assert (Htgt : NoDup (map pathsOf
              (if existsb (samePaths f) (group target (state store))
               then group target (state store)
               else group target (state store) ++ [f]))).
    { assert (H : NoDup (map pathsOf (group target (state store))))
        by (destruct target; assumption).
      destruct (existsb (samePaths f) (group target (state store))) eqn:Ex; [exact H|].
      rewrite map_app. cbn [map].
      apply NoDup_app; [exact H|repeat constructor; auto|].
      intros k Hk [<-|[]]. apply in_map_iff in Hk. destruct Hk as (item & Hi & Hin).
      assert (T : existsb (samePaths f) (group target (state store)) = true).
      { apply existsb_exists. exists item. split; [exact Hin|].
        now apply samePaths_eq. }
      congruence. }
    destruct target; cbn [setGroup other staged unstaged group] in *; auto.
  - apply findIndex_none in Ei.
    rewrite (moveFile_no_match filePath target store Ei). auto.
Qed.

Lemma moveFile_keeps_paths_distinct_witness :
  NoDup (map pathsOf (staged (state (moveFile "src/a.txt" Staged exampleStore)))) /\
  NoDup (map pathsOf (unstaged (state (moveFile "src/a.txt" Staged exampleStore)))).
Proof.
  apply (moveFile_keeps_paths_distinct "src/a.txt" Staged exampleStore).
  - constructor.
  - repeat constructor. intros [].
Defined.

(** Moving a file to the other group and back: when no file of the
    target group has the path, and no other file of the source group has
    the same two paths as the file that moves, the target group is
    afterwards what it was, and the source group holds the same files
    with the moved file now last. *)
Theorem moveFile_there_and_back
        (filePath : string) (target : FileGroup) (store : Store)
        (before after : list DiffFile) (file : DiffFile) :
  group (other target) (state store) = before ++ file :: after ->
  hasPath filePath file = true ->
  Forall (fun f => hasPath filePath f = false) before ->
  Forall (fun f => hasPath filePath f = false) (group target (state store)) ->
  existsb (samePaths file) (before ++ after) = false ->
  let store' := moveFile filePath (other target) (moveFile filePath target store) in
  group target (state store') = group target (state store) /\
  group (other target) (state store') = before ++ after ++ [file].
Proof.
  intros Hg Hp Hb Ht Hu. cbv zeta.
  rewrite (moveFile_found filePath target store before file after Hg Hp Hb).
  cbv zeta. rewrite (no_path_no_samePaths filePath file _ Hp Ht).
  set (store1 := emit _).
  assert (G1 : group target (state store1) = group target (state store) ++ [file]).
  { unfold store1, emit. cbn [state]. apply group_setGroup_same. }
  assert (G2 : group (other target) (state store1) = before ++ after).
  { unfold store1, emit. cbn [state]. rewrite group_setGroup_other.
    destruct target; reflexivity. }
  assert (G1' : group (other (other target)) (state store1)
                = group target (state store) ++ file :: []).
  { now rewrite other_other. }
  rewrite (moveFile_found filePath (other target) store1
             (group target (state store)) file [] G1' Hp Ht).
  cbv zeta. rewrite G2, Hu, app_nil_r. unfold emit. cbn [state].
  rewrite other_other. split.
  - destruct target; reflexivity.
  - destruct target; cbn [setGroup other group staged unstaged];
      now rewrite <- app_assoc.
Qed.

Definition twoFilesStore : Store :=
  mkStore (mkState [] [oneFile "src/a.txt"; oneFile "src/b.txt"]) [0] [].

Lemma moveFile_there_and_back_witness :
  group Staged (state (moveFile "src/a.txt" Unstaged
                         (moveFile "src/a.txt" Staged twoFilesStore))) = [] /\
  group Unstaged (state (moveFile "src/a.txt" Unstaged
                           (moveFile "src/a.txt" Staged twoFilesStore)))
  = [oneFile "src/b.txt"; oneFile "src/a.txt"].
Proof.
  apply (moveFile_there_and_back "src/a.txt" Staged twoFilesStore []
                                 [oneFile "src/b.txt"] (oneFile "src/a.txt")).
  - reflexivity.
  - reflexivity.
  - constructor.
  - constructor.
  - reflexivity.
Defined.

End StoreProperties.

(* ================================================================== *)
(** * Rows and connectors: what both builders guarantee *)
(* ================================================================== *)

Module ShapeFacts.

Import Str Arr Model Rows Analytical ParseFacts TraceFacts GapFacts CountFacts IdFacts.
Import SimFacts IndexFacts GroupFacts AgreeFacts.
Local Open Scope list_scope.

(** The four shapes of a row: a context line on both sides (the same
    line), a pair of changed lines, a removed line with a spacer on the
    right, an added line with a spacer on the left.  Only an added line
    carries an anchor. *)
Definition wellShaped (r : VisualRow) : Prop :=
  match left r, right r with
  | LCell LKContext l, RCell RKContext l' None => l = l'
  | LCell LKChange _, RCell RKChange _ None => True
  | LCell LKRemoved _, RSpacer => True
  | LSpacer, RCell RKAdded _ _ => True
  | _, _ => False
  end.

Lemma EvOK_shape e : EvOK e -> wellShaped (evRow e).
Proof. intro H. destruct H; cbn; auto. Qed.

Lemma wellShaped_real r : wellShaped r -> leftReal r || rightReal r = true.
Proof.
  unfold wellShaped, leftReal, rightReal.
  destruct (left r) as [[] l|], (right r) as [[] l' [a|]|]; cbn; tauto.
Qed.

Lemma rows_shaped file o n :
  Forall wellShaped (rows (buildRaw file o n)).
Proof.
  destruct (buildRaw_Trace file o n) as (evs & -> & _ & Hok & _).
  unfold evRows. apply Forall_map. revert Hok. apply Forall_impl.
  intros e. apply EvOK_shape.
Qed.

Lemma counts_bound rs :
  Forall (fun r => leftReal r || rightReal r = true) rs ->
  leftCount rs <= List.length rs /\ rightCount rs <= List.length rs /\
  List.length rs <= leftCount rs + rightCount rs.
Proof.
  unfold leftCount, rightCount.
  induction 1 as [|r rs Hr _ IH]; [cbn; lia|].
  cbn [filter List.length].
  destruct (leftReal r), (rightReal r); cbn [List.length orb] in *;
    try discriminate; lia.
Qed.

(** ** Grouped connectors come from raw connectors of their kind *)

Definition FromRaw (cs : list ConnectorMeta) (g : ConnectorMeta) : Prop :=
  exists c1 c2,
    In c1 cs /\ In c2 cs /\
    sameKind g c1 = true /\ startRowId g = startRowId c1 /\
    sameKind g c2 = true /\ endRowId g = endRowId c2.

Lemma FromRaw_more cs c g : FromRaw cs g -> FromRaw (cs ++ [c]) g.
Proof.
  intros (c1 & c2 & H1 & H2 & H). exists c1, c2.
  split; [apply in_or_app; now left|]. split; [apply in_or_app; now left|exact H].
Qed.

Lemma FromRaw_self cs c : FromRaw (cs ++ [c]) c.
Proof.
  exists c, c. rewrite sameKind_refl.
  repeat split; apply in_or_app; right; now left.
Qed.

Lemma grouped_FromRaw idx cs : Forall (FromRaw cs) (groupConnectors idx cs).
Proof.
  induction cs as [|c cs IH] using rev_ind; [constructor|].
  rewrite groupConnectors_snoc.
  assert (IH' : Forall (FromRaw (cs ++ [c])) (groupConnectors idx cs)).
  { revert IH. apply Forall_impl. intro g. apply FromRaw_more. }
  destruct (snoc_cases (groupConnectors idx cs)) as [->|(G & l & E)].
  - rewrite groupTurn_nil. constructor; [apply FromRaw_self|constructor].
  - rewrite E in *. rewrite groupTurn_snoc.
    apply Forall_app in IH'. destruct IH' as [HG Hl].
    inversion Hl as [|? ? Hl' _]; subst.
    destruct (merges _ c l) eqn:Em.
    + apply Forall_app. split; [exact HG|]. constructor; [|constructor].
      apply merges_iff in Em. destruct Em as (Hk & _ & _).
      destruct Hl' as (c1 & c2 & H1 & H2 & K1 & S1 & _ & _).
      exists c1, c. rewrite !sameKind_setEnd, startRowId_setEnd, endRowId_setEnd.
      repeat split; auto.
      * apply in_or_app. right. now left.
      * now rewrite sameKind_sym.
    + apply Forall_app. split; [exact HG|].
      constructor; [exact Hl'|]. constructor; [apply FromRaw_self|constructor].
Qed.

(** ** Raw connectors point at the row they were pushed with *)

Definition PointsAt (rs : list VisualRow) (c : ConnectorMeta) (id : string) : Prop :=
  In id (map rowId rs) /\
  (isAddedConn c = false -> In id (idsOf leftReal rs)) /\
  (isRemovedConn c = false -> In id (idsOf rightReal rs)).

Lemma raw_points evs c :
  Forall EvOK evs -> In c (evConns evs) ->
  PointsAt (evRows evs) c (startRowId c) /\ PointsAt (evRows evs) c (endRowId c).
Proof.
  intros Hok Hc. unfold evConns in Hc. apply in_flat_map in Hc.
  destruct Hc as (e & He & Hc).
  destruct (evConn e) as [c'|] eqn:Ec; cbn [connList] in Hc; [|contradiction].
  destruct Hc as [->|[]].
  rewrite Forall_forall in Hok.
  destruct (EvOK_conn e c (Hok e He) Ec) as (Hs & Hend & _ & Hl & Hr).
  rewrite Hs, Hend.
  assert (P : PointsAt (evRows evs) c (rowId (evRow e))).
  { unfold PointsAt, idsOf. repeat split.
    - apply in_map. unfold evRows. now apply in_map.
    - intro Ha. apply in_map. apply filter_In. split.
      + unfold evRows. now apply in_map.
      + rewrite Hl, Ha. reflexivity.
    - intro Ha. apply in_map. apply filter_In. split.
      + unfold evRows. now apply in_map.
      + rewrite Hr, Ha. reflexivity. }
  split; exact P.
Qed.

Lemma sameKind_added g c : sameKind g c = true -> isAddedConn g = isAddedConn c.
Proof. destruct g, c; cbn; auto; discriminate. Qed.

Lemma sameKind_removed g c : sameKind g c = true -> isRemovedConn g = isRemovedConn c.
Proof. destruct g, c; cbn; auto; discriminate. Qed.

Lemma grouped_points idx file o n g :
  In g (groupConnectors idx (connectors (buildRaw file o n))) ->
  PointsAt (rows (buildRaw file o n)) g (startRowId g) /\
  PointsAt (rows (buildRaw file o n)) g (endRowId g).
Proof.
  intro Hg. destruct (buildRaw_Trace file o n) as (evs & Er & Ec & Hok & _).
  rewrite Er. rewrite Ec in Hg.
  pose proof (grouped_FromRaw idx (evConns evs)) as F.
  rewrite Forall_forall in F.
  destruct (F g Hg) as (c1 & c2 & H1 & H2 & K1 & S1 & K2 & S2).
  destruct (raw_points evs c1 Hok H1) as [(A1 & A2 & A3) _].
  destruct (raw_points evs c2 Hok H2) as [_ (B1 & B2 & B3)].
  rewrite S1, S2. unfold PointsAt.
  rewrite (sameKind_added g c1 K1), (sameKind_removed g c1 K1).
  split; [tauto|].
  rewrite <- (sameKind_added g c1 K1), <- (sameKind_removed g c1 K1).
  rewrite (sameKind_added g c2 K2), (sameKind_removed g c2 K2). tauto.
Qed.

End ShapeFacts.

Section RowsAndConnectors.

Import Str Arr Model Rows Analytical TraceFacts GapFacts CountFacts.
Import SimFacts IndexFacts GroupFacts ShapeFacts.
Local Open Scope list_scope.

(** Every row that [buildVisualRows] makes has one of the four shapes
    (context on both sides, with one and the same line; a pair of
    changed lines; removed with a spacer on the right; added with a
    spacer on the left), so no row is a spacer on both sides: the
    number of rows is at least the number of real cells of either side
    and at most the number of real cells of both. *)
Theorem rows_have_one_of_four_shapes
        (file : DiffFile) (oldFileLines newFileLines : option (list string)) :
  let rows := fst (buildVisualRows file oldFileLines newFileLines) in
  Forall wellShaped rows /\
  leftCount rows <= List.length rows /\
  rightCount rows <= List.length rows /\
  List.length rows <= leftCount rows + rightCount rows.
Proof.
  cbv zeta. cbn [buildVisualRows fst].
  pose proof (rows_shaped file oldFileLines newFileLines) as H.
  split; [exact H|]. apply counts_bound. revert H. apply Forall_impl.
  intro r. apply wellShaped_real.
Qed.

(** No grouped connector dangles, in either variant: the rows at
    which it starts and ends exist, they have a real left cell unless
    the connector is of kind "added", and a real right cell unless it
    is of kind "removed".  In the measured variant these cells are the
    items of the left and of the right column. *)
Theorem connectors_point_at_real_cells
        (file : DiffFile) (oldFileLines newFileLines : option (list string))
        (g : ConnectorMeta) :
  let rows := fst (buildVisualRows file oldFileLines newFileLines) in
  let columns := Measured.buildColumns file oldFileLines newFileLines in
  In g (snd (buildVisualRows file oldFileLines newFileLines)) \/
  In g (Measured.colConnectors columns) ->
  (PointsAt rows g (startRowId g) /\ PointsAt rows g (endRowId g)) /\
  (isAddedConn g = false ->
   In (startRowId g) (map Measured.lRowId (Measured.colLeftItems columns)) /\
   In (endRowId g) (map Measured.lRowId (Measured.colLeftItems columns))) /\
  (isRemovedConn g = false ->
   In (startRowId g) (map Measured.rRowId (Measured.colRightItems columns)) /\
   In (endRowId g) (map Measured.rRowId (Measured.colRightItems columns))).
Proof.
  cbv zeta. cbn [buildVisualRows fst snd Measured.buildColumns
                 Measured.colConnectors Measured.colLeftItems Measured.colRightItems].
  destruct (Sim_buildRaw file oldFileLines newFileLines) as (Hl & Hr & Hc & _).
  rewrite Hl, Hr, Hc, idsOf_left, idsOf_right. intro Hg.
  assert (P : PointsAt (rows (buildRaw file oldFileLines newFileLines)) g (startRowId g) /\
              PointsAt (rows (buildRaw file oldFileLines newFileLines)) g (endRowId g)).
  { destruct Hg as [Hg|Hg]; eapply grouped_points; exact Hg. }
  split; [exact P|]. destruct P as [(_ & A2 & A3) (_ & B2 & B3)].
  split; intro H; auto.
Qed.

Lemma connectors_point_at_real_cells_witness :
  In "added-0-1"%string
     (map Measured.rRowId
          (Measured.colRightItems (Measured.buildColumns insertingFile None None))) /\
  In "added-0-2"%string
     (map Measured.rRowId
          (Measured.colRightItems (Measured.buildColumns insertingFile None None))).
Proof.
  refine (proj2 (proj2 (connectors_point_at_real_cells insertingFile None None
                          (ConnAdded "added-0-1" "added-0-2" (Some 1%Z)) _)) _).
  - left. vm_compute. left. reflexivity.
  - reflexivity.
Defined.

End RowsAndConnectors.

(* ================================================================== *)
(** * The content tables of the analytical variant *)
(* ================================================================== *)

Module TableFacts.

Import Str Arr Model Rows Analytical TraceFacts GapFacts CountFacts.
Import SimFacts IndexFacts GroupFacts ShapeFacts Tables.
Local Open Scope list_scope.

Lemma running_snoc real rs : forall c r,
  running real c (rs ++ [r]) = running real c rs ++ [c + count real rs].
Proof.
  unfold count. induction rs as [|x rs IH]; intros c r; cbn [app running filter].
  - cbn. now rewrite Nat.add_0_r.
  - rewrite IH. destruct (real x); cbn [List.length app];
      rewrite ?Nat.add_succ_r; reflexivity.
Qed.

Lemma indexFrom_snoc ids : forall i m x,
  indexFrom i (ids ++ [x]) m = mapSet (indexFrom i ids m) x (i + List.length ids).
Proof.
  induction ids as [|a ids IH]; intros i m x; cbn [app indexFrom List.length].
  - now rewrite Nat.add_0_r.
  - rewrite IH. f_equal. lia.
Qed.

Lemma idsOf_snoc real rs r :
  idsOf real (rs ++ [r]) = idsOf real rs ++ (if real r then [rowId r] else []).
Proof. rewrite idsOf_app. unfold idsOf. cbn [filter]. now destruct (real r). Qed.

Lemma count_snoc real rs r :
  count real (rs ++ [r]) = count real rs + (if real r then 1 else 0).
Proof. rewrite count_app. unfold count. cbn [filter]. now destruct (real r). Qed.

(** What the loop has built after the rows [rs]. *)
Definition TInv (rs : list VisualRow) (t : TState) : Prop :=
  lRun t = leftRunning rs /\ rRun t = rightRunning rs /\
  lc t = count leftReal rs /\ rc t = count rightReal rs /\
  r2l t = indexOf (idsOf leftReal rs) /\ r2r t = indexOf (idsOf rightReal rs) /\
  map leftRowId (leftItems t) = idsOf leftReal rs /\
  map rightRowId (rightItems t) = idsOf rightReal rs.

Lemma TInv_turn rs t r : TInv rs t -> TInv (rs ++ [r]) (tableTurn t r).
Proof.
  intros (H1 & H2 & H3 & H4 & H5 & H6 & H7 & H8).
  unfold TInv, leftRunning, rightRunning, indexOf.
  rewrite !running_snoc, !idsOf_snoc, !count_snoc. cbn [Nat.add].
  assert (Lr : leftReal r = match left r with LSpacer => false | LCell _ _ => true end)
    by reflexivity.
  assert (Rr : rightReal r = match right r with RSpacer => false | RCell _ _ _ => true end)
    by reflexivity.
  rewrite Lr, Rr. clear Lr Rr.
  unfold tableTurn, leftPart, rightPart.
  destruct (left r) as [lk ll|], (right r) as [rk rl ra|];
    cbn [leftItems rightItems lRun rRun lc rc r2l r2r];
    rewrite ?indexFrom_snoc, ?app_nil_r, ?map_app, ?idsOf_length; cbn [Nat.add map];
    rewrite H1, H2, H3, H4, H5, H6, H7, H8; unfold leftRunning, rightRunning, indexOf;
    repeat split; try reflexivity; lia.
Qed.

Lemma buildTables_TInv rs : TInv rs (buildTables rs).
Proof.
  unfold buildTables.
  induction rs as [|r rs IH] using rev_ind; [repeat split|].
  rewrite fold_left_app. cbn [fold_left]. now apply TInv_turn.
Qed.

Lemma indexFrom_in ids : forall i m x,
  In x ids -> exists k, indexFrom i ids m x = Some k.
Proof.
  induction ids as [|a ids IH]; intros i m x H; [contradiction|].
  cbn [indexFrom]. destruct (in_dec string_dec x ids) as [Hin|Hn].
  - now apply IH.
  - destruct H as [->|H]; [|contradiction].
    rewrite indexFrom_notin by exact Hn. unfold mapSet.
    rewrite String.eqb_refl. eauto.
Qed.

Lemma connectorOf_drawn rs layout ly ry g index :
  PointsAt rs g (startRowId g) -> PointsAt rs g (endRowId g) ->
  exists c, connectorOf (buildTables rs) layout ly ry g index = Some c /\
            id c = ("connector-" ++ natDec index)%string.
Proof.
  intros (_ & A2 & A3) (_ & B2 & B3).
  destruct (buildTables_TInv rs) as (_ & _ & _ & _ & E5 & E6 & _).
  unfold connectorOf. rewrite E5, E6.
  destruct g as [s e|s e a|s e a]; cbn [startRowId endRowId isAddedConn isRemovedConn] in *.
  - destruct (indexFrom_in _ 0 emptyMap s (A2 eq_refl)) as [ls L1].
    destruct (indexFrom_in _ 0 emptyMap e (B2 eq_refl)) as [le L2].
    destruct (indexFrom_in _ 0 emptyMap s (A3 eq_refl)) as [rs' L3].
    destruct (indexFrom_in _ 0 emptyMap e (B3 eq_refl)) as [re L4].
    unfold indexOf. rewrite L1, L2, L3, L4. eexists. split; reflexivity.
  - destruct (indexFrom_in _ 0 emptyMap s (A3 eq_refl)) as [rs' L3].
    destruct (indexFrom_in _ 0 emptyMap e (B3 eq_refl)) as [re L4].
    unfold indexOf. rewrite L3, L4. eexists. split; reflexivity.
  - destruct (indexFrom_in _ 0 emptyMap s (A2 eq_refl)) as [ls L1].
    destruct (indexFrom_in _ 0 emptyMap e (B2 eq_refl)) as [le L2].
    unfold indexOf. rewrite L1, L2. eexists. split; reflexivity.
Qed.

Lemma mapFilter_all {A B} (f : A -> nat -> option B) (name : B -> string)
      (nm : nat -> string) l :
  (forall a i, In a l -> exists b, f a i = Some b /\ name b = nm i) ->
  forall k, map name (mapFilter f l k) = map nm (seq k (List.length l)).
Proof.
  induction l as [|a l IH]; intros H k; [reflexivity|].
  cbn [mapFilter List.length seq map].
  destruct (H a k (or_introl eq_refl)) as (b & -> & Hb).
  cbn [map]. rewrite Hb, IH; [reflexivity|].
  intros a' i Hin. apply H. now right.
Qed.

End TableFacts.

Section AnalyticalTables.

Import Str Arr Model Rows Analytical TraceFacts GapFacts CountFacts.
Import SimFacts IndexFacts GroupFacts ShapeFacts Tables TableFacts.
Local Open Scope list_scope.

(** The loop that fills the content tables of the analytical variant
    leaves, for the rows of [buildVisualRows]: in [leftRunning] and
    [rightRunning], before each row, the number of real cells above it
    on that side; and in [rowIdToLeftIdx] and [rowIdToRightIdx] the very
    tables that the measured variant consults to group its connectors,
    [leftIndexMap] and [rightIndexMap] of the columns of
    [buildColumns]. *)
Theorem analytical_tables_are_the_column_maps
        (file : DiffFile) (oldFileLines newFileLines : option (list string)) :
  let rows := fst (buildVisualRows file oldFileLines newFileLines) in
  let columns := Measured.buildColumns file oldFileLines newFileLines in
  let t := buildTables rows in
  lRun t = leftRunning rows /\ rRun t = rightRunning rows /\
  lc t = leftCount rows /\ rc t = rightCount rows /\
  r2l t = Measured.leftIndexMap (Measured.colLeftItems columns) /\
  r2r t = Measured.rightIndexMap (Measured.colRightItems columns).
Proof.
  cbv zeta. cbn [buildVisualRows fst Measured.buildColumns
                 Measured.colLeftItems Measured.colRightItems].
  destruct (buildTables_TInv (rows (buildRaw file oldFileLines newFileLines)))
    as (H1 & H2 & H3 & H4 & H5 & H6 & _).
  destruct (Sim_buildRaw file oldFileLines newFileLines) as (Hl & Hr & _).
  unfold Measured.leftIndexMap, Measured.rightIndexMap.
  rewrite Hl, Hr, idsOf_left, idsOf_right. repeat split; assumption.
Qed.

(** Once the layout is measured ([fullToX] is not 0), the analytical
    variant draws every grouped connector of [buildVisualRows], at
    every scroll position: none is dropped for want of a row index.
    The connectors drawn are named [connector-0], [connector-1], ... in
    the order of the grouped connectors. *)
Theorem every_connector_is_drawn
        (file : DiffFile) (oldFileLines newFileLines : option (list string))
        (layout : Layout.LayoutX) (scrollTop : Q) :
  Qeq_bool (Layout.fullToX layout) 0 = false ->
  let rows := fst (buildVisualRows file oldFileLines newFileLines) in
  let connectorMeta := snd (buildVisualRows file oldFileLines newFileLines) in
  map id (connectorsAt rows connectorMeta layout scrollTop)
  = map (fun index => ("connector-" ++ natDec index)%string)
        (seq 0 (List.length connectorMeta)).
Proof.
  intro Hx. cbv zeta. unfold connectorsAt.
  destruct (computeOffsets _ scrollTop) as [ly ry]. rewrite Hx.
  apply mapFilter_all. intros g i Hg.
  cbn [buildVisualRows fst snd] in *.
  destruct (grouped_points _ file oldFileLines newFileLines g Hg) as [P1 P2].
  now apply connectorOf_drawn.
Qed.

Lemma every_connector_is_drawn_witness :
  map id (connectorsAt (fst (buildVisualRows insertingFile None None))
                       (snd (buildVisualRows insertingFile None None))
                       (Layout.mkLayout 0 600 272 328) 0)
  = map (fun index => ("connector-" ++ natDec index)%string)
        (seq 0 (List.length (snd (buildVisualRows insertingFile None None)))).
Proof.
  apply (every_connector_is_drawn insertingFile None None
                                  (Layout.mkLayout 0 600 272 328) 0).
  reflexivity.
Defined.

End AnalyticalTables.

(* ================================================================== *)
(** * Without full contents: the rows are the lines of the hunks *)
(* ================================================================== *)

Module WalkFacts.

Import Str Arr Model Rows Analytical ParseFacts TraceFacts GapFacts CountFacts IdFacts.
Import LineNumberFacts SimFacts IndexFacts GroupFacts AgreeFacts HeaderFacts.
Local Open Scope string_scope.
Local Open Scope list_scope.

(** The lines shown on each side, from top to bottom. *)
Definition leftLine (r : VisualRow) : list DiffLine :=
  match left r with LCell _ l => [l] | LSpacer => [] end.
Definition rightLine (r : VisualRow) : list DiffLine :=
  match right r with RCell _ l _ => [l] | RSpacer => [] end.
Definition leftLines (rs : list VisualRow) : list DiffLine := flat_map leftLine rs.
Definition rightLines (rs : list VisualRow) : list DiffLine := flat_map rightLine rs.

(** The identifier is one that [pushGapLines] makes. *)
Definition isFullId (id : string) : bool :=
  startsWith id "context-full-" || startsWith id "removed-full-"
  || startsWith id "added-full-".

Lemma startsWith_cons_same a s p :
  startsWith (String a s) (String a p) = startsWith s p.
Proof.
  unfold startsWith. cbn [prefix]. destruct (ascii_dec a a); [reflexivity|congruence].
Qed.

Lemma startsWith_cons_diff c d s p :
  d <> c -> startsWith (String c s) (String d p) = false.
Proof.
  intro H. unfold startsWith. cbn [prefix].
  destruct (ascii_dec d c); [contradiction|reflexivity].
Qed.

Lemma digit_not_f c : isDigit c = true -> "f"%char <> c.
Proof. intros H <-. discriminate H. Qed.

Lemma hunk_ids_not_full h i :
  isFullId (contextId h i) = false /\ isFullId (changeId h i) = false /\
  isFullId (removedId h i) = false /\ isFullId (addedId h i) = false.
Proof.
  unfold isFullId, contextId, changeId, removedId, addedId.
  destruct (natDec_digits h) as (c & s & -> & Hc & _).
  pose proof (digit_not_f c Hc) as Hf.
  repeat split; cbn [append];
    repeat rewrite startsWith_cons_same;
    repeat (rewrite startsWith_cons_diff by (exact Hf || discriminate));
    reflexivity.
Qed.

(** The rows that a walk pushes. *)
Definition Walked (ls : list DiffLine) (rs : list VisualRow) : Prop :=
  leftLines rs = filter onOldSide ls /\
  rightLines rs = filter onNewSide ls /\
  Forall (fun r => isFullId (rowId r) = false) rs.

Lemma Walked_nil : Walked [] [].
Proof. repeat split. constructor. Qed.

Lemma Walked_one l ls r rs :
  leftLine r = (if onOldSide l then [l] else []) ->
  rightLine r = (if onNewSide l then [l] else []) ->
  isFullId (rowId r) = false ->
  Walked ls rs -> Walked (l :: ls) (r :: rs).
Proof.
  intros Hl Hr Hid (W1 & W2 & W3). unfold Walked, leftLines, rightLines.
  cbn [flat_map filter]. rewrite Hl, Hr.
  fold (leftLines rs). fold (rightLines rs). rewrite W1, W2.
  repeat split; [destruct (onOldSide l)|destruct (onNewSide l)|constructor]; auto.
Qed.

Lemma Walked_two l1 l2 ls r rs lo ln :
  leftLine r = [lo] -> rightLine r = [ln] ->
  filter onOldSide [l1; l2] = [lo] -> filter onNewSide [l1; l2] = [ln] ->
  isFullId (rowId r) = false ->
  Walked ls rs -> Walked (l1 :: l2 :: ls) (r :: rs).
Proof.
  intros Hl Hr Fo Fn Hid (W1 & W2 & W3). unfold Walked, leftLines, rightLines.
  cbn [flat_map]. rewrite Hl, Hr.
  fold (leftLines rs). fold (rightLines rs). rewrite W1, W2.
  change (l1 :: l2 :: ls) with ([l1; l2] ++ ls). rewrite !filter_app, Fo, Fn.
  repeat split. constructor; auto.
Qed.

Lemma walkLines_Walked_bounded h n : forall ls i st,
  List.length ls <= n ->
  exists rs, rows (walkLines h i ls st) = rows st ++ rs /\ Walked ls rs.
Proof.
  induction n as [|n IH]; intros ls i st Hn.
  - destruct ls; [|cbn in Hn; lia]. exists []. cbn [walkLines].
    rewrite app_nil_r. split; [reflexivity|apply Walked_nil].
  - destruct ls as [|line rest].
    { exists []. cbn [walkLines]. rewrite app_nil_r.
      split; [reflexivity|apply Walked_nil]. }
    cbn [List.length] in Hn.
    destruct (hunk_ids_not_full h i) as (I1 & I2 & I3 & I4).
    assert (Hone : forall st1 r,
               rows st1 = rows st ++ [r] ->
               leftLine r = (if onOldSide line then [line] else []) ->
               rightLine r = (if onNewSide line then [line] else []) ->
               isFullId (rowId r) = false ->
               exists rs, rows (walkLines h (i + 1) rest st1) = rows st ++ rs /\
                          Walked (line :: rest) rs).
    { intros st1 r Hr Hl Hrr Hid.
      destruct (IH rest (i + 1) st1) as (rs & E & W); [lia|].
      exists (r :: rs). rewrite E, Hr, <- app_assoc. split; [reflexivity|].
      now apply Walked_one. }
    assert (Htwo : forall st1 r next rest' lo ln,
               rest = next :: rest' ->
               rows st1 = rows st ++ [r] ->
               leftLine r = [lo] -> rightLine r = [ln] ->
               filter onOldSide [line; next] = [lo] ->
               filter onNewSide [line; next] = [ln] ->
               isFullId (rowId r) = false ->
               exists rs, rows (walkLines h (i + 1 + 1) rest' st1) = rows st ++ rs /\
                          Walked (line :: rest) rs).
    { intros st1 r next rest' lo ln -> Hr Hl Hrr Fo Fn Hid. cbn [List.length] in Hn.
      destruct (IH rest' (i + 1 + 1) st1) as (rs & E & W); [lia|].
      exists (r :: rs). rewrite E, Hr, <- app_assoc. split; [reflexivity|].
      eapply Walked_two; eauto. }
    cbn [walkLines]. destruct (type line) eqn:Et.
    + eapply Hone; [reflexivity| | |exact I1];
        unfold onOldSide, onNewSide; rewrite Et; reflexivity.
    + destruct rest as [|next rest'].
      * eapply Hone; [reflexivity| | |exact I4];
          unfold onOldSide, onNewSide; rewrite Et; reflexivity.
      * destruct (isType LRemoved next) eqn:En.
        -- apply isType_removed in En.
           eapply Htwo; [reflexivity|reflexivity|reflexivity|reflexivity| | |exact I2];
             cbn [filter]; unfold onOldSide, onNewSide; rewrite Et, En; reflexivity.
        -- eapply Hone; [reflexivity| | |exact I4];
             unfold onOldSide, onNewSide; rewrite Et; reflexivity.
    + destruct rest as [|next rest'].
      * eapply Hone; [reflexivity| | |exact I3];
          unfold onOldSide, onNewSide; rewrite Et; reflexivity.
      * destruct (isType LAdded next) eqn:En.
        -- apply isType_added in En.
           eapply Htwo; [reflexivity|reflexivity|reflexivity|reflexivity| | |exact I2];
             cbn [filter]; unfold onOldSide, onNewSide; rewrite Et, En; reflexivity.
        -- eapply Hone; [reflexivity| | |exact I3];
             unfold onOldSide, onNewSide; rewrite Et; reflexivity.
Qed.

Lemma walkLines_Walked h i ls st :
  exists rs, rows (walkLines h i ls st) = rows st ++ rs /\ Walked ls rs.
Proof. eapply walkLines_Walked_bounded. apply Nat.le_refl. Qed.

Lemma Walked_app l1 r1 l2 r2 : Walked l1 r1 -> Walked l2 r2 -> Walked (l1 ++ l2) (r1 ++ r2).
Proof.
  intros (A1 & A2 & A3) (B1 & B2 & B3). unfold Walked, leftLines, rightLines in *.
  rewrite !flat_map_app, !filter_app, A1, A2, B1, B2.
  repeat split. now apply Forall_app.
Qed.

Lemma forEachHunk_Walked so sn hs : forall k lp,
  exists rs,
    rows (state (forEachHunk false so sn k hs lp)) = rows (state lp) ++ rs /\
    Walked (flat_map lines hs) rs.
Proof.
  induction hs as [|hunk hs IH]; intros k lp; cbn [forEachHunk flat_map].
  - exists []. rewrite app_nil_r. split; [reflexivity|apply Walked_nil].
  - destruct (IH (S k) (hunkTurn false so sn lp k hunk)) as (r2 & E2 & W2).
    unfold hunkTurn in E2 at 2. cbn [state gapBefore] in E2.
    destruct (walkLines_Walked k 0 (lines hunk) (state lp)) as (r1 & E1 & W1).
    exists (r1 ++ r2). rewrite E2, E1, <- app_assoc. split; [reflexivity|].
    now apply Walked_app.
Qed.

Lemma buildRaw_Walked file o n :
  hasFullFiles o n = false ->
  Walked (flat_map lines (hunks file)) (rows (buildRaw file o n)).
Proof.
  intro Hf. unfold buildRaw. rewrite Hf. cbn [gapAfter].
  destruct (forEachHunk_Walked (orEmpty o) (orEmpty n) (hunks file) 0 initialLoop)
    as (rs & E & W).
  cbn [initialLoop state rows app] in E. now rewrite E.
Qed.

(** *** Identifiers of rows of hunks *)

Lemma gap_id_full e : EvOK e -> evTag e = TGap -> isFullId (rowId (evRow e)) = true.
Proof.
  intros H Ht. destruct H; try discriminate Ht; cbn [evRow rowId];
    unfold isFullId, contextFullId, removedFullId, addedFullId.
  - now rewrite (startsWith_append "context-full-").
  - rewrite (startsWith_append "removed-full-"), orb_true_r. reflexivity.
  - rewrite (startsWith_append "added-full-"). apply orb_true_r.
Qed.

Lemma kind_ids_inj (p : string) h i h' i' :
  (p ++ natDec h ++ "-" ++ natDec i)%string = (p ++ natDec h' ++ "-" ++ natDec i')%string ->
  h = h' /\ i = i'.
Proof.
  intro H. apply append_cancel in H.
  apply dash_split in H; try apply natDec_allDigits.
  destruct H as [H1 H2]. split; now apply natDec_inj.
Qed.

(** The identifier of a row of a hunk tells the turn that pushed it. *)
Lemma hunk_id_tag e1 e2 h1 i1 h2 i2 :
  EvOK e1 -> EvOK e2 ->
  evTag e1 = THunk h1 i1 -> evTag e2 = THunk h2 i2 ->
  rowId (evRow e1) = rowId (evRow e2) -> h1 = h2 /\ i1 = i2.
Proof.
  intros H1 H2 T1 T2 E.
  destruct H1; try discriminate T1; destruct H2; try discriminate T2;
    injection T1 as <- <-; injection T2 as <- <-; cbn [evRow rowId] in E;
    try (unfold contextId, changeId, removedId, addedId in E;
         cbn [append] in E; discriminate E).
  - eapply (kind_ids_inj "context-"); exact E.
  - eapply (kind_ids_inj "change-"); exact E.
  - eapply (kind_ids_inj "removed-"); exact E.
  - eapply (kind_ids_inj "added-"); exact E.
Qed.

Lemma hunk_rows_distinct evs : forall lo hi,
  Forall EvOK evs -> Between lo hi evs ->
  Forall (fun e => evTag e <> TGap) evs ->
  NoDup (map rowId (evRows evs)).
Proof.
  induction evs as [|e evs IH]; intros lo hi Hok Hb Hg; [constructor|].
  inversion Hok as [|? ? He Hok']; subst. inversion Hg as [|? ? Hge Hg']; subst.
  cbn [evRows map]. constructor.
  - intro Hin. apply in_map_iff in Hin. destruct Hin as (r & Er & Hr).
    apply in_map_iff in Hr. destruct Hr as (x & <- & Hx).
    destruct (evTag e) as [|h i] eqn:Te; [contradiction|].
    rewrite Forall_forall in Hok', Hg'.
    destruct (evTag x) as [|h' i'] eqn:Tx; [exact (Hg' x Hx Tx)|].
    destruct (hunk_id_tag x e h' i' h i (Hok' x Hx) He Tx Te Er) as [-> ->].
    exact (Between_once [] e evs lo hi h i Hb Te x Hx Tx).
  - cbn [Between] in Hb. destruct (evTag e) as [|h i]; [contradiction|].
    destruct Hb as [_ Hb]. eapply IH; eauto.
Qed.

Lemma rows_distinct_without_full file o n :
  hasFullFiles o n = false -> NoDup (map rowId (rows (buildRaw file o n))).
Proof.
  intro Hf. destruct (buildRaw_Walked file o n Hf) as (_ & _ & Hid).
  destruct (buildRaw_Trace file o n) as (evs & Er & _ & Hok & Hb).
  rewrite Er in *. eapply hunk_rows_distinct; eauto.
  rewrite Forall_forall in *. intros e He Ht.
  pose proof (gap_id_full e (Hok e He) Ht) as F.
  assert (Hin : In (evRow e) (evRows evs)) by (unfold evRows; now apply in_map).
  rewrite (Hid _ Hin) in F. discriminate.
Qed.

Lemma leftLines_items rs : map Measured.lLine (leftItemsOf rs) = leftLines rs.
Proof.
  unfold leftItemsOf, leftLines. induction rs as [|r rs IH]; [reflexivity|].
  cbn [flat_map]. rewrite map_app, IH. f_equal.
  unfold leftItemOf, leftLine. now destruct (left r).
Qed.

Lemma rightLines_items rs : map Measured.rLine (rightItemsOf rs) = rightLines rs.
Proof.
  unfold rightItemsOf, rightLines. induction rs as [|r rs IH]; [reflexivity|].
  cbn [flat_map]. rewrite map_app, IH. f_equal.
  unfold rightItemOf, rightLine. now destruct (right r).
Qed.

End WalkFacts.

Section WithoutFullContents.

Import Str Arr Model Rows Analytical TraceFacts GapFacts CountFacts LineNumberFacts.
Import SimFacts IndexFacts GroupFacts AgreeFacts ShapeFacts WalkFacts.
Local Open Scope list_scope.

(** Without full contents nothing is lost and nothing is invented,
    in either variant: from top to bottom the left side shows the lines
    of the hunks that are present in the old file (context and
    removed), the right side those present in the new file (context
    and added), each in the order of the diff. *)
Theorem hunk_lines_are_all_shown
        (file : DiffFile) (oldFileLines newFileLines : option (list string)) :
  hasFullFiles oldFileLines newFileLines = false ->
  let rows := fst (buildVisualRows file oldFileLines newFileLines) in
  let columns := Measured.buildColumns file oldFileLines newFileLines in
  let all := flat_map lines (hunks file) in
  leftLines rows = filter onOldSide all /\
  rightLines rows = filter onNewSide all /\
  map Measured.lLine (Measured.colLeftItems columns) = filter onOldSide all /\
  map Measured.rLine (Measured.colRightItems columns) = filter onNewSide all.
Proof.
  intro Hf. cbv zeta. cbn [buildVisualRows fst Measured.buildColumns
                           Measured.colLeftItems Measured.colRightItems].
  destruct (buildRaw_Walked file oldFileLines newFileLines Hf) as (W1 & W2 & _).
  destruct (Sim_buildRaw file oldFileLines newFileLines) as (Hl & Hr & _).
  rewrite Hl, Hr, leftLines_items, rightLines_items. auto.
Qed.

Lemma hunk_lines_are_all_shown_witness :
  leftLines (fst (buildVisualRows replacedFile None None))
  = filter onOldSide (flat_map lines (hunks replacedFile)) /\
  rightLines (fst (buildVisualRows replacedFile None None))
  = filter onNewSide (flat_map lines (hunks replacedFile)) /\
  map Measured.lLine (Measured.colLeftItems (Measured.buildColumns replacedFile None None))
  = filter onOldSide (flat_map lines (hunks replacedFile)) /\
  map Measured.rLine (Measured.colRightItems (Measured.buildColumns replacedFile None None))
  = filter onNewSide (flat_map lines (hunks replacedFile)).
Proof.
  apply (hunk_lines_are_all_shown replacedFile None None). reflexivity.
Defined.

(** Without full contents the identifiers of the rows are pairwise
    distinct, whatever the file; so the two variants, which always
    hold the same cells, also group their connectors alike. *)
Theorem without_full_contents_builders_agree
        (file : DiffFile) (oldFileLines newFileLines : option (list string)) :
  hasFullFiles oldFileLines newFileLines = false ->
  NoDup (map rowId (fst (buildVisualRows file oldFileLines newFileLines))) /\
  snd (buildVisualRows file oldFileLines newFileLines)
  = Measured.colConnectors (Measured.buildColumns file oldFileLines newFileLines).
Proof.
  intro Hf. cbn [buildVisualRows fst snd Measured.buildColumns Measured.colConnectors].
  pose proof (rows_distinct_without_full file oldFileLines newFileLines Hf) as Hd.
  split; [exact Hd|].
  destruct (Sim_buildRaw file oldFileLines newFileLines) as (Sl & Sr & Sc & _ & _).
  rewrite Sc.
  destruct (buildRaw_Trace file oldFileLines newFileLines)
    as (evs & Er & Ec & Hok & _).
  rewrite Er in *. rewrite Ec.
  apply groupings_agree; assumption.
Qed.

Lemma without_full_contents_builders_agree_witness :
  NoDup (map rowId (fst (buildVisualRows scrambledFile None None))) /\
  snd (buildVisualRows scrambledFile None None)
  = Measured.colConnectors (Measured.buildColumns scrambledFile None None).
Proof.
  apply (without_full_contents_builders_agree scrambledFile None None). reflexivity.
Defined.

End WithoutFullContents.

(* ================================================================== *)
(** * A hunk that starts at line 0 *)
(* ================================================================== *)

Module ZeroStartFacts.

Import Str Arr Model Rows Analytical TraceFacts GapFacts CountFacts LineNumberFacts.
Local Open Scope list_scope.

Lemma walk_all_added h ls : forall i st,
  Forall (fun l => type l = LAdded) ls ->
  exists rs, rows (walkLines h i ls st) = rows st ++ rs /\
             Forall (fun r => isAddedRow r = true) rs.
Proof.
  induction ls as [|l ls IH]; intros i st H.
  - exists []. cbn [walkLines]. now rewrite app_nil_r.
  - inversion H as [|? ? Hl Hls]; subst.
    assert (E : exists st1,
               walkLines h i (l :: ls) st = walkLines h (i + 1) ls st1 /\
               exists r, rows st1 = rows st ++ [r] /\ isAddedRow r = true).
    { cbn [walkLines]. rewrite Hl. destruct ls as [|next ls'].
      - eexists. split; [reflexivity|]. eexists. split; reflexivity.
      - inversion Hls as [|? ? Hn _]; subst.
        replace (isType LRemoved next) with false by (unfold isType; now rewrite Hn).
        eexists. split; [reflexivity|]. eexists. split; reflexivity. }
    destruct E as (st1 & -> & r & Er & Hr).
    destruct (IH (i + 1) st1 Hls) as (rs & -> & Hrs).
    exists (r :: rs). rewrite Er, <- app_assoc. split; [reflexivity|].
    constructor; assumption.
Qed.

Lemma walk_all_removed h ls : forall i st,
  Forall (fun l => type l = LRemoved) ls ->
  exists rs, rows (walkLines h i ls st) = rows st ++ rs /\
             Forall (fun r => isRemovedRow r = true) rs.
Proof.
  induction ls as [|l ls IH]; intros i st H.
  - exists []. cbn [walkLines]. now rewrite app_nil_r.
  - inversion H as [|? ? Hl Hls]; subst.
    assert (E : exists st1,
               walkLines h i (l :: ls) st = walkLines h (i + 1) ls st1 /\
               exists r, rows st1 = rows st ++ [r] /\ isRemovedRow r = true).
    { cbn [walkLines]. rewrite Hl. destruct ls as [|next ls'].
      - eexists. split; [reflexivity|]. eexists. split; reflexivity.
      - inversion Hls as [|? ? Hn _]; subst.
        replace (isType LAdded next) with false by (unfold isType; now rewrite Hn).
        eexists. split; [reflexivity|]. eexists. split; reflexivity. }
    destruct E as (st1 & -> & r & Er & Hr).
    destruct (IH (i + 1) st1 Hls) as (rs & -> & Hrs).
    exists (r :: rs). rewrite Er, <- app_assoc. split; [reflexivity|].
    constructor; assumption.
Qed.

(** The row that the trailing gap makes for the old line 0. *)
Definition phantomRemoved : VisualRow :=
  mkRow (removedFullId 0) (LCell LKRemoved (mkLine LRemoved "" (Some 0%Z) None)) RSpacer.

(** The row that the trailing gap makes for the new line 0. *)
Definition phantomAdded (anchor : option Z) : VisualRow :=
  mkRow (addedFullId 0) LSpacer (RCell RKAdded (mkLine LAdded "" None (Some 0%Z)) anchor).

Lemma gap_from_zero_old sn st nS nE :
  (nE < nS)%Z ->
  rows (pushGapLines [] sn st 0 0 nS nE) = rows st ++ [phantomRemoved].
Proof.
  intro H. unfold pushGapLines.
  replace (nE <? nS)%Z with true by (symmetry; now apply Z.ltb_lt).
  cbn [Z.ltb Z.compare andb].
  replace (Z.max 0 (nE - nS + 1)) with 0%Z by lia.
  reflexivity.
Qed.

Lemma gap_from_zero_new so st oS oE :
  (oE < oS)%Z ->
  rows (pushGapLines so [] st oS oE 0 0)
  = rows st ++ [phantomAdded (orNull (lastOldLine st))].
Proof.
  intro H. unfold pushGapLines.
  replace (oE <? oS)%Z with true by (symmetry; now apply Z.ltb_lt).
  cbn [Z.ltb Z.compare andb].
  replace (Z.max 0 (oE - oS + 1)) with 0%Z by lia.
  reflexivity.
Qed.

Lemma leftCount_added rs :
  Forall (fun r => isAddedRow r = true) rs -> leftCount rs = 0.
Proof.
  unfold leftCount. induction 1 as [|r rs Hr _ IH]; [reflexivity|].
  cbn [filter]. now rewrite (added_left r Hr).
Qed.

Lemma rightCount_removed rs :
  Forall (fun r => isRemovedRow r = true) rs -> rightCount rs = 0.
Proof.
  unfold rightCount. induction 1 as [|r rs Hr _ IH]; [reflexivity|].
  cbn [filter]. now rewrite (removed_right r Hr).
Qed.

End ZeroStartFacts.

Section ZeroStart.

Import Str Arr Model Rows Analytical TraceFacts GapFacts CountFacts LineNumberFacts.
Import ZeroStartFacts.
Local Open Scope string_scope.
Local Open Scope list_scope.

(** A new file, as [git diff] writes it: one hunk [@@ -0,0 +1,n @@] of
    [n] added lines, shown with the [n] lines of the new file as full
    contents and no old contents.  After the [n] added rows the builder
    pushes one more row, [removed-full-0], with an empty removed line
    numbered 0 on the left: the left side has one real cell although
    the old file has no line. *)
Theorem new_file_gets_a_phantom_removed_row
        (file : DiffFile) (hunk : DiffHunk) (newFileLines : list string) :
  hunks file = [hunk] ->
  oldStart hunk = 0%Z -> oldLines hunk = 0%Z ->
  newStart hunk = 1%Z -> newLines hunk = Z.of_nat (List.length newFileLines) ->
  Forall (fun l => type l = LAdded) (lines hunk) ->
  newFileLines <> [] ->
  let rows := fst (buildVisualRows file (Some []) (Some newFileLines)) in
  exists added,
    rows = added ++ [phantomRemoved] /\
    Forall (fun r => isAddedRow r = true) added /\
    leftCount rows = 1.
Proof.
  intros Hh Hos Hol Hns Hnl Hadd Hne. cbv zeta.
  cbn [buildVisualRows fst]. unfold buildRaw.
  assert (Hfull : hasFullFiles (Some []) (Some newFileLines) = true).
  { destruct newFileLines; [contradiction|reflexivity]. }
  rewrite Hfull, Hh. cbn [orEmpty forEachHunk]. unfold hunkTurn, gapAfter.
  cbn [state nextOldLine nextNewLine gapBefore initialLoop List.length].
  rewrite Hos, Hol, Hns, Hnl.
  change (pushGapLines [] newFileLines (mkB [] [] 0 0) 1 (0 - 1) 1 (1 - 1))
    with (mkB [] [] 0 0).
  destruct (walk_all_added 0 (lines hunk) 0 (mkB [] [] 0 0) Hadd) as (rs & E & Hrs).
  cbn [rows app] in E.
  change (0 + 0)%Z with 0%Z. change (Z.of_nat 0) with 0%Z.
  rewrite gap_from_zero_old by lia. rewrite E.
  exists rs. repeat split; [exact Hrs|].
  rewrite leftCount_app, (leftCount_added rs Hrs). reflexivity.
Qed.

Lemma new_file_gets_a_phantom_removed_row_witness :
  exists added,
    fst (buildVisualRows addedFile (Some []) (Some ["first"; "second"]))
    = added ++ [phantomRemoved] /\
    Forall (fun r => isAddedRow r = true) added /\
    leftCount (fst (buildVisualRows addedFile (Some []) (Some ["first"; "second"]))) = 1.
Proof.
  refine (new_file_gets_a_phantom_removed_row addedFile
            (mkHunk "@@ -0,0 +1,2 @@" 0 0 1 2
               [mkLine LAdded "first" None (Some 1%Z);
                mkLine LAdded "second" None (Some 2%Z)])
            ["first"; "second"] _ _ _ _ _ _ _);
    try reflexivity.
  - repeat constructor.
  - discriminate.
Defined.

(** A deleted file, as [git diff] writes it: one hunk [@@ -1,n +0,0 @@]
    of [n] removed lines, shown with the [n] lines of the old file as
    full contents and no new contents.  After the [n] removed rows the
    builder pushes one more row, [added-full-0], with an empty added
    line numbered 0 on the right: the right side has one real cell
    although the new file has no line. *)
Theorem deleted_file_gets_a_phantom_added_row
        (file : DiffFile) (hunk : DiffHunk) (oldFileLines : list string) :
  hunks file = [hunk] ->
  oldStart hunk = 1%Z -> oldLines hunk = Z.of_nat (List.length oldFileLines) ->
  newStart hunk = 0%Z -> newLines hunk = 0%Z ->
  Forall (fun l => type l = LRemoved) (lines hunk) ->
  oldFileLines <> [] ->
  let rows := fst (buildVisualRows file (Some oldFileLines) (Some [])) in
  exists removed anchor,
    rows = removed ++ [phantomAdded anchor] /\
    Forall (fun r => isRemovedRow r = true) removed /\
    rightCount rows = 1.
Proof.
  intros Hh Hos Hol Hns Hnl Hrem Hne. cbv zeta.
  cbn [buildVisualRows fst]. unfold buildRaw.
  assert (Hfull : hasFullFiles (Some oldFileLines) (Some []) = true).
  { destruct oldFileLines; [contradiction|reflexivity]. }
  rewrite Hfull, Hh. cbn [orEmpty forEachHunk]. unfold hunkTurn, gapAfter.
  cbn [state nextOldLine nextNewLine gapBefore initialLoop List.length].
  rewrite Hos, Hol, Hns, Hnl.
  change (pushGapLines oldFileLines [] (mkB [] [] 0 0) 1 (1 - 1) 1 (0 - 1))
    with (mkB [] [] 0 0).
  destruct (walk_all_removed 0 (lines hunk) 0 (mkB [] [] 0 0) Hrem) as (rs & E & Hrs).
  cbn [rows app] in E.
  change (0 + 0)%Z with 0%Z. change (Z.of_nat 0) with 0%Z.
  rewrite gap_from_zero_new by lia. rewrite E.
  eexists rs, _. repeat split; [exact Hrs|].
  rewrite rightCount_app, (rightCount_removed rs Hrs). reflexivity.
Qed.

Definition deletedFile : DiffFile :=
  mkFile (Some "src/old.txt") None StDeleted
    [mkHunk "@@ -1 +0,0 @@" 1 1 0 0 [mkLine LRemoved "old" (Some 1%Z) None]].

Lemma deleted_file_gets_a_phantom_added_row_witness :
  exists removed anchor,
    fst (buildVisualRows deletedFile (Some ["old"]) (Some []))
    = removed ++ [phantomAdded anchor] /\
    Forall (fun r => isRemovedRow r = true) removed /\
    rightCount (fst (buildVisualRows deletedFile (Some ["old"]) (Some []))) = 1.
Proof.
  refine (deleted_file_gets_a_phantom_added_row deletedFile
            (mkHunk "@@ -1 +0,0 @@" 1 1 0 0 [mkLine LRemoved "old" (Some 1%Z) None])
            ["old"] _ _ _ _ _ _ _);
    try reflexivity.
  - repeat constructor.
  - discriminate.
Defined.

End ZeroStart.

(* ================================================================== *)
(** * The offsets of the two panes *)
(* ================================================================== *)

Module OffsetFacts.

Import Model Rows Analytical IndexFacts.
Local Open Scope list_scope.

(** The index of the row at the unified scroll position, and how far
    into that row the position is. *)
Definition idxAt (rows : list VisualRow) (st : Q) : nat :=
  Z.to_nat (Z.max 0 (Z.min (Qfloor (st / ROW_HEIGHT))
                           (Z.of_nat (List.length rows) - 1))).

Definition fracAt (rows : list VisualRow) (st : Q) : Q :=
  Qmax 0 (st / ROW_HEIGHT - ofNat (idxAt rows st)).

Definition realAt (real : VisualRow -> bool) (rows : list VisualRow) (i : nat) : bool :=
  match nth_error rows i with Some row => real row | None => false end.

(** One component of [computeOffsets]. *)
Definition side (real : VisualRow -> bool) (rows : list VisualRow) (st : Q) : Q :=
  (ofNat (nth (idxAt rows st) (running real 0 rows) 0%nat) * ROW_HEIGHT
   + (if realAt real rows (idxAt rows st) then fracAt rows st * ROW_HEIGHT else 0))%Q.

Lemma computeOffsets_sides rows st :
  rows <> [] ->
  computeOffsets rows st = (side leftReal rows st, side rightReal rows st).
Proof. destruct rows; [contradiction|reflexivity]. Qed.

(** The running count before the row of index [i]. *)
Lemma running_nth real rows : forall c i,
  i < List.length rows ->
  nth i (running real c rows) 0 = c + count real (firstn i rows).
Proof.
  unfold count. induction rows as [|r rows IH]; intros c i Hi; [cbn in Hi; lia|].
  cbn [running]. destruct i as [|i]; [cbn; lia|].
  cbn [nth firstn filter List.length] in *. rewrite IH by lia.
  destruct (real r); cbn [List.length]; lia.
Qed.

Lemma count_firstn_le real rows i : count real (firstn i rows) <= i.
Proof.
  unfold count. etransitivity; [apply filter_length_le|].
  rewrite length_firstn. lia.
Qed.

Lemma count_firstn_succ real rows i :
  i < List.length rows ->
  count real (firstn (S i) rows)
  = count real (firstn i rows) + (if realAt real rows i then 1 else 0).
Proof.
  unfold count, realAt. revert i. induction rows as [|r rows IH]; intros i Hi;
    [cbn in Hi; lia|].
  destruct i as [|i].
  - cbn. destruct (real r); reflexivity.
  - cbn [List.length] in Hi. cbn [firstn nth_error filter].
    specialize (IH i ltac:(lia)). cbn [firstn] in IH.
    destruct (real r); cbn [List.length]; rewrite IH; lia.
Qed.

Lemma count_firstn_mono real rows a b :
  a <= b -> count real (firstn a rows) <= count real (firstn b rows).
Proof.
  unfold count. revert a b. induction rows as [|r rows IH]; intros a b H.
  - now rewrite !firstn_nil.
  - destruct a as [|a]; [cbn; lia|]. destruct b as [|b]; [lia|].
    cbn [firstn filter]. specialize (IH a b ltac:(lia)).
    destruct (real r); cbn [List.length]; lia.
Qed.

Local Open Scope Q_scope.

Lemma ofNat_le a b : (a <= b)%nat -> ofNat a <= ofNat b.
Proof. intro H. unfold ofNat. rewrite <- Zle_Qle. lia. Qed.

Lemma ofNat_plus a b : ofNat (a + b) == ofNat a + ofNat b.
Proof. unfold ofNat. rewrite Nat2Z.inj_add, inject_Z_plus. reflexivity. Qed.

Lemma ofNat_nonneg a : 0 <= ofNat a.
Proof. apply (ofNat_le 0 a). lia. Qed.

Lemma unified st : st / ROW_HEIGHT * 24 == st.
Proof. unfold ROW_HEIGHT. field. Qed.

Lemma idxAt_lt rows st : rows <> [] -> (idxAt rows st < List.length rows)%nat.
Proof. intro H. unfold idxAt. destruct rows; [contradiction|]. cbn [List.length]. lia. Qed.

Lemma fracAt_nonneg rows st : 0 <= fracAt rows st.
Proof. apply Q.le_max_l. Qed.

(** The row under the position starts at or before it. *)
Lemma idxAt_below rows st :
  rows <> [] -> 0 <= st -> ofNat (idxAt rows st) <= st / ROW_HEIGHT.
Proof.
  intros Hne Hst. unfold idxAt.
  set (u := st / ROW_HEIGHT).
  assert (Hu : 0 <= u).
  { pose proof (unified st) as E. fold u in E. lra. }
  assert (Hf : (0 <= Qfloor u)%Z).
  { rewrite <- (Qfloor_Z 0). now apply Qfloor_resp_le. }
  assert (Hl : (0 <= Z.of_nat (List.length rows) - 1)%Z).
  { destruct rows; [contradiction|]. cbn [List.length]. lia. }
  unfold ofNat. rewrite Z2Nat.id by lia.
  apply Qle_trans with (inject_Z (Qfloor u)); [|apply Qfloor_le].
  rewrite <- Zle_Qle. lia.
Qed.

Lemma fracAt_exact rows st :
  rows <> [] -> 0 <= st ->
  fracAt rows st == st / ROW_HEIGHT - ofNat (idxAt rows st).
Proof.
  intros Hne Hst. unfold fracAt. apply Q.max_r.
  pose proof (idxAt_below rows st Hne Hst). lra.
Qed.

Lemma fracAt_top rows st : st <= 0 -> idxAt rows st = 0%nat /\ fracAt rows st == 0.
Proof.
  intro Hst.
  assert (Hu : st / ROW_HEIGHT <= 0).
  { pose proof (unified st) as E. lra. }
  assert (Hf : (Qfloor (st / ROW_HEIGHT) <= 0)%Z).
  { rewrite <- (Qfloor_Z 0). now apply Qfloor_resp_le. }
  assert (Hi : idxAt rows st = 0%nat) by (unfold idxAt; lia).
  split; [exact Hi|]. unfold fracAt. rewrite Hi. apply Q.max_l.
  unfold ofNat. cbn [Z.of_nat]. change (inject_Z 0) with 0. lra.
Qed.

(** Short of the last row the position is less than one row into the
    row under it. *)
Lemma fracAt_below_one rows st :
  (S (idxAt rows st) < List.length rows)%nat -> fracAt rows st <= 1.
Proof.
  intro H. unfold fracAt. apply Q.max_lub; [lra|].
  set (u := st / ROW_HEIGHT) in *.
  pose proof (Qlt_floor u) as Hlt. rewrite inject_Z_plus in Hlt.
  change (inject_Z 1) with 1 in Hlt.
  assert (Hi : (Qfloor u <= Z.of_nat (idxAt rows st))%Z).
  { unfold idxAt in *. fold u in H |- *. lia. }
  rewrite Zle_Qle in Hi. fold (ofNat (idxAt rows st)) in Hi. lra.
Qed.

Lemma idxAt_mono rows st1 st2 : st1 <= st2 -> (idxAt rows st1 <= idxAt rows st2)%nat.
Proof.
  intro H. unfold idxAt.
  assert (Hu : st1 / ROW_HEIGHT <= st2 / ROW_HEIGHT).
  { pose proof (unified st1). pose proof (unified st2). lra. }
  apply Qfloor_resp_le in Hu. lia.
Qed.

Lemma side_value real rows st :
  rows <> [] ->
  side real rows st
  == (ofNat (count real (firstn (idxAt rows st) rows))
      + (if realAt real rows (idxAt rows st) then fracAt rows st else 0)) * 24.
Proof.
  intro Hne. unfold side. rewrite running_nth by now apply idxAt_lt.
  cbn [Nat.add]. unfold ROW_HEIGHT.
  destruct (realAt real rows (idxAt rows st)); ring.
Qed.

Lemma side_nonneg real rows st : rows <> [] -> 0 <= side real rows st.
Proof.
  intro Hne. rewrite side_value by exact Hne.
  pose proof (ofNat_nonneg (count real (firstn (idxAt rows st) rows))).
  pose proof (fracAt_nonneg rows st).
  destruct (realAt real rows (idxAt rows st)); lra.
Qed.

Lemma side_le real rows st : rows <> [] -> side real rows st <= Qmax 0 st.
Proof.
  intro Hne. rewrite side_value by exact Hne.
  destruct (Qlt_le_dec st 0) as [Hneg|Hpos].
  - destruct (fracAt_top rows st) as [Hi Hf]; [lra|].
    rewrite Hi. cbn [firstn]. unfold count. cbn [filter List.length].
    pose proof (Q.le_max_l 0 st).
    change (ofNat 0) with 0. destruct (realAt real rows 0); lra.
  - pose proof (ofNat_le _ _ (count_firstn_le real rows (idxAt rows st))) as Hc.
    pose proof (fracAt_exact rows st Hne Hpos) as Hf.
    pose proof (idxAt_below rows st Hne Hpos) as Hb.
    pose proof (unified st) as Hu.
    pose proof (Q.le_max_r 0 st).
    destruct (realAt real rows (idxAt rows st)); lra.
Qed.

Lemma side_mono real rows st1 st2 :
  rows <> [] -> st1 <= st2 -> side real rows st1 <= side real rows st2.
Proof.
  intros Hne Hst. rewrite !side_value by exact Hne.
  pose proof (idxAt_mono rows st1 st2 Hst) as Hi.
  pose proof (fracAt_nonneg rows st2) as Hf2.
  destruct (Nat.eq_dec (idxAt rows st1) (idxAt rows st2)) as [E|Hneq].
  - assert (Hf : fracAt rows st1 <= fracAt rows st2).
    { unfold fracAt. rewrite E. apply Q.max_le_compat_l.
      pose proof (unified st1). pose proof (unified st2). lra. }
    rewrite E. destruct (realAt real rows (idxAt rows st2)); lra.
  - assert (Hlt : (S (idxAt rows st1) <= idxAt rows st2)%nat) by lia.
    pose proof (idxAt_lt rows st2 Hne) as Hl2.
    assert (Hf1 : fracAt rows st1 <= 1) by (apply fracAt_below_one; lia).
    pose proof (fracAt_nonneg rows st1) as Hf1'.
    pose proof (count_firstn_succ real rows (idxAt rows st1) ltac:(lia)) as Hs.
    pose proof (count_firstn_mono real rows _ _ Hlt) as Hm.
    rewrite Hs in Hm. apply ofNat_le in Hm. rewrite ofNat_plus in Hm.
    destruct (realAt real rows (idxAt rows st1));
      [change (ofNat 1) with 1 in Hm|change (ofNat 0) with 0 in Hm];
      destruct (realAt real rows (idxAt rows st2)); lra.
Qed.

Lemma idxAt_boundary rows i :
  (i < List.length rows)%nat ->
  idxAt rows (ofNat i * ROW_HEIGHT) = i /\ fracAt rows (ofNat i * ROW_HEIGHT) == 0.
Proof.
  intro Hi.
  assert (E : ofNat i * ROW_HEIGHT / ROW_HEIGHT == ofNat i).
  { unfold ROW_HEIGHT. field. }
  assert (Ei : idxAt rows (ofNat i * ROW_HEIGHT) = i).
  { unfold idxAt. rewrite (Qfloor_comp _ _ E). unfold ofNat. rewrite Qfloor_Z. lia. }
  split; [exact Ei|]. unfold fracAt. rewrite Ei. apply Q.max_l. lra.
Qed.

Lemma side_boundary real rows i :
  (i < List.length rows)%nat ->
  side real rows (ofNat i * ROW_HEIGHT)
  == ofNat (nth i (running real 0 rows) 0%nat) * ROW_HEIGHT.
Proof.
  intro Hi. unfold side. destruct (idxAt_boundary rows i Hi) as [-> Hf].
  destruct (realAt real rows i); [rewrite Hf|]; ring.
Qed.

End OffsetFacts.

Section Offsets.

Import Model Rows Analytical OffsetFacts.
Local Open Scope list_scope.
Local Open Scope Q_scope.


(** Scrolling down never moves a pane up: both offsets are monotone
    in the unified scroll position. *)
Theorem computeOffsets_monotone (rows : list VisualRow) (st1 st2 : Q) :
  st1 <= st2 ->
  fst (computeOffsets rows st1) <= fst (computeOffsets rows st2) /\
  snd (computeOffsets rows st1) <= snd (computeOffsets rows st2).
Proof.
  intro H. destruct rows as [|r rest].
  - cbn [computeOffsets fst snd]. lra.
  - rewrite !computeOffsets_sides by discriminate. cbn [fst snd].
    split; apply side_mono; (discriminate || exact H).
Qed.

Lemma computeOffsets_monotone_witness :
  fst (computeOffsets insertRows 12) <= fst (computeOffsets insertRows 30) /\
  snd (computeOffsets insertRows 12) <= snd (computeOffsets insertRows 30).
Proof.
  apply (computeOffsets_monotone insertRows 12 30). unfold Qle. simpl. lia.
Defined.

(** When the unified scroll position is at the top of the row of
    index [i], each pane has scrolled past the real cells above that
    row and no further: the row, on each side where it has a real cell,
    is drawn at the top of the pane. *)
Theorem row_under_scroll_is_at_the_top (rows : list VisualRow) (i : nat) :
  (i < List.length rows)%nat ->
  fst (computeOffsets rows (ofNat i * ROW_HEIGHT))
  == ofNat (nth i (leftRunning rows) 0%nat) * ROW_HEIGHT /\
  snd (computeOffsets rows (ofNat i * ROW_HEIGHT))
  == ofNat (nth i (rightRunning rows) 0%nat) * ROW_HEIGHT /\
  leftVisualY rows i (ofNat i * ROW_HEIGHT) == 0 /\
  rightVisualY rows i (ofNat i * ROW_HEIGHT) == 0.
Proof.
  intro Hi. assert (Hne : rows <> []) by (intros ->; cbn in Hi; lia).
  unfold leftVisualY, rightVisualY.
  rewrite computeOffsets_sides by exact Hne. cbn [fst snd].
  pose proof (side_boundary leftReal rows i Hi) as L.
  pose proof (side_boundary rightReal rows i Hi) as R.
  unfold leftRunning, rightRunning. rewrite L, R.
  repeat split; try reflexivity; ring.
Qed.

Lemma row_under_scroll_is_at_the_top_witness :
  fst (computeOffsets insertRows (ofNat 1 * ROW_HEIGHT))
  == ofNat (nth 1 (leftRunning insertRows) 0%nat) * ROW_HEIGHT /\
  snd (computeOffsets insertRows (ofNat 1 * ROW_HEIGHT))
  == ofNat (nth 1 (rightRunning insertRows) 0%nat) * ROW_HEIGHT /\
  leftVisualY insertRows 1 (ofNat 1 * ROW_HEIGHT) == 0 /\
  rightVisualY insertRows 1 (ofNat 1 * ROW_HEIGHT) == 0.
Proof.
  apply (row_under_scroll_is_at_the_top insertRows 1). simpl. lia.
Defined.

End Offsets.

(* ================================================================== *)
(** * The inline differ on equal and on different texts *)
(* ================================================================== *)

Module ChangedFacts.

Import Str Inline InlineFacts.
Local Abbreviation units := list_ascii_of_string.
Local Open Scope string_scope.

Lemma lcpLen_same l : lcpLen l l = List.length l.
Proof.
  induction l as [|c l IH]; [reflexivity|].
  rewrite lcpLen_cons, Ascii.eqb_refl, IH. reflexivity.
Qed.

Lemma units_empty s : units s = [] -> s = "".
Proof. destruct s; [reflexivity|discriminate]. Qed.

(** The three parts of each side give the text back, and the outer
    parts are the same on both sides. *)
Lemma parts o n :
  let r := buildInlineDiff o n in
  before (old r) ++ changed (old r) ++ after (old r) = o /\
  before (next r) ++ changed (next r) ++ after (next r) = n /\
  before (old r) = before (next r) /\ after (old r) = after (next r).
Proof.
  cbv zeta. destruct (isEmpty o && isEmpty n) eqn:E.
  - apply andb_true_iff in E. destruct E as [Eo En].
    destruct o; [|discriminate]. destruct n; [|discriminate]. repeat split.
  - rewrite (buildInlineDiff_general o n E). cbn [old next before changed after].
    pose proof (P_le_o o n) as HPo. pose proof (P_le_n o n) as HPn.
    pose proof (S_le_o o n) as HSo. pose proof (S_le_n o n) as HSn.
    cbv zeta in HPo, HPn, HSo, HSn.
    repeat split.
    + apply units_inj. unfold slice.
      rewrite !units_append, !units_substring, units_sliceFrom, <- units_length.
      apply split3. lia.
    + apply units_inj. unfold slice.
      rewrite !units_append, !units_substring, units_sliceFrom, <- units_length.
      apply split3. lia.
    + apply units_inj. unfold slice. rewrite !units_substring.
      cbn [skipn]. rewrite Nat.sub_0_r. apply (before_agree o n).
    + apply units_inj. rewrite !units_sliceFrom, <- !units_length.
      apply (after_agree o n).
Qed.

Lemma same_text_no_change o :
  changed (old (buildInlineDiff o o)) = "" /\ changed (next (buildInlineDiff o o)) = "".
Proof.
  destruct (isEmpty o && isEmpty o) eqn:E.
  - apply andb_true_iff in E. destruct E as [Eo _].
    destruct o; [|discriminate]. split; reflexivity.
  - rewrite (buildInlineDiff_general o o E). cbn [old next changed].
    assert (H : slice (lcpLen (units o) (units o))
                      (String.length o
                       - lcpLen (rev (skipn (lcpLen (units o) (units o)) (units o)))
                                (rev (skipn (lcpLen (units o) (units o)) (units o)))) o
                = "").
    { apply units_empty. unfold slice.
      rewrite units_substring, (lcpLen_same (units o)).
      rewrite skipn_all. apply firstn_nil. }
    split; exact H.
Qed.

End ChangedFacts.

Section ChangedSpans.

Import Str Inline InlineFacts ChangedFacts.
Local Open Scope string_scope.

(** [buildInlineDiff] marks nothing as changed exactly when the two
    texts are the same: both [changed] spans are empty if and only if
    the old text equals the new one. *)
Theorem nothing_changed_iff_same_text (oldText newText : string) :
  (changed (old (buildInlineDiff oldText newText)) = "" /\
   changed (next (buildInlineDiff oldText newText)) = "")
  <-> oldText = newText.
Proof.
  split.
  - intros [Ho Hn].
    destruct (parts oldText newText) as (Po & Pn & Hb & Ha). cbv zeta in *.
    rewrite Ho in Po. rewrite Hn in Pn. cbn [append] in Po, Pn. congruence.
  - intros <-. apply same_text_no_change.
Qed.

End ChangedSpans.

(* ================================================================== *)
(** * Full contents: the gutters and the left column *)
(* ================================================================== *)

Module NumberFacts.

Import Str Arr Model Rows Analytical ParseFacts TraceFacts GapFacts CountFacts.
Import LineNumberFacts IdFacts HeaderFacts WalkFacts.
Local Open Scope string_scope.
Local Open Scope list_scope.

(** [n] consecutive line numbers from [a] on. *)
Definition fromTo (a : Z) (n : nat) : list (option Z) :=
  map (fun k => Some (a + Z.of_nat k)%Z) (seq 0 n).

Definition leftNumbers (rs : list VisualRow) : list (option Z) :=
  map oldLineNumber (leftLines rs).
Definition rightNumbers (rs : list VisualRow) : list (option Z) :=
  map newLineNumber (rightLines rs).

(** The line carries an old line number and the text that the old
    file has at that line. *)
Definition Shown (so : list string) (l : DiffLine) : Prop :=
  exists n, oldLineNumber l = Some n /\ content l = lineAt so (n - 1).

Lemma fromTo_S a n : fromTo a (S n) = Some a :: fromTo (a + 1) n.
Proof.
  unfold fromTo. cbn [seq map]. rewrite Z.add_0_r. f_equal.
  rewrite <- seq_shift, map_map. apply map_ext. intro k. f_equal. lia.
Qed.

Lemma fromTo_app a n m :
  fromTo a n ++ fromTo (a + Z.of_nat n) m = fromTo a (n + m).
Proof.
  revert a. induction n as [|n IH]; intro a.
  - cbn [Nat.add]. unfold fromTo at 1. cbn [seq map app]. f_equal. cbn. lia.
  - cbn [Nat.add]. rewrite !fromTo_S. cbn [app]. f_equal.
    rewrite <- IH. do 2 f_equal. lia.
Qed.

Lemma fromTo_join a n b m k :
  b = (a + Z.of_nat n)%Z -> k = n + m -> fromTo a n ++ fromTo b m = fromTo a k.
Proof. intros -> ->. apply fromTo_app. Qed.

Lemma leftNumbers_app a b : leftNumbers (a ++ b) = leftNumbers a ++ leftNumbers b.
Proof. unfold leftNumbers, leftLines. now rewrite flat_map_app, map_app. Qed.

Lemma rightNumbers_app a b : rightNumbers (a ++ b) = rightNumbers a ++ rightNumbers b.
Proof. unfold rightNumbers, rightLines. now rewrite flat_map_app, map_app. Qed.

Lemma leftLines_app a b : leftLines (a ++ b) = leftLines a ++ leftLines b.
Proof. unfold leftLines. now rewrite flat_map_app. Qed.

(** The line numbers that the two cells of a row carry. *)
Definition leftNumber (r : VisualRow) : option Z :=
  match left r with LCell _ l => oldLineNumber l | LSpacer => None end.
Definition rightNumber (r : VisualRow) : option Z :=
  match right r with RCell _ l _ => newLineNumber l | RSpacer => None end.

(** The identifier that [pushGapLines] gives to a row with these
    numbers. *)
Definition fullId (o n : option Z) : option string :=
  match o, n with
  | Some o, Some n => Some (contextFullId o n)
  | Some o, None => Some (removedFullId o)
  | None, Some n => Some (addedFullId n)
  | None, None => None
  end.

(** The row is one of a hunk, or its identifier is made of its line
    numbers. *)
Definition Keyed (r : VisualRow) : Prop :=
  isFullId (rowId r) = false \/ fullId (leftNumber r) (rightNumber r) = Some (rowId r).

(** *** The rows of a gap *)

Section Gap.
Variables (so sn : list string) (os ns oc nc : Z).

Definition oldAt (off : nat) : list (option Z) :=
if (Z.of_nat off <? oc)%Z then [Some (os + Z.of_nat off)%Z] else [].
Definition newAt (off : nat) : list (option Z) :=
if (Z.of_nat off <? nc)%Z then [Some (ns + Z.of_nat off)%Z] else [].

Lemma gapTurn_cells st off :
exists rs,
  rows (gapTurn so sn os ns oc nc st off) = rows st ++ rs /\
  leftNumbers rs = oldAt off /\ rightNumbers rs = newAt off /\
  Forall (Shown so) (leftLines rs) /\ Forall Keyed rs.
Proof.
unfold gapTurn, oldAt, newAt.
destruct (Z.of_nat off <? oc)%Z, (Z.of_nat off <? nc)%Z; cbn [andb].
- eexists [_]. split; [reflexivity|]. repeat split.
  + constructor; [|constructor]. eexists. split; reflexivity.
  + constructor; [|constructor]. right. reflexivity.
- eexists [_]. split; [reflexivity|]. repeat split.
  + constructor; [|constructor]. eexists. split; reflexivity.
  + constructor; [|constructor]. right. reflexivity.
- eexists [_]. split; [reflexivity|]. repeat split.
  + constructor.
  + constructor; [|constructor]. right. reflexivity.
- exists []. rewrite app_nil_r. repeat split; constructor.
Qed.

Lemma gapFold_cells offs : forall st,
exists rs,
  rows (fold_left (gapTurn so sn os ns oc nc) offs st) = rows st ++ rs /\
  leftNumbers rs = flat_map oldAt offs /\ rightNumbers rs = flat_map newAt offs /\
  Forall (Shown so) (leftLines rs) /\ Forall Keyed rs.
Proof.
induction offs as [|off offs IH]; intro st; cbn [fold_left flat_map].
- exists []. rewrite app_nil_r. repeat split; constructor.
- destruct (gapTurn_cells st off) as (r1 & E1 & L1 & R1 & S1 & K1).
  destruct (IH (gapTurn so sn os ns oc nc st off)) as (r2 & E2 & L2 & R2 & S2 & K2).
  exists (r1 ++ r2). rewrite E2, E1, <- app_assoc.
  rewrite leftNumbers_app, rightNumbers_app, leftLines_app, L1, L2, R1, R2.
  repeat split; now apply Forall_app.
Qed.
End Gap.

Lemma flat_map_all {A B} (g : A -> list B) (f : A -> B) l :
  (forall x, In x l -> g x = [f x]) -> flat_map g l = map f l.
Proof.
  induction l as [|x l IH]; intro H; cbn [flat_map map]; [reflexivity|].
  rewrite (H x (or_introl eq_refl)), IH; [reflexivity|].
  intros y Hy. apply H. now right.
Qed.

Lemma flat_map_none {A B} (g : A -> list B) l :
  (forall x, In x l -> g x = []) -> flat_map g l = [].
Proof.
  induction l as [|x l IH]; intro H; cbn [flat_map]; [reflexivity|].
  rewrite (H x (or_introl eq_refl)), IH; [reflexivity|].
  intros y Hy. apply H. now right.
Qed.

(** The turns below the count give one number each, the others none. *)
Lemma flat_map_oldAt a c m :
  (0 <= c)%Z -> Z.to_nat c <= m ->
  flat_map (oldAt a c) (seq 0 m) = fromTo a (Z.to_nat c).
Proof.
  intros Hc Hm.
  replace m with (Z.to_nat c + (m - Z.to_nat c)) by lia.
  rewrite seq_app, flat_map_app. cbn [Nat.add].
  rewrite (flat_map_all (oldAt a c) (fun k => Some (a + Z.of_nat k)%Z)).
  - rewrite flat_map_none; [now rewrite app_nil_r|].
    intros k Hk. apply in_seq in Hk. unfold oldAt.
    replace (Z.of_nat k <? c)%Z with false; [reflexivity|].
    symmetry. apply Z.ltb_ge. lia.
  - intros k Hk. apply in_seq in Hk. unfold oldAt.
    replace (Z.of_nat k <? c)%Z with true; [reflexivity|].
    symmetry. apply Z.ltb_lt. lia.
Qed.

Lemma pushGapLines_cells so sn st oS oE nS nE :
  exists rs,
    rows (pushGapLines so sn st oS oE nS nE) = rows st ++ rs /\
    leftNumbers rs = fromTo oS (Z.to_nat (oE - oS + 1)) /\
    rightNumbers rs = fromTo nS (Z.to_nat (nE - nS + 1)) /\
    Forall (Shown so) (leftLines rs) /\ Forall Keyed rs.
Proof.
  unfold pushGapLines.
  destruct ((oE <? oS)%Z && (nE <? nS)%Z) eqn:E.
  - apply andb_true_iff in E. destruct E as [E1 E2]. apply Z.ltb_lt in E1, E2.
    exists []. rewrite app_nil_r.
    replace (Z.to_nat (oE - oS + 1)) with 0 by lia.
    replace (Z.to_nat (nE - nS + 1)) with 0 by lia.
    repeat split; constructor.
  - set (oc := Z.max 0 (oE - oS + 1)). set (nc := Z.max 0 (nE - nS + 1)).
    destruct (gapFold_cells so sn oS nS oc nc (seq 0 (Z.to_nat (Z.max oc nc))) st)
      as (rs & Er & L & R & S & K).
    exists rs. split; [exact Er|].
    rewrite L, R.
    change (flat_map (newAt nS nc)) with (flat_map (oldAt nS nc)).
    rewrite !flat_map_oldAt by (unfold oc, nc; lia).
    replace (Z.to_nat oc) with (Z.to_nat (oE - oS + 1)) by (unfold oc; lia).
    replace (Z.to_nat nc) with (Z.to_nat (nE - nS + 1)) by (unfold nc; lia).
    auto.
Qed.

(** *** The lines of a hunk *)

Lemma numbered_from h : forall ls pre,
  Numbered h -> lines h = pre ++ ls ->
  map oldLineNumber (filter onOldSide ls)
  = fromTo (oldStart h + countOld pre) (oldSide ls) /\
  map newLineNumber (filter onNewSide ls)
  = fromTo (newStart h + countNew pre) (newSide ls).
Proof.
  induction ls as [|l ls IH]; intros pre Hn E.
  - split; reflexivity.
  - assert (Hl : nth_error (lines h) (List.length pre) = Some l).
    { rewrite E, nth_error_app2 by lia. now rewrite Nat.sub_diag. }
    pose proof (Hn _ _ Hl) as N. unfold NumberedAt in N. cbv zeta in N.
    assert (Ef : firstn (List.length pre) (lines h) = pre).
    { rewrite E, firstn_app, Nat.sub_diag, firstn_all. cbn [firstn].
      apply app_nil_r. }
    rewrite Ef in N.
    destruct (IH (pre ++ [l]) Hn) as [I1 I2].
    { rewrite E, <- app_assoc. reflexivity. }
    rewrite countOld_snoc in I1. rewrite countNew_snoc in I2.
    unfold oldSide, newSide in *. cbn [filter].
    assert (Eo : onOldSide l = match type l with LAdded => false | _ => true end)
      by reflexivity.
    assert (En : onNewSide l = match type l with LRemoved => false | _ => true end)
      by reflexivity.
    destruct (type l); rewrite Eo, En in *; cbn [map List.length];
      rewrite ?fromTo_S, ?Z.add_0_r in *; rewrite I1, I2;
      destruct N as [N1 N2]; rewrite ?N1, ?N2; split;
      rewrite <- ?Z.add_assoc; reflexivity.
Qed.

Lemma numbered_hunk h :
  Numbered h ->
  map oldLineNumber (filter onOldSide (lines h)) = fromTo (oldStart h) (oldSide (lines h)) /\
  map newLineNumber (filter onNewSide (lines h)) = fromTo (newStart h) (newSide (lines h)).
Proof.
  intro Hn. destruct (numbered_from h (lines h) [] Hn eq_refl) as [H1 H2].
  unfold countOld, countNew in *. cbn [filter List.length Z.of_nat] in *.
  rewrite Z.add_0_r in *. auto.
Qed.

(** *** The loop over the hunks *)

(** With full contents: what is built before a hunk numbers, on each
    side, the lines before the hunk. *)
Definition NumberedUpto (lp : Loop) : Prop :=
  (1 <= nextOldLine lp)%Z /\ (1 <= nextNewLine lp)%Z /\
  leftNumbers (rows (state lp)) = fromTo 1 (Z.to_nat (nextOldLine lp - 1)) /\
  rightNumbers (rows (state lp)) = fromTo 1 (Z.to_nat (nextNewLine lp - 1)).

Lemma hunkTurn_NumberedUpto so sn lp k hunk :
  NumberedUpto lp -> Numbered hunk ->
  (nextOldLine lp <= oldStart hunk)%Z -> (nextNewLine lp <= newStart hunk)%Z ->
  oldLines hunk = Z.of_nat (oldSide (lines hunk)) ->
  newLines hunk = Z.of_nat (newSide (lines hunk)) ->
  NumberedUpto (hunkTurn true so sn lp k hunk).
Proof.
  intros (P1 & P2 & U1 & U2) Hn Ho Hnw Eo En. unfold NumberedUpto, hunkTurn.
  cbn [state nextOldLine nextNewLine gapBefore].
  destruct (pushGapLines_cells so sn (state lp) (nextOldLine lp) (oldStart hunk - 1)
              (nextNewLine lp) (newStart hunk - 1)) as (g & Eg & Lg & Rg & _).
  destruct (walkLines_Walked k 0 (lines hunk)
              (pushGapLines so sn (state lp) (nextOldLine lp) (oldStart hunk - 1)
                            (nextNewLine lp) (newStart hunk - 1)))
    as (w & Ew & Wl & Wr & _).
  destruct (numbered_hunk hunk Hn) as [N1 N2].
  rewrite Ew, Eg, !leftNumbers_app, !rightNumbers_app, U1, U2, Lg, Rg.
  unfold leftNumbers at 1, rightNumbers at 1. rewrite Wl, Wr, N1, N2.
  repeat split; try lia.
  - erewrite fromTo_join; [|lia|reflexivity]. apply fromTo_join; lia.
  - erewrite fromTo_join; [|lia|reflexivity]. apply fromTo_join; lia.
Qed.

Lemma forEachHunk_NumberedUpto so sn M N hs : forall k lp,
  NumberedUpto lp -> Forall Numbered hs ->
  WellFormed M N (nextOldLine lp) (nextNewLine lp) hs ->
  let lp' := forEachHunk true so sn k hs lp in
  NumberedUpto lp' /\ (nextOldLine lp' <= M + 1)%Z /\ (nextNewLine lp' <= N + 1)%Z.
Proof.
  induction hs as [|hunk hs IH]; intros k lp U Hn W; cbn [forEachHunk WellFormed] in *.
  - tauto.
  - destruct W as (Ho & Hnw & Eo & En & W). inversion Hn; subst.
    apply IH; [now apply hunkTurn_NumberedUpto|assumption|exact W].
Qed.

(** Without full contents the hunks must be empty for the files to be. *)
Lemma oldSideAll_flat hs :
  List.length (filter onOldSide (flat_map lines hs)) = oldSideAll hs /\
  List.length (filter onNewSide (flat_map lines hs)) = newSideAll hs.
Proof.
  induction hs as [|h hs [I1 I2]]; cbn [flat_map oldSideAll newSideAll]; [auto|].
  rewrite !filter_app, !length_app, I1, I2. auto.
Qed.

(** The numbers in the two gutters. *)
Lemma gutters file so sn :
  Forall Numbered (hunks file) ->
  WellFormed (Z.of_nat (List.length so)) (Z.of_nat (List.length sn)) 1 1 (hunks file) ->
  let rows := fst (buildVisualRows file (Some so) (Some sn)) in
  leftNumbers rows = fromTo 1 (List.length so) /\
  rightNumbers rows = fromTo 1 (List.length sn).
Proof.
  intros Hn W. cbv zeta. unfold buildVisualRows. cbn [fst].
  destruct (hasFullFiles (Some so) (Some sn)) eqn:Efull.
  - unfold buildRaw. rewrite Efull. cbn [orEmpty].
    assert (U0 : NumberedUpto initialLoop).
    { unfold NumberedUpto. cbn. repeat split; lia. }
    destruct (forEachHunk_NumberedUpto so sn _ _ (hunks file) 0 initialLoop U0 Hn W)
      as ((P1 & P2 & U1 & U2) & B1 & B2).
    set (lp := forEachHunk true so sn 0 (hunks file) initialLoop) in *.
    unfold gapAfter.
    destruct (pushGapLines_cells so sn (state lp)
                (nextOldLine lp) (Z.of_nat (List.length so))
                (nextNewLine lp) (Z.of_nat (List.length sn))) as (g & Eg & Lg & Rg & _).
    rewrite Eg, leftNumbers_app, rightNumbers_app, U1, U2, Lg, Rg.
    split; apply fromTo_join; lia.
  - destruct (buildRaw_Walked file (Some so) (Some sn) Efull) as (W1 & W2 & _).
    destruct so; [|discriminate]. destruct sn; [|discriminate].
    apply WellFormed_total in W. cbn [List.length Z.of_nat] in W.
    destruct (oldSideAll_flat (hunks file)) as [L1 L2].
    unfold leftNumbers, rightNumbers. rewrite W1, W2.
    destruct (filter onOldSide _); [|cbn [List.length] in L1; lia].
    destruct (filter onNewSide _); [|cbn [List.length] in L2; lia].
    split; reflexivity.
Qed.

(** *** The texts of the left column *)

Lemma walkLines_Shown so h i ls st :
  Forall (Shown so) (leftLines (rows st)) ->
  Forall (fun l => onOldSide l = true -> Shown so l) ls ->
  Forall (Shown so) (leftLines (rows (walkLines h i ls st))).
Proof.
  intros Hst Hls. destruct (walkLines_Walked h i ls st) as (rs & E & Wl & _).
  rewrite E, leftLines_app, Wl. apply Forall_app. split; [exact Hst|].
  rewrite Forall_forall in *. intros l Hl. apply filter_In in Hl.
  destruct Hl as [Hin Ho]. now apply Hls.
Qed.

Lemma forEachHunk_Shown so sn hs : forall k lp,
  Forall (Shown so) (leftLines (rows (state lp))) ->
  Forall (fun h => Forall (fun l => onOldSide l = true -> Shown so l) (lines h)) hs ->
  Forall (Shown so) (leftLines (rows (state (forEachHunk true so sn k hs lp)))).
Proof.
  induction hs as [|hunk hs IH]; intros k lp Hst Hh; cbn [forEachHunk]; [exact Hst|].
  inversion Hh; subst. apply IH; [|assumption].
  unfold hunkTurn. cbn [state gapBefore]. apply walkLines_Shown; [|assumption].
  destruct (pushGapLines_cells so sn (state lp) (nextOldLine lp) (oldStart hunk - 1)
              (nextNewLine lp) (newStart hunk - 1)) as (g & Eg & _ & _ & Sg & _).
  rewrite Eg, leftLines_app. apply Forall_app. auto.
Qed.

Lemma left_Shown file so sn :
  Forall (fun h => Forall (fun l => onOldSide l = true -> Shown so l) (lines h))
         (hunks file) ->
  hasFullFiles (Some so) (Some sn) = true ->
  Forall (Shown so) (leftLines (fst (buildVisualRows file (Some so) (Some sn)))).
Proof.
  intros Hh Efull. unfold buildVisualRows. cbn [fst]. unfold buildRaw.
  rewrite Efull. cbn [orEmpty]. unfold gapAfter.
  set (lp := forEachHunk true so sn 0 (hunks file) initialLoop).
  destruct (pushGapLines_cells so sn (state lp)
              (nextOldLine lp) (Z.of_nat (List.length so))
              (nextNewLine lp) (Z.of_nat (List.length sn))) as (g & Eg & _ & _ & Sg & _).
  rewrite Eg, leftLines_app. apply Forall_app. split; [|exact Sg].
  apply forEachHunk_Shown; [constructor|exact Hh].
Qed.

Lemma lineAt_all (so : list string) :
  map (fun k => lineAt so (Z.of_nat k)) (seq 0 (List.length so)) = so.
Proof.
  induction so as [|s so IH]; [reflexivity|].
  cbn [List.length seq map]. f_equal.
  rewrite <- seq_shift, map_map. rewrite <- IH at 2.
  apply map_ext. intro k. unfold lineAt.
  replace (Z.of_nat (S k) <? 0)%Z with false by (symmetry; apply Z.ltb_ge; lia).
  replace (Z.of_nat k <? 0)%Z with false by (symmetry; apply Z.ltb_ge; lia).
  rewrite !Nat2Z.id. reflexivity.
Qed.

Lemma shown_texts so : forall ls a n,
  map oldLineNumber ls = fromTo a n -> Forall (Shown so) ls ->
  map content ls = map (fun k => lineAt so (a + Z.of_nat k - 1)) (seq 0 n).
Proof.
  induction ls as [|l ls IH]; intros a n E S.
  - destruct n; [reflexivity|]. rewrite fromTo_S in E. discriminate E.
  - destruct n; [discriminate E|]. rewrite fromTo_S in E. cbn [map] in E.
    injection E as E1 E2. inversion S as [|? ? (m & Hm & Hc) S']; subst.
    cbn [map seq]. rewrite Hc. rewrite E1 in Hm. injection Hm as <-.
    rewrite Z.add_0_r. f_equal.
    rewrite (IH _ _ E2 S'), <- seq_shift, map_map.
    apply map_ext. intro k. f_equal. lia.
Qed.

(** *** Identifiers with full contents *)

Lemma Some_eq {A} (a b : A) : Some a = Some b -> a = b.
Proof. congruence. Qed.

Lemma fullId_full o n id : fullId o n = Some id -> isFullId id = true.
Proof.
  unfold fullId, isFullId.
  destruct o as [o|], n as [n|]; intro H; try discriminate H;
    apply Some_eq in H; subst id;
    unfold contextFullId, removedFullId, addedFullId.
  - now rewrite (startsWith_append "context-full-").
  - rewrite (startsWith_append "removed-full-"), orb_true_r. reflexivity.
  - rewrite (startsWith_append "added-full-"). apply orb_true_r.
Qed.

Definition nonneg (x : option Z) : Prop :=
  match x with Some z => (0 <= z)%Z | None => True end.

Lemma dec_allDigits z : (0 <= z)%Z -> allDigits (dec z) = true.
Proof.
  intro H. rewrite <- (Z2Nat.id z H).
  change (dec (Z.of_nat (Z.to_nat z))) with (natDec (Z.to_nat z)).
  apply natDec_allDigits.
Qed.

(** Rows of gaps with the same identifier carry the same numbers. *)
Lemma fullId_inj o n o' n' id :
  nonneg o -> nonneg o' ->
  fullId o n = Some id -> fullId o' n' = Some id -> o = o' /\ n = n'.
Proof.
  unfold fullId.
  destruct o as [o|], n as [n|], o' as [o'|], n' as [n'|]; cbn [nonneg];
    intros Ho Ho' H H'; try discriminate H; try discriminate H';
    apply Some_eq in H; subst id; apply Some_eq in H'; rename H' into E;
    unfold contextFullId, removedFullId, addedFullId in E;
    try (cbn [append] in E; discriminate E).
  - apply append_cancel in E. apply dash_split in E; try now apply dec_allDigits.
    destruct E as [E1 E2]. apply dec_inj in E1, E2. now subst.
  - apply append_cancel in E. apply dec_inj in E. now subst.
  - apply append_cancel in E. apply dec_inj in E. now subst.
Qed.

Lemma leftNumbers_cons r rs :
  leftNumbers (r :: rs) = map oldLineNumber (leftLine r) ++ leftNumbers rs.
Proof. unfold leftNumbers, leftLines. cbn [flat_map]. now rewrite map_app. Qed.

Lemma rightNumbers_cons r rs :
  rightNumbers (r :: rs) = map newLineNumber (rightLine r) ++ rightNumbers rs.
Proof. unfold rightNumbers, rightLines. cbn [flat_map]. now rewrite map_app. Qed.

Lemma leftNumber_head r o :
  leftNumber r = Some o -> map oldLineNumber (leftLine r) = [Some o].
Proof.
  unfold leftNumber, leftLine. destruct (left r); [intro H; cbn [map]; now rewrite H|discriminate].
Qed.

Lemma rightNumber_head r n :
  rightNumber r = Some n -> map newLineNumber (rightLine r) = [Some n].
Proof.
  unfold rightNumber, rightLine.
  destruct (right r); [intro H; cbn [map]; now rewrite H|discriminate].
Qed.

Lemma leftNumber_In r rs o :
  In r rs -> leftNumber r = Some o -> In (Some o) (leftNumbers rs).
Proof.
  intros Hin Ho. induction rs as [|x rs IH]; [contradiction|].
  rewrite leftNumbers_cons. apply in_or_app. destruct Hin as [->|Hin].
  - left. rewrite (leftNumber_head r o Ho). now left.
  - right. auto.
Qed.

Lemma rightNumber_In r rs n :
  In r rs -> rightNumber r = Some n -> In (Some n) (rightNumbers rs).
Proof.
  intros Hin Hn. induction rs as [|x rs IH]; [contradiction|].
  rewrite rightNumbers_cons. apply in_or_app. destruct Hin as [->|Hin].
  - left. rewrite (rightNumber_head r n Hn). now left.
  - right. auto.
Qed.

(** The row comes from the walk of a hunk. *)
Definition hunkRow (r : VisualRow) : bool := negb (isFullId (rowId r)).

(** Rows of hunks with distinct identifiers, and rows of gaps whose
    numbers do not repeat on either side: no identifier repeats. *)
Lemma ids_distinct rs :
  Forall Keyed rs ->
  NoDup (leftNumbers rs) -> NoDup (rightNumbers rs) ->
  (forall o, In (Some o) (leftNumbers rs) -> (0 <= o)%Z) ->
  NoDup (map rowId (filter hunkRow rs)) ->
  NoDup (map rowId rs).
Proof.
  induction rs as [|r rs IH]; intros K Ln Rn Pos Hd; [constructor|].
  inversion K as [|? ? Kr Krs]; subst.
  rewrite leftNumbers_cons in Ln, Pos. rewrite rightNumbers_cons in Rn.
  cbn [map]. constructor.
  - intro Hin. apply in_map_iff in Hin. destruct Hin as (r' & Eid & Hr').
    destruct Kr as [Kr|Kr].
    + cbn [filter] in Hd. unfold hunkRow at 1 in Hd. rewrite Kr in Hd.
      cbn [negb map] in Hd. inversion Hd as [|? ? Hnot _]; subst. apply Hnot.
      apply in_map_iff. exists r'. split; [exact Eid|].
      apply filter_In. split; [exact Hr'|]. unfold hunkRow. now rewrite Eid, Kr.
    + pose proof (fullId_full _ _ _ Kr) as Fr.
      rewrite Forall_forall in Krs. destruct (Krs r' Hr') as [K'|K'].
      { rewrite Eid, Fr in K'. discriminate. }
      rewrite Eid in K'.
      assert (N1 : nonneg (leftNumber r)).
      { destruct (leftNumber r) as [z|] eqn:E; cbn [nonneg]; [|exact I].
        apply Pos. apply in_or_app. left. rewrite (leftNumber_head r z E). now left. }
      assert (N2 : nonneg (leftNumber r')).
      { destruct (leftNumber r') as [z|] eqn:E; cbn [nonneg]; [|exact I].
        apply Pos. apply in_or_app. right. eapply leftNumber_In; eauto. }
      destruct (fullId_inj _ _ _ _ _ N1 N2 Kr K') as [E1 E2].
      destruct (leftNumber r) as [o|] eqn:El.
      * rewrite (leftNumber_head r o El) in Ln. cbn [app] in Ln.
        inversion Ln as [|? ? Hnot _]; subst. apply Hnot.
        eapply leftNumber_In; eauto.
      * destruct (rightNumber r) as [n|] eqn:Er; [|discriminate Kr].
        rewrite (rightNumber_head r n Er) in Rn. cbn [app] in Rn.
        inversion Rn as [|? ? Hnot _]; subst. apply Hnot.
        eapply rightNumber_In; eauto.
  - apply IH; auto.
    + eapply NoDup_app_remove_l; eauto.
    + eapply NoDup_app_remove_l; eauto.
    + intros o Ho. apply Pos. apply in_or_app. now right.
    + cbn [filter] in Hd. destruct (hunkRow r); [|exact Hd].
      cbn [map] in Hd. now inversion Hd.
Qed.

Lemma fromTo_In a n x : In (Some x) (fromTo a n) -> (a <= x)%Z.
Proof.
  unfold fromTo. intro H. apply in_map_iff in H. destruct H as (k & E & _).
  injection E as <-. lia.
Qed.

Lemma fromTo_NoDup n : forall a, NoDup (fromTo a n).
Proof.
  induction n as [|n IH]; intro a; [constructor|].
  rewrite fromTo_S. constructor; [|apply IH].
  intro H. apply fromTo_In in H. lia.
Qed.

(** The rows of hunks, in the run of events of a build. *)
Definition hunkEv (e : Ev) : bool :=
  match evTag e with TGap => false | THunk _ _ => true end.

Lemma Between_filter evs : forall lo hi,
  Between lo hi evs -> Between lo hi (filter hunkEv evs).
Proof.
  induction evs as [|e evs IH]; intros lo hi H; cbn [filter Between] in *; [exact H|].
  unfold hunkEv at 1. destruct (evTag e) as [|h i] eqn:Te.
  - auto.
  - cbn [Between]. rewrite Te. destruct H. split; auto.
Qed.

Lemma hunk_id_not_full e h i :
  EvOK e -> evTag e = THunk h i -> isFullId (rowId (evRow e)) = false.
Proof.
  intros H Ht. destruct H as [| | |h0 i0 ?|h0 i0 ? ?|h0 i0 ? ?|h0 i0 ? ?];
    try discriminate Ht; cbn [evRow rowId];
    destruct (hunk_ids_not_full h0 i0) as (? & ? & ? & ?); assumption.
Qed.

Lemma filter_hunk_rows evs :
  Forall EvOK evs -> filter hunkRow (evRows evs) = evRows (filter hunkEv evs).
Proof.
  induction 1 as [|e evs He _ IH]; [reflexivity|].
  cbn [evRows map filter]. fold (evRows evs). rewrite IH.
  assert (E : hunkRow (evRow e) = hunkEv e).
  { unfold hunkRow, hunkEv. destruct (evTag e) as [|h i] eqn:Te.
    - now rewrite (gap_id_full e He Te).
    - now rewrite (hunk_id_not_full e h i He Te). }
  rewrite E. destruct (hunkEv e); reflexivity.
Qed.

Lemma hunk_rows_NoDup file o n :
  NoDup (map rowId (filter hunkRow (rows (buildRaw file o n)))).
Proof.
  destruct (buildRaw_Trace file o n) as (evs & Er & _ & Hok & Hb).
  rewrite Er, (filter_hunk_rows evs Hok).
  eapply hunk_rows_distinct.
  - apply Forall_forall. intros e He. apply filter_In in He.
    rewrite Forall_forall in Hok. apply Hok, He.
  - apply Between_filter. exact Hb.
  - apply Forall_forall. intros e He. apply filter_In in He. destruct He as [_ He].
    unfold hunkEv in He. destruct (evTag e); [discriminate He|discriminate].
Qed.

Lemma forEachHunk_Keyed full so sn hs : forall k lp,
  Forall Keyed (rows (state lp)) ->
  Forall Keyed (rows (state (forEachHunk full so sn k hs lp))).
Proof.
  induction hs as [|hunk hs IH]; intros k lp K; cbn [forEachHunk]; [exact K|].
  apply IH. unfold hunkTurn. cbn [state].
  destruct (walkLines_Walked k 0 (lines hunk) (gapBefore full so sn lp hunk))
    as (w & Ew & _ & _ & Wf).
  rewrite Ew. apply Forall_app. split.
  - unfold gapBefore. destruct full; [|exact K].
    destruct (pushGapLines_cells so sn (state lp) (nextOldLine lp) (oldStart hunk - 1)
                (nextNewLine lp) (newStart hunk - 1)) as (g & Eg & _ & _ & _ & Kg).
    rewrite Eg. apply Forall_app. auto.
  - eapply Forall_impl; [|exact Wf]. intros r Hr. now left.
Qed.

Lemma buildRaw_Keyed file o n : Forall Keyed (rows (buildRaw file o n)).
Proof.
  unfold buildRaw.
  set (lp := forEachHunk _ _ _ 0 (hunks file) initialLoop).
  assert (K : Forall Keyed (rows (state lp))).
  { apply forEachHunk_Keyed. constructor. }
  unfold gapAfter. destruct (hasFullFiles o n); [|exact K].
  destruct (pushGapLines_cells (orEmpty o) (orEmpty n) (state lp)
              (nextOldLine lp) (Z.of_nat (List.length (orEmpty o)))
              (nextNewLine lp) (Z.of_nat (List.length (orEmpty n))))
    as (g & Eg & _ & _ & _ & Kg).
  rewrite Eg. apply Forall_app. auto.
Qed.

Lemma rows_distinct_with_full file so sn :
  Forall Numbered (hunks file) ->
  WellFormed (Z.of_nat (List.length so)) (Z.of_nat (List.length sn)) 1 1 (hunks file) ->
  NoDup (map rowId (rows (buildRaw file (Some so) (Some sn)))).
Proof.
  intros Hn W. destruct (gutters file so sn Hn W) as [G1 G2].
  cbv zeta in G1, G2. cbn [buildVisualRows fst] in G1, G2.
  apply ids_distinct.
  - apply buildRaw_Keyed.
  - rewrite G1. apply fromTo_NoDup.
  - rewrite G2. apply fromTo_NoDup.
  - intros o Ho. rewrite G1 in Ho. apply fromTo_In in Ho. lia.
  - apply hunk_rows_NoDup.
Qed.

End NumberFacts.

Section FullContents.

Import Str Arr Model Normalize Parse Rows Analytical ParseFacts CountFacts LineNumberFacts.
Import TraceFacts SimFacts AgreeFacts WalkFacts NumberFacts.
Local Open Scope string_scope.
Local Open Scope list_scope.

(** For a file that [parseUnifiedDiff] returns, shown with full
    contents that its hunks fit (they follow one another from line 1
    on within the two files, and each counts the lines it holds on each
    side): from top to bottom, the left cells of [buildVisualRows]
    carry the old line numbers 1, 2, ... up to the length of the old
    file, and the right cells the new line numbers 1, 2, ... up to
    the length of the new file. No line number is skipped, repeated or
    out of order. *)
Theorem gutters_number_every_line
        (rawDiff : string) (file : DiffFile) (oldFileLines newFileLines : list string) :
  In file (files (parseUnifiedDiff rawDiff)) ->
  WellFormed (Z.of_nat (List.length oldFileLines))
             (Z.of_nat (List.length newFileLines)) 1 1 (hunks file) ->
  let rows := fst (buildVisualRows file (Some oldFileLines) (Some newFileLines)) in
  map oldLineNumber (leftLines rows) = fromTo 1 (List.length oldFileLines) /\
  map newLineNumber (rightLines rows) = fromTo 1 (List.length newFileLines).
Proof.
  intros Hf W.
  apply (gutters file oldFileLines newFileLines); [|exact W].
  apply Forall_forall. intros h Hh. exact (parse_Numbered rawDiff file h Hf Hh).
Qed.

Definition replacedDiff : string :=
  "diff --git a/a.txt b/a.txt" ++ nl ++
  "@@ -1,2 +1,3 @@" ++ nl ++
  "-hello" ++ nl ++
  "+hello world" ++ nl ++
  "+again" ++ nl ++
  " keep".

Lemma gutters_number_every_line_witness :
  map oldLineNumber
      (leftLines (fst (buildVisualRows replacedFile
                         (Some ["hello"; "keep"; "tail"])
                         (Some ["hello world"; "again"; "keep"; "tail"]))))
  = fromTo 1 3 /\
  map newLineNumber
      (rightLines (fst (buildVisualRows replacedFile
                          (Some ["hello"; "keep"; "tail"])
                          (Some ["hello world"; "again"; "keep"; "tail"]))))
  = fromTo 1 4.
Proof.
  apply (gutters_number_every_line replacedDiff replacedFile
           ["hello"; "keep"; "tail"] ["hello world"; "again"; "keep"; "tail"]).
  - vm_compute. left. reflexivity.
  - cbn. lia.
Defined.

(** Under the same conditions, when moreover every context or removed
    line of the hunks has the text that the old file has at its line
    number, the texts of the left cells of [buildVisualRows], read from
    top to bottom, are the old file, line for line. *)
Theorem left_column_is_the_old_file
        (rawDiff : string) (file : DiffFile) (oldFileLines newFileLines : list string) :
  In file (files (parseUnifiedDiff rawDiff)) ->
  WellFormed (Z.of_nat (List.length oldFileLines))
             (Z.of_nat (List.length newFileLines)) 1 1 (hunks file) ->
  (forall h l n, In h (hunks file) -> In l (lines h) ->
                 oldLineNumber l = Some n ->
                 content l = lineAt oldFileLines (n - 1)) ->
  map content (leftLines (fst (buildVisualRows file (Some oldFileLines)
                                               (Some newFileLines))))
  = oldFileLines.
Proof.
  intros Hf W Hc.
  assert (Hn : Forall Numbered (hunks file)).
  { apply Forall_forall. intros h Hh. exact (parse_Numbered rawDiff file h Hf Hh). }
  destruct (gutters file oldFileLines newFileLines Hn W) as [G _]. cbv zeta in G.
  destruct (hasFullFiles (Some oldFileLines) (Some newFileLines)) eqn:Efull.
  - rewrite (shown_texts oldFileLines _ 1 (List.length oldFileLines) G).
    + etransitivity; [|apply lineAt_all].
      apply map_ext. intro k. f_equal. lia.
    + apply left_Shown; [|exact Efull].
      apply Forall_forall. intros h Hh. apply Forall_forall. intros l Hl Ho.
      rewrite Forall_forall in Hn. pose proof (Hn h Hh) as Nh.
      destruct (In_nth_error _ _ Hl) as (i & Hi).
      pose proof (Nh i l Hi) as N. unfold NumberedAt in N. cbv zeta in N.
      unfold onOldSide in Ho.
      destruct (type l); [destruct N as [N _]| discriminate Ho |destruct N as [N _]];
        eexists; (split; [exact N|]); eapply Hc; eauto.
  - destruct oldFileLines; [|discriminate].
    unfold leftNumbers in G. cbn [List.length] in G.
    destruct (leftLines _); [reflexivity|discriminate G].
Qed.

Lemma left_column_is_the_old_file_witness :
  map content
      (leftLines (fst (buildVisualRows replacedFile
                         (Some ["hello"; "keep"; "tail"])
                         (Some ["hello world"; "again"; "keep"; "tail"]))))
  = ["hello"; "keep"; "tail"].
Proof.
  apply (left_column_is_the_old_file replacedDiff replacedFile
           ["hello"; "keep"; "tail"] ["hello world"; "again"; "keep"; "tail"]).
  - vm_compute. left. reflexivity.
  - cbn. lia.
  - intros h l n [<-|[]] Hl E. cbn in Hl.
    destruct Hl as [<-|[<-|[<-|[<-|[]]]]]; cbn in E; inversion E; reflexivity.
Defined.

(** Under the same conditions the identifiers of the rows of
    [buildVisualRows] are pairwise distinct, so the lookups by
    identifier find the row that was meant, and the grouped connectors
    of [buildVisualRows] and of [buildColumns] are the same list. *)
Theorem fitting_contents_builders_agree
        (rawDiff : string) (file : DiffFile) (oldFileLines newFileLines : list string) :
  In file (files (parseUnifiedDiff rawDiff)) ->
  WellFormed (Z.of_nat (List.length oldFileLines))
             (Z.of_nat (List.length newFileLines)) 1 1 (hunks file) ->
  NoDup (map rowId (fst (buildVisualRows file (Some oldFileLines) (Some newFileLines)))) /\
  snd (buildVisualRows file (Some oldFileLines) (Some newFileLines))
  = Measured.colConnectors
      (Measured.buildColumns file (Some oldFileLines) (Some newFileLines)).
Proof.
  intros Hf W.
  assert (Hn : Forall Numbered (hunks file)).
  { apply Forall_forall. intros h Hh. exact (parse_Numbered rawDiff file h Hf Hh). }
  cbn [buildVisualRows fst snd Measured.buildColumns Measured.colConnectors].
  pose proof (rows_distinct_with_full file oldFileLines newFileLines Hn W) as Hd.
  split; [exact Hd|].
  destruct (Sim_buildRaw file (Some oldFileLines) (Some newFileLines))
    as (Sl & Sr & Sc & _ & _).
  rewrite Sc.
  destruct (buildRaw_Trace file (Some oldFileLines) (Some newFileLines))
    as (evs & Er & Ec & Hok & _).
  rewrite Er in *. rewrite Ec.
  apply groupings_agree; assumption.
Qed.

Lemma fitting_contents_builders_agree_witness :
  NoDup (map rowId
             (fst (buildVisualRows replacedFile
                     (Some ["hello"; "keep"; "tail"])
                     (Some ["hello world"; "again"; "keep"; "tail"])))) /\
  snd (buildVisualRows replacedFile
         (Some ["hello"; "keep"; "tail"])
         (Some ["hello world"; "again"; "keep"; "tail"]))
  = Measured.colConnectors
      (Measured.buildColumns replacedFile
         (Some ["hello"; "keep"; "tail"])
         (Some ["hello world"; "again"; "keep"; "tail"])).
Proof.
  apply (fitting_contents_builders_agree replacedDiff replacedFile
           ["hello"; "keep"; "tail"] ["hello world"; "again"; "keep"; "tail"]).
  - vm_compute. left. reflexivity.
  - cbn. lia.
Defined.

End FullContents.
